(** * microcbor: a shallow embedding of the decoders and of [getByteLength]

    The development follows the TypeScript sources:
    - [Utils]        : utils.ts   ([maxSafeInteger], [UnsafeIntegerError], [getByteLength]);
    - [Decoder]      : Decoder.ts (the in-memory decoder and [decode]);
    - [StreamDecoder]: decodeIterable.ts and decodeAsyncIterable.ts (the chunk
      rope, [allocate], [advance], [next], and the same item state machine).

    Host numbers are modelled in [Z] (exact below 2^53) extended with
    [Infinity]; bytes are [Byte.byte]; host strings are lists of UTF-16 code
    units; thrown exceptions are the [Throw] result.  An object is the list
    of its own properties in insertion order; the memory limits of the host
    (the largest typed array it can allocate) are left out. *)

From Stdlib Require Import ZArith List Bool Lia String Ascii.
From Stdlib.Strings Require Import Byte.
Import ListNotations.
Local Open Scope Z_scope.
Set Warnings "-register-all".

(** ** Results of fallible computations *)

Inductive JsError : Type :=
| RangeError                                  (* DataView / typed-array / Array range checks *)
| TypeError (message : string)
| Error (message : string)
| UnsafeIntegerError (message : string) (value : Z)
| HookError.                                  (* an exception thrown by a user hook *)

Inductive Res (A : Type) : Type :=
| Ok (a : A)
| Throw (e : JsError)
| OutOfFuel.
Arguments Ok {A} a.
Arguments Throw {A} e.
Arguments OutOfFuel {A}.

(** Host strings: sequences of UTF-16 code units. *)
Definition jsstring : Type := list Z.

Definition str (s : string) : jsstring :=
  map (fun a => Z.of_N (N_of_ascii a)) (list_ascii_of_string s).

Fixpoint jsstring_eqb (a b : jsstring) : bool :=
  match a, b with
  | [], [] => true
  | x :: a', y :: b' => (x =? y) && jsstring_eqb a' b'
  | _, _ => false
  end.

(** Host numbers as far as the decoders use them: integers and [Infinity]. *)
Inductive jsnum : Type :=
| Fin (z : Z)
| Infinity.

Definition jsnum_add (a b : jsnum) : jsnum :=
  match a, b with
  | Fin x, Fin y => Fin (x + y)
  | _, _ => Infinity
  end.

(** [i < n] for a finite loop counter [i]. *)
Definition lt_jsnum (i : Z) (n : jsnum) : bool :=
  match n with
  | Fin z => i <? z
  | Infinity => true
  end.

Definition jsnum_double (n : jsnum) : jsnum :=
  match n with
  | Fin z => Fin (z * 2)
  | Infinity => Infinity
  end.

Module Utils.

(** [Number.MAX_SAFE_INTEGER] and [Number.MIN_SAFE_INTEGER] as big integers. *)
Definition maxSafeInteger : Z := 9007199254740991.
Definition minSafeInteger : Z := -9007199254740991.

(** The tail of the loop body of [getByteLength]: the "encode utf8" step. *)
Definition utf8_width (codePoint : Z) : Res Z :=
  if codePoint <? 0x80 then Ok 1
  else if codePoint <? 0x800 then Ok 2
  else if codePoint <? 0x10000 then Ok 3
  else if codePoint <? 0x110000 then Ok 4
  else Throw (Error "Invalid code point").

(** The [for] loop of [getByteLength]; the list is the part of the string from
    index [i] on, so [rest = []] is the test [i + 1 === length]. *)
Fixpoint getByteLength_loop (s : jsstring) (leadSurrogate : option Z) (bytes : Z)
  : Res Z :=
  match s with
  | [] => Ok bytes
  | codePoint :: rest =>
    if (0xd7ff <? codePoint) && (codePoint <? 0xe000) then
      match leadSurrogate with
      | None =>
        if 0xdbff <? codePoint then getByteLength_loop rest None (bytes + 3)
        else match rest with
             | [] => getByteLength_loop rest None (bytes + 3)
             | _ :: _ => getByteLength_loop rest (Some codePoint) bytes
             end
      | Some lead =>
        if codePoint <? 0xdc00 then
          getByteLength_loop rest (Some codePoint) (bytes + 3)
        else
          let codePoint :=
            Z.lor (Z.shiftl (lead - 0xd800) 10) (codePoint - 0xdc00) + 0x10000 in
          match utf8_width codePoint with
          | Ok w => getByteLength_loop rest None (bytes + w)
          | Throw e => Throw e
          | OutOfFuel => OutOfFuel
          end
      end
    else
      let bytes := match leadSurrogate with Some _ => bytes + 3 | None => bytes end in
      match utf8_width codePoint with
      | Ok w => getByteLength_loop rest None (bytes + w)
      | Throw e => Throw e
      | OutOfFuel => OutOfFuel
      end
  end.

Definition getByteLength (string : jsstring) : Res Z :=
  getByteLength_loop string None 0.

(** The byte length of the UTF-8 encoding under the surrogate convention, as
    the specification words it: an unpaired surrogate code unit counts 3 bytes,
    a lead followed by a trail counts 4, any other code unit counts 1, 2 or 3
    bytes by its value. *)
Definition is_lead (c : Z) : bool := (0xd800 <=? c) && (c <=? 0xdbff).
Definition is_trail (c : Z) : bool := (0xdc00 <=? c) && (c <=? 0xdfff).

Definition bmp_width (c : Z) : Z :=
  if c <? 0x80 then 1 else if c <? 0x800 then 2 else 3.

Fixpoint utf8_length_spec (s : jsstring) : Z :=
  match s with
  | [] => 0
  | c :: rest =>
    if is_lead c then
      match rest with
      | t :: rest' =>
        if is_trail t then 4 + utf8_length_spec rest' else 3 + utf8_length_spec rest
      | [] => 3
      end
    else if is_trail c then 3 + utf8_length_spec rest
    else bmp_width c + utf8_length_spec rest
  end.

End Utils.

(** ** Values, key paths, hooks (types.ts, options.ts) *)

Inductive FloatSize : Type := f16 | f32 | f64.

(** A decoded value.  A number read from an integer item is [VInteger]; a
    number read from a float item is kept as its width and bit pattern (the
    IEEE conversion of [DataView] and of [getFloat16] is not unfolded);
    [VInfinity] is the host number [Infinity] ([negative = true]: [-Infinity]).
    An object is its own properties in insertion order. *)
Inductive CBORValue : Type :=
| VUndefined
| VNull
| VBoolean (b : bool)
| VInteger (z : Z)
| VInfinity (negative : bool)
| VFloat (size : FloatSize) (bits : Z)
| VUint8Array (bytes : list byte)
| VString (s : jsstring)
| VArray (items : list CBORValue)
| VObject (props : list (jsstring * CBORValue)).

Definition is_undefined (v : CBORValue) : bool :=
  match v with VUndefined => true | _ => false end.

Inductive Key : Type :=
| KString (s : jsstring)
| KIndex (i : Z).

(** A hook is a host function that receives the decode thunk.  What it can do
    with it is call it (any number of times, each time continuing with the
    value the call returned), return a value ([VUndefined] is the "nothing"
    of the source), or throw.  A hook sees the key path as it is when the
    hook is called; a hook that catches an exception of its thunk, or that
    keeps the thunk and calls it after it has returned, is outside this type. *)
Inductive Hook : Type :=
| Return (val : CBORValue)
| CallDecode (k : CBORValue -> Hook)
| Raise.

Definition OnKey : Type := jsnum -> Hook.
Definition OnValue : Type := jsnum -> string -> list Key -> Hook.

Record DecodeOptions : Type := {
  allowUndefined : bool;
  minFloatSize : Z;
  onKey : option OnKey;
  onValue : option OnValue;
  (** [new TextDecoder()]: the host's UTF-8 decoder, a field of each decoder. *)
  decoder : list byte -> jsstring
}.

(** [{}] inherits these property names from [Object.prototype]; the [in]
    operator sees them. *)
Definition objectPrototypeKeys : list jsstring :=
  map str ["constructor"; "__defineGetter__"; "__defineSetter__";
           "hasOwnProperty"; "__lookupGetter__"; "__lookupSetter__";
           "isPrototypeOf"; "propertyIsEnumerable"; "toString"; "valueOf";
           "__proto__"; "toLocaleString"]%string.

Definition has_own (key : jsstring) (props : list (jsstring * CBORValue)) : bool :=
  existsb (fun kv => jsstring_eqb key (fst kv)) props.

(** [key in value] for an object created by [{}]. *)
Definition key_in (key : jsstring) (props : list (jsstring * CBORValue)) : bool :=
  has_own key props || existsb (jsstring_eqb key) objectPrototypeKeys.

Fixpoint replace_own (key : jsstring) (v : CBORValue)
  (props : list (jsstring * CBORValue)) : list (jsstring * CBORValue) :=
  match props with
  | [] => []
  | (k, w) :: rest =>
    if jsstring_eqb key k then (k, v) :: rest else (k, w) :: replace_own key v rest
  end.

(** [value[key] = v] on an object created by [{}]: an existing own property is
    overwritten in place, a new one is appended; ["__proto__"] reaches the
    inherited setter and creates no own property. *)
Definition obj_set (key : jsstring) (v : CBORValue)
  (props : list (jsstring * CBORValue)) : list (jsstring * CBORValue) :=
  if jsstring_eqb key (str "__proto__") then props
  else if has_own key props then replace_own key v props
  else props ++ [(key, v)].

(** ** Bytes *)

Definition b2z (b : byte) : Z := Z.of_N (Byte.to_N b).

(** Big-endian value of a byte sequence ([DataView.getUintN]). *)
Definition be_value (bs : list byte) : Z :=
  fold_left (fun acc b => acc * 256 + b2z b) bs 0.

Definition len {A} (l : list A) : Z := Z.of_nat (List.length l).

(** [l.subarray(start, start + n)], clamped to the array like the host does. *)
Definition subarray {A} (l : list A) (start n : Z) : list A :=
  firstn (Z.to_nat n) (skipn (Z.to_nat start) l).

(** ** State and exception monad *)

Definition M (S A : Type) : Type := S -> Res (A * S).

Definition ret {S A} (a : A) : M S A := fun s => Ok (a, s).
Definition throw {S A} (e : JsError) : M S A := fun _ => Throw e.
Definition out_of_fuel {S A} : M S A := fun _ => OutOfFuel.
Definition bind {S A B} (m : M S A) (f : A -> M S B) : M S B :=
  fun s => match m s with
           | Ok (a, s') => f a s'
           | Throw e => Throw e
           | OutOfFuel => OutOfFuel
           end.
Definition get {S} : M S S := fun s => Ok (s, s).
Definition modify {S} (f : S -> S) : M S unit := fun s => Ok (tt, f s).

Declare Scope jsm_scope.
Delimit Scope jsm_scope with jsm.
Notation "x <- m ;; k" := (bind m (fun x => k))
  (at level 100, m at next level, right associativity) : jsm_scope.
Notation "' p <- m ;; k" := (bind m (fun p => k))
  (at level 100, p pattern, m at next level, right associativity) : jsm_scope.
Notation "m ;;; k" := (bind m (fun _ => k))
  (at level 100, right associativity) : jsm_scope.
Local Open Scope jsm_scope.

(** The memo variable [value] of a [callback] closure: [None] is
    [undefined]. [memoized body] is the closure
    [() => value = (value === undefined ? body() : value)]. *)
Definition memoized {S} (body : M S CBORValue) (value : option CBORValue)
  : M S (CBORValue * option CBORValue) :=
  match value with
  | Some v => ret (v, value)
  | None => v <- body ;; ret (v, Some v)
  end.

(** Running a hook against the closure; returns what the hook returned and the
    memo variable as the hook left it. *)
Fixpoint run_hook {S} (body : M S CBORValue) (h : Hook) (value : option CBORValue)
  : M S (CBORValue * option CBORValue) :=
  match h with
  | Return val => ret (val, value)
  | Raise => throw HookError
  | CallDecode k =>
    '(v, value') <- memoized body value ;;
    run_hook body (k v) value'
  end.

(** [this.onValue?.(callback, ...)]: an absent hook yields [undefined]. *)
Definition call_hook {S} (body : M S CBORValue) (h : option Hook)
  : M S (CBORValue * option CBORValue) :=
  match h with
  | None => ret (VUndefined, None)
  | Some p => run_hook body p None
  end.

(** [{ value, uint64, size }] of [getArgument]. *)
Record Argument : Type := {
  arg_value : jsnum;
  arg_uint64 : option Z;
  arg_size : Z
}.

(** [new Array(length)]: a [RangeError] unless [length] is a 32-bit unsigned
    integer. *)
Definition new_Array {S} (length : jsnum) : M S unit :=
  match length with
  | Fin n => if n <? 2 ^ 32 then ret tt else throw RangeError
  | Infinity => throw RangeError
  end.

(** The host number read as an integer argument, and [-1 - value]. *)
Definition number_of (value : jsnum) : CBORValue :=
  match value with Fin z => VInteger z | Infinity => VInfinity false end.

Definition negative_of (value : jsnum) : CBORValue :=
  match value with Fin z => VInteger (-1 - z) | Infinity => VInfinity true end.

(** ** The in-memory decoder (Decoder.ts) *)

Module Decoder.

(** The mutable fields of a [Decoder]: [#offset] and [#env]. *)
Record State : Type := {
  offset : jsnum;
  isKey : bool;
  keyPath : list Key
}.

Definition set_offset (o : jsnum) (s : State) : State :=
  {| offset := o; isKey := isKey s; keyPath := keyPath s |}.
Definition set_isKey (b : bool) (s : State) : State :=
  {| offset := offset s; isKey := b; keyPath := keyPath s |}.
Definition set_keyPath (p : list Key) (s : State) : State :=
  {| offset := offset s; isKey := isKey s; keyPath := p |}.

(** The constructor's initial state. *)
Definition init : State := {| offset := Fin 0; isKey := false; keyPath := [] |}.

Definition getOffset : M State jsnum := fun s => Ok (offset s, s).

(** [const { isKey, keyPath } = this.env] *)
Definition get_env : M State (bool * list Key) :=
  fun s => Ok ((isKey s, keyPath s), s).

Definition pushKey (key : Key) : M State unit :=
  modify (fun s => set_keyPath (keyPath s ++ [key]) s).

Definition popKey : M State unit :=
  modify (fun s => set_keyPath (removelast (keyPath s)) s).

(** [this.#offset += n] *)
Definition add_offset (n : jsnum) : M State unit :=
  modify (fun s => set_offset (jsnum_add (offset s) n) s).

Section WithData.

Variable data : list byte.
Variable options : DecodeOptions.

(** [this.#view.getXxx(this.#offset)] reading [size] bytes: a [RangeError]
    unless the bytes lie inside the view. *)
Definition view_get (size : Z) : M State (list byte) :=
  fun s =>
    match offset s with
    | Fin o =>
      if (0 <=? o) && (o + size <=? len data)
      then Ok (subarray data o size, s)
      else Throw RangeError
    | Infinity => Throw RangeError
    end.

(** [constant(size, f)]: evaluate [f], then move the offset. *)
Definition constant {T} (size : Z) (f : M State T) : M State T :=
  value <- f ;;
  add_offset (Fin size) ;;;
  ret value.

Definition uint (size : Z) : M State Z :=
  constant size (bs <- view_get size ;; ret (be_value bs)).

Definition uint8 := uint 1.
Definition uint16 := uint 2.
Definition uint32 := uint 4.
Definition uint64 := uint 8.
Definition float16 := uint 2.   (* the bit pattern of the float *)
Definition float32 := uint 4.
Definition float64 := uint 8.

(** [this.data.subarray(this.#offset, this.#offset + length)] *)
Definition data_subarray (o : jsnum) (length : jsnum) : list byte :=
  match o with
  | Fin o =>
    match length with
    | Fin n => subarray data o n
    | Infinity => skipn (Z.to_nat o) data
    end
  | Infinity => []
  end.

(** [decodeBytes]: [new Uint8Array(length)] (a [RangeError] for [Infinity]),
    filled from the front with what [subarray] returned. *)
Definition decodeBytes (length : jsnum) : M State CBORValue :=
  fun s =>
    match length with
    | Infinity => Throw RangeError
    | Fin n =>
      let src := data_subarray (offset s) length in
      let value := src ++ repeat x00 (Z.to_nat n - List.length src) in
      Ok (VUint8Array value, set_offset (jsnum_add (offset s) length) s)
    end.

Definition decodeString (length : jsnum) : M State CBORValue :=
  fun s =>
    let value := decoder options (data_subarray (offset s) length) in
    Ok (VString value, set_offset (jsnum_add (offset s) length) s).

Definition getArgument (additionalInformation : Z) : M State Argument :=
  if additionalInformation <? 24 then
    ret {| arg_value := Fin additionalInformation; arg_uint64 := None; arg_size := 1 |}
  else if additionalInformation =? 24 then
    v <- uint8 ;; ret {| arg_value := Fin v; arg_uint64 := None; arg_size := 1 |}
  else if additionalInformation =? 25 then
    v <- uint16 ;; ret {| arg_value := Fin v; arg_uint64 := None; arg_size := 2 |}
  else if additionalInformation =? 26 then
    v <- uint32 ;; ret {| arg_value := Fin v; arg_uint64 := None; arg_size := 4 |}
  else if additionalInformation =? 27 then
    u <- uint64 ;;
    let value := if Utils.maxSafeInteger <? u then Infinity else Fin u in
    ret {| arg_value := value; arg_uint64 := Some u; arg_size := 8 |}
  else if additionalInformation =? 31 then
    throw (Error "microcbor does not support decoding indefinite-length items")
  else
    throw (Error "invalid argument encoding").

Fixpoint skipValue (fuel : nat) : M State unit :=
  match fuel with
  | O => out_of_fuel
  | S fuel =>
    initialByte <- uint8 ;;
    let majorType := Z.shiftr initialByte 5 in
    let additionalInformation := Z.land initialByte 0x1f in
    if (majorType =? 0) || (majorType =? 1) then
      _ <- getArgument additionalInformation ;; ret tt
    else if (majorType =? 2) || (majorType =? 3) then
      a <- getArgument additionalInformation ;;
      add_offset (arg_value a)
    else if majorType =? 4 then
      a <- getArgument additionalInformation ;;
      skipValues fuel 0 (arg_value a)
    else if majorType =? 5 then
      a <- getArgument additionalInformation ;;
      skipValues fuel 0 (jsnum_double (arg_value a))
    else if majorType =? 6 then
      throw (Error "microcbor does not support tagged data items")
    else if majorType =? 7 then
      if (additionalInformation =? 20) || (additionalInformation =? 21)
         || (additionalInformation =? 22) then ret tt
      else if additionalInformation =? 23 then
        if negb (allowUndefined options)
        then throw (TypeError "`undefined` not allowed") else ret tt
      else if additionalInformation =? 24 then
        throw (Error "microcbor does not support decoding unassigned simple values")
      else if additionalInformation =? 25 then add_offset (Fin 2)
      else if additionalInformation =? 26 then add_offset (Fin 4)
      else if additionalInformation =? 27 then add_offset (Fin 8)
      else if additionalInformation =? 31 then
        throw (Error "microcbor does not support decoding indefinite-length items")
      else throw (Error "invalid simple value")
    else ret tt
  end
(** [for (let i = ...; i < n; i++) this.skipValue()] from index [i] on. *)
with skipValues (fuel : nat) (i : Z) (n : jsnum) : M State unit :=
  if lt_jsnum i n then
    match fuel with
    | O => out_of_fuel
    | S fuel => skipValue fuel ;;; skipValues fuel (i + 1) n
    end
  else ret tt.

(** [this.onValue?.(callback, length, type, keyPath)] and
    [this.onKey?.(callback, length)] *)
Definition on_value (length : jsnum) (type : string) (keyPath : list Key)
  : option Hook :=
  option_map (fun f => f length type keyPath) (onValue options).

Definition on_key (length : jsnum) : option Hook :=
  option_map (fun f => f length) (onKey options).

(** A scalar whose bytes are already read: the thunk is [() => value]. *)
Definition scalar (value : CBORValue) (size : Z) (type : string)
  (keyPath : list Key) : M State CBORValue :=
  '(val, _) <- call_hook (ret value) (on_value (Fin size) type keyPath) ;;
  ret (if is_undefined val then value else val).

Fixpoint decodeValue (fuel : nat) : M State CBORValue :=
  match fuel with
  | O => out_of_fuel
  | S fuel =>
    initialByte <- uint8 ;;
    let majorType := Z.shiftr initialByte 5 in
    let additionalInformation := Z.land initialByte 0x1f in
    env <- get_env ;;
    let isKey := fst env in
    let keyPath := snd env in
    if majorType =? 0 then
      a <- getArgument additionalInformation ;;
      match arg_uint64 a with
      | Some u =>
        if Utils.maxSafeInteger <? u
        then throw (UnsafeIntegerError "cannot decode integers greater than 2^53-1" u)
        else scalar (number_of (arg_value a)) (arg_size a) "number" keyPath
      | None => scalar (number_of (arg_value a)) (arg_size a) "number" keyPath
      end
    else if majorType =? 1 then
      a <- getArgument additionalInformation ;;
      match arg_uint64 a with
      | Some u =>
        if -1 - u <? Utils.minSafeInteger
        then throw (UnsafeIntegerError "cannot decode integers less than -2^53+1" (-1 - u))
        else scalar (negative_of (arg_value a)) (arg_size a) "number" keyPath
      | None => scalar (negative_of (arg_value a)) (arg_size a) "number" keyPath
      end
    else if majorType =? 2 then
      a <- getArgument additionalInformation ;;
      let length := arg_value a in
      let callback := memoized (decodeBytes length) in
      '(val, value) <- call_hook (decodeBytes length)
                         (on_value length "Uint8Array" keyPath) ;;
      if negb (is_undefined val) then
        match value with
        | None => add_offset length ;;; ret val
        | Some _ => ret val
        end
      else '(v, _) <- callback value ;; ret v
    else if majorType =? 3 then
      a <- getArgument additionalInformation ;;
      let length := arg_value a in
      let callback := memoized (decodeString length) in
      '(val, value) <- call_hook (decodeString length)
                         (if isKey then on_key length
                          else on_value length "string" keyPath) ;;
      if negb (is_undefined val) then
        match value with
        | None => add_offset length ;;; ret val
        | Some _ => ret val
        end
      else '(v, _) <- callback value ;; ret v
    else if majorType =? 4 then
      a <- getArgument additionalInformation ;;
      let length := arg_value a in
      let body := new_Array length ;;; decodeItems fuel 0 length [] in
      '(val, value) <- call_hook body (on_value length "array" keyPath) ;;
      if negb (is_undefined val) then
        match value with
        | Some _ => ret val
        | None => skipValues fuel 0 length ;;; ret val
        end
      else '(v, _) <- memoized body value ;; ret v
    else if majorType =? 5 then
      a <- getArgument additionalInformation ;;
      let length := arg_value a in
      let body := decodeEntries fuel 0 length [] in
      '(val, value) <- call_hook body (on_value length "object" keyPath) ;;
      if negb (is_undefined val) then
        match value with
        | Some _ => ret val
        | None => skipValues fuel 0 (jsnum_double length) ;;; ret val
        end
      else '(v, _) <- memoized body value ;; ret v
    else if majorType =? 6 then
      throw (Error "microcbor does not support tagged data items")
    else if majorType =? 7 then
      if additionalInformation =? 20 then scalar (VBoolean false) 1 "boolean" keyPath
      else if additionalInformation =? 21 then scalar (VBoolean true) 1 "boolean" keyPath
      else if additionalInformation =? 22 then scalar VNull 1 "null" keyPath
      else if additionalInformation =? 23 then
        if negb (allowUndefined options)
        then throw (TypeError "`undefined` not allowed")
        else '(val, _) <- call_hook (ret VUndefined)
                            (on_value (Fin 1) "undefined" keyPath) ;;
             ret val
      else if additionalInformation =? 24 then
        throw (Error "microcbor does not support decoding unassigned simple values")
      else if additionalInformation =? 25 then
        if minFloatSize options <=? 16 then
          bits <- float16 ;; scalar (VFloat f16 bits) 2 "number" keyPath
        else throw (Error "cannot decode float16 type - below provided minFloatSize")
      else if additionalInformation =? 26 then
        if minFloatSize options <=? 32 then
          bits <- float32 ;; scalar (VFloat f32 bits) 4 "number" keyPath
        else throw (Error "cannot decode float32 type - below provided minFloatSize")
      else if additionalInformation =? 27 then
        bits <- float64 ;; scalar (VFloat f64 bits) 8 "number" keyPath
      else if additionalInformation =? 31 then
        throw (Error "microcbor does not support decoding indefinite-length items")
      else throw (Error "invalid simple value")
    else throw (Error "invalid major type")
  end
(** The loop of the array [callback], from index [i] on; [value] holds the
    elements stored so far. *)
with decodeItems (fuel : nat) (i : Z) (length : jsnum) (value : list CBORValue)
  : M State CBORValue :=
  if lt_jsnum i length then
    match fuel with
    | O => out_of_fuel
    | S fuel =>
      pushKey (KIndex i) ;;;
      v <- decodeValue fuel ;;
      popKey ;;;
      decodeItems fuel (i + 1) length (value ++ [v])
    end
  else ret (VArray value)
(** The loop of the map [callback], from entry [i] on. *)
with decodeEntries (fuel : nat) (i : Z) (length : jsnum)
  (value : list (jsstring * CBORValue)) : M State CBORValue :=
  if lt_jsnum i length then
    match fuel with
    | O => out_of_fuel
    | S fuel =>
      modify (set_isKey true) ;;;
      key <- decodeValue fuel ;;
      modify (set_isKey false) ;;;
      match key with
      | VString k =>
        if key_in k value then throw (Error "duplicate object key")
        else
          pushKey (KString k) ;;;
          v <- decodeValue fuel ;;
          popKey ;;;
          decodeEntries fuel (i + 1) length (obj_set k v value)
      | _ => throw (Error "microcbor only supports string keys in objects")
      end
    end
  else ret (VObject value).

(** [decode(data, options)]: a fresh decoder, one [decodeValue]. *)
Definition decode (fuel : nat) : Res CBORValue :=
  match decodeValue fuel init with
  | Ok (v, _) => Ok v
  | Throw e => Throw e
  | OutOfFuel => OutOfFuel
  end.

End WithData.
End Decoder.

(** ** The streaming decoders (decodeIterable.ts, decodeAsyncIterable.ts)

    The two classes are the same program: the asynchronous one awaits the
    source and the hooks where the synchronous one calls them, and its
    [advance] reports every chunk it removes to [onFree].  One model serves
    both: the source is the list of chunks it will still yield, an [await] is
    the sequencing of the monad, and [freed] logs the [onFree] calls in order
    (for decodeIterable.ts, which has no [onFree], no function reads it). *)

Module StreamDecoder.

Definition Chunk : Type := list byte.

Record State : Type := {
  offset : Z;
  byteLength : Z;
  chunks : list Chunk;
  iter : list Chunk;
  freed : list Chunk;
  isKey : bool;
  keyPath : list Key
}.

Definition set_isKey (b : bool) (s : State) : State :=
  {| offset := offset s; byteLength := byteLength s; chunks := chunks s;
     iter := iter s; freed := freed s; isKey := b; keyPath := keyPath s |}.
Definition set_keyPath (p : list Key) (s : State) : State :=
  {| offset := offset s; byteLength := byteLength s; chunks := chunks s;
     iter := iter s; freed := freed s; isKey := isKey s; keyPath := p |}.

(** The constructor's state over a source. *)
Definition init (source : list Chunk) : State :=
  {| offset := 0; byteLength := 0; chunks := []; iter := source; freed := [];
     isKey := false; keyPath := [] |}.

(** The [while] loop of [allocate] over what the source still yields. *)
Fixpoint allocate_loop (size : jsnum) (source : list Chunk) (chunks : list Chunk)
  (byteLength : Z) : Res (list Chunk * list Chunk * Z) :=
  if lt_jsnum byteLength size then
    match source with
    | [] => Throw (Error "stream ended prematurely")
    | value :: source' =>
      allocate_loop size source' (chunks ++ [value]) (byteLength + len value)
    end
  else Ok (source, chunks, byteLength).

Definition allocate (size : jsnum) : M State unit :=
  fun s =>
    match allocate_loop size (iter s) (chunks s) (byteLength s) with
    | Ok (source, chunks, byteLength) =>
      Ok (tt, {| offset := offset s; byteLength := byteLength; chunks := chunks;
                 iter := source; freed := freed s; isKey := isKey s;
                 keyPath := keyPath s |})
    | Throw e => Throw e
    | OutOfFuel => OutOfFuel
    end.

(** The [for] loop of [advance] over [this.chunks] from index [i] on.
    [byteLength] and [deleteCount] are the loop's locals, [offset] and
    [thisByteLength] the fields; [target] collects what [target?.set] copies
    (the copies are made left to right without gaps, so they are appended).
    Reading [chunk.byteLength] past the last chunk is a [TypeError]. *)
Fixpoint advance_loop (length : Z) (cs : list Chunk) (byteLength : Z)
  (deleteCount : nat) (target : list byte) (offset thisByteLength : Z)
  : Res (nat * list byte * Z * Z) :=
  if byteLength <? length then
    match cs with
    | [] => Throw (TypeError "Cannot read properties of undefined")
    | chunk :: cs' =>
      let capacity := length - byteLength in
      let available := len chunk - offset in
      if available <=? capacity then
        advance_loop length cs' (byteLength + available) (S deleteCount)
          (target ++ skipn (Z.to_nat offset) chunk) 0 (thisByteLength - available)
      else
        advance_loop length cs' (byteLength + capacity) deleteCount
          (target ++ subarray chunk offset capacity)
          (offset + capacity) (thisByteLength - capacity)
    end
  else Ok (deleteCount, target, offset, thisByteLength).

(** [advance(length, target?)]; returns the bytes a [target] would receive. *)
Definition advance (length : jsnum) : M State (list byte) :=
  fun s =>
    match length with
    | Infinity => Throw (Error "internal error - please file a bug report!")
    | Fin n =>
      if byteLength s <? n
      then Throw (Error "internal error - please file a bug report!")
      else
        match advance_loop n (chunks s) 0 0 [] (offset s) (byteLength s) with
        | Ok (deleteCount, target, offset', byteLength') =>
          Ok (target,
              {| offset := offset'; byteLength := byteLength';
                 chunks := skipn deleteCount (chunks s);
                 iter := iter s;
                 freed := freed s ++ firstn deleteCount (chunks s);
                 isKey := isKey s; keyPath := keyPath s |})
        | Throw e => Throw e
        | OutOfFuel => OutOfFuel
        end
    end.

(** [fill(target)] for a target of [size] bytes. *)
Definition fill (size : jsnum) : M State (list byte) := advance size.

(** [const { isKey, keyPath } = this.env] *)
Definition get_env : M State (bool * list Key) :=
  fun s => Ok ((isKey s, keyPath s), s).

Definition pushKey (key : Key) : M State unit :=
  modify (fun s => set_keyPath (keyPath s ++ [key]) s).

Definition popKey : M State unit :=
  modify (fun s => set_keyPath (removelast (keyPath s)) s).

(** [constant(size, f)] with [f] one of the [DataView] readers at index 0. *)
Definition uint (size : Z) : M State Z :=
  allocate (Fin size) ;;;
  array <- fill (Fin size) ;;
  ret (be_value array).

Definition uint8 := uint 1.
Definition uint16 := uint 2.
Definition uint32 := uint 4.
Definition uint64 := uint 8.
Definition float16 := uint 2.   (* the bit pattern of the float *)
Definition float32 := uint 4.
Definition float64 := uint 8.

(** [new Uint8Array(length)] is a [RangeError] for [Infinity]; [allocate]
    runs first. *)
Definition decodeBytes (length : jsnum) : M State CBORValue :=
  allocate length ;;;
  match length with
  | Infinity => throw RangeError
  | Fin _ => array <- fill length ;; ret (VUint8Array array)
  end.

Section WithOptions.

Variable options : DecodeOptions.

Definition decodeString (length : jsnum) : M State CBORValue :=
  allocate length ;;;
  match length with
  | Infinity => throw RangeError
  | Fin _ => data <- fill length ;; ret (VString (decoder options data))
  end.

Definition getArgument (additionalInformation : Z) : M State Argument :=
  if additionalInformation <? 24 then
    ret {| arg_value := Fin additionalInformation; arg_uint64 := None; arg_size := 1 |}
  else if additionalInformation =? 24 then
    v <- uint8 ;; ret {| arg_value := Fin v; arg_uint64 := None; arg_size := 1 |}
  else if additionalInformation =? 25 then
    v <- uint16 ;; ret {| arg_value := Fin v; arg_uint64 := None; arg_size := 2 |}
  else if additionalInformation =? 26 then
    v <- uint32 ;; ret {| arg_value := Fin v; arg_uint64 := None; arg_size := 4 |}
  else if additionalInformation =? 27 then
    u <- uint64 ;;
    let value := if Utils.maxSafeInteger <? u then Infinity else Fin u in
    ret {| arg_value := value; arg_uint64 := Some u; arg_size := 8 |}
  else if additionalInformation =? 31 then
    throw (Error "microcbor does not support decoding indefinite-length items")
  else
    throw (Error "invalid argument encoding").

(** [allocate(n); advance(n)] without a target. *)
Definition skipBytes (n : jsnum) : M State unit :=
  allocate n ;;; _ <- advance n ;; ret tt.

Fixpoint skipValue (fuel : nat) : M State unit :=
  match fuel with
  | O => out_of_fuel
  | S fuel =>
    initialByte <- uint8 ;;
    let majorType := Z.shiftr initialByte 5 in
    let additionalInformation := Z.land initialByte 0x1f in
    if (majorType =? 0) || (majorType =? 1) then
      _ <- getArgument additionalInformation ;; ret tt
    else if (majorType =? 2) || (majorType =? 3) then
      a <- getArgument additionalInformation ;;
      skipBytes (arg_value a)
    else if majorType =? 4 then
      a <- getArgument additionalInformation ;;
      skipValues fuel 0 (arg_value a)
    else if majorType =? 5 then
      a <- getArgument additionalInformation ;;
      skipValues fuel 0 (jsnum_double (arg_value a))
    else if majorType =? 6 then
      throw (Error "microcbor does not support tagged data items")
    else if majorType =? 7 then
      if (additionalInformation =? 20) || (additionalInformation =? 21)
         || (additionalInformation =? 22) then ret tt
      else if additionalInformation =? 23 then
        if negb (allowUndefined options)
        then throw (TypeError "`undefined` not allowed") else ret tt
      else if additionalInformation =? 24 then
        throw (Error "microcbor does not support decoding unassigned simple values")
      else if additionalInformation =? 25 then skipBytes (Fin 2)
      else if additionalInformation =? 26 then skipBytes (Fin 4)
      else if additionalInformation =? 27 then skipBytes (Fin 8)
      else if additionalInformation =? 31 then
        throw (Error "microcbor does not support decoding indefinite-length items")
      else throw (Error "invalid simple value")
    else ret tt
  end
with skipValues (fuel : nat) (i : Z) (n : jsnum) : M State unit :=
  if lt_jsnum i n then
    match fuel with
    | O => out_of_fuel
    | S fuel => skipValue fuel ;;; skipValues fuel (i + 1) n
    end
  else ret tt.

Definition on_value (length : jsnum) (type : string) (keyPath : list Key)
  : option Hook :=
  option_map (fun f => f length type keyPath) (onValue options).

Definition on_key (length : jsnum) : option Hook :=
  option_map (fun f => f length) (onKey options).

Definition scalar (value : CBORValue) (size : Z) (type : string)
  (keyPath : list Key) : M State CBORValue :=
  '(val, _) <- call_hook (ret value) (on_value (Fin size) type keyPath) ;;
  ret (if is_undefined val then value else val).

Fixpoint decodeValue (fuel : nat) : M State CBORValue :=
  match fuel with
  | O => out_of_fuel
  | S fuel =>
    initialByte <- uint8 ;;
    let majorType := Z.shiftr initialByte 5 in
    let additionalInformation := Z.land initialByte 0x1f in
    env <- get_env ;;
    let isKey := fst env in
    let keyPath := snd env in
    if majorType =? 0 then
      a <- getArgument additionalInformation ;;
      match arg_uint64 a with
      | Some u =>
        if Utils.maxSafeInteger <? u
        then throw (UnsafeIntegerError "cannot decode integers greater than 2^53-1" u)
        else scalar (number_of (arg_value a)) (arg_size a) "number" keyPath
      | None => scalar (number_of (arg_value a)) (arg_size a) "number" keyPath
      end
    else if majorType =? 1 then
      a <- getArgument additionalInformation ;;
      match arg_uint64 a with
      | Some u =>
        if -1 - u <? Utils.minSafeInteger
        then throw (UnsafeIntegerError "cannot decode integers less than -2^53+1" (-1 - u))
        else scalar (negative_of (arg_value a)) (arg_size a) "number" keyPath
      | None => scalar (negative_of (arg_value a)) (arg_size a) "number" keyPath
      end
    else if majorType =? 2 then
      a <- getArgument additionalInformation ;;
      let length := arg_value a in
      let callback := memoized (decodeBytes length) in
      '(val, value) <- call_hook (decodeBytes length)
                         (on_value length "Uint8Array" keyPath) ;;
      if negb (is_undefined val) then
        match value with
        | Some _ => ret val
        | None => skipBytes length ;;; ret val
        end
      else '(v, _) <- callback value ;; ret v
    else if majorType =? 3 then
      a <- getArgument additionalInformation ;;
      let length := arg_value a in
      let callback := memoized (decodeString length) in
      '(val, value) <- call_hook (decodeString length)
                         (if isKey then on_key length
                          else on_value length "string" keyPath) ;;
      if negb (is_undefined val) then
        match value with
        | Some _ => ret val
        | None => skipBytes length ;;; ret val
        end
      else '(v, _) <- callback value ;; ret v
    else if majorType =? 4 then
      a <- getArgument additionalInformation ;;
      let length := arg_value a in
      let body := new_Array length ;;; decodeItems fuel 0 length [] in
      '(val, value) <- call_hook body (on_value length "array" keyPath) ;;
      if negb (is_undefined val) then
        match value with
        | Some _ => ret val
        | None => skipValues fuel 0 length ;;; ret val
        end
      else '(v, _) <- memoized body value ;; ret v
    else if majorType =? 5 then
      a <- getArgument additionalInformation ;;
      let length := arg_value a in
      let body := decodeEntries fuel 0 length [] in
      '(val, value) <- call_hook body (on_value length "object" keyPath) ;;
      if negb (is_undefined val) then
        match value with
        | Some _ => ret val
        | None => skipValues fuel 0 (jsnum_double length) ;;; ret val
        end
      else '(v, _) <- memoized body value ;; ret v
    else if majorType =? 6 then
      throw (Error "microcbor does not support tagged data items")
    else if majorType =? 7 then
      if additionalInformation =? 20 then scalar (VBoolean false) 1 "boolean" keyPath
      else if additionalInformation =? 21 then scalar (VBoolean true) 1 "boolean" keyPath
      else if additionalInformation =? 22 then scalar VNull 1 "null" keyPath
      else if additionalInformation =? 23 then
        if negb (allowUndefined options)
        then throw (TypeError "`undefined` not allowed")
        else '(val, _) <- call_hook (ret VUndefined)
                            (on_value (Fin 1) "undefined" keyPath) ;;
             ret val
      else if additionalInformation =? 24 then
        throw (Error "microcbor does not support decoding unassigned simple values")
      else if additionalInformation =? 25 then
        if minFloatSize options <=? 16 then
          bits <- float16 ;; scalar (VFloat f16 bits) 2 "number" keyPath
        else throw (Error "cannot decode float16 type - below provided minFloatSize")
      else if additionalInformation =? 26 then
        if minFloatSize options <=? 32 then
          bits <- float32 ;; scalar (VFloat f32 bits) 4 "number" keyPath
        else throw (Error "cannot decode float32 type - below provided minFloatSize")
      else if additionalInformation =? 27 then
        bits <- float64 ;; scalar (VFloat f64 bits) 8 "number" keyPath
      else if additionalInformation =? 31 then
        throw (Error "microcbor does not support decoding indefinite-length items")
      else throw (Error "invalid simple value")
    else throw (Error "invalid major type")
  end
with decodeItems (fuel : nat) (i : Z) (length : jsnum) (value : list CBORValue)
  : M State CBORValue :=
  if lt_jsnum i length then
    match fuel with
    | O => out_of_fuel
    | S fuel =>
      pushKey (KIndex i) ;;;
      v <- decodeValue fuel ;;
      popKey ;;;
      decodeItems fuel (i + 1) length (value ++ [v])
    end
  else ret (VArray value)
(** The loop of the map [callback]: no test for a key already present. *)
with decodeEntries (fuel : nat) (i : Z) (length : jsnum)
  (value : list (jsstring * CBORValue)) : M State CBORValue :=
  if lt_jsnum i length then
    match fuel with
    | O => out_of_fuel
    | S fuel =>
      modify (set_isKey true) ;;;
      key <- decodeValue fuel ;;
      modify (set_isKey false) ;;;
      match key with
      | VString k =>
        pushKey (KString k) ;;;
        v <- decodeValue fuel ;;
        popKey ;;;
        decodeEntries fuel (i + 1) length (obj_set k v value)
      | _ => throw (Error "microcbor only supports string keys in objects")
      end
    end
  else ret (VObject value).

(** The [while] loop of [next] over what the source still yields: empty chunks
    are dropped, the first non-empty one is pushed. [None]: the source is
    done. *)
Fixpoint next_loop (source : list Chunk) : option (Chunk * list Chunk) :=
  match source with
  | [] => None
  | value :: source' =>
    if 0 <? len value then Some (value, source') else next_loop source'
  end.

(** [next()]: [None] is [{ done: true }]. *)
Definition next (fuel : nat) : M State (option CBORValue) :=
  fun s =>
    if byteLength s =? 0 then
      match next_loop (iter s) with
      | None =>
        Ok (None, {| offset := offset s; byteLength := byteLength s;
                     chunks := chunks s; iter := []; freed := freed s;
                     isKey := isKey s; keyPath := keyPath s |})
      | Some (value, source') =>
        match decodeValue fuel
                {| offset := offset s; byteLength := byteLength s + len value;
                   chunks := chunks s ++ [value]; iter := source';
                   freed := freed s; isKey := isKey s; keyPath := keyPath s |} with
        | Ok (v, s') => Ok (Some v, s')
        | Throw e => Throw e
        | OutOfFuel => OutOfFuel
        end
      end
    else
      match decodeValue fuel s with
      | Ok (v, s') => Ok (Some v, s')
      | Throw e => Throw e
      | OutOfFuel => OutOfFuel
      end.

(** How an iteration over the decoder ends. *)
Inductive Outcome : Type :=
| Completed
| Failed (e : JsError)
| Exhausted.

(** [yield* new Decoder(...)] consumed to the end: the values yielded, in
    order, and how the iteration ended; [n] bounds the number of [next]
    calls. *)
Fixpoint iterate (fuel n : nat) (s : State) : list CBORValue * Outcome * State :=
  match n with
  | O => ([], Exhausted, s)
  | S n =>
    match next fuel s with
    | Ok (None, s') => ([], Completed, s')
    | Ok (Some v, s') =>
      let '(vs, out, s'') := iterate fuel n s' in (v :: vs, out, s'')
    | Throw e => ([], Failed e, s)
    | OutOfFuel => ([], Exhausted, s)
    end
  end.

(** [decodeIterable(source, options)] / [decodeAsyncIterable(source, options)] *)
Definition decodeIterable (fuel n : nat) (source : list Chunk)
  : list CBORValue * Outcome * State :=
  iterate fuel n (init source).

End WithOptions.
End StreamDecoder.

(** * Specification vocabulary *)

(** A computation relates the state it starts in to the state it returns in
    by [R]. *)
Definition preserves {S} (R : S -> S -> Prop) {A} (m : M S A) : Prop :=
  forall s a s', m s = Ok (a, s') -> R s s'.

(** A computation establishes [P] of the value it returns. *)
Definition returns {S A} (m : M S A) (P : A -> Prop) : Prop :=
  forall s a s', m s = Ok (a, s') -> P a.

Definition jsnum_nonneg (n : jsnum) : Prop :=
  match n with Fin z => 0 <= z | Infinity => True end.

Definition jsnum_le (a b : jsnum) : Prop :=
  match a, b with
  | Fin x, Fin y => x <= y
  | _, Infinity => True
  | Infinity, Fin _ => False
  end.

(** The in-memory offset never moves backwards. *)
Definition offset_le (s s' : Decoder.State) : Prop :=
  jsnum_le (Decoder.offset s) (Decoder.offset s').

(** ** Concrete options for the examples *)

(** [TextDecoder] on 7-bit input: one code unit per byte. *)
Definition ascii_decoder (bs : list byte) : jsstring := map b2z bs.

(** The default options: no hooks, [undefined] allowed, every float width. *)
Definition default_options : DecodeOptions :=
  {| allowUndefined := true; minFloatSize := 16; onKey := None;
     onValue := None; decoder := ascii_decoder |}.

(** A run of [m1] that returns is matched by a run of [m2] returning the same
    value: [Rm] relates the states [m1] starts and ends in, [Q] is what is
    known of the result of [m1], [Pre] and [Post] relate the states of the
    two runs before and after. *)
Definition sim {S1 S2 A} (Rm : S1 -> S1 -> Prop) (Q : A -> S1 -> Prop)
  (Pre : S1 -> S2 -> Prop) (Post : S1 -> S2 -> Prop)
  (m1 : M S1 A) (m2 : M S2 A) : Prop :=
  forall s1 a s1',
    m1 s1 = Ok (a, s1') ->
    Rm s1 s1' /\
    (Q a s1' -> forall s2, Pre s1 s2 ->
     exists s2', m2 s2 = Ok (a, s2') /\ Post s1' s2').

(** The same with one relation [P] before and after and a bound [Q] on the
    state [m1] ends in. *)
Definition simQ {S1 S2} (Rm : S1 -> S1 -> Prop) (Q : S1 -> Prop)
  (P : S1 -> S2 -> Prop) {A} (m1 : M S1 A) (m2 : M S2 A) : Prop :=
  sim Rm (fun _ => Q) P P m1 m2.

(** The in-memory offset lies inside an array of [n] bytes. *)
Definition within (n : Z) (s : Decoder.State) : Prop :=
  jsnum_le (Decoder.offset s) (Fin n).

(** Two in-memory decoders in the same state, at a valid offset. *)
Definition same_state (s1 s2 : Decoder.State) : Prop :=
  s1 = s2 /\ jsnum_nonneg (Decoder.offset s1).

(** ** The rope as a byte sequence *)

(** The bytes the rope holds and has not consumed. *)
Definition unread (s : StreamDecoder.State) : list byte :=
  skipn (Z.to_nat (StreamDecoder.offset s)) (List.concat (StreamDecoder.chunks s)).

(** Everything the decoder will still see: the rope, then the source. *)
Definition pending (s : StreamDecoder.State) : list byte :=
  unread s ++ List.concat (StreamDecoder.iter s).

(** The read cursor points inside the first chunk (or is 0). *)
Definition head_ok (offset : Z) (cs : list StreamDecoder.Chunk) : Prop :=
  offset = 0 \/ exists c cs', cs = c :: cs' /\ 0 < offset < len c.

Definition rope_ok (s : StreamDecoder.State) : Prop :=
  head_ok (StreamDecoder.offset s) (StreamDecoder.chunks s) /\
  StreamDecoder.byteLength s = len (unread s).

(** The environment of a streaming decoder is unchanged. *)
Definition same_env (s s' : StreamDecoder.State) : Prop :=
  StreamDecoder.isKey s' = StreamDecoder.isKey s /\
  StreamDecoder.keyPath s' = StreamDecoder.keyPath s.

(** The in-memory decoder at offset [o] of [data] and a streaming decoder that
    will still see exactly the bytes of [data] from [o] on, in the same
    environment. *)
Definition rope_rel (data : list byte) (s1 : Decoder.State)
  (s2 : StreamDecoder.State) : Prop :=
  exists o,
    Decoder.offset s1 = Fin o /\ 0 <= o /\
    pending s2 = skipn (Z.to_nat o) data /\
    rope_ok s2 /\
    Decoder.isKey s1 = StreamDecoder.isKey s2 /\
    Decoder.keyPath s1 = StreamDecoder.keyPath s2.

(** ** Decode-all *)

(** The bytes decoded one top-level value at a time by one in-memory decoder,
    [decodeValue] being called as long as the offset is inside the array: the
    "decode-all" the chunked decoding is compared with.  [n] bounds the number
    of values. *)
Fixpoint decodeAll (data : list byte) (options : DecodeOptions) (fuel n : nat)
  : M Decoder.State (list CBORValue) :=
  fun s =>
    if match Decoder.offset s with
       | Fin o => o <? len data
       | Infinity => false
       end
    then
      match n with
      | O => OutOfFuel
      | S n =>
        (v <- Decoder.decodeValue data options fuel ;;
         vs <- decodeAll data options fuel n ;;
         ret (v :: vs)) s
      end
    else Ok ([], s).

(** ** Well-formed items *)

(** The initial byte [(major << 5) | ai]. *)
Definition initial (b : byte) (major ai : Z) : Prop :=
  b2z b = major * 32 + ai /\ 0 <= major < 8 /\ 0 <= ai < 32.

(** The number of argument bytes selected by the additional information. *)
Definition arg_width (ai : Z) : option nat :=
  if ai =? 24 then Some 1%nat
  else if ai =? 25 then Some 2%nat
  else if ai =? 26 then Some 4%nat
  else if ai =? 27 then Some 8%nat
  else None.

(** [head major n h]: [h] is the initial byte of major type [major] and the
    argument bytes that encode [n], inline or big-endian in 1, 2, 4 or 8
    bytes (in 8 bytes only up to 2^53-1, where the host number is exact). *)
Inductive head (major : Z) : Z -> list byte -> Prop :=
| head_inline b n :
    initial b major n -> n < 24 -> head major n [b]
| head_arg b ai w arg :
    initial b major ai -> arg_width ai = Some w -> List.length arg = w ->
    be_value arg <= Utils.maxSafeInteger ->
    head major (be_value arg) (b :: arg).

(** [wf_seq options k bs]: [bs] is the concatenation of [k] items that the
    decoder supports under [options]: definite lengths, no tags, integers in
    the safe range, [undefined] only if allowed, floats not narrower than
    [minFloatSize]. *)
Inductive wf_seq (options : DecodeOptions) : nat -> list byte -> Prop :=
| seq_nil : wf_seq options 0 []
| seq_uint k n h rest :
    head 0 n h -> wf_seq options k rest -> wf_seq options (S k) (h ++ rest)
| seq_nint k n h rest :
    head 1 n h -> n < Utils.maxSafeInteger ->
    wf_seq options k rest -> wf_seq options (S k) (h ++ rest)
| seq_bytes k n h payload rest :
    head 2 n h -> len payload = n ->
    wf_seq options k rest -> wf_seq options (S k) (h ++ payload ++ rest)
| seq_text k n h payload rest :
    head 3 n h -> len payload = n ->
    wf_seq options k rest -> wf_seq options (S k) (h ++ payload ++ rest)
| seq_array k c h body rest :
    head 4 (Z.of_nat c) h -> wf_seq options c body ->
    wf_seq options k rest -> wf_seq options (S k) (h ++ body ++ rest)
| seq_map k c h body rest :
    head 5 (Z.of_nat c) h -> wf_seq options (2 * c) body ->
    wf_seq options k rest -> wf_seq options (S k) (h ++ body ++ rest)
| seq_simple k b rest :
    b = xf4 \/ b = xf5 \/ b = xf6 ->
    wf_seq options k rest -> wf_seq options (S k) (b :: rest)
| seq_undefined k rest :
    allowUndefined options = true ->
    wf_seq options k rest -> wf_seq options (S k) (xf7 :: rest)
| seq_float16 k payload rest :
    minFloatSize options <= 16 -> List.length payload = 2%nat ->
    wf_seq options k rest -> wf_seq options (S k) (xf9 :: payload ++ rest)
| seq_float32 k payload rest :
    minFloatSize options <= 32 -> List.length payload = 4%nat ->
    wf_seq options k rest -> wf_seq options (S k) (xfa :: payload ++ rest)
| seq_float64 k payload rest :
    List.length payload = 8%nat ->
    wf_seq options k rest -> wf_seq options (S k) (xfb :: payload ++ rest).

(** One well-formed item. *)
Definition wf_item (options : DecodeOptions) (item : list byte) : Prop :=
  wf_seq options 1 item.

(** The hooks consulted for an item decoded in state [s] return the
    replacement [r] without calling the thunk they are given. *)
Definition replaces (options : DecodeOptions) (s : Decoder.State)
  (r : CBORValue) : Prop :=
  is_undefined r = false /\
  (exists h, onValue options = Some h /\
             forall length type, h length type (Decoder.keyPath s) = Return r) /\
  (Decoder.isKey s = true ->
   exists k, onKey options = Some k /\ forall length, k length = Return r).

(** With enough fuel, the skip loop over [k] items moves the offset by the
    length of [bs], wherever [bs] lies in [data]. *)
Definition skips (data : list byte) (options : DecodeOptions) (k : nat)
  (bs : list byte) : Prop :=
  exists N, forall fuel, (N <= fuel)%nat ->
    forall pre post s i,
      data = pre ++ bs ++ post -> Decoder.offset s = Fin (len pre) ->
      Decoder.skipValues data options fuel i (Fin (i + Z.of_nat k)) s
      = Ok (tt, Decoder.set_offset (Fin (len pre + len bs)) s).

(** The same of [skipValue] on one item. *)
Definition skips_one (data : list byte) (options : DecodeOptions)
  (item : list byte) : Prop :=
  exists N, forall fuel, (N <= fuel)%nat ->
    forall pre post s,
      data = pre ++ item ++ post -> Decoder.offset s = Fin (len pre) ->
      Decoder.skipValue data options fuel s
      = Ok (tt, Decoder.set_offset (Fin (len pre + len item)) s).

(** A hook that replaces every value by [null] and never decodes. *)
Definition replace_by_null : DecodeOptions :=
  {| allowUndefined := true; minFloatSize := 16;
     onKey := Some (fun _ => Return VNull);
     onValue := Some (fun _ _ _ => Return VNull);
     decoder := ascii_decoder |}.

(** ** Hooks at one place *)

Definition Key_eqb (a b : Key) : bool :=
  match a, b with
  | KString x, KString y => jsstring_eqb x y
  | KIndex i, KIndex j => i =? j
  | _, _ => false
  end.

Fixpoint keyPath_eqb (a b : list Key) : bool :=
  match a, b with
  | [], [] => true
  | x :: a', y :: b' => Key_eqb x y && keyPath_eqb a' b'
  | _, _ => false
  end.

(** The [onValue] hook that behaves as the program [p] on the items whose key
    path is [keyPath0] and as [h] everywhere else. *)
Definition hook_at (keyPath0 : list Key) (p : Hook) (h : OnValue) : OnValue :=
  fun length type keyPath =>
    if keyPath_eqb keyPath keyPath0 then p else h length type keyPath.

Definition set_onValue (options : DecodeOptions) (h : OnValue) : DecodeOptions :=
  {| allowUndefined := allowUndefined options;
     minFloatSize := minFloatSize options;
     onKey := onKey options;
     onValue := Some h;
     decoder := decoder options |}.

Definition set_onKey (options : DecodeOptions) (k : OnKey) : DecodeOptions :=
  {| allowUndefined := allowUndefined options;
     minFloatSize := minFloatSize options;
     onKey := Some k;
     onValue := onValue options;
     decoder := decoder options |}.

(** What a hook returns when every call of its thunk returns [v]; [None] when
    it throws. *)
Fixpoint feed (p : Hook) (v : CBORValue) : option CBORValue :=
  match p with
  | Return val => Some val
  | CallDecode k => feed (k v) v
  | Raise => None
  end.

(** [kp] is [keyPath0] followed by at least one key. *)
Definition below (keyPath0 kp : list Key) : Prop :=
  exists key rest, kp = keyPath0 ++ key :: rest.

(** [kp] is [keyPath0] or lies below it. *)
Definition at_or_below (keyPath0 kp : list Key) : Prop :=
  exists rest, kp = keyPath0 ++ rest.

(** Two in-memory decoders in the same state, whose key path is [kp]. *)
Definition same_at (kp : list Key) (s1 s2 : Decoder.State) : Prop :=
  s1 = s2 /\ Decoder.keyPath s1 = kp.

(** A run of [m1] from a state with key path [kp] is a run of [m2], and ends
    with the same key path. *)
Definition agrees {A} (kp : list Key) (m1 m2 : M Decoder.State A) : Prop :=
  simQ (fun _ _ => True) (fun _ => True) (same_at kp) m1 m2.

Definition keyPath_kept (s s' : Decoder.State) : Prop :=
  Decoder.keyPath s' = Decoder.keyPath s.

Definition is_string (v : CBORValue) : Prop :=
  match v with VString _ => True | _ => False end.

(** The outcome of a run whose hook calls the thunk, given the value [v] the
    thunk returns and the state [s'] in which the normal decode ends: the
    hook's own result unless that is [undefined]. *)
Definition memo_result {S} (k : CBORValue -> Hook) (v : CBORValue)
  (s' : S) : Res (CBORValue * S) :=
  match feed (k v) v with
  | Some r => Ok (if is_undefined r then v else r, s')
  | None => Throw HookError
  end.

(** A hook continuation that calls the thunk once more and returns both
    results. *)
Definition call_again (v : CBORValue) : Hook :=
  CallDecode (fun w => Return (VArray [v; w])).


(** ** What [getByteLength] loses *)

(** A UTF-16 code unit. *)
Definition code_unit (c : Z) : Prop := 0 <= c <= 0xffff.

(** The string ends with a lead surrogate that directly follows a lead
    surrogate. *)
Fixpoint ends_in_two_leads (s : jsstring) : bool :=
  match s with
  | a :: ((b :: rest) as t) =>
    match rest with
    | [] => Utils.is_lead a && Utils.is_lead b
    | _ :: _ => ends_in_two_leads t
    end
  | _ => false
  end.

Definition lost_bytes (s : jsstring) : Z :=
  if ends_in_two_leads s then 3 else 0.

(** The three kinds of code unit the loop of [getByteLength] tells apart,
    with the outcome of each of its tests. *)
Inductive unit_class (c : Z) : Prop :=
| class_plain :
    (0xd7ff <? c) && (c <? 0xe000) = false ->
    Utils.is_lead c = false -> Utils.is_trail c = false -> unit_class c
| class_lead :
    (0xd7ff <? c) && (c <? 0xe000) = true -> (0xdbff <? c) = false ->
    (c <? 0xdc00) = true -> Utils.is_lead c = true -> Utils.is_trail c = false ->
    unit_class c
| class_trail :
    (0xd7ff <? c) && (c <? 0xe000) = true -> (0xdbff <? c) = true ->
    (c <? 0xdc00) = false -> Utils.is_lead c = false -> Utils.is_trail c = true ->
    0xdc00 <= c <= 0xdfff -> unit_class c.

(** ** The key path handed to the hooks *)

Definition key_value (key : Key) : CBORValue :=
  match key with
  | KString s => VString s
  | KIndex i => VInteger i
  end.

(** A copy of the key path, as a value: its keys, first to last. *)
Definition path_value (keyPath : list Key) : CBORValue :=
  VArray (map key_value keyPath).

(** The [onValue] hook
    [(decode, length, type, keyPath) => [[...keyPath], decode()]]: it decodes
    the item and returns it paired with the key path the hook was handed. *)
Definition record_keyPath : OnValue :=
  fun _ _ keyPath => CallDecode (fun v => Return (VArray [path_value keyPath; v])).

Definition is_container (v : CBORValue) : bool :=
  match v with
  | VArray _ | VObject _ => true
  | _ => false
  end.

(** [recorded keyPath v]: [v] pairs an item with [keyPath], and inside the
    item every element of an array is paired with [keyPath] followed by its
    index, every value of a map with [keyPath] followed by its key. *)
Inductive recorded : list Key -> CBORValue -> Prop :=
| recorded_scalar keyPath v :
    is_container v = false ->
    recorded keyPath (VArray [path_value keyPath; v])
| recorded_array keyPath items :
    (forall j v, nth_error items j = Some v ->
                 recorded (keyPath ++ [KIndex (Z.of_nat j)]) v) ->
    recorded keyPath (VArray [path_value keyPath; VArray items])
| recorded_object keyPath props :
    (forall k v, In (k, v) props -> recorded (keyPath ++ [KString k]) v) ->
    recorded keyPath (VArray [path_value keyPath; VObject props]).

(** The environment of the second state is that of the first. *)
Definition env_kept (s s' : Decoder.State) : Prop :=
  Decoder.isKey s' = Decoder.isKey s /\ Decoder.keyPath s' = Decoder.keyPath s.

(** What the induction over the decoder carries for [decodeValue] and for the
    loops of the array and of the map, under the recording hook. *)
Definition value_recorded (data : list byte) (options : DecodeOptions)
  (fuel : nat) : Prop :=
  forall s r s',
    Decoder.decodeValue data (set_onValue options record_keyPath) fuel s = Ok (r, s') ->
    Decoder.isKey s = false ->
    recorded (Decoder.keyPath s) r /\ Decoder.isKey s' = false.

Definition items_recorded (data : list byte) (options : DecodeOptions)
  (fuel : nat) : Prop :=
  forall i n acc s r s',
    Decoder.decodeItems data (set_onValue options record_keyPath) fuel i n acc s
    = Ok (r, s') ->
    Decoder.isKey s = false -> i = len acc ->
    (forall j x, nth_error acc j = Some x ->
                 recorded (Decoder.keyPath s ++ [KIndex (Z.of_nat j)]) x) ->
    exists items, r = VArray items /\ Decoder.isKey s' = false /\
      forall j x, nth_error items j = Some x ->
                  recorded (Decoder.keyPath s ++ [KIndex (Z.of_nat j)]) x.

Definition entries_recorded (data : list byte) (options : DecodeOptions)
  (fuel : nat) : Prop :=
  forall i n acc s r s',
    Decoder.decodeEntries data (set_onValue options record_keyPath) fuel i n acc s
    = Ok (r, s') ->
    Decoder.isKey s = false ->
    (forall k x, In (k, x) acc -> recorded (Decoder.keyPath s ++ [KString k]) x) ->
    exists props, r = VObject props /\ Decoder.isKey s' = false /\
      forall k x, In (k, x) props -> recorded (Decoder.keyPath s ++ [KString k]) x.

(** ** Hooks at one place, streaming decoders *)

(** Two streaming decoders in the same state, whose key path is [kp]. *)
Definition same_at_stream (kp : list Key) (s1 s2 : StreamDecoder.State) : Prop :=
  s1 = s2 /\ StreamDecoder.keyPath s1 = kp.

Definition agrees_stream {A} (kp : list Key) (m1 m2 : M StreamDecoder.State A)
  : Prop :=
  simQ (fun _ _ => True) (fun _ => True) (same_at_stream kp) m1 m2.

Definition stream_env_kept (s s' : StreamDecoder.State) : Prop :=
  StreamDecoder.isKey s' = StreamDecoder.isKey s /\
  StreamDecoder.keyPath s' = StreamDecoder.keyPath s.

Definition stream_keyPath_kept (s s' : StreamDecoder.State) : Prop :=
  StreamDecoder.keyPath s' = StreamDecoder.keyPath s.


(** ** Skipping against decoding *)

(** A computation of the in-memory decoder that reads nothing of the state but
    the offset and writes nothing but the offset: from any state at the same
    offset it does the same. *)
Definition offset_only {A} (m : M Decoder.State A) : Prop :=
  forall s t, Decoder.offset t = Decoder.offset s ->
    m t = match m s with
          | Ok (a, s1) => Ok (a, Decoder.set_offset (Decoder.offset s1) t)
          | Throw e => Throw e
          | OutOfFuel => OutOfFuel
          end.

(** With enough fuel, [skipValue] run in any state at offset [o] returns and
    moves the offset to [o'], leaving the rest of the state alone. *)
Definition skip_reaches (data : list byte) (options : DecodeOptions)
  (o o' : jsnum) : Prop :=
  exists N, forall g, (N <= g)%nat ->
    forall t, Decoder.offset t = o ->
      Decoder.skipValue data options g t = Ok (tt, Decoder.set_offset o' t).

(** The same of the loop [for (; i < n; i++) this.skipValue()]. *)
Definition skips_reach (data : list byte) (options : DecodeOptions)
  (i : Z) (n : jsnum) (o o' : jsnum) : Prop :=
  exists N, forall g, (N <= g)%nat ->
    forall t, Decoder.offset t = o ->
      Decoder.skipValues data options g i n t = Ok (tt, Decoder.set_offset o' t).

(** Major type 7 in [skipValue]: how far the offset moves after the initial
    byte, [None] where the routine throws. *)
Definition simple_width (options : DecodeOptions) (ai : Z) : option Z :=
  if (ai =? 20) || (ai =? 21) || (ai =? 22) then Some 0
  else if ai =? 23 then if negb (allowUndefined options) then None else Some 0
  else if ai =? 24 then None
  else if ai =? 25 then Some 2
  else if ai =? 26 then Some 4
  else if ai =? 27 then Some 8
  else None.

(** ** The chunks of the streaming decoders *)

(** Every chunk the decoder has received or will receive, in order: the ones
    reported to [onFree], the ones in the rope, the ones still in the
    source. *)
Definition all_chunks (s : StreamDecoder.State) : list StreamDecoder.Chunk :=
  StreamDecoder.freed s ++ StreamDecoder.chunks s ++ StreamDecoder.iter s.

(** No chunk is lost, duplicated or reordered, and the chunks reported to
    [onFree] are only added to. *)
Definition chunks_kept (s s' : StreamDecoder.State) : Prop :=
  all_chunks s' = all_chunks s /\
  exists more, StreamDecoder.freed s' = StreamDecoder.freed s ++ more.

(** The two errors that only an inconsistent rope can cause: the guard at the
    head of [advance], and the host's error on reading [chunk.byteLength] past
    the last chunk. *)
Definition internal_error (e : JsError) : Prop :=
  e = Error "internal error - please file a bug report!" \/
  e = TypeError "Cannot read properties of undefined".

(** From a consistent rope, [m] ends with a consistent rope or throws, but
    none of the internal errors. *)
Definition rope_safe {A} (m : M StreamDecoder.State A) : Prop :=
  forall s, rope_ok s ->
    match m s with
    | Ok (_, s') => rope_ok s'
    | Throw e => ~ internal_error e
    | OutOfFuel => True
    end.

(** The chunks that hold at least one byte. *)
Definition nonempty (cs : list StreamDecoder.Chunk) : list StreamDecoder.Chunk :=
  filter (fun c => 0 <? len c) cs.

(** ** Encodings of values *)

(** The items of a map body: each key as a text string, followed by its
    value. *)
Definition interleave (props : list (jsstring * CBORValue)) : list CBORValue :=
  flat_map (fun kv => [VString (fst kv); snd kv]) props.

(** No key of [props] is a key of [seen], an earlier key of [props], or a
    name that [{}] inherits. *)
Fixpoint distinct_keys (seen props : list (jsstring * CBORValue)) : bool :=
  match props with
  | [] => true
  | (k, v) :: rest => negb (key_in k seen) && distinct_keys (seen ++ [(k, v)]) rest
  end.

(** [encoded options vs bs]: [bs] is the concatenation of one encoding of each
    value of [vs], in the subset of the format that the decoders support:
    heads of any width, definite lengths, integers in the safe range, text as
    the bytes that the host's decoder turns into the string, maps with text
    keys that are distinct and not inherited by [{}], floats by their bit
    pattern. *)
Inductive encoded (options : DecodeOptions) : list CBORValue -> list byte -> Prop :=
| encoded_nil : encoded options [] []
| encoded_uint n h vs rest :
    head 0 n h -> encoded options vs rest ->
    encoded options (VInteger n :: vs) (h ++ rest)
| encoded_nint n h vs rest :
    head 1 n h -> n < Utils.maxSafeInteger -> encoded options vs rest ->
    encoded options (VInteger (-1 - n) :: vs) (h ++ rest)
| encoded_bytes h payload vs rest :
    head 2 (len payload) h -> encoded options vs rest ->
    encoded options (VUint8Array payload :: vs) (h ++ payload ++ rest)
| encoded_text h payload vs rest :
    head 3 (len payload) h -> encoded options vs rest ->
    encoded options (VString (decoder options payload) :: vs) (h ++ payload ++ rest)
| encoded_array h items body vs rest :
    head 4 (len items) h -> len items < 2 ^ 32 ->
    encoded options items body -> encoded options vs rest ->
    encoded options (VArray items :: vs) (h ++ body ++ rest)
| encoded_map h props body vs rest :
    head 5 (len props) h -> distinct_keys [] props = true ->
    encoded options (interleave props) body -> encoded options vs rest ->
    encoded options (VObject props :: vs) (h ++ body ++ rest)
| encoded_false vs rest :
    encoded options vs rest -> encoded options (VBoolean false :: vs) (xf4 :: rest)
| encoded_true vs rest :
    encoded options vs rest -> encoded options (VBoolean true :: vs) (xf5 :: rest)
| encoded_null vs rest :
    encoded options vs rest -> encoded options (VNull :: vs) (xf6 :: rest)
| encoded_undefined vs rest :
    allowUndefined options = true ->
    encoded options vs rest -> encoded options (VUndefined :: vs) (xf7 :: rest)
| encoded_float16 payload vs rest :
    minFloatSize options <= 16 -> List.length payload = 2%nat ->
    encoded options vs rest ->
    encoded options (VFloat f16 (be_value payload) :: vs) (xf9 :: payload ++ rest)
| encoded_float32 payload vs rest :
    minFloatSize options <= 32 -> List.length payload = 4%nat ->
    encoded options vs rest ->
    encoded options (VFloat f32 (be_value payload) :: vs) (xfa :: payload ++ rest)
| encoded_float64 payload vs rest :
    List.length payload = 8%nat ->
    encoded options vs rest ->
    encoded options (VFloat f64 (be_value payload) :: vs) (xfb :: payload ++ rest).

(** With fuel [N] or more and no hook set, the in-memory decoder decodes the
    item [item] to [v] wherever the item lies in [data], and leaves the offset
    just after it; in key position for a text string only. *)
Definition decodes_at (data : list byte) (options : DecodeOptions) (N : nat)
  (v : CBORValue) (item : list byte) : Prop :=
  forall fuel, (N <= fuel)%nat ->
    forall pre post s,
      data = pre ++ item ++ post -> Decoder.offset s = Fin (len pre) ->
      (Decoder.isKey s = true -> is_string v) ->
      Decoder.decodeValue data options fuel s
      = Ok (v, Decoder.set_offset (Fin (len pre + len item)) s).

(** The same of a sequence of items, one after the other. *)
Definition decodes_all (data : list byte) (options : DecodeOptions)
  (vs : list CBORValue) (bs : list byte) : Prop :=
  exists N items,
    bs = List.concat items /\ Forall2 (decodes_at data options N) vs items.

(** ** What the in-memory decoder returns *)

(** A call of [decodeValue] that returns [v] and leaves the offset inside the
    array has read, from its offset on, an encoding of [v]; the loops of the
    array and of the map thunk have read encodings of the elements and of the
    entries they added. *)
Definition value_encoded (data : list byte) (options : DecodeOptions) (fuel : nat)
  : Prop :=
  forall s v s',
    Decoder.decodeValue data options fuel s = Ok (v, s') ->
    forall o' pre rest,
      Decoder.offset s' = Fin o' -> o' <= len data ->
      data = pre ++ rest -> Decoder.offset s = Fin (len pre) ->
      exists item post,
        rest = item ++ post /\ o' = len pre + len item /\ encoded options [v] item.

Definition items_encoded (data : list byte) (options : DecodeOptions) (fuel : nat)
  : Prop :=
  forall i n value s v s',
    Decoder.decodeItems data options fuel i (Fin n) value s = Ok (v, s') ->
    forall o' pre rest,
      Decoder.offset s' = Fin o' -> o' <= len data ->
      data = pre ++ rest -> Decoder.offset s = Fin (len pre) ->
      exists items body post,
        rest = body ++ post /\ o' = len pre + len body /\
        v = VArray (value ++ items) /\ len items = Z.max 0 (n - i) /\
        encoded options items body.

Definition entries_encoded (data : list byte) (options : DecodeOptions) (fuel : nat)
  : Prop :=
  forall i n value s v s',
    Decoder.decodeEntries data options fuel i (Fin n) value s = Ok (v, s') ->
    forall o' pre rest,
      Decoder.offset s' = Fin o' -> o' <= len data ->
      data = pre ++ rest -> Decoder.offset s = Fin (len pre) ->
      exists props body post,
        rest = body ++ post /\ o' = len pre + len body /\
        v = VObject (value ++ props) /\ len props = Z.max 0 (n - i) /\
        distinct_keys value props = true /\
        encoded options (interleave props) body.

(** ** A source that goes on *)

(** The decoder [s] over a source that yields the chunks [more] after its
    own. *)
Definition more_chunks (more : list StreamDecoder.Chunk) (s : StreamDecoder.State)
  : StreamDecoder.State :=
  {| StreamDecoder.offset := StreamDecoder.offset s;
     StreamDecoder.byteLength := StreamDecoder.byteLength s;
     StreamDecoder.chunks := StreamDecoder.chunks s;
     StreamDecoder.iter := StreamDecoder.iter s ++ more;
     StreamDecoder.freed := StreamDecoder.freed s;
     StreamDecoder.isKey := StreamDecoder.isKey s;
     StreamDecoder.keyPath := StreamDecoder.keyPath s |}.

(** What [m] does over a source, it does over the longer source as well,
    leaving the further chunks in the source; except that over the shorter
    source it may fail with "stream ended prematurely". *)
Definition ends_prematurely_only (more : list StreamDecoder.Chunk) {A}
  (m : M StreamDecoder.State A) : Prop :=
  forall s,
    match m s with
    | Ok (a, s') => m (more_chunks more s) = Ok (a, more_chunks more s')
    | Throw e =>
      e = Error "stream ended prematurely" \/ m (more_chunks more s) = Throw e
    | OutOfFuel => m (more_chunks more s) = OutOfFuel
    end.

(** ** Hooks that only observe *)

(** A hook that returns [undefined], whatever its thunk returns and however
    often it calls it, and does not throw. *)
Definition silent (p : Hook) : Prop := forall v, feed p v = Some VUndefined.

(** Both hooks of [options], where set, are silent for every item. *)
Definition observes (options : DecodeOptions) : Prop :=
  (forall f length type keyPath,
     onValue options = Some f -> silent (f length type keyPath)) /\
  (forall f length, onKey options = Some f -> silent (f length)).

Definition without_hooks (options : DecodeOptions) : DecodeOptions :=
  {| allowUndefined := allowUndefined options;
     minFloatSize := minFloatSize options;
     onKey := None;
     onValue := None;
     decoder := decoder options |}.

(** Two computations with the same outcome from every state. *)
Definition same_run {S A} (m m' : M S A) : Prop := forall s, m s = m' s.

(** Hooks that look at every item (the value hook calls its thunk twice) and
    return nothing. *)
Definition watching_options : DecodeOptions :=
  {| allowUndefined := true;
     minFloatSize := 16;
     onKey := Some (fun _ => CallDecode (fun _ => Return VUndefined));
     onValue := Some (fun _ _ _ =>
                        CallDecode (fun _ => CallDecode (fun _ => Return VUndefined)));
     decoder := ascii_decoder |}.
(** * Properties *)

(** ** Reasoning about monadic code *)

Lemma bind_Ok {S A B} (m : M S A) (f : A -> M S B) s b s' :
  bind m f s = Ok (b, s') ->
  exists a s1, m s = Ok (a, s1) /\ f a s1 = Ok (b, s').
Proof.
  unfold bind. destruct (m s) as [[a s1]| |]; try discriminate.
  intros H. exists a, s1. split; [reflexivity | exact H].
Qed.

Lemma bind_Ok_intro {S A B} (m : M S A) (f : A -> M S B) s a s1 :
  m s = Ok (a, s1) -> bind m f s = f a s1.
Proof. unfold bind. intros ->. reflexivity. Qed.

(** Computations that relate the state they start in to the state they
    return in by a preorder [R]. *)
Section Preserves.

Context {S : Type} (R : S -> S -> Prop).
Hypothesis R_refl : forall s, R s s.
Hypothesis R_trans : forall a b c, R a b -> R b c -> R a c.

Lemma preserves_ret {A} (a : A) : preserves R (ret a).
Proof. intros s x s' H. inversion H; subst; auto. Qed.

Lemma preserves_throw {A} e : preserves R (@throw S A e).
Proof. intros s x s' H. discriminate. Qed.

Lemma preserves_out_of_fuel {A} : preserves R (@out_of_fuel S A).
Proof. intros s x s' H. discriminate. Qed.

Lemma preserves_get : preserves R get.
Proof. intros s x s' H. inversion H; subst; auto. Qed.

Lemma preserves_modify (f : S -> S) :
  (forall s, R s (f s)) -> preserves R (modify f).
Proof. intros Hf s x s' H. inversion H; subst; auto. Qed.

Lemma preserves_bind {A B} (m : M S A) (f : A -> M S B) :
  preserves R m -> (forall a, preserves R (f a)) -> preserves R (bind m f).
Proof.
  intros Hm Hf s b s' H.
  apply bind_Ok in H. destruct H as (a & s1 & H1 & H2).
  eapply R_trans; [eapply Hm; eauto | eapply Hf; eauto].
Qed.

Lemma preserves_memoized body value :
  preserves R body -> preserves R (memoized body value).
Proof.
  intros Hb. destruct value; simpl.
  - apply preserves_ret.
  - apply preserves_bind; auto. intros; apply preserves_ret.
Qed.

Lemma preserves_run_hook body h :
  preserves R body -> forall value, preserves R (run_hook body h value).
Proof.
  intros Hb. induction h as [val | k IH | ]; intros value; simpl.
  - apply preserves_ret.
  - apply preserves_bind; [apply preserves_memoized; auto|].
    intros [v value']. apply IH.
  - apply preserves_throw.
Qed.

Lemma preserves_call_hook body h :
  preserves R body -> preserves R (call_hook body h).
Proof.
  intros Hb. destruct h; simpl;
    [apply preserves_run_hook; auto | apply preserves_ret].
Qed.

Lemma preserves_new_Array length : preserves R (new_Array length).
Proof.
  unfold new_Array. destruct length as [n|];
    [destruct (n <? 2 ^ 32); [apply preserves_ret | apply preserves_throw]
    | apply preserves_throw].
Qed.

End Preserves.

(** One step through a monadic term whose pieces all preserve the relation. *)
Ltac preserves_step :=
  match goal with
  | |- preserves _ (ret _) => apply preserves_ret; solve [eauto]
  | |- preserves _ (throw _) => apply preserves_throw
  | |- preserves _ out_of_fuel => apply preserves_out_of_fuel
  | |- preserves _ get => apply preserves_get; solve [eauto]
  | |- preserves _ (new_Array _) => apply preserves_new_Array; solve [eauto]
  | |- preserves _ (bind _ _) => apply preserves_bind; [solve [eauto] | | intros]
  | |- preserves _ (memoized _ _) =>
    apply preserves_memoized; [solve [eauto] | solve [eauto] | ]
  | |- preserves _ (call_hook _ _) =>
    apply preserves_call_hook; [solve [eauto] | solve [eauto] | ]
  | |- preserves _ (if ?b then _ else _) => destruct b
  | |- preserves _ (match ?x with _ => _ end) => destruct x
  end.

(** ** The in-memory decoder: what a call leaves of the state *)

Lemma jsnum_le_refl a : jsnum_le a a.
Proof. destruct a; simpl; lia. Qed.

Lemma jsnum_le_trans a b c : jsnum_le a b -> jsnum_le b c -> jsnum_le a c.
Proof. destruct a, b, c; simpl; try lia; tauto. Qed.

Lemma jsnum_le_add a n : jsnum_nonneg n -> jsnum_le a (jsnum_add a n).
Proof. destruct a, n; simpl; try lia; tauto. Qed.

Lemma b2z_range b : 0 <= b2z b < 256.
Proof.
  unfold b2z. pose proof (Byte.to_N_bounded b) as H.
  split; [apply N2Z.is_nonneg | ]. change 256 with (Z.of_N 256). lia.
Qed.

Lemma be_value_app bs b : be_value (bs ++ [b]) = be_value bs * 256 + b2z b.
Proof. unfold be_value. rewrite fold_left_app. reflexivity. Qed.

Lemma be_value_nonneg bs : 0 <= be_value bs.
Proof.
  induction bs as [|b bs IH] using rev_ind; [reflexivity|].
  rewrite be_value_app. pose proof (b2z_range b). lia.
Qed.

Ltac inv_run :=
  repeat match goal with
  | H : bind _ _ _ = Ok _ |- _ =>
    let H1 := fresh "H" in
    apply bind_Ok in H; destruct H as (? & ? & H1 & H)
  | H : ret _ _ = Ok _ |- _ => inversion H; subst; clear H
  | H : throw _ _ = Ok _ |- _ => discriminate H
  | H : out_of_fuel _ = Ok _ |- _ => discriminate H
  | H : modify _ _ = Ok _ |- _ => inversion H; subst; clear H
  | H : get _ = Ok _ |- _ => inversion H; subst; clear H
  end.

Section PreservesPost.
Context {S : Type} (R : S -> S -> Prop).
Hypothesis R_trans : forall a b c, R a b -> R b c -> R a c.

Lemma preserves_bind_post {A B} (P : A -> Prop) (m : M S A) (f : A -> M S B) :
  preserves R m -> returns m P -> (forall a, P a -> preserves R (f a)) ->
  preserves R (bind m f).
Proof.
  intros Hm HP Hf s b s' H.
  apply bind_Ok in H. destruct H as (a & s1 & H1 & H2).
  eapply R_trans; [eapply Hm; eauto | eapply Hf; eauto].
Qed.
End PreservesPost.

Module DecoderFacts.
Import Decoder.

Section Generic.

Variable data : list byte.
Variable options : DecodeOptions.

(** A relation between the state at entry and the state at return that the
    decoder's own steps respect. *)
Variable R : State -> State -> Prop.
Hypothesis R_refl : forall s, R s s.
Hypothesis R_trans : forall a b c, R a b -> R b c -> R a c.
Hypothesis R_isKey : forall s b, R s (set_isKey b s).
Hypothesis R_offset :
  forall s n, jsnum_nonneg n -> R s (set_offset (jsnum_add (offset s) n) s).
Hypothesis R_frame :
  forall s key s2,
    R (set_keyPath (keyPath s ++ [key]) s) s2 ->
    R s (set_keyPath (removelast (keyPath s2)) s2).

Lemma preserves_add_offset n : jsnum_nonneg n -> preserves R (add_offset n).
Proof. intros Hn. apply preserves_modify. intros s. apply R_offset, Hn. Qed.

Lemma preserves_view_get size : preserves R (view_get data size).
Proof.
  intros s a s' H. unfold view_get in H.
  destruct (offset s) as [o|]; [|discriminate].
  destruct ((0 <=? o) && (o + size <=? len data)); [|discriminate].
  inversion H; subst. apply R_refl.
Qed.

Lemma preserves_uint size : 0 <= size -> preserves R (uint data size).
Proof.
  intros Hs. unfold uint, constant.
  repeat preserves_step; auto using preserves_view_get.
  apply preserves_add_offset. exact Hs.
Qed.

Lemma returns_uint size : returns (uint data size) (fun v => 0 <= v).
Proof.
  intros s a s' H. unfold uint, constant in H.
  inv_run. apply be_value_nonneg.
Qed.

Lemma preserves_getArgument ai : preserves R (getArgument data ai).
Proof.
  unfold getArgument, uint8, uint16, uint32, uint64.
  repeat preserves_step; auto; apply preserves_uint; lia.
Qed.

Lemma returns_getArgument ai :
  0 <= ai -> returns (getArgument data ai) (fun a => jsnum_nonneg (arg_value a)).
Proof.
  intros Hai s a s' H. unfold getArgument in H.
  repeat match goal with
  | H : (if ?b then _ else _) _ = Ok _ |- _ => destruct b
  | H : bind _ _ _ = Ok _ |- _ =>
    let H1 := fresh "H" in
    apply bind_Ok in H; destruct H as (? & ? & H1 & H);
    apply returns_uint in H1
  | H : ret _ _ = Ok _ |- _ => inversion H; subst; clear H
  | H : throw _ _ = Ok _ |- _ => discriminate H
  end; simpl; auto.
  match goal with |- context [if ?c then _ else _] => destruct c; simpl; auto end.
Qed.

Lemma preserves_decodeBytes n :
  jsnum_nonneg n -> preserves R (decodeBytes data n).
Proof.
  intros Hn s a s' H. unfold decodeBytes in H.
  destruct n; [|discriminate]. inversion H; subst. apply R_offset, Hn.
Qed.

Lemma preserves_decodeString n :
  jsnum_nonneg n -> preserves R (decodeString data options n).
Proof.
  intros Hn s a s' H. unfold decodeString in H.
  inversion H; subst. apply R_offset, Hn.
Qed.

Lemma preserves_scalar v size type kp : preserves R (scalar options v size type kp).
Proof. unfold scalar. repeat preserves_step. Qed.

Lemma jsnum_nonneg_double n : jsnum_nonneg n -> jsnum_nonneg (jsnum_double n).
Proof. destruct n; simpl; lia. Qed.

Lemma preserves_framed {A B} key (m : M State A) (f : A -> M State B) :
  preserves R m -> (forall v, preserves R (f v)) ->
  preserves R (pushKey key ;;; v <- m ;; popKey ;;; f v).
Proof.
  intros Hm Hf s b s' H. unfold pushKey, popKey in H. inv_run.
  eapply R_trans; [|eapply Hf; eauto].
  apply R_frame with (key := key). eapply Hm; eauto.
Qed.

Ltac decoder_step :=
  match goal with
  | |- preserves _ (bind (uint8 _) _) =>
    apply preserves_bind_post with (P := fun v => 0 <= v);
    [solve [eauto] | apply preserves_uint; lia | apply returns_uint | intros ? ?]
  | |- preserves _ (bind (uint _ _) _) =>
    apply preserves_bind_post with (P := fun v => 0 <= v);
    [solve [eauto] | apply preserves_uint; lia | apply returns_uint | intros ? ?]
  | |- preserves _ (bind (getArgument _ _) _) =>
    apply preserves_bind_post with (P := fun a => jsnum_nonneg (arg_value a));
    [solve [eauto] | apply preserves_getArgument
    | apply returns_getArgument; apply Z.land_nonneg; left; assumption
    | intros ? ?]
  | |- preserves _ (bind (pushKey _) _) => apply preserves_framed; [ | intros ]
  | |- preserves _ (add_offset _) =>
    apply preserves_add_offset; solve [simpl; auto; lia]
  | |- preserves _ (decodeBytes _ _) => apply preserves_decodeBytes; assumption
  | |- preserves _ (decodeString _ _ _) => apply preserves_decodeString; assumption
  | |- preserves _ (scalar _ _ _ _ _) => apply preserves_scalar
  | |- preserves _ get_env =>
    let H := fresh in intros ? ? ? H; inversion H; subst; apply R_refl
  | |- preserves _ (modify (set_isKey _)) =>
    apply preserves_modify; intros; apply R_isKey
  | _ => preserves_step
  end.

Lemma preserves_skipValue fuel :
  preserves R (skipValue data options fuel) /\
  (forall i n, preserves R (skipValues data options fuel i n)).
Proof.
  induction fuel as [|fuel [IHv IHs]].
  - split; [apply preserves_out_of_fuel|].
    intros i n. simpl. destruct (lt_jsnum i n); repeat preserves_step.
  - assert (Hv : preserves R (skipValue data options (S fuel))).
    { with_strategy opaque [Z.sub Z.pow Z.add Z.mul] simpl.
      repeat decoder_step; auto. }
    split; [exact Hv|].
    intros i n. with_strategy opaque [Z.sub Z.pow Z.add Z.mul skipValue] simpl.
    destruct (lt_jsnum i n); repeat decoder_step; auto.
Qed.

Lemma preserves_decodeValue fuel :
  preserves R (decodeValue data options fuel) /\
  (forall i n value, preserves R (decodeItems data options fuel i n value)) /\
  (forall i n value, preserves R (decodeEntries data options fuel i n value)).
Proof.
  induction fuel as [|fuel (IHv & IHi & IHe)].
  - split; [apply preserves_out_of_fuel|].
    split; intros i n value; simpl; destruct (lt_jsnum i n); repeat preserves_step.
  - pose proof (preserves_skipValue fuel) as [_ Hskip].
    split; [|split].
    + with_strategy opaque [Z.sub Z.pow Z.add Z.mul] simpl.
      unfold float16, float32, float64.
      repeat decoder_step; auto.
    + intros i n value.
      with_strategy opaque [Z.sub Z.pow Z.add Z.mul decodeValue] simpl.
      destruct (lt_jsnum i n); [|repeat preserves_step].
      apply preserves_framed; auto.
    + intros i n value.
      with_strategy opaque [Z.sub Z.pow Z.add Z.mul decodeValue] simpl.
      destruct (lt_jsnum i n); [|repeat preserves_step].
      repeat decoder_step; auto.
Qed.

End Generic.

(** Every [decodeValue] that returns leaves [keyPath] as it found it. *)
Lemma decodeValue_keyPath data options fuel :
  preserves (fun s s' => keyPath s' = keyPath s) (decodeValue data options fuel).
Proof.
  apply preserves_decodeValue; try (intros; reflexivity).
  - intros a b c H1 H2. congruence.
  - intros s key s2 H. simpl in *. rewrite H. apply removelast_last.
Qed.

Lemma decodeValue_offset_le data options fuel :
  preserves offset_le (decodeValue data options fuel).
Proof.
  apply preserves_decodeValue; unfold offset_le.
  - intros; apply jsnum_le_refl.
  - intros a b c; apply jsnum_le_trans.
  - intros; apply jsnum_le_refl.
  - intros s n Hn. simpl. apply jsnum_le_add, Hn.
  - intros s key s2 H. exact H.
Qed.

End DecoderFacts.

(** ** Reading inside the array *)

Lemma len_app {A} (a b : list A) : len (a ++ b) = len a + len b.
Proof. unfold len. rewrite length_app. lia. Qed.

Lemma len_nonneg {A} (a : list A) : 0 <= len a.
Proof. unfold len. lia. Qed.

Lemma subarray_app {A} (pre mid rest : list A) :
  subarray (pre ++ mid ++ rest) (len pre) (len mid) = mid.
Proof.
  unfold subarray, len. rewrite !Nat2Z.id.
  rewrite skipn_app, skipn_all, Nat.sub_diag. simpl.
  rewrite firstn_app, firstn_all, Nat.sub_diag. simpl. apply app_nil_r.
Qed.

Module ReadFacts.
Import Decoder.

Lemma uint_at data pre bs rest s :
  data = pre ++ bs ++ rest -> offset s = Fin (len pre) ->
  uint data (len bs) s
  = Ok (be_value bs, set_offset (Fin (len pre + len bs)) s).
Proof.
  intros Hd Ho. unfold uint, constant, view_get, bind. rewrite Ho.
  assert (Hin : (0 <=? len pre) && (len pre + len bs <=? len data) = true).
  { subst data. rewrite !len_app.
    pose proof (len_nonneg pre). pose proof (len_nonneg rest).
    apply andb_true_intro. split; [apply Z.leb_le | apply Z.leb_le]; lia. }
  rewrite Hin. subst data. rewrite subarray_app.
  unfold add_offset, modify, ret. rewrite Ho. reflexivity.
Qed.

Lemma uint8_at data pre b rest s :
  data = pre ++ b :: rest -> offset s = Fin (len pre) ->
  uint8 data s = Ok (b2z b, set_offset (Fin (len pre + 1)) s).
Proof.
  intros Hd Ho.
  pose proof (uint_at data pre [b] rest s Hd Ho) as H.
  unfold uint8. change (len [b]) with 1 in H. rewrite H.
  unfold be_value. simpl. reflexivity.
Qed.

Lemma getArgument_uint64_at data pre bs rest s :
  data = pre ++ bs ++ rest -> List.length bs = 8%nat ->
  offset s = Fin (len pre) ->
  getArgument data 27 s
  = Ok ({| arg_value := if Utils.maxSafeInteger <? be_value bs
                        then Infinity else Fin (be_value bs);
           arg_uint64 := Some (be_value bs); arg_size := 8 |},
        set_offset (Fin (len pre + 8)) s).
Proof.
  intros Hd Hl Ho. unfold getArgument.
  change (27 <? 24) with false. change (27 =? 24) with false.
  change (27 =? 25) with false. change (27 =? 26) with false.
  change (27 =? 27) with true. cbv iota.
  pose proof (uint_at data pre bs rest s Hd Ho) as H.
  assert (Hlen : len bs = 8) by (unfold len; rewrite Hl; reflexivity).
  rewrite Hlen in H. unfold uint64.
  rewrite (bind_Ok_intro _ _ _ _ _ H). reflexivity.
Qed.

End ReadFacts.

(** ** Matching runs *)

Section Sim.

Context {S1 S2 : Type}.
Variable Rm : S1 -> S1 -> Prop.
Hypothesis Rm_refl : forall s, Rm s s.
Hypothesis Rm_trans : forall a b c, Rm a b -> Rm b c -> Rm a c.

Lemma sim_ret {A} (Q : A -> S1 -> Prop) (P : S1 -> S2 -> Prop) (a : A) :
  sim Rm Q P P (ret a) (ret a).
Proof.
  intros s1 x s1' H. inversion H; subst. split; [apply Rm_refl|].
  intros _ s2 HP. exists s2. split; [reflexivity | exact HP].
Qed.

Lemma sim_throw {A} (Q : A -> S1 -> Prop) P P' e (m2 : M S2 A) :
  sim Rm Q P P' (throw e) m2.
Proof. intros s1 x s1' H. discriminate. Qed.

Lemma sim_out_of_fuel {A} (Q : A -> S1 -> Prop) P P' (m2 : M S2 A) :
  sim Rm Q P P' out_of_fuel m2.
Proof. intros s1 x s1' H. discriminate. Qed.

(** Sequencing: what is known of the final result must tell what the first
    step needs to know of its own. *)
Lemma sim_bind {A B} (Qm : A -> S1 -> Prop) (Q : B -> S1 -> Prop)
  (Pre Mid Post : S1 -> S2 -> Prop)
  (m1 : M S1 A) (m2 : M S2 A) (f1 : A -> M S1 B) (f2 : A -> M S2 B) :
  sim Rm Qm Pre Mid m1 m2 ->
  (forall a, sim Rm Q Mid Post (f1 a) (f2 a)) ->
  (forall a sa b s1', f1 a sa = Ok (b, s1') -> Rm sa s1' -> Q b s1' -> Qm a sa) ->
  sim Rm Q Pre Post (bind m1 f1) (bind m2 f2).
Proof.
  intros Hm Hf HQ s1 b s1' H.
  apply bind_Ok in H. destruct H as (a & sa & H1 & H2).
  destruct (Hm _ _ _ H1) as [Hr1 Hs1].
  destruct (Hf a _ _ _ H2) as [Hr2 Hs2].
  split; [eapply Rm_trans; eauto|].
  intros Hq s2 Hpre.
  destruct (Hs1 (HQ _ _ _ _ H2 Hr2 Hq) s2 Hpre) as (s2a & E1 & Hmid).
  destruct (Hs2 Hq s2a Hmid) as (s2' & E2 & Hpost).
  exists s2'. split; [|exact Hpost].
  rewrite (bind_Ok_intro _ _ _ _ _ E1). exact E2.
Qed.

(** The same when the first step establishes [P] of its value. *)
Lemma sim_bind_post {A B} (P : A -> Prop) (Qm : A -> S1 -> Prop)
  (Q : B -> S1 -> Prop) (Pre Mid Post : S1 -> S2 -> Prop)
  (m1 : M S1 A) (m2 : M S2 A) (f1 : A -> M S1 B) (f2 : A -> M S2 B) :
  sim Rm Qm Pre Mid m1 m2 ->
  returns m1 P ->
  (forall a, P a -> sim Rm Q Mid Post (f1 a) (f2 a)) ->
  (forall a sa b s1', f1 a sa = Ok (b, s1') -> Rm sa s1' -> Q b s1' -> Qm a sa) ->
  sim Rm Q Pre Post (bind m1 f1) (bind m2 f2).
Proof.
  intros Hm HP Hf HQ s1 b s1' H.
  apply bind_Ok in H. destruct H as (a & sa & H1 & H2).
  destruct (Hm _ _ _ H1) as [Hr1 Hs1].
  destruct (Hf a (HP _ _ _ H1) _ _ _ H2) as [Hr2 Hs2].
  split; [eapply Rm_trans; eauto|].
  intros Hq s2 Hpre.
  destruct (Hs1 (HQ _ _ _ _ H2 Hr2 Hq) s2 Hpre) as (s2a & E1 & Hmid).
  destruct (Hs2 Hq s2a Hmid) as (s2' & E2 & Hpost).
  exists s2'. split; [|exact Hpost].
  rewrite (bind_Ok_intro _ _ _ _ _ E1). exact E2.
Qed.

(** From here on: one relation before and after, and a bound [Q] on the
    final state that the states before it inherit. *)
Variable Q : S1 -> Prop.
Hypothesis Q_closed : forall s s', Rm s s' -> Q s' -> Q s.
Variable P : S1 -> S2 -> Prop.

Local Abbreviation simQ := (simQ Rm Q P).

Lemma simQ_bind {A B} (m1 : M S1 A) (m2 : M S2 A)
  (f1 : A -> M S1 B) (f2 : A -> M S2 B) :
  simQ m1 m2 -> (forall a, simQ (f1 a) (f2 a)) -> simQ (bind m1 f1) (bind m2 f2).
Proof.
  intros Hm Hf. eapply sim_bind; eauto.
  intros a sa b s1' _ Hr Hq. eapply Q_closed; eauto.
Qed.

Lemma simQ_bind_post {A B} (R : A -> Prop) (m1 : M S1 A) (m2 : M S2 A)
  (f1 : A -> M S1 B) (f2 : A -> M S2 B) :
  simQ m1 m2 -> returns m1 R -> (forall a, R a -> simQ (f1 a) (f2 a)) ->
  simQ (bind m1 f1) (bind m2 f2).
Proof.
  intros Hm HR Hf. eapply sim_bind_post; eauto.
  intros a sa b s1' _ Hr Hq. eapply Q_closed; eauto.
Qed.

Lemma simQ_memoized body1 body2 value :
  simQ body1 body2 -> simQ (memoized body1 value) (memoized body2 value).
Proof.
  intros Hb. destruct value; simpl.
  - apply sim_ret.
  - apply simQ_bind; [exact Hb|]. intros v. apply sim_ret.
Qed.

Lemma simQ_run_hook body1 body2 h :
  simQ body1 body2 ->
  forall value, simQ (run_hook body1 h value) (run_hook body2 h value).
Proof.
  intros Hb. induction h as [val | k IH | ]; intros value; simpl.
  - apply sim_ret.
  - apply simQ_bind; [apply simQ_memoized; exact Hb|].
    intros [v value']. apply IH.
  - apply sim_throw.
Qed.

Lemma simQ_call_hook body1 body2 h :
  simQ body1 body2 -> simQ (call_hook body1 h) (call_hook body2 h).
Proof.
  intros Hb. destruct h; simpl; [apply simQ_run_hook; exact Hb | apply sim_ret].
Qed.

Lemma simQ_new_Array length : simQ (new_Array length) (new_Array length).
Proof.
  unfold new_Array. destruct length as [n|];
    [destruct (n <? 2 ^ 32); [apply sim_ret | apply sim_throw] | apply sim_throw].
Qed.

End Sim.

(** One step through two terms of the same shape. *)
Ltac sim_step :=
  match goal with
  | |- simQ _ _ _ (ret _) (ret _) => apply sim_ret; solve [eauto]
  | |- simQ _ _ _ (throw _) _ => apply sim_throw
  | |- simQ _ _ _ out_of_fuel _ => apply sim_out_of_fuel
  | |- simQ _ _ _ (new_Array _) (new_Array _) =>
    apply simQ_new_Array; solve [eauto]
  | |- simQ _ _ _ (bind _ _) (bind _ _) =>
    apply simQ_bind; [solve [eauto] | solve [eauto] | | intros]
  | |- simQ _ _ _ (memoized _ _) (memoized _ _) =>
    apply simQ_memoized; [solve [eauto] | solve [eauto] | solve [eauto] | ]
  | |- simQ _ _ _ (call_hook _ _) (call_hook _ _) =>
    apply simQ_call_hook; [solve [eauto] | solve [eauto] | solve [eauto] | ]
  | |- simQ _ _ _ (if ?b then _ else _) (if ?b then _ else _) => destruct b
  | |- simQ _ _ _ (match ?x with _ => _ end) (match ?x with _ => _ end) =>
    destruct x
  end.

(** ** Bytes after the first item are not read *)

Lemma jsnum_nonneg_le a b : jsnum_nonneg a -> jsnum_le a b -> jsnum_nonneg b.
Proof. destruct a, b; simpl; try lia; tauto. Qed.

Lemma subarray_prefix {A} (l extra : list A) o n :
  0 <= o -> 0 <= n -> o + n <= len l ->
  subarray (l ++ extra) o n = subarray l o n.
Proof.
  intros Ho Hn Hb. unfold subarray, len in *.
  rewrite skipn_app, firstn_app.
  replace (Z.to_nat n - List.length (skipn (Z.to_nat o) l))%nat with 0%nat.
  - simpl. apply app_nil_r.
  - rewrite length_skipn. lia.
Qed.

Module TrailingFacts.
Import Decoder.

Section Trailing.

Variable data extra : list byte.
Variable options : DecodeOptions.

Local Abbreviation simT := (simQ offset_le (within (len data)) same_state).

Lemma offset_le_refl s : offset_le s s.
Proof. apply jsnum_le_refl. Qed.

Lemma offset_le_trans a b c : offset_le a b -> offset_le b c -> offset_le a c.
Proof. apply jsnum_le_trans. Qed.

Lemma within_closed s s' : offset_le s s' -> within (len data) s' -> within (len data) s.
Proof. unfold within, offset_le. apply jsnum_le_trans. Qed.

(** A step that does not look at the array. *)
Lemma simT_same {A} (m : M State A) : preserves offset_le m -> simT m m.
Proof.
  intros Hm s1 a s1' H. split; [eapply Hm; eauto|].
  intros _ s2 [-> Hn]. exists s1'. split; [exact H|].
  split; [reflexivity|]. eapply jsnum_nonneg_le; [exact Hn|]. eapply Hm; eauto.
Qed.


Lemma simT_view_get size :
  0 <= size -> simT (view_get data size) (view_get (data ++ extra) size).
Proof.
  intros Hs s1 a s1' H. split; [eapply DecoderFacts.preserves_view_get; eauto using offset_le_refl|].
  intros _ s2 [<- Hn]. unfold view_get in *.
  destruct (offset s1) as [o|] eqn:Eo; [|discriminate].
  destruct ((0 <=? o) && (o + size <=? len data)) eqn:E; [|discriminate].
  apply andb_prop in E. destruct E as [E1 E2].
  apply Z.leb_le in E1. apply Z.leb_le in E2.
  inversion H; subst. exists s1'.
  rewrite len_app. pose proof (len_nonneg extra).
  replace ((0 <=? o) && (o + size <=? len data + len extra)) with true.
  - rewrite subarray_prefix by lia. split; [reflexivity|].
    split; [reflexivity | rewrite Eo; exact Hn].
  - symmetry. apply andb_true_intro. split; apply Z.leb_le; lia.
Qed.

Lemma data_subarray_prefix s n :
  jsnum_nonneg (offset s) -> jsnum_nonneg n ->
  jsnum_le (jsnum_add (offset s) n) (Fin (len data)) ->
  data_subarray (data ++ extra) (offset s) n = data_subarray data (offset s) n.
Proof.
  unfold data_subarray. destruct (offset s) as [o|], n as [n|]; simpl; try tauto.
  intros Ho Hn Hb. apply subarray_prefix; lia.
Qed.

Lemma simT_decodeBytes n :
  jsnum_nonneg n -> simT (decodeBytes data n) (decodeBytes (data ++ extra) n).
Proof.
  intros Hn s1 a s1' H.
  split; [eapply DecoderFacts.preserves_decodeBytes; eauto; intros; apply jsnum_le_add; auto|].
  intros Hq s2 [<- Ho]. unfold decodeBytes in *.
  destruct n as [n|]; [|discriminate]. inversion H; subst. clear H.
  unfold within in Hq. simpl in Hq.
  rewrite data_subarray_prefix by assumption.
  eexists. split; [reflexivity|]. split; [reflexivity|].
  simpl. eapply jsnum_nonneg_le; [exact Ho | apply jsnum_le_add; exact Hn].
Qed.

Lemma simT_decodeString n :
  jsnum_nonneg n ->
  simT (decodeString data options n) (decodeString (data ++ extra) options n).
Proof.
  intros Hn s1 a s1' H.
  split; [eapply DecoderFacts.preserves_decodeString; eauto; intros; apply jsnum_le_add; auto|].
  intros Hq s2 [<- Ho]. unfold decodeString in *.
  inversion H; subst. clear H.
  unfold within in Hq. simpl in Hq.
  rewrite data_subarray_prefix by assumption.
  eexists. split; [reflexivity|]. split; [reflexivity|].
  simpl. eapply jsnum_nonneg_le; [exact Ho | apply jsnum_le_add; exact Hn].
Qed.


Lemma preserves_offset_modify (f : State -> State) :
  (forall s, offset (f s) = offset s) -> preserves offset_le (modify f).
Proof.
  intros Hf. apply preserves_modify. intros s. unfold offset_le.
  rewrite Hf. apply jsnum_le_refl.
Qed.

Lemma preserves_offset_get_env : preserves offset_le get_env.
Proof. intros s a s' E. inversion E; subst. apply offset_le_refl. Qed.

Lemma preserves_offset_add n : jsnum_nonneg n -> preserves offset_le (add_offset n).
Proof.
  intros Hn. apply preserves_modify. intros s. apply jsnum_le_add, Hn.
Qed.

Lemma preserves_offset_scalar v size type kp :
  preserves offset_le (scalar options v size type kp).
Proof.
  apply DecoderFacts.preserves_scalar; [apply offset_le_refl | apply offset_le_trans].
Qed.

Ltac trailing_leaf :=
  match goal with
  | |- simQ _ _ _ (view_get _ _) (view_get _ _) => apply simT_view_get; lia
  | |- simQ _ _ _ (decodeBytes _ _) (decodeBytes _ _) =>
    apply simT_decodeBytes; assumption
  | |- simQ _ _ _ (decodeString _ _ _) (decodeString _ _ _) =>
    apply simT_decodeString; assumption
  | |- simQ _ _ _ (add_offset _) (add_offset _) =>
    apply simT_same, preserves_offset_add; solve [simpl; auto; lia]
  | |- simQ _ _ _ (scalar _ _ _ _ _) (scalar _ _ _ _ _) =>
    apply simT_same, preserves_offset_scalar
  | |- simQ _ _ _ get_env get_env => apply simT_same, preserves_offset_get_env
  | |- simQ _ _ _ (modify _) (modify _) =>
    apply simT_same, preserves_offset_modify; intros; reflexivity
  | |- simQ _ _ _ (pushKey _) (pushKey _) =>
    apply simT_same, preserves_offset_modify; intros; reflexivity
  | |- simQ _ _ _ popKey popKey =>
    apply simT_same, preserves_offset_modify; intros; reflexivity
  end.

Lemma simT_uint size :
  0 <= size -> simT (uint data size) (uint (data ++ extra) size).
Proof.
  intros Hs. pose proof offset_le_refl. pose proof offset_le_trans.
  pose proof within_closed.
  unfold uint, constant. repeat (first [trailing_leaf | sim_step]).
Qed.

Ltac trailing_step :=
  match goal with
  | |- simQ _ _ _ (bind (uint _ _) _) (bind (uint _ _) _) =>
    apply simQ_bind_post with (R := fun v => 0 <= v);
    [solve [eauto] | solve [eauto] | apply simT_uint; lia
    | apply DecoderFacts.returns_uint | intros ? ?]
  | _ => first [trailing_leaf | sim_step]
  end.

Lemma simT_getArgument ai :
  simT (getArgument data ai) (getArgument (data ++ extra) ai).
Proof.
  pose proof offset_le_refl. pose proof offset_le_trans. pose proof within_closed.
  unfold getArgument, uint8, uint16, uint32, uint64.
  repeat trailing_step.
Qed.


Ltac trailing_item_step :=
  match goal with
  | |- simQ _ _ _ (bind (uint8 _) _) (bind (uint8 _) _) =>
    apply simQ_bind_post with (R := fun v => 0 <= v);
    [solve [eauto] | solve [eauto] | apply simT_uint; lia
    | apply DecoderFacts.returns_uint | intros ? ?]
  | |- simQ _ _ _ (bind (getArgument _ _) _) (bind (getArgument _ _) _) =>
    apply simQ_bind_post with (R := fun a => jsnum_nonneg (arg_value a));
    [solve [eauto] | solve [eauto] | apply simT_getArgument
    | apply DecoderFacts.returns_getArgument; apply Z.land_nonneg; left; assumption
    | intros ? ?]
  | _ => trailing_step
  end.

Lemma simT_skipValue fuel :
  simT (skipValue data options fuel) (skipValue (data ++ extra) options fuel) /\
  (forall i n, simT (skipValues data options fuel i n)
                    (skipValues (data ++ extra) options fuel i n)).
Proof.
  pose proof offset_le_refl. pose proof offset_le_trans. pose proof within_closed.
  induction fuel as [|fuel [IHv IHs]].
  - split; [apply sim_out_of_fuel|].
    intros i n. simpl. destruct (lt_jsnum i n); repeat sim_step.
  - split.
    + with_strategy opaque [Z.sub Z.pow Z.add Z.mul] simpl.
      repeat trailing_item_step; auto using DecoderFacts.jsnum_nonneg_double.
    + intros i n. with_strategy opaque [Z.sub Z.pow Z.add Z.mul skipValue] simpl.
      destruct (lt_jsnum i n); repeat trailing_item_step; auto.
Qed.

Lemma simT_decodeValue fuel :
  simT (decodeValue data options fuel) (decodeValue (data ++ extra) options fuel) /\
  (forall i n value, simT (decodeItems data options fuel i n value)
                          (decodeItems (data ++ extra) options fuel i n value)) /\
  (forall i n value, simT (decodeEntries data options fuel i n value)
                          (decodeEntries (data ++ extra) options fuel i n value)).
Proof.
  pose proof offset_le_refl. pose proof offset_le_trans. pose proof within_closed.
  induction fuel as [|fuel (IHv & IHi & IHe)].
  - split; [apply sim_out_of_fuel|].
    split; intros i n value; simpl; destruct (lt_jsnum i n); repeat sim_step.
  - pose proof (simT_skipValue fuel) as [_ Hskip].
    split; [|split].
    + with_strategy opaque [Z.sub Z.pow Z.add Z.mul] simpl.
      unfold float16, float32, float64.
      repeat trailing_item_step; auto.
    + intros i n value.
      with_strategy opaque [Z.sub Z.pow Z.add Z.mul decodeValue] simpl.
      destruct (lt_jsnum i n); repeat trailing_item_step; auto.
    + intros i n value.
      with_strategy opaque [Z.sub Z.pow Z.add Z.mul decodeValue] simpl.
      destruct (lt_jsnum i n); repeat trailing_item_step; auto.
Qed.

End Trailing.
End TrailingFacts.

(** ** The chunk rope *)

Lemma len_skipn {A} (l : list A) n :
  0 <= n <= len l -> len (skipn (Z.to_nat n) l) = len l - n.
Proof. unfold len. intros H. rewrite length_skipn. lia. Qed.

Lemma len_nil {A} : len (@nil A) = 0.
Proof. reflexivity. Qed.

Lemma len_cons {A} (a : A) l : len (a :: l) = 1 + len l.
Proof. unfold len. simpl List.length. lia. Qed.

Lemma skipn_app_le {A} (a b : list A) n :
  0 <= n <= len a -> skipn (Z.to_nat n) (a ++ b) = skipn (Z.to_nat n) a ++ b.
Proof.
  unfold len. intros H. rewrite skipn_app.
  replace (Z.to_nat n - List.length a)%nat with 0%nat by lia. reflexivity.
Qed.

Lemma firstn_app_le {A} (a b : list A) n :
  n <= len a -> firstn (Z.to_nat n) (a ++ b) = firstn (Z.to_nat n) a.
Proof.
  unfold len. intros H. rewrite firstn_app.
  replace (Z.to_nat n - List.length a)%nat with 0%nat by lia.
  simpl. apply app_nil_r.
Qed.

Lemma firstn_app_ge {A} (a b : list A) n :
  len a <= n -> firstn (Z.to_nat n) (a ++ b) = a ++ firstn (Z.to_nat (n - len a)) b.
Proof.
  unfold len. intros H. rewrite firstn_app.
  rewrite firstn_all2 by lia. f_equal. f_equal. lia.
Qed.

Lemma skipn_app_ge {A} (a b : list A) n :
  len a <= n -> skipn (Z.to_nat n) (a ++ b) = skipn (Z.to_nat (n - len a)) b.
Proof.
  unfold len. intros H. rewrite skipn_app.
  rewrite skipn_all2 by lia. simpl. f_equal. lia.
Qed.

Lemma skipn_skipn_Z {A} (l : list A) a b :
  0 <= a -> 0 <= b ->
  skipn (Z.to_nat a) (skipn (Z.to_nat b) l) = skipn (Z.to_nat (b + a)) l.
Proof.
  intros Ha Hb. rewrite skipn_skipn. f_equal. lia.
Qed.

Module RopeFacts.
Import StreamDecoder.

Lemma advance_loop_done length cs byteLength deleteCount target offset tbl :
  length <= byteLength ->
  advance_loop length cs byteLength deleteCount target offset tbl
  = Ok (deleteCount, target, offset, tbl).
Proof.
  intros H. destruct cs; simpl;
    (replace (byteLength <? length) with false; [reflexivity|]);
    symmetry; apply Z.ltb_ge; exact H.
Qed.

Lemma head_ok_le offset cs :
  head_ok offset cs -> 0 <= offset <= len (List.concat cs).
Proof.
  intros [-> | (c & cs' & -> & H)].
  - pose proof (len_nonneg (List.concat cs)). lia.
  - simpl. rewrite len_app. pose proof (len_nonneg (List.concat cs')). lia.
Qed.

(** [advance_loop] with enough bytes in the rope: it copies the next
    [length - byteLength] unread bytes, drops [k] chunks and leaves the cursor
    inside the first chunk that remains. *)
Lemma advance_loop_ok cs :
  forall length byteLength deleteCount target offset tbl,
    head_ok offset cs -> byteLength <= length ->
    length - byteLength <= len (skipn (Z.to_nat offset) (List.concat cs)) ->
    exists k offset',
      advance_loop length cs byteLength deleteCount target offset tbl
      = Ok ((deleteCount + k)%nat,
            target ++ firstn (Z.to_nat (length - byteLength))
                        (skipn (Z.to_nat offset) (List.concat cs)),
            offset', tbl - (length - byteLength)) /\
      head_ok offset' (skipn k cs) /\
      skipn (Z.to_nat offset') (List.concat (skipn k cs))
      = skipn (Z.to_nat (length - byteLength)) (skipn (Z.to_nat offset) (List.concat cs)).
Proof.
  assert (Hdone : forall (cs : list Chunk) length deleteCount target offset tbl,
    head_ok offset cs ->
    exists k offset',
      advance_loop length cs length deleteCount target offset tbl
      = Ok ((deleteCount + k)%nat,
            target ++ firstn (Z.to_nat (length - length))
                        (skipn (Z.to_nat offset) (List.concat cs)),
            offset', tbl - (length - length)) /\
      head_ok offset' (skipn k cs) /\
      skipn (Z.to_nat offset') (List.concat (skipn k cs))
      = skipn (Z.to_nat (length - length))
          (skipn (Z.to_nat offset) (List.concat cs))).
  { intros cs0 length deleteCount target offset tbl Hh.
    exists 0%nat, offset. rewrite advance_loop_done by lia.
    rewrite Nat.add_0_r, Z.sub_diag, Z.sub_0_r. simpl. rewrite app_nil_r.
    repeat split; auto. }
  induction cs as [|c cs IH]; intros length byteLength deleteCount target offset tbl
    Hh Hle Hav.
  - simpl in Hav. rewrite skipn_nil, len_nil in Hav.
    assert (byteLength = length) by lia. subst byteLength. apply Hdone, Hh.
  - destruct (Z.ltb_spec byteLength length) as [Hlt|Hge].
    2:{ assert (byteLength = length) by lia. subst byteLength. apply Hdone, Hh. }
    assert (Hoff : 0 <= offset <= len c).
    { destruct Hh as [-> | (c0 & cs' & E & H)].
      - pose proof (len_nonneg c). lia.
      - inversion E; subst. lia. }
    simpl List.concat in *. rewrite skipn_app_le in * by exact Hoff.
    rewrite len_app, len_skipn in Hav by exact Hoff.
    simpl advance_loop.
    apply Z.ltb_lt in Hlt as Hlt'. rewrite Hlt'.
    destruct (Z.leb_spec (len c - offset) (length - byteLength)) as [Hfit|Hpart].
    + destruct (IH length (byteLength + (len c - offset)) (S deleteCount)
                  (target ++ skipn (Z.to_nat offset) c) 0 (tbl - (len c - offset)))
        as (k & offset' & E & Hh' & Hrest).
      * left; reflexivity.
      * lia.
      * simpl. lia.
      * exists (S k), offset'. rewrite E.
        replace (length - (byteLength + (len c - offset)))
          with (length - byteLength - (len c - offset)) in * by lia.
        split; [|split].
        -- replace (S deleteCount + k)%nat with (deleteCount + S k)%nat by lia.
           replace (tbl - (len c - offset) - (length - byteLength - (len c - offset)))
             with (tbl - (length - byteLength)) by lia.
           rewrite <- app_assoc.
           rewrite (firstn_app_ge (skipn (Z.to_nat offset) c))
             by (rewrite len_skipn by exact Hoff; lia).
           rewrite len_skipn by exact Hoff. reflexivity.
        -- exact Hh'.
        -- simpl skipn at 2. rewrite Hrest. simpl skipn at 2.
           rewrite (skipn_app_ge (skipn (Z.to_nat offset) c))
             by (rewrite len_skipn by exact Hoff; lia).
           rewrite len_skipn by exact Hoff. reflexivity.
    + exists 0%nat, (offset + (length - byteLength)).
      rewrite advance_loop_done by lia. split; [|split].
      * rewrite Nat.add_0_r. unfold subarray.
        rewrite (firstn_app_le (skipn (Z.to_nat offset) c))
          by (rewrite len_skipn by exact Hoff; lia).
        reflexivity.
      * right. exists c, cs. split; [reflexivity | lia].
      * simpl skipn at 2. simpl List.concat.
        rewrite skipn_app_le by lia.
        rewrite (skipn_app_le (skipn (Z.to_nat offset) c))
          by (rewrite len_skipn by exact Hoff; lia).
        f_equal. rewrite skipn_skipn_Z by lia. reflexivity.
Qed.

Lemma allocate_loop_ok source :
  forall n chunks byteLength,
    n <= byteLength + len (List.concat source) ->
    exists pulled source',
      source = pulled ++ source' /\
      allocate_loop (Fin n) source chunks byteLength
      = Ok (source', chunks ++ pulled, byteLength + len (List.concat pulled)) /\
      n <= byteLength + len (List.concat pulled).
Proof.
  induction source as [|value source IH]; intros n chunks byteLength Hn.
  - exists [], []. simpl in *. rewrite len_nil in *.
    replace (byteLength <? n) with false by (symmetry; apply Z.ltb_ge; lia).
    rewrite app_nil_r, Z.add_0_r. repeat split; auto. lia.
  - simpl allocate_loop. unfold lt_jsnum.
    destruct (Z.ltb_spec byteLength n) as [Hlt|Hge].
    + simpl in Hn. rewrite len_app in Hn.
      destruct (IH n (chunks ++ [value]) (byteLength + len value))
        as (pulled & source' & -> & E & Hb); [lia|].
      exists (value :: pulled), source'. split; [reflexivity|]. split.
      * etransitivity; [exact E|]. simpl List.concat.
        rewrite len_app, <- app_assoc. simpl. f_equal. f_equal. lia.
      * simpl List.concat. rewrite len_app. lia.
    + exists [], (value :: source). simpl. rewrite len_nil, app_nil_r, Z.add_0_r.
      repeat split; auto; lia.
Qed.

Lemma allocate_ok s n :
  rope_ok s -> n <= len (pending s) ->
  exists s', allocate (Fin n) s = Ok (tt, s') /\
    rope_ok s' /\ pending s' = pending s /\ n <= byteLength s' /\ same_env s s'.
Proof.
  intros [Hh Hbl] Hn. unfold pending in Hn. rewrite len_app in Hn.
  destruct (allocate_loop_ok (iter s) n (chunks s) (byteLength s))
    as (pulled & source' & Hsrc & E & Hb); [lia|].
  unfold allocate. rewrite E. eexists. split; [reflexivity|].
  pose proof (head_ok_le _ _ Hh) as Hoff.
  assert (Hun : skipn (Z.to_nat (offset s)) (List.concat (chunks s ++ pulled))
                = unread s ++ List.concat pulled).
  { rewrite concat_app. apply skipn_app_le. exact Hoff. }
  unfold rope_ok, pending, same_env. unfold unread at 1 2. simpl.
  rewrite Hun. split; [split|split; [|split; [|split; reflexivity]]].
  - destruct Hh as [H0 | (c & cs' & Ec & H)]; [left; exact H0|].
    right. exists c, (cs' ++ pulled). rewrite Ec. split; [reflexivity | exact H].
  - rewrite len_app. lia.
  - rewrite Hsrc, concat_app, <- app_assoc. reflexivity.
  - lia.
Qed.

Lemma advance_ok s n :
  rope_ok s -> 0 <= n <= byteLength s ->
  exists s', advance (Fin n) s = Ok (firstn (Z.to_nat n) (unread s), s') /\
    rope_ok s' /\ unread s' = skipn (Z.to_nat n) (unread s) /\
    iter s' = iter s /\ same_env s s'.
Proof.
  intros [Hh Hbl] Hn. unfold advance.
  replace (byteLength s <? n) with false by (symmetry; apply Z.ltb_ge; lia).
  destruct (advance_loop_ok (chunks s) n 0 0%nat [] (offset s) (byteLength s))
    as (k & offset' & E & Hh' & Hrest); [exact Hh | lia | |].
  { unfold unread in Hbl. lia. }
  rewrite E. rewrite Z.sub_0_r in *. simpl app. eexists. split; [reflexivity|].
  unfold rope_ok, unread, same_env. simpl.
  rewrite Hrest. repeat split; auto.
  pose proof (head_ok_le _ _ Hh).
  rewrite len_skipn; [unfold unread in Hbl; lia|].
  unfold unread in Hbl. lia.
Qed.

(** [allocate(n)] then [advance(n)] when [n] bytes are still to come. *)
Lemma read_ok s n :
  rope_ok s -> 0 <= n <= len (pending s) ->
  exists sa s', allocate (Fin n) s = Ok (tt, sa) /\
    advance (Fin n) sa = Ok (firstn (Z.to_nat n) (pending s), s') /\
    rope_ok s' /\ pending s' = skipn (Z.to_nat n) (pending s) /\ same_env s s'.
Proof.
  intros Hok Hn.
  destruct (allocate_ok s n Hok) as (sa & Ea & Hoka & Hp & Hb & He1); [lia|].
  destruct (advance_ok sa n Hoka) as (s' & Eb & Hok' & Hu & Hi & He2); [lia|].
  exists sa, s'. split; [exact Ea|].
  assert (Hlen : n <= len (unread sa)) by (destruct Hoka as [_ <-]; exact Hb).
  unfold pending in *. rewrite <- Hp.
  rewrite firstn_app_le by exact Hlen.
  split; [exact Eb|]. split; [exact Hok'|]. split.
  - rewrite Hu, Hi. symmetry. apply skipn_app_le. lia.
  - destruct He1, He2. split; congruence.
Qed.

End RopeFacts.

(** ** The streaming decoder follows the in-memory decoder *)

Module StreamFacts.

Section Stream.

Variable data : list byte.
Variable options : DecodeOptions.

Local Abbreviation simS := (simQ offset_le (within (len data)) (rope_rel data)).

(** Reading [n] bytes where the in-memory decoder stays inside the array. *)
Lemma stream_read s1 s2 o n :
  rope_rel data s1 s2 -> Decoder.offset s1 = Fin o -> 0 <= n ->
  o + n <= len data ->
  exists sa s2',
    StreamDecoder.allocate (Fin n) s2 = Ok (tt, sa) /\
    StreamDecoder.advance (Fin n) sa = Ok (subarray data o n, s2') /\
    rope_rel data (Decoder.set_offset (Fin (o + n)) s1) s2'.
Proof.
  intros (o' & Ho' & Hpos & Hp & Hok & Hk & Hkp) Ho Hn Hb.
  rewrite Ho in Ho'. inversion Ho'; subst o'. clear Ho'.
  destruct (RopeFacts.read_ok s2 n Hok) as (sa & s2' & Ea & Eb & Hok' & Hp' & He1 & He2).
  { rewrite Hp, len_skipn by lia. lia. }
  exists sa, s2'. split; [exact Ea|]. split.
  - rewrite Eb, Hp. reflexivity.
  - exists (o + n). split; [reflexivity|]. split; [lia|].
    split; [rewrite Hp', Hp; apply skipn_skipn_Z; lia|].
    split; [exact Hok'|]. simpl. split; congruence.
Qed.


Lemma uint_inv size s v s' :
  Decoder.uint data size s = Ok (v, s') ->
  exists o, Decoder.offset s = Fin o /\ 0 <= o /\ o + size <= len data /\
    v = be_value (subarray data o size) /\
    s' = Decoder.set_offset (Fin (o + size)) s.
Proof.
  unfold Decoder.uint, Decoder.constant, Decoder.view_get, Decoder.add_offset.
  intros H. apply bind_Ok in H. destruct H as (x & sx & H1 & H2).
  apply bind_Ok in H1. destruct H1 as (bs & sb & H0 & H1).
  destruct (Decoder.offset s) as [o|] eqn:Eo; [|discriminate].
  destruct ((0 <=? o) && (o + size <=? len data)) eqn:E; [|discriminate].
  apply andb_prop in E. destruct E as [E1 E2].
  apply Z.leb_le in E1. apply Z.leb_le in E2.
  inversion H0; subst. inv_run. exists o.
  repeat split; auto. unfold modify in *. 
  match goal with H : Ok _ = Ok _ |- _ => inversion H; subst end.
  rewrite Eo. reflexivity.
Qed.

Lemma preserves_offset_uint size : 0 <= size -> preserves offset_le (Decoder.uint data size).
Proof.
  intros Hs s v s' H. apply uint_inv in H.
  destruct H as (o & Ho & _ & _ & _ & ->). unfold offset_le. rewrite Ho. simpl. lia.
Qed.

Lemma simS_uint size :
  0 <= size -> simS (Decoder.uint data size) (StreamDecoder.uint size).
Proof.
  intros Hs s1 v s1' H. split; [eapply preserves_offset_uint; eauto|].
  apply uint_inv in H. destruct H as (o & Ho & Hpos & Hb & -> & ->).
  intros _ s2 Hrel.
  destruct (stream_read s1 s2 o size Hrel Ho Hs Hb) as (sa & s2' & Ea & Eb & Hrel').
  exists s2'. split; [|exact Hrel'].
  unfold StreamDecoder.uint, StreamDecoder.fill.
  rewrite (bind_Ok_intro _ _ _ _ _ Ea), (bind_Ok_intro _ _ _ _ _ Eb). reflexivity.
Qed.


Lemma length_subarray_full {A} (l : list A) o n :
  0 <= o -> 0 <= n -> o + n <= len l -> List.length (subarray l o n) = Z.to_nat n.
Proof.
  unfold subarray, len. intros Ho Hn Hb.
  rewrite length_firstn, length_skipn. lia.
Qed.

(** What is known when an in-memory step ended inside the array after moving
    the offset by [n]. *)
Lemma within_add s n :
  jsnum_nonneg n ->
  within (len data) (Decoder.set_offset (jsnum_add (Decoder.offset s) n) s) ->
  forall s2, rope_rel data s s2 ->
  exists o k, Decoder.offset s = Fin o /\ n = Fin k /\ 0 <= o /\ 0 <= k /\
              o + k <= len data.
Proof.
  intros Hn Hq s2 (o & Ho & Hpos & _). unfold within in Hq. simpl in Hq.
  rewrite Ho in Hq. destruct n as [k|]; simpl in *; [|tauto].
  exists o, k. repeat split; auto.
Qed.

Lemma simS_decodeBytes n :
  jsnum_nonneg n -> simS (Decoder.decodeBytes data n) (StreamDecoder.decodeBytes n).
Proof.
  intros Hn s1 a s1' H.
  split; [eapply DecoderFacts.preserves_decodeBytes; eauto; intros; apply jsnum_le_add; auto|].
  unfold Decoder.decodeBytes in H. destruct n as [n|]; [|discriminate].
  inversion H; subst. clear H. intros Hq s2 Hrel.
  destruct (within_add s1 (Fin n) Hn Hq s2 Hrel) as (o & k & Ho & Hk & Hpos & Hkpos & Hb).
  inversion Hk; subst k. clear Hk.
  destruct (stream_read s1 s2 o n Hrel Ho Hkpos Hb) as (sa & s2' & Ea & Eb & Hrel').
  exists s2'. unfold StreamDecoder.decodeBytes, StreamDecoder.fill.
  rewrite (bind_Ok_intro _ _ _ _ _ Ea), (bind_Ok_intro _ _ _ _ _ Eb).
  rewrite Ho. simpl. rewrite length_subarray_full by lia.
  rewrite Nat.sub_diag. simpl. rewrite app_nil_r. split; [reflexivity | exact Hrel'].
Qed.

Lemma simS_decodeString n :
  jsnum_nonneg n ->
  simS (Decoder.decodeString data options n) (StreamDecoder.decodeString options n).
Proof.
  intros Hn s1 a s1' H.
  split; [eapply DecoderFacts.preserves_decodeString; eauto; intros; apply jsnum_le_add; auto|].
  unfold Decoder.decodeString in H.
  inversion H; subst. clear H. intros Hq s2 Hrel.
  destruct (within_add s1 n Hn Hq s2 Hrel) as (o & k & Ho & -> & Hpos & Hkpos & Hb).
  destruct (stream_read s1 s2 o k Hrel Ho Hkpos Hb) as (sa & s2' & Ea & Eb & Hrel').
  exists s2'. unfold StreamDecoder.decodeString, StreamDecoder.fill.
  rewrite (bind_Ok_intro _ _ _ _ _ Ea), (bind_Ok_intro _ _ _ _ _ Eb).
  rewrite Ho. simpl. split; [reflexivity | exact Hrel'].
Qed.

(** Skipping a payload: [this.#offset += n] against [allocate(n); advance(n)]. *)
Lemma simS_skip n :
  jsnum_nonneg n -> simS (Decoder.add_offset n) (StreamDecoder.skipBytes n).
Proof.
  intros Hn s1 a s1' H.
  split; [eapply TrailingFacts.preserves_offset_add; eauto|].
  unfold Decoder.add_offset, modify in H.
  inversion H; subst. clear H. intros Hq s2 Hrel.
  destruct (within_add s1 n Hn Hq s2 Hrel) as (o & k & Ho & -> & Hpos & Hkpos & Hb).
  destruct (stream_read s1 s2 o k Hrel Ho Hkpos Hb) as (sa & s2' & Ea & Eb & Hrel').
  exists s2'. unfold StreamDecoder.skipBytes.
  rewrite (bind_Ok_intro _ _ _ _ _ Ea), (bind_Ok_intro _ _ _ _ _ Eb).
  rewrite Ho. simpl. split; [reflexivity | exact Hrel'].
Qed.

Lemma simS_get_env : simS Decoder.get_env StreamDecoder.get_env.
Proof.
  intros s1 a s1' H. inversion H; subst. split; [apply jsnum_le_refl|].
  intros _ s2 Hrel. exists s2. split; [|exact Hrel].
  destruct Hrel as (o & _ & _ & _ & _ & Hk & Hkp).
  unfold StreamDecoder.get_env. rewrite Hk, Hkp. reflexivity.
Qed.

Lemma simS_set_isKey b :
  simS (modify (Decoder.set_isKey b)) (modify (StreamDecoder.set_isKey b)).
Proof.
  intros s1 a s1' H. inversion H; subst. split; [apply jsnum_le_refl|].
  intros _ s2 (o & Ho & Hpos & Hp & Hok & Hk & Hkp).
  eexists. split; [reflexivity|]. exists o. repeat split; auto; apply Hok.
Qed.

Lemma simS_pushKey key : simS (Decoder.pushKey key) (StreamDecoder.pushKey key).
Proof.
  intros s1 a s1' H. inversion H; subst. split; [apply jsnum_le_refl|].
  intros _ s2 (o & Ho & Hpos & Hp & Hok & Hk & Hkp).
  eexists. split; [reflexivity|]. exists o. simpl. rewrite Hkp.
  repeat split; auto; apply Hok.
Qed.

Lemma simS_popKey : simS Decoder.popKey StreamDecoder.popKey.
Proof.
  intros s1 a s1' H. inversion H; subst. split; [apply jsnum_le_refl|].
  intros _ s2 (o & Ho & Hpos & Hp & Hok & Hk & Hkp).
  eexists. split; [reflexivity|]. exists o. simpl. rewrite Hkp.
  repeat split; auto; apply Hok.
Qed.

(** The duplicate-key test of the in-memory decoder only removes runs. *)
Lemma simS_guard {A} (b : bool) e (m1 : M Decoder.State A) (m2 : M StreamDecoder.State A) :
  simS m1 m2 -> simS (if b then throw e else m1) m2.
Proof. intros H. destruct b; [apply sim_throw | exact H]. Qed.


Ltac stream_step :=
  match goal with
  | |- simQ _ _ _ (bind (Decoder.uint _ _) _) (bind (StreamDecoder.uint _) _) =>
    apply simQ_bind_post with (R := fun v => 0 <= v);
    [solve [eauto] | solve [eauto] | apply simS_uint; lia
    | apply DecoderFacts.returns_uint | intros ? ?]
  | |- simQ _ _ _ (bind (Decoder.getArgument _ _) _)
                  (bind (StreamDecoder.getArgument _) _) =>
    apply simQ_bind_post with (R := fun a => jsnum_nonneg (arg_value a));
    [solve [eauto] | solve [eauto] | solve [eauto]
    | apply DecoderFacts.returns_getArgument; apply Z.land_nonneg; left; assumption
    | intros ? ?]
  | |- simQ _ _ _ (Decoder.decodeBytes _ _) (StreamDecoder.decodeBytes _) =>
    apply simS_decodeBytes; assumption
  | |- simQ _ _ _ (Decoder.decodeString _ _ _) (StreamDecoder.decodeString _ _) =>
    apply simS_decodeString; assumption
  | |- simQ _ _ _ (Decoder.add_offset _) (StreamDecoder.skipBytes _) =>
    apply simS_skip; solve [simpl; auto; lia]
  | |- simQ _ _ _ Decoder.get_env StreamDecoder.get_env => apply simS_get_env
  | |- simQ _ _ _ (modify (Decoder.set_isKey _)) _ => apply simS_set_isKey
  | |- simQ _ _ _ (Decoder.pushKey _) _ => apply simS_pushKey
  | |- simQ _ _ _ Decoder.popKey _ => apply simS_popKey
  | |- simQ _ _ _ (if key_in _ _ then throw _ else _) _ => apply simS_guard
  | _ => sim_step
  end.

Lemma simS_getArgument ai :
  simS (Decoder.getArgument data ai) (StreamDecoder.getArgument ai).
Proof.
  pose proof TrailingFacts.offset_le_refl. pose proof TrailingFacts.offset_le_trans.
  pose proof (TrailingFacts.within_closed data).
  unfold Decoder.getArgument, StreamDecoder.getArgument.
  unfold Decoder.uint8, Decoder.uint16, Decoder.uint32, Decoder.uint64.
  unfold StreamDecoder.uint8, StreamDecoder.uint16, StreamDecoder.uint32,
    StreamDecoder.uint64.
  repeat stream_step.
Qed.

Lemma simS_skipValue fuel :
  simS (Decoder.skipValue data options fuel) (StreamDecoder.skipValue options fuel) /\
  (forall i n, simS (Decoder.skipValues data options fuel i n)
                    (StreamDecoder.skipValues options fuel i n)).
Proof.
  pose proof TrailingFacts.offset_le_refl. pose proof TrailingFacts.offset_le_trans.
  pose proof (TrailingFacts.within_closed data). pose proof simS_getArgument.
  induction fuel as [|fuel [IHv IHs]].
  - split; [apply sim_out_of_fuel|].
    intros i n. simpl. destruct (lt_jsnum i n); repeat sim_step.
  - split.
    + with_strategy opaque [Z.sub Z.pow Z.add Z.mul] simpl.
      unfold Decoder.uint8, StreamDecoder.uint8.
      repeat stream_step; auto using DecoderFacts.jsnum_nonneg_double.
    + intros i n.
      with_strategy opaque [Z.sub Z.pow Z.add Z.mul Decoder.skipValue
                            StreamDecoder.skipValue] simpl.
      destruct (lt_jsnum i n); repeat stream_step; auto.
Qed.

Lemma simS_decodeValue fuel :
  simS (Decoder.decodeValue data options fuel) (StreamDecoder.decodeValue options fuel) /\
  (forall i n value, simS (Decoder.decodeItems data options fuel i n value)
                          (StreamDecoder.decodeItems options fuel i n value)) /\
  (forall i n value, simS (Decoder.decodeEntries data options fuel i n value)
                          (StreamDecoder.decodeEntries options fuel i n value)).
Proof.
  pose proof TrailingFacts.offset_le_refl. pose proof TrailingFacts.offset_le_trans.
  pose proof (TrailingFacts.within_closed data). pose proof simS_getArgument.
  induction fuel as [|fuel (IHv & IHi & IHe)].
  - split; [apply sim_out_of_fuel|].
    split; intros i n value; simpl; destruct (lt_jsnum i n); repeat sim_step.
  - pose proof (simS_skipValue fuel) as [_ Hskip].
    split; [|split].
    + with_strategy opaque [Z.sub Z.pow Z.add Z.mul] simpl.
      unfold Decoder.float16, Decoder.float32, Decoder.float64, Decoder.uint8.
      unfold StreamDecoder.float16, StreamDecoder.float32, StreamDecoder.float64,
        StreamDecoder.uint8.
      unfold Decoder.scalar, StreamDecoder.scalar.
      unfold Decoder.on_value, StreamDecoder.on_value, Decoder.on_key,
        StreamDecoder.on_key.
      repeat stream_step; auto.
    + intros i n value.
      with_strategy opaque [Z.sub Z.pow Z.add Z.mul Decoder.decodeValue
                            StreamDecoder.decodeValue] simpl.
      destruct (lt_jsnum i n); repeat stream_step; auto.
    + intros i n value.
      with_strategy opaque [Z.sub Z.pow Z.add Z.mul Decoder.decodeValue
                            StreamDecoder.decodeValue] simpl.
      destruct (lt_jsnum i n); repeat stream_step; auto.
Qed.

End Stream.
End StreamFacts.

Module IterateFacts.

Section Iterate.

Variable data : list byte.
Variable options : DecodeOptions.

Lemma decodeAll_offset_le fuel n :
  preserves offset_le (decodeAll data options fuel n).
Proof.
  induction n as [|n IH]; intros s vs s' H; simpl in H;
    destruct (match Decoder.offset s with Fin o => o <? len data | Infinity => false end);
    try discriminate; try (inversion H; subst; apply jsnum_le_refl).
  apply bind_Ok in H. destruct H as (v & sa & H1 & H2).
  apply bind_Ok in H2. destruct H2 as (vs' & sb & H2 & H3).
  inversion H3; subst.
  eapply jsnum_le_trans; [eapply DecoderFacts.decodeValue_offset_le; eauto|].
  eapply IH; eauto.
Qed.

Lemma next_loop_None source :
  List.concat source = [] -> StreamDecoder.next_loop source = None.
Proof.
  induction source as [|value source IH]; intros H; [reflexivity|].
  simpl in *. apply app_eq_nil in H. destruct H as [-> H].
  simpl. apply IH, H.
Qed.

Lemma next_loop_Some source :
  List.concat source <> [] ->
  exists value source', StreamDecoder.next_loop source = Some (value, source') /\
    List.concat source = value ++ List.concat source'.
Proof.
  induction source as [|value source IH]; intros H; [contradiction|].
  simpl. destruct value as [|b value].
  - simpl in *. apply IH, H.
  - exists (b :: value), source. rewrite len_cons.
    pose proof (len_nonneg value).
    replace (0 <? 1 + len value) with true by (symmetry; apply Z.ltb_lt; lia).
    split; reflexivity.
Qed.

(** [next] pushing the first non-empty chunk onto a rope without unread
    bytes. *)
Lemma rope_rel_push s1 s2 value source' :
  rope_rel data s1 s2 -> StreamDecoder.byteLength s2 = 0 ->
  List.concat (StreamDecoder.iter s2) = value ++ List.concat source' ->
  rope_rel data s1
    {| StreamDecoder.offset := StreamDecoder.offset s2;
       StreamDecoder.byteLength := StreamDecoder.byteLength s2 + len value;
       StreamDecoder.chunks := StreamDecoder.chunks s2 ++ [value];
       StreamDecoder.iter := source';
       StreamDecoder.freed := StreamDecoder.freed s2;
       StreamDecoder.isKey := StreamDecoder.isKey s2;
       StreamDecoder.keyPath := StreamDecoder.keyPath s2 |}.
Proof.
  intros (o & Ho & Hpos & Hp & [Hh Hbl] & Hk & Hkp) Hz Hsrc.
  pose proof (RopeFacts.head_ok_le _ _ Hh) as Hoff.
  assert (Hun : unread s2 = []).
  { rewrite Hz in Hbl. unfold len in Hbl. destruct (unread s2); [reflexivity|].
    simpl in Hbl. lia. }
  exists o. split; [exact Ho|]. split; [exact Hpos|].
  unfold pending, rope_ok, unread in *. simpl.
  rewrite concat_app. simpl List.concat. rewrite app_nil_r.
  rewrite skipn_app_le by exact Hoff. rewrite Hun in *. simpl in *.
  split; [rewrite <- Hp, Hsrc; reflexivity|].
  split; [|split; assumption].
  split; [|lia].
  destruct Hh as [H0 | (c & cs' & Ec & H)]; [left; exact H0|].
  right. exists c, (cs' ++ [value]). rewrite Ec. split; [reflexivity | exact H].
Qed.

(** Iterating the streaming decoder yields the values of decode-all. *)
Lemma iterate_follows fuel n :
  forall s1 s2 vs s1',
    rope_rel data s1 s2 ->
    decodeAll data options fuel n s1 = Ok (vs, s1') ->
    Decoder.offset s1' = Fin (len data) ->
    exists t', StreamDecoder.iterate options fuel (S n) s2
               = (vs, StreamDecoder.Completed, t').
Proof.
  induction n as [|n IH]; intros s1 s2 vs s1' Hrel Hall Hend.
  - (* no value left *)
    simpl in Hall.
    destruct Hrel as (o & Ho & Hpos & Hp & [Hh Hbl] & Hk & Hkp).
    rewrite Ho in Hall. destruct (Z.ltb_spec o (len data)); [discriminate|].
    inversion Hall; subst. rewrite Ho in Hend. inversion Hend; subst o.
    rewrite skipn_all2 in Hp by (unfold len; lia).
    unfold pending in Hp. apply app_eq_nil in Hp. destruct Hp as [Hu Hi].
    rewrite Hu in Hbl. simpl. unfold StreamDecoder.next.
    rewrite Hbl. simpl. rewrite (next_loop_None _ Hi). eexists. reflexivity.
  - simpl in Hall. pose proof Hrel as (o & Ho & Hpos & Hp & [Hh Hbl] & Hk & Hkp).
    rewrite Ho in Hall. destruct (Z.ltb_spec o (len data)) as [Hlt|Hge].
    + apply bind_Ok in Hall. destruct Hall as (v & sa & H1 & H2).
      apply bind_Ok in H2. destruct H2 as (vs' & sb & H2 & H3).
      inversion H3; subst. clear H3.
      assert (Hq : within (len data) sa).
      { unfold within. pose proof (decodeAll_offset_le fuel n _ _ _ H2) as Hle.
        unfold offset_le in Hle. rewrite Hend in Hle. exact Hle. }
      destruct (StreamFacts.simS_decodeValue data options fuel) as [Hsim _].
      destruct (Hsim _ _ _ H1) as [_ Hs].
      assert (Hnext : exists ta, StreamDecoder.next options fuel s2 = Ok (Some v, ta)
                                 /\ rope_rel data sa ta).
      { unfold StreamDecoder.next.
        destruct (Z.eqb_spec (StreamDecoder.byteLength s2) 0) as [Hz|Hnz].
        - assert (Hne : List.concat (StreamDecoder.iter s2) <> []).
          { intros Hnil. rewrite Hz in Hbl. unfold pending in Hp.
            rewrite Hnil, app_nil_r in Hp.
            assert (len (skipn (Z.to_nat o) data) = 0) by (rewrite <- Hp; lia).
            rewrite len_skipn in * by lia. lia. }
          destruct (next_loop_Some _ Hne) as (value & source' & En & Hsrc).
          rewrite En.
          match goal with
          | |- context [StreamDecoder.decodeValue options fuel ?st] =>
            destruct (Hs Hq st (rope_rel_push s1 s2 value source' Hrel Hz Hsrc))
              as (ta & Ea & Hrela)
          end.
          rewrite Ea. exists ta. split; [reflexivity | exact Hrela].
        - destruct (Hs Hq s2 Hrel) as (ta & Ea & Hrela).
          rewrite Ea. exists ta. split; [reflexivity | exact Hrela]. }
      destruct Hnext as (ta & En & Hrela).
      destruct (IH sa ta vs' s1' Hrela H2 Hend) as (t' & Eit).
      exists t'. change (StreamDecoder.iterate options fuel (S (S n)) s2)
        with (match StreamDecoder.next options fuel s2 with
              | Ok (None, s') => ([], StreamDecoder.Completed, s')
              | Ok (Some v, s') =>
                let '(vs, out, s'') := StreamDecoder.iterate options fuel (S n) s' in
                (v :: vs, out, s'')
              | Throw e => ([], StreamDecoder.Failed e, s2)
              | OutOfFuel => ([], StreamDecoder.Exhausted, s2)
              end).
      rewrite En, Eit. reflexivity.
    + inversion Hall; subst. rewrite Ho in Hend. inversion Hend; subst o.
      rewrite skipn_all2 in Hp by (unfold len; lia).
      unfold pending in Hp. apply app_eq_nil in Hp. destruct Hp as [Hu Hi].
      rewrite Hu in Hbl. 
      change (StreamDecoder.iterate options fuel (S (S n)) s2)
        with (match StreamDecoder.next options fuel s2 with
              | Ok (None, s') => ([], StreamDecoder.Completed, s')
              | Ok (Some v, s') =>
                let '(vs, out, s'') := StreamDecoder.iterate options fuel (S n) s' in
                (v :: vs, out, s'')
              | Throw e => ([], StreamDecoder.Failed e, s2)
              | OutOfFuel => ([], StreamDecoder.Exhausted, s2)
              end).
      unfold StreamDecoder.next.
      rewrite Hbl. simpl. rewrite (next_loop_None _ Hi). eexists. reflexivity.
Qed.

Lemma rope_rel_init chunks :
  List.concat chunks = data -> rope_rel data Decoder.init (StreamDecoder.init chunks).
Proof.
  intros H. exists 0. unfold pending, unread, rope_ok, head_ok. simpl.
  repeat split; auto; lia.
Qed.

(** Chunking irrelevance, for the byte sequences that the in-memory decoder
    decodes to their end: whatever the partition into chunks and whatever the
    hooks, the streaming decoder yields the same values and completes. *)
Lemma streaming_follows_in_memory chunks fuel n vs s' :
  List.concat chunks = data ->
  decodeAll data options fuel n Decoder.init = Ok (vs, s') ->
  Decoder.offset s' = Fin (len data) ->
  fst (StreamDecoder.decodeIterable options fuel (S n) chunks)
  = (vs, StreamDecoder.Completed).
Proof.
  intros Hc Hall Hend.
  destruct (iterate_follows fuel n _ _ _ _ (rope_rel_init chunks Hc) Hall Hend)
    as (t' & E).
  unfold StreamDecoder.decodeIterable. rewrite E. reflexivity.
Qed.

End Iterate.
End IterateFacts.

(** ** Skipping well-formed items *)

Lemma initial_major b major ai : initial b major ai -> Z.shiftr (b2z b) 5 = major.
Proof.
  intros (E & Hm & Ha). rewrite E, Z.shiftr_div_pow2 by lia.
  change (2 ^ 5) with 32.
  replace (major * 32 + ai) with (ai + major * 32) by lia.
  rewrite Z.div_add by lia. rewrite Z.div_small by lia. reflexivity.
Qed.

Lemma initial_ai b major ai : initial b major ai -> Z.land (b2z b) 31 = ai.
Proof.
  intros (E & Hm & Ha). change 31 with (Z.ones 5). rewrite Z.land_ones by lia.
  change (2 ^ 5) with 32. rewrite E.
  replace (major * 32 + ai) with (ai + major * 32) by lia.
  rewrite Z.mod_add by lia. apply Z.mod_small. lia.
Qed.

Module ItemFacts.
Import Decoder.

Section Items.

Variable data : list byte.
Variable options : DecodeOptions.

Lemma set_offset_same o s : offset s = o -> set_offset o s = s.
Proof. intros <-. destruct s; reflexivity. Qed.

(** Reading the head of an item that starts at the end of [pre]. *)
Lemma head_read major n h pre post s :
  head major n h -> data = pre ++ h ++ post -> offset s = Fin (len pre) ->
  exists b a,
    uint8 data s = Ok (b2z b, set_offset (Fin (len pre + 1)) s) /\
    Z.shiftr (b2z b) 5 = major /\
    getArgument data (Z.land (b2z b) 31) (set_offset (Fin (len pre + 1)) s)
    = Ok (a, set_offset (Fin (len pre + len h)) s) /\
    arg_value a = Fin n /\ 0 <= n /\
    (arg_uint64 a = None \/ (arg_uint64 a = Some n /\ n <= Utils.maxSafeInteger)).
Proof.
  intros Hh Hd Ho. destruct Hh as [b n Hi Hn | b ai w arg Hi Hw Hl Hsafe].
  - exists b. eexists. split; [eapply ReadFacts.uint8_at; eauto|].
    split; [eapply initial_major; eauto|].
    rewrite (initial_ai _ _ _ Hi). unfold getArgument.
    replace (n <? 24) with true by (symmetry; apply Z.ltb_lt; exact Hn).
    change (len [b]) with 1. split; [reflexivity|].
    destruct Hi as (_ & _ & Ha). simpl. repeat split; auto; lia.
  - exists b.
    assert (Hu : uint data (len arg) (set_offset (Fin (len pre + 1)) s)
                 = Ok (be_value arg, set_offset (Fin (len pre + len (b :: arg))) s)).
    { rewrite (ReadFacts.uint_at data (pre ++ [b]) arg post).
      - unfold set_offset. simpl.
        replace (len (pre ++ [b]) + len arg) with (len pre + len (b :: arg));
          [reflexivity|].
        rewrite len_app, !len_cons, len_nil. lia.
      - rewrite <- app_assoc. exact Hd.
      - rewrite len_app. reflexivity. }
    pose proof (be_value_nonneg arg) as Hnn.
    rewrite (initial_ai _ _ _ Hi).
    assert (Hlen : len arg = Z.of_nat w) by (unfold len; rewrite Hl; reflexivity).
    unfold arg_width in Hw. unfold getArgument, uint8, uint16, uint32, uint64.
    destruct (Z.eqb_spec ai 24) as [->|N24].
    { injection Hw as Hw'. rewrite <- Hw' in Hlen. change (Z.of_nat 1) with 1 in Hlen.
      rewrite Hlen in Hu.
      eexists. split; [eapply ReadFacts.uint8_at; eauto|].
      split; [eapply initial_major; eauto|].
      change (24 <? 24) with false. cbv iota.
      rewrite (bind_Ok_intro _ _ _ _ _ Hu).
      split; [reflexivity|]. simpl. auto. }
    destruct (Z.eqb_spec ai 25) as [->|N25].
    { injection Hw as Hw'. rewrite <- Hw' in Hlen. change (Z.of_nat 2) with 2 in Hlen.
      rewrite Hlen in Hu.
      eexists. split; [eapply ReadFacts.uint8_at; eauto|].
      split; [eapply initial_major; eauto|].
      change (25 <? 24) with false. cbv iota.
      rewrite (bind_Ok_intro _ _ _ _ _ Hu).
      split; [reflexivity|]. simpl. auto. }
    destruct (Z.eqb_spec ai 26) as [->|N26].
    { injection Hw as Hw'. rewrite <- Hw' in Hlen. change (Z.of_nat 4) with 4 in Hlen.
      rewrite Hlen in Hu.
      eexists. split; [eapply ReadFacts.uint8_at; eauto|].
      split; [eapply initial_major; eauto|].
      change (26 <? 24) with false. cbv iota.
      rewrite (bind_Ok_intro _ _ _ _ _ Hu).
      split; [reflexivity|]. simpl. auto. }
    destruct (Z.eqb_spec ai 27) as [->|N27]; [|discriminate].
    injection Hw as Hw'. rewrite <- Hw' in Hlen. change (Z.of_nat 8) with 8 in Hlen.
      rewrite Hlen in Hu.
    eexists. split; [eapply ReadFacts.uint8_at; eauto|].
    split; [eapply initial_major; eauto|].
    change (27 <? 24) with false. cbv iota.
    rewrite (bind_Ok_intro _ _ _ _ _ Hu).
    replace (Utils.maxSafeInteger <? be_value arg) with false
      by (symmetry; apply Z.ltb_ge; exact Hsafe).
    split; [reflexivity|]. simpl. auto.
Qed.


Local Abbreviation skips := (skips data options).
Local Abbreviation skips_one := (skips_one data options).

Lemma skips_nil : skips 0 [].
Proof.
  exists 0%nat. intros fuel _ pre post s i Hd Ho.
  replace (i + Z.of_nat 0) with i by lia.
  destruct fuel; simpl; rewrite Z.ltb_irrefl;
    rewrite len_nil, Z.add_0_r, set_offset_same by exact Ho; reflexivity.
Qed.

Lemma skips_cons k item rest :
  skips_one item -> skips k rest -> skips (S k) (item ++ rest).
Proof.
  intros [N1 H1] [N2 H2]. exists (S (Nat.max N1 N2)).
  intros fuel Hf pre post s i Hd Ho.
  destruct fuel as [|fuel]; [lia|].
  with_strategy opaque [Z.add Z.of_nat skipValue] simpl.
  replace (i <? i + Z.of_nat (S k)) with true by (symmetry; apply Z.ltb_lt; lia).
  rewrite <- app_assoc in Hd.
  rewrite (bind_Ok_intro _ _ _ _ _ (H1 fuel ltac:(lia) pre (rest ++ post) s Hd Ho)).
  replace (i + Z.of_nat (S k)) with (i + 1 + Z.of_nat k) by lia.
  rewrite (H2 fuel ltac:(lia) (pre ++ item) post _ (i + 1)).
  - unfold set_offset. simpl. rewrite !len_app.
    replace (len pre + len item + len rest) with (len pre + (len item + len rest)) by lia.
    reflexivity.
  - rewrite <- app_assoc. exact Hd.
  - rewrite len_app. reflexivity.
Qed.


(** [skipValue] on an item that starts with a head: the first byte and the
    argument are read, the rest is decided by the major type. *)
Ltac skip_head Hh Hd Ho :=
  let b := fresh "b" in let a := fresh "a" in
  let Eu := fresh "Eu" in let Em := fresh "Em" in let Ea := fresh "Ea" in
  let Hv := fresh "Hv" in let Hn := fresh "Hn" in let Hu := fresh "Hu" in
  destruct (head_read _ _ _ _ _ _ Hh Hd Ho) as (b & a & Eu & Em & Ea & Hv & Hn & Hu);
  with_strategy opaque [Z.add Z.of_nat Z.mul skipValues getArgument uint8] simpl;
  rewrite (bind_Ok_intro _ _ _ _ _ Eu); rewrite Em;
  cbn [Z.eqb Pos.eqb orb];
  rewrite (bind_Ok_intro _ _ _ _ _ Ea).

Lemma skips_one_int major n h :
  major = 0 \/ major = 1 -> head major n h -> skips_one h.
Proof.
  intros Hm Hh. exists 1%nat. intros fuel Hf pre post s Hd Ho.
  destruct fuel as [|fuel]; [lia|].
  destruct Hm; subst major; skip_head Hh Hd Ho; reflexivity.
Qed.

Lemma skips_one_string major n h payload :
  major = 2 \/ major = 3 -> head major n h -> len payload = n ->
  skips_one (h ++ payload).
Proof.
  intros Hm Hh Hp. exists 1%nat. intros fuel Hf pre post s Hd Ho.
  destruct fuel as [|fuel]; [lia|]. rewrite <- app_assoc in Hd.
  destruct Hm; subst major; skip_head Hh Hd Ho; rewrite Hv;
    unfold add_offset, modify, set_offset; simpl;
    rewrite len_app, Hp;
    replace (len pre + len h + n) with (len pre + (len h + n)) by lia;
    reflexivity.
Qed.

Lemma skips_one_array c h body :
  head 4 (Z.of_nat c) h -> skips c body -> skips_one (h ++ body).
Proof.
  intros Hh [N Hb]. exists (S N). intros fuel Hf pre post s Hd Ho.
  destruct fuel as [|fuel]; [lia|]. rewrite <- app_assoc in Hd.
  skip_head Hh Hd Ho. rewrite Hv.
  rewrite (Hb fuel ltac:(lia) (pre ++ h) post _ 0).
  - unfold set_offset. simpl. rewrite !len_app.
    replace (len pre + len h + len body) with (len pre + (len h + len body)) by lia.
    reflexivity.
  - rewrite <- app_assoc. exact Hd.
  - rewrite len_app. reflexivity.
Qed.

Lemma skips_one_map c h body :
  head 5 (Z.of_nat c) h -> skips (2 * c) body -> skips_one (h ++ body).
Proof.
  intros Hh [N Hb]. exists (S N). intros fuel Hf pre post s Hd Ho.
  destruct fuel as [|fuel]; [lia|]. rewrite <- app_assoc in Hd.
  skip_head Hh Hd Ho. rewrite Hv. unfold jsnum_double.
  replace (Z.of_nat c * 2) with (0 + Z.of_nat (2 * c)) by lia.
  rewrite (Hb fuel ltac:(lia) (pre ++ h) post _ 0).
  - unfold set_offset. simpl. rewrite !len_app.
    replace (len pre + len h + len body) with (len pre + (len h + len body)) by lia.
    reflexivity.
  - rewrite <- app_assoc. exact Hd.
  - rewrite len_app. reflexivity.
Qed.


(** Items of major type 7: the initial byte is known. *)
Ltac skip_byte b Hd Ho :=
  with_strategy opaque [Z.add Z.of_nat Z.mul skipValues getArgument uint8] simpl;
  rewrite (bind_Ok_intro _ _ _ _ _ (ReadFacts.uint8_at _ _ b _ _ Hd Ho));
  let v := eval vm_compute in (b2z b) in change (b2z b) with v;
  let m := eval vm_compute in (Z.shiftr (b2z b) 5) in
  let ai := eval vm_compute in (Z.land (b2z b) 31) in
  change (Z.shiftr v 5) with m; change (Z.land v 31) with ai;
  cbn [Z.eqb Pos.eqb orb].

Lemma skips_one_simple b : b = xf4 \/ b = xf5 \/ b = xf6 -> skips_one [b].
Proof.
  intros Hb. exists 1%nat. intros fuel Hf pre post s Hd Ho.
  destruct fuel as [|fuel]; [lia|]. change (len [b]) with 1.
  destruct Hb as [-> | [-> | ->]].
  - skip_byte xf4 Hd Ho. reflexivity.
  - skip_byte xf5 Hd Ho. reflexivity.
  - skip_byte xf6 Hd Ho. reflexivity.
Qed.

Lemma skips_one_undefined : allowUndefined options = true -> skips_one [xf7].
Proof.
  intros Hu. exists 1%nat. intros fuel Hf pre post s Hd Ho.
  destruct fuel as [|fuel]; [lia|]. change (len [xf7]) with 1.
  skip_byte xf7 Hd Ho. rewrite Hu. reflexivity.
Qed.

Lemma skips_one_float b w payload :
  (b = xf9 /\ w = 2) \/ (b = xfa /\ w = 4) \/ (b = xfb /\ w = 8) ->
  len payload = w -> skips_one (b :: payload).
Proof.
  intros Hb Hp. exists 1%nat. intros fuel Hf pre post s Hd Ho.
  destruct fuel as [|fuel]; [lia|]. rewrite len_cons, Hp.
  destruct Hb as [[-> ->] | [[-> ->] | [-> ->]]].
  - skip_byte xf9 Hd Ho. unfold add_offset, modify, set_offset. simpl.
    replace (len pre + 1 + 2) with (len pre + (1 + 2)) by lia. reflexivity.
  - skip_byte xfa Hd Ho. unfold add_offset, modify, set_offset. simpl.
    replace (len pre + 1 + 4) with (len pre + (1 + 4)) by lia. reflexivity.
  - skip_byte xfb Hd Ho. unfold add_offset, modify, set_offset. simpl.
    replace (len pre + 1 + 8) with (len pre + (1 + 8)) by lia. reflexivity.
Qed.

Lemma len_of_length {A} (l : list A) n : List.length l = n -> len l = Z.of_nat n.
Proof. unfold len. intros ->. reflexivity. Qed.

(** The skip loop moves past a sequence of well-formed items. *)
Lemma wf_seq_skips k bs : wf_seq options k bs -> skips k bs.
Proof.
  induction 1 as [ | k n h rest Hh _ IH | k n h rest Hh _ _ IH
                 | k n h payload rest Hh Hp _ IH | k n h payload rest Hh Hp _ IH
                 | k c h body rest Hh _ IHb _ IH | k c h body rest Hh _ IHb _ IH
                 | k b rest Hb _ IH | k rest Hu _ IH
                 | k payload rest Hm Hp _ IH | k payload rest Hm Hp _ IH
                 | k payload rest Hp _ IH ].
  - apply skips_nil.
  - apply skips_cons; [|exact IH].
    apply (skips_one_int 0 n h); [left; reflexivity | exact Hh].
  - apply skips_cons; [|exact IH].
    apply (skips_one_int 1 n h); [right; reflexivity | exact Hh].
  - rewrite app_assoc. apply skips_cons; [|exact IH].
    apply (skips_one_string 2 n h payload); [left; reflexivity | exact Hh | exact Hp].
  - rewrite app_assoc. apply skips_cons; [|exact IH].
    apply (skips_one_string 3 n h payload); [right; reflexivity | exact Hh | exact Hp].
  - rewrite app_assoc. apply skips_cons; [|exact IH].
    apply (skips_one_array c h body); assumption.
  - rewrite app_assoc. apply skips_cons; [|exact IH].
    apply (skips_one_map c h body); assumption.
  - apply (skips_cons k [b] rest); [apply skips_one_simple; exact Hb | exact IH].
  - apply (skips_cons k [xf7] rest); [apply skips_one_undefined; exact Hu | exact IH].
  - apply (skips_cons k (xf9 :: payload) rest); [|exact IH].
    apply (skips_one_float xf9 2 payload);
      [left; split; reflexivity | apply (len_of_length payload 2 Hp)].
  - apply (skips_cons k (xfa :: payload) rest); [|exact IH].
    apply (skips_one_float xfa 4 payload);
      [right; left; split; reflexivity | apply (len_of_length payload 4 Hp)].
  - apply (skips_cons k (xfb :: payload) rest); [|exact IH].
    apply (skips_one_float xfb 8 payload);
      [right; right; split; reflexivity | apply (len_of_length payload 8 Hp)].
Qed.


Lemma wf_seq_0 bs : wf_seq options 0 bs -> bs = [].
Proof. intros H. inversion H. reflexivity. Qed.

Section Replaced.

Variable s : State.
Variable r : CBORValue.
Hypothesis Hrep : replaces options s r.

Lemma on_value_replaced length type :
  on_value options length type (keyPath s) = Some (Return r).
Proof.
  destruct Hrep as (_ & (h & E & Hh) & _). unfold on_value. rewrite E. simpl.
  rewrite Hh. reflexivity.
Qed.

Lemma on_key_replaced length :
  isKey s = true -> on_key options length = Some (Return r).
Proof.
  intros Hk. destruct Hrep as (_ & _ & Hkey).
  destruct (Hkey Hk) as (k & E & Hh). unfold on_key. rewrite E. simpl.
  rewrite Hh. reflexivity.
Qed.

Lemma replaced_defined : negb (is_undefined r) = true.
Proof. destruct Hrep as (E & _). rewrite E. reflexivity. Qed.

Lemma scalar_replaced v size type s1 :
  scalar options v size type (keyPath s) s1 = Ok (r, s1).
Proof.
  unfold scalar. rewrite on_value_replaced. simpl. unfold bind, ret.
  destruct Hrep as (E & _). rewrite E. reflexivity.
Qed.

End Replaced.


Lemma ok_set_offset {A} (x : A) o1 o2 o s :
  o1 = o2 ->
  Ok (x, set_offset (Fin o1) (set_offset o s)) = Ok (x, set_offset (Fin o2) s).
Proof. intros ->. reflexivity. Qed.

Ltac root_head Hh Hd Ho :=
  let b := fresh "b" in let a := fresh "a" in
  let Eu := fresh "Eu" in let Em := fresh "Em" in let Ea := fresh "Ea" in
  let Hv := fresh "Hv" in let Hn := fresh "Hn" in let Hu := fresh "Hu" in
  destruct (head_read _ _ _ _ _ _ Hh Hd Ho) as (b & a & Eu & Em & Ea & Hv & Hn & Hu);
  with_strategy opaque [Z.add Z.sub Z.of_nat Z.mul Z.pow skipValues getArgument uint8
                        decodeItems decodeEntries scalar decodeBytes decodeString
                        on_value on_key] simpl;
  rewrite (bind_Ok_intro _ _ _ _ _ Eu); unfold get_env at 1; unfold bind at 1;
  cbn [fst snd isKey keyPath set_offset];
  rewrite Em; cbn [Z.eqb Pos.eqb orb];
  rewrite (bind_Ok_intro _ _ _ _ _ Ea).

Ltac root_byte b Hd Ho :=
  with_strategy opaque [Z.add Z.sub Z.of_nat Z.mul Z.pow skipValues getArgument uint8
                        decodeItems decodeEntries scalar decodeBytes decodeString
                        on_value on_key float16 float32 float64] simpl;
  rewrite (bind_Ok_intro _ _ _ _ _ (ReadFacts.uint8_at _ _ b _ _ Hd Ho));
  unfold get_env at 1; unfold bind at 1;
  cbn [fst snd isKey keyPath set_offset];
  let v := eval vm_compute in (b2z b) in change (b2z b) with v;
  let m := eval vm_compute in (Z.shiftr (b2z b) 5) in
  let ai := eval vm_compute in (Z.land (b2z b) 31) in
  change (Z.shiftr v 5) with m; change (Z.land v 31) with ai;
  cbn [Z.eqb Pos.eqb orb].

(** A hook that replaces a well-formed item without decoding it: the decoder
    returns the replacement with the offset just after the item. *)
Lemma replaced_item item pre post s r :
  wf_item options item -> data = pre ++ item ++ post ->
  offset s = Fin (len pre) -> replaces options s r ->
  exists N, forall fuel, (N <= fuel)%nat ->
    decodeValue data options fuel s
    = Ok (r, set_offset (Fin (len pre + len item)) s).
Proof.
  intros Hwf Hd Ho Hrep. unfold wf_item in Hwf.
  pose proof (replaced_defined s r Hrep) as Hdef. revert Hd.
  inversion Hwf as [ | k n h rest Hh Hr | k n h rest Hh Hsafe Hr
                   | k n h payload rest Hh Hp Hr | k n h payload rest Hh Hp Hr
                   | k c h body rest Hh Hb Hr | k c h body rest Hh Hb Hr
                   | k b rest Hb Hr | k rest Hu Hr
                   | k payload rest Hm Hp Hr | k payload rest Hm Hp Hr
                   | k payload rest Hp Hr ];
    subst; intros Hd; apply wf_seq_0 in Hr; subst rest; rewrite ?app_nil_r in *.
  - (* unsigned integer *)
    exists 1%nat. intros [|fuel] Hf; [lia|]. root_head Hh Hd Ho.
    destruct Hu as [-> | [-> Hle]].
    + apply scalar_replaced, Hrep.
    + replace (Utils.maxSafeInteger <? n) with false by (symmetry; apply Z.ltb_ge; lia).
      apply scalar_replaced, Hrep.
  - (* negative integer *)
    exists 1%nat. intros [|fuel] Hf; [lia|]. root_head Hh Hd Ho.
    destruct Hu as [-> | [-> Hle]].
    + apply scalar_replaced, Hrep.
    + replace (-1 - n <? Utils.minSafeInteger) with false
        by (symmetry; apply Z.ltb_ge; unfold Utils.minSafeInteger, Utils.maxSafeInteger in *; lia).
      apply scalar_replaced, Hrep.
  - (* byte string *)
    exists 1%nat. intros [|fuel] Hf; [lia|]. rewrite <- app_assoc in Hd.
    root_head Hh Hd Ho. rewrite (on_value_replaced s r Hrep). simpl call_hook.
    unfold bind at 1. unfold ret at 1. rewrite Hdef, Hv.
    unfold add_offset, modify, bind, ret, set_offset. simpl.
    rewrite len_app.
    replace (len pre + len h + len payload) with (len pre + (len h + len payload))
      by lia.
    reflexivity.
  - (* text string *)
    exists 1%nat. intros [|fuel] Hf; [lia|]. rewrite <- app_assoc in Hd.
    root_head Hh Hd Ho.
    assert (Hhook : (if isKey s then on_key options (arg_value a)
                     else on_value options (arg_value a) "string" (keyPath s))
                    = Some (Return r)).
    { destruct (isKey s) eqn:Ek;
        [apply (on_key_replaced s r Hrep _ Ek) | apply (on_value_replaced s r Hrep)]. }
    rewrite Hhook. simpl call_hook.
    unfold bind at 1. unfold ret at 1. rewrite Hdef, Hv.
    unfold add_offset, modify, bind, ret, set_offset. simpl.
    rewrite len_app.
    replace (len pre + len h + len payload) with (len pre + (len h + len payload))
      by lia.
    reflexivity.
  - (* array *)
    destruct (wf_seq_skips _ _ Hb) as [N Hskip].
    exists (S N). intros [|fuel] Hf; [lia|]. rewrite <- app_assoc in Hd.
    root_head Hh Hd Ho. rewrite (on_value_replaced s r Hrep). simpl call_hook.
    unfold bind at 1. unfold ret at 1. rewrite Hdef, Hv.
    rewrite (bind_Ok_intro _ _ _ _ _
               (Hskip fuel ltac:(lia) (pre ++ h) post
                  (set_offset (Fin (len pre + len h)) s) 0
                  ltac:(rewrite <- app_assoc; exact Hd)
                  ltac:(rewrite len_app; reflexivity))).
    unfold ret, set_offset. simpl. rewrite !len_app.
    replace (len pre + len h + len body) with (len pre + (len h + len body)) by lia.
    reflexivity.
  - (* map *)
    destruct (wf_seq_skips _ _ Hb) as [N Hskip].
    exists (S N). intros [|fuel] Hf; [lia|]. rewrite <- app_assoc in Hd.
    root_head Hh Hd Ho. rewrite (on_value_replaced s r Hrep). simpl call_hook.
    unfold bind at 1. unfold ret at 1. rewrite Hdef, Hv. unfold jsnum_double.
    replace (Z.of_nat c * 2) with (0 + Z.of_nat (2 * c)) by lia.
    rewrite (bind_Ok_intro _ _ _ _ _
               (Hskip fuel ltac:(lia) (pre ++ h) post
                  (set_offset (Fin (len pre + len h)) s) 0
                  ltac:(rewrite <- app_assoc; exact Hd)
                  ltac:(rewrite len_app; reflexivity))).
    unfold ret, set_offset. simpl. rewrite !len_app.
    replace (len pre + len h + len body) with (len pre + (len h + len body)) by lia.
    reflexivity.
  - (* false, true, null *)
    exists 1%nat. intros [|fuel] Hf; [lia|]. change (len [b]) with 1.
    destruct Hb as [-> | [-> | ->]].
    + root_byte xf4 Hd Ho. apply scalar_replaced, Hrep.
    + root_byte xf5 Hd Ho. apply scalar_replaced, Hrep.
    + root_byte xf6 Hd Ho. apply scalar_replaced, Hrep.
  - (* undefined *)
    exists 1%nat. intros [|fuel] Hf; [lia|]. change (len [xf7]) with 1.
    root_byte xf7 Hd Ho. rewrite Hu. simpl negb. cbv iota.
    rewrite (on_value_replaced s r Hrep). reflexivity.
  - (* float16 *)
    exists 1%nat. intros [|fuel] Hf; [lia|]. rewrite len_cons.
    root_byte xf9 Hd Ho.
    replace (minFloatSize options <=? 16) with true by (symmetry; apply Z.leb_le; exact Hm).
    unfold float16.
    pose proof (ReadFacts.uint_at data (pre ++ [xf9]) payload post
                  (set_offset (Fin (len pre + 1)) s)
                  ltac:(rewrite <- app_assoc; exact Hd)
                  ltac:(rewrite len_app; reflexivity)) as Er.
    rewrite (len_of_length payload 2 Hp) in Er. change (Z.of_nat 2) with 2 in Er.
    rewrite (bind_Ok_intro _ _ _ _ _ Er).
    rewrite (scalar_replaced s r Hrep). apply ok_set_offset.
    rewrite len_app, (len_of_length payload 2 Hp). change (len [xf9]) with 1.
    change (Z.of_nat 2) with 2. lia.
  - (* float32 *)
    exists 1%nat. intros [|fuel] Hf; [lia|]. rewrite len_cons.
    root_byte xfa Hd Ho.
    replace (minFloatSize options <=? 32) with true by (symmetry; apply Z.leb_le; exact Hm).
    unfold float32.
    pose proof (ReadFacts.uint_at data (pre ++ [xfa]) payload post
                  (set_offset (Fin (len pre + 1)) s)
                  ltac:(rewrite <- app_assoc; exact Hd)
                  ltac:(rewrite len_app; reflexivity)) as Er.
    rewrite (len_of_length payload 4 Hp) in Er. change (Z.of_nat 4) with 4 in Er.
    rewrite (bind_Ok_intro _ _ _ _ _ Er).
    rewrite (scalar_replaced s r Hrep). apply ok_set_offset.
    rewrite len_app, (len_of_length payload 4 Hp). change (len [xfa]) with 1.
    change (Z.of_nat 4) with 4. lia.
  - (* float64 *)
    exists 1%nat. intros [|fuel] Hf; [lia|]. rewrite len_cons.
    root_byte xfb Hd Ho. unfold float64.
    pose proof (ReadFacts.uint_at data (pre ++ [xfb]) payload post
                  (set_offset (Fin (len pre + 1)) s)
                  ltac:(rewrite <- app_assoc; exact Hd)
                  ltac:(rewrite len_app; reflexivity)) as Er.
    rewrite (len_of_length payload 8 Hp) in Er. change (Z.of_nat 8) with 8 in Er.
    rewrite (bind_Ok_intro _ _ _ _ _ Er).
    rewrite (scalar_replaced s r Hrep). apply ok_set_offset.
    rewrite len_app, (len_of_length payload 8 Hp). change (len [xfb]) with 1.
    change (Z.of_nat 8) with 8. lia.
Qed.

End Items.
End ItemFacts.

(** ** The memoized thunk *)

Lemma jsstring_eqb_refl a : jsstring_eqb a a = true.
Proof. induction a as [|x a IH]; simpl; [reflexivity|]. rewrite Z.eqb_refl. exact IH. Qed.

Lemma jsstring_eqb_eq a b : jsstring_eqb a b = true -> a = b.
Proof.
  revert b. induction a as [|x a IH]; intros [|y b] H; simpl in H;
    try discriminate; [reflexivity|].
  apply andb_prop in H. destruct H as [H1 H2].
  apply Z.eqb_eq in H1. subst y. f_equal. apply IH, H2.
Qed.

Lemma Key_eqb_eq a b : Key_eqb a b = true -> a = b.
Proof.
  destruct a, b; simpl; intros H; try discriminate.
  - f_equal. apply jsstring_eqb_eq, H.
  - f_equal. apply Z.eqb_eq, H.
Qed.

Lemma Key_eqb_refl a : Key_eqb a a = true.
Proof. destruct a; simpl; [apply jsstring_eqb_refl | apply Z.eqb_refl]. Qed.

Lemma keyPath_eqb_refl a : keyPath_eqb a a = true.
Proof. induction a as [|x a IH]; simpl; [reflexivity|]. rewrite Key_eqb_refl. exact IH. Qed.

Lemma keyPath_eqb_eq a b : keyPath_eqb a b = true -> a = b.
Proof.
  revert b. induction a as [|x a IH]; intros [|y b] H; simpl in H;
    try discriminate; [reflexivity|].
  apply andb_prop in H. destruct H as [H1 H2].
  apply Key_eqb_eq in H1. subst y. f_equal. apply IH, H2.
Qed.

Lemma below_neq kp0 kp : below kp0 kp -> keyPath_eqb kp kp0 = false.
Proof.
  intros (key & rest & ->).
  destruct (keyPath_eqb (kp0 ++ key :: rest) kp0) eqn:E; [|reflexivity].
  apply keyPath_eqb_eq in E. exfalso.
  apply (f_equal (@List.length Key)) in E. rewrite length_app in E. simpl in E. lia.
Qed.

Lemma below_push kp0 kp key : at_or_below kp0 kp -> below kp0 (kp ++ [key]).
Proof.
  intros (rest & ->). destruct rest as [|k rest].
  - exists key, []. rewrite app_nil_r. reflexivity.
  - exists k, (rest ++ [key]). rewrite <- app_assoc. reflexivity.
Qed.

Lemma below_at_or_below kp0 kp : below kp0 kp -> at_or_below kp0 kp.
Proof. intros (key & rest & ->). exists (key :: rest). reflexivity. Qed.

(** Once the thunk has run, the hook runs to its end without touching the
    state, every call returning the memoized value. *)
Lemma run_hook_memoized {S} (body : M S CBORValue) p v s :
  run_hook body p (Some v) s
  = match feed p v with
    | Some r => Ok ((r, Some v), s)
    | None => Throw HookError
    end.
Proof.
  induction p as [val | k IH | ]; simpl; try reflexivity.
  unfold bind, ret. simpl. apply IH.
Qed.

(** A thunk that only returns a value already read. *)
Lemma run_hook_constant {S} (x : CBORValue) p (s : S) :
  exists value',
    run_hook (ret x) p None s
    = match feed p x with
      | Some r => Ok ((r, value'), s)
      | None => Throw HookError
      end.
Proof.
  destruct p as [val | k | ].
  - exists None. reflexivity.
  - exists (Some x). simpl. unfold bind, ret. simpl. apply run_hook_memoized.
  - exists None. reflexivity.
Qed.

(** The first call of the thunk runs the body; the rest is memoized. *)
Lemma run_hook_first {S} (body : M S CBORValue) k s v s' :
  body s = Ok (v, s') ->
  run_hook body (CallDecode k) None s
  = match feed (k v) v with
    | Some r => Ok ((r, Some v), s')
    | None => Throw HookError
    end.
Proof.
  intros H. simpl. unfold bind, ret. rewrite H. simpl. apply run_hook_memoized.
Qed.

Module MemoFacts.
Import Decoder.

Lemma agrees_same {A} kp (m : M State A) :
  preserves keyPath_kept m -> agrees kp m m.
Proof.
  intros Hm s1 a s1' H. split; [exact I|].
  intros _ s2 [Es Hk]. subst s2. exists s1'. split; [exact H|].
  split; [reflexivity|]. rewrite <- Hk. eapply Hm; eauto.
Qed.

Lemma agrees_get_env {B} kp (f1 f2 : bool * list Key -> M State B) :
  (forall b, agrees kp (f1 (b, kp)) (f2 (b, kp))) ->
  agrees kp (bind get_env f1) (bind get_env f2).
Proof.
  intros Hf s1 b s1' H. split; [exact I|].
  intros _ s2 [Es Hk]. subst s2 kp. unfold bind, get_env in *.
  destruct (Hf (isKey s1) _ _ _ H) as [_ Hs].
  apply (Hs I s1). split; reflexivity.
Qed.

Lemma agrees_framed {A B} kp key (m1 m2 : M State A) (f1 f2 : A -> M State B) :
  agrees (kp ++ [key]) m1 m2 -> (forall v, agrees kp (f1 v) (f2 v)) ->
  agrees kp (pushKey key ;;; v <- m1 ;; popKey ;;; f1 v)
            (pushKey key ;;; v <- m2 ;; popKey ;;; f2 v).
Proof.
  intros Hm Hf s1 b s1' H. split; [exact I|].
  intros _ s2 [Es Hk]. subst s2. unfold pushKey, popKey in *.
  apply bind_Ok in H. destruct H as ([] & sp & Hp & H). inversion Hp; subst sp. clear Hp.
  apply bind_Ok in H. destruct H as (v & sa & Hv & H).
  apply bind_Ok in H. destruct H as ([] & sb & Hq & H). inversion Hq; subst sb. clear Hq.
  destruct (Hm _ _ _ Hv) as [_ Hs].
  assert (Hpre : same_at (kp ++ [key]) (set_keyPath (keyPath s1 ++ [key]) s1)
                   (set_keyPath (keyPath s1 ++ [key]) s1)).
  { split; [reflexivity|]. simpl. rewrite Hk. reflexivity. }
  destruct (Hs I _ Hpre) as (sa' & Ev & Es & Hka). subst sa'.
  destruct (Hf v _ _ _ H) as [_ Hs'].
  assert (Hpre' : same_at kp (set_keyPath (removelast (keyPath sa)) sa)
                    (set_keyPath (removelast (keyPath sa)) sa)).
  { split; [reflexivity|]. simpl. rewrite Hka. apply removelast_last. }
  destruct (Hs' I _ Hpre') as (s2' & Ef & Hpost).
  exists s2'. split; [|exact Hpost].
  unfold bind, modify in *. rewrite Ev. exact Ef.
Qed.

Lemma keyPath_kept_refl s : keyPath_kept s s.
Proof. reflexivity. Qed.

Lemma keyPath_kept_trans a b c : keyPath_kept a b -> keyPath_kept b c -> keyPath_kept a c.
Proof. unfold keyPath_kept. congruence. Qed.

Section Facts.

Variable data : list byte.

Lemma kept_offset (s : State) (n : jsnum) :
  jsnum_nonneg n -> keyPath_kept s (set_offset (jsnum_add (offset s) n) s).
Proof. intros _. reflexivity. Qed.

Lemma kept_uint size : 0 <= size -> preserves keyPath_kept (uint data size).
Proof.
  apply (DecoderFacts.preserves_uint data keyPath_kept
           keyPath_kept_refl keyPath_kept_trans kept_offset).
Qed.

Lemma kept_getArgument ai : preserves keyPath_kept (getArgument data ai).
Proof.
  apply (DecoderFacts.preserves_getArgument data keyPath_kept
           keyPath_kept_refl keyPath_kept_trans kept_offset).
Qed.

Lemma kept_skipValues options fuel i n :
  preserves keyPath_kept (skipValues data options fuel i n).
Proof.
  apply (DecoderFacts.preserves_skipValue data options keyPath_kept
           keyPath_kept_refl keyPath_kept_trans kept_offset).
Qed.

Lemma kept_add_offset n : preserves keyPath_kept (add_offset n).
Proof. apply preserves_modify. intros; reflexivity. Qed.

Lemma kept_decodeBytes n : preserves keyPath_kept (decodeBytes data n).
Proof.
  intros s a s' H. unfold decodeBytes in H. destruct n; [|discriminate].
  inversion H; subst. reflexivity.
Qed.

Lemma kept_decodeString options n : preserves keyPath_kept (decodeString data options n).
Proof. intros s a s' H. unfold decodeString in H. inversion H; subst. reflexivity. Qed.

Lemma kept_modify (f : State -> State) :
  (forall s, keyPath (f s) = keyPath s) -> preserves keyPath_kept (modify f).
Proof. intros Hf. apply preserves_modify. exact Hf. Qed.

Lemma decodeItems_array options fuel :
  forall i n value,
    returns (decodeItems data options fuel i n value) (fun v => is_string v -> False).
Proof.
  induction fuel as [|fuel IH]; intros i n value s a s' H; simpl in H;
    destruct (lt_jsnum i n); inv_run; try (intros []).
  eapply IH; eauto.
Qed.

Lemma decodeEntries_object options fuel :
  forall i n value,
    returns (decodeEntries data options fuel i n value) (fun v => is_string v -> False).
Proof.
  induction fuel as [|fuel IH]; intros i n value s a s' H; simpl in H;
    destruct (lt_jsnum i n); inv_run; try (intros []).
  match goal with H : match ?k with _ => _ end _ = Ok _ |- _ => destruct k end;
    try discriminate.
  match goal with H : (if ?c then _ else _) _ = Ok _ |- _ => destruct c end;
    try discriminate.
  inv_run. eapply IH; eauto.
Qed.


Section Nested.

Variable options : DecodeOptions.
Variable h : OnValue.
Variable kp0 : list Key.
Variable p : Hook.

Local Abbreviation opt1 := (set_onValue options (hook_at kp0 (Return VUndefined) h)).
Local Abbreviation opt2 := (set_onValue options (hook_at kp0 p h)).

Lemma on_value_below length type kp :
  below kp0 kp -> on_value opt2 length type kp = on_value opt1 length type kp.
Proof.
  intros Hb. unfold on_value, hook_at. simpl. rewrite (below_neq _ _ Hb). reflexivity.
Qed.

Lemma on_value_root1 length type :
  on_value opt1 length type kp0 = Some (Return VUndefined).
Proof. unfold on_value, hook_at. simpl. rewrite keyPath_eqb_refl. reflexivity. Qed.

Lemma on_value_root2 length type : on_value opt2 length type kp0 = Some p.
Proof. unfold on_value, hook_at. simpl. rewrite keyPath_eqb_refl. reflexivity. Qed.

Ltac agree_leaf :=
  match goal with
  | |- simQ _ _ _ (uint _ _) (uint _ _) => apply agrees_same, kept_uint; lia
  | |- simQ _ _ _ (getArgument _ _) (getArgument _ _) =>
    apply agrees_same, kept_getArgument
  | |- simQ _ _ _ (add_offset _) (add_offset _) => apply agrees_same, kept_add_offset
  | |- simQ _ _ _ (decodeBytes _ _) (decodeBytes _ _) =>
    apply agrees_same, kept_decodeBytes
  | |- simQ _ _ _ (decodeString _ _ _) (decodeString _ _ _) =>
    apply (agrees_same _ (decodeString data opt1 _)), kept_decodeString
  | |- simQ _ _ _ (modify (set_isKey _)) (modify (set_isKey _)) =>
    apply agrees_same, kept_modify; intros; reflexivity
  | |- simQ _ _ _ (bind get_env _) (bind get_env _) =>
    apply agrees_get_env; intros; cbn [fst snd]; unfold agrees
  | |- simQ _ _ _ (bind (pushKey _) _) (bind (pushKey _) _) =>
    apply agrees_framed; [|intros; unfold agrees]
  end.

(** The skip routine reads the options only for [allowUndefined]. *)
Lemma agrees_skipValue kp fuel :
  agrees kp (skipValue data opt1 fuel) (skipValue data opt2 fuel) /\
  (forall i n, agrees kp (skipValues data opt1 fuel i n) (skipValues data opt2 fuel i n)).
Proof.
  unfold agrees.
  induction fuel as [|fuel [IHv IHs]].
  - split; [apply sim_out_of_fuel|].
    intros i n. simpl. destruct (lt_jsnum i n); repeat sim_step.
  - split.
    + with_strategy opaque [Z.sub Z.pow Z.add Z.mul] simpl. unfold uint8.
      repeat (first [agree_leaf | sim_step]); auto.
    + intros i n. with_strategy opaque [Z.sub Z.pow Z.add Z.mul skipValue] simpl.
      destruct (lt_jsnum i n); repeat (first [agree_leaf | sim_step]); auto.
Qed.


Lemma uint_env size s v s1 :
  uint data size s = Ok (v, s1) -> isKey s1 = isKey s /\ keyPath s1 = keyPath s.
Proof.
  intros H. apply StreamFacts.uint_inv in H.
  destruct H as (o & _ & _ & _ & _ & ->). split; reflexivity.
Qed.

Lemma scalar_root1 x size type s v s' :
  scalar opt1 x size type kp0 s = Ok (v, s') -> v = x /\ s' = s.
Proof.
  unfold scalar. rewrite on_value_root1. simpl. unfold bind, ret. simpl.
  intros H. inversion H. split; reflexivity.
Qed.

(** The head of [decodeValue]: the first byte and the environment. *)
Ltac open_decodeValue H :=
  let ib := fresh "ib" in let s1 := fresh "s1" in let Hu := fresh "Hu" in
  with_strategy opaque [Z.sub Z.pow Z.add Z.mul skipValues getArgument uint8
                        decodeItems decodeEntries scalar decodeBytes decodeString
                        on_value on_key float16 float32 float64] simpl in H;
  with_strategy opaque [Z.sub Z.pow Z.add Z.mul skipValues getArgument uint8
                        decodeItems decodeEntries scalar decodeBytes decodeString
                        on_value on_key float16 float32 float64] simpl;
  apply bind_Ok in H; destruct H as (ib & s1 & Hu & H);
  rewrite (bind_Ok_intro _ _ _ _ _ Hu);
  unfold get_env at 1 in H; unfold bind at 1 in H;
  unfold get_env at 1; unfold bind at 1;
  cbn [fst snd] in H; cbn [fst snd];
  let Hk := fresh "Hk" in let Hp := fresh "Hp" in
  destruct (uint_env _ _ _ _ Hu) as [Hk Hp];
  rewrite Hk, Hp in H; rewrite Hk, Hp.

Lemma decodeBytes_not_string n s v s' :
  decodeBytes data n s = Ok (v, s') -> is_string v -> False.
Proof.
  unfold decodeBytes. destruct n; [|discriminate].
  intros H. inversion H; subst. intros [].
Qed.

Lemma number_not_string n : is_string (number_of n) -> False.
Proof. destruct n; intros []. Qed.

Lemma negative_not_string n : is_string (negative_of n) -> False.
Proof. destruct n; intros []. Qed.

(** Under the hook that returns nothing at [kp0], no branch but the text
    string returns a string. *)
Ltac not_a_string :=
  repeat match goal with
  | H : bind _ _ _ = Ok _ |- _ =>
    let H1 := fresh "H" in
    apply bind_Ok in H; destruct H as (? & ? & H1 & H)
  | H : (let '(_, _) := ?x in _) _ = Ok _ |- _ => destruct x
  | H : (if ?c then _ else _) _ = Ok _ |- _ => destruct c
  | H : match ?x with _ => _ end _ = Ok _ |- _ => destruct x
  | H : throw _ _ = Ok _ |- _ => discriminate H
  | H : ret _ _ = Ok _ |- _ => inversion H; subst; clear H
  | H : scalar opt1 _ _ _ kp0 _ = Ok _ |- _ =>
    apply scalar_root1 in H; destruct H; subst
  | H : call_hook _ (on_value opt1 _ _ kp0) _ = Ok _ |- _ =>
    rewrite on_value_root1 in H; simpl in H
  | H : memoized _ None _ = Ok _ |- _ => simpl in H
  | H : new_Array _ _ = Ok _ |- _ => clear H
  | H : is_undefined ?v = _ |- _ => clear H
  end;
  try discriminate;
  try match goal with
  | H : decodeBytes _ _ _ = Ok (VString _, _) |- _ =>
    exact (decodeBytes_not_string _ _ _ _ H I)
  | H : decodeItems _ _ _ _ _ _ _ = Ok (VString _, _) |- _ =>
    exact (decodeItems_array _ _ _ _ _ _ _ _ H I)
  | H : decodeEntries _ _ _ _ _ _ _ = Ok (VString _, _) |- _ =>
    exact (decodeEntries_object _ _ _ _ _ _ _ _ H I)
  | H : VString _ = number_of ?n |- _ => destruct n; discriminate H
  | H : VString _ = negative_of ?n |- _ => destruct n; discriminate H
  | H : number_of ?n = VString _ |- _ => destruct n; discriminate H
  | H : negative_of ?n = VString _ |- _ => destruct n; discriminate H
  end.

Lemma key_at_root fuel s k s' :
  keyPath s = kp0 -> isKey s = true ->
  decodeValue data opt1 fuel s = Ok (VString k, s') ->
  decodeValue data opt2 fuel s = Ok (VString k, s').
Proof.
  intros Hkp Hkey H. destruct fuel as [|fuel]; [discriminate|].
  open_decodeValue H. rewrite Hkp, Hkey in *. clear Hkp Hp. revert H.
  destruct (Z.shiftr ib 5 =? 0); [intros H; exfalso; not_a_string|].
  destruct (Z.shiftr ib 5 =? 1); [intros H; exfalso; not_a_string|].
  destruct (Z.shiftr ib 5 =? 2); [intros H; exfalso; not_a_string|].
  destruct (Z.shiftr ib 5 =? 3); [intros H; exact H|].
  destruct (Z.shiftr ib 5 =? 4); [intros H; exfalso; not_a_string|].
  destruct (Z.shiftr ib 5 =? 5); [intros H; exfalso; not_a_string|].
  destruct (Z.shiftr ib 5 =? 6); [intros H; discriminate H|].
  destruct (Z.shiftr ib 5 =? 7); [|intros H; discriminate H].
  intros H; exfalso; not_a_string.
Qed.


(** One entry of a map: the key is decoded with [isKey] set, and the rest
    only runs on a string. *)
Lemma agrees_key {B} kp (dv1 dv2 : M State CBORValue)
  (g1 g2 : CBORValue -> M State B) :
  (forall s k s', keyPath s = kp -> isKey s = true ->
     dv1 s = Ok (VString k, s') -> dv2 s = Ok (VString k, s')) ->
  preserves keyPath_kept dv1 ->
  (forall key s b s', g1 key s = Ok (b, s') -> is_string key) ->
  (forall key, agrees kp (g1 key) (g2 key)) ->
  agrees kp (modify (set_isKey true) ;;; key <- dv1 ;; g1 key)
            (modify (set_isKey true) ;;; key <- dv2 ;; g2 key).
Proof.
  intros Hkey Hkept Hstr Hg s1 b s1' H. split; [exact I|].
  intros _ s2 [Es Hk]. subst s2.
  apply bind_Ok in H. destruct H as ([] & sk & Hm & H). inversion Hm; subst sk. clear Hm.
  apply bind_Ok in H. destruct H as (key & sa & Hv & H).
  pose proof (Hstr _ _ _ _ H) as Hs. destruct key; try contradiction.
  assert (E : dv2 (set_isKey true s1) = Ok (VString s, sa))
    by (apply Hkey; [exact Hk | reflexivity | exact Hv]).
  destruct (Hg (VString s) _ _ _ H) as [_ Hsim].
  destruct (Hsim I sa) as (s2' & Eg & Hpost).
  { split; [reflexivity|]. rewrite <- Hk. apply (Hkept _ _ _ Hv). }
  exists s2'. split; [|exact Hpost].
  unfold bind, modify. rewrite E. exact Eg.
Qed.

Lemma kept_decodeValue opt fuel : preserves keyPath_kept (decodeValue data opt fuel).
Proof. apply DecoderFacts.decodeValue_keyPath. Qed.

Ltac agree_hook kp :=
  match goal with
  | Hb : below kp0 kp |- simQ _ _ _ (bind (call_hook _ _) _) (bind (call_hook _ _) _) =>
    progress (change (on_key opt2) with (on_key opt1);
              rewrite ?(fun l t => on_value_below l t kp Hb))
  | Hb : below kp0 kp |- simQ _ _ _ (call_hook _ _) (call_hook _ _) =>
    progress (change (on_key opt2) with (on_key opt1);
              rewrite ?(fun l t => on_value_below l t kp Hb))
  end.

Lemma agrees_decodeValue fuel :
  (forall kp, below kp0 kp ->
     agrees kp (decodeValue data opt1 fuel) (decodeValue data opt2 fuel)) /\
  (forall kp i n value, at_or_below kp0 kp ->
     agrees kp (decodeItems data opt1 fuel i n value)
               (decodeItems data opt2 fuel i n value)) /\
  (forall kp i n value, at_or_below kp0 kp ->
     agrees kp (decodeEntries data opt1 fuel i n value)
               (decodeEntries data opt2 fuel i n value)).
Proof.
  induction fuel as [|fuel (IHv & IHi & IHe)].
  - split; [intros; apply sim_out_of_fuel|].
    split; intros kp i n value _; unfold agrees; simpl;
      destruct (lt_jsnum i n); repeat sim_step.
  - split; [|split].
    + intros kp Hb. unfold agrees.
      pose proof (fun i n => proj2 (agrees_skipValue kp fuel) i n) as Hskip.
      pose proof (fun i n v => IHi kp i n v (below_at_or_below _ _ Hb)) as Hi.
      pose proof (fun i n v => IHe kp i n v (below_at_or_below _ _ Hb)) as He.
      unfold agrees in Hskip, Hi, He.
      with_strategy opaque [Z.sub Z.pow Z.add Z.mul on_value on_key] simpl.
      unfold float16, float32, float64, uint8, scalar.
      repeat (first [agree_leaf | agree_hook kp | sim_step]); auto.
    + intros kp i n value Hb. unfold agrees.
      with_strategy opaque [Z.sub Z.pow Z.add Z.mul decodeValue] simpl.
      destruct (lt_jsnum i n); [|repeat sim_step].
      apply agrees_framed; [apply IHv, below_push, Hb|].
      intros v. apply IHi, Hb.
    + intros kp i n value Hb. unfold agrees.
      with_strategy opaque [Z.sub Z.pow Z.add Z.mul decodeValue] simpl.
      destruct (lt_jsnum i n); [|repeat sim_step].
      apply agrees_key.
      * intros s k s' Hk Hkey H. destruct Hb as ([|key rest] & Hkp).
        -- rewrite app_nil_r in Hkp. subst kp. eapply key_at_root; eauto.
        -- destruct (IHv kp ltac:(exists key, rest; exact Hkp) _ _ _ H) as [_ Hs].
           destruct (Hs I s (conj eq_refl Hk)) as (s2' & E & Es & _).
           subst s2'. exact E.
      * apply kept_decodeValue.
      * intros key s b s' H. apply bind_Ok in H. destruct H as (? & ? & _ & H).
        destruct key; try discriminate. exact I.
      * intros key. unfold agrees.
        repeat (first [agree_leaf | sim_step]); auto.
        -- apply IHv, below_push, Hb.
        -- apply IHe, Hb.
Qed.


Variable k : CBORValue -> Hook.
Hypothesis p_calls : p = CallDecode k.

Lemma scalar_root2 x size type s :
  scalar opt2 x size type kp0 s = memo_result k x s.
Proof.
  unfold scalar, memo_result. rewrite on_value_root2. simpl call_hook.
  destruct (run_hook_constant x p s) as (value' & E).
  unfold bind at 1. rewrite E. rewrite p_calls. simpl feed.
  destruct (feed (k x) x); reflexivity.
Qed.

(** The pattern shared by the byte string, text string, array and map
    branches, under the hook that returns nothing and under the hook that
    calls its thunk. *)
Lemma typed_normal (body : M State CBORValue) (skip' : M State unit) s v s' :
  ('(val, value) <- call_hook body (Some (Return VUndefined)) ;;
   if negb (is_undefined val) then
     match value with
     | Some _ => ret val
     | None => skip' ;;; ret val
     end
   else '(v, _) <- memoized body value ;; ret v) s = Ok (v, s') ->
  body s = Ok (v, s').
Proof.
  intros H. cbv [bind ret memoized call_hook run_hook is_undefined negb] in H.
  destruct (body s) as [[x sx]| |]; try discriminate. exact H.
Qed.

Lemma typed_memo (body : M State CBORValue) (skip' : M State unit) s v s' :
  body s = Ok (v, s') ->
  ('(val, value) <- call_hook body (Some p) ;;
   if negb (is_undefined val) then
     match value with
     | Some _ => ret val
     | None => skip' ;;; ret val
     end
   else '(v, _) <- memoized body value ;; ret v) s = memo_result k v s'.
Proof.
  intros Hb. unfold memo_result. simpl call_hook. unfold bind at 1.
  rewrite p_calls, (run_hook_first body k s v s' Hb).
  destruct (feed (k v) v) as [r|]; [|reflexivity].
  destruct (is_undefined r); reflexivity.
Qed.


Ltac root_scalar H :=
  apply scalar_root1 in H; destruct H as [Ev Es]; rewrite Ev, Es; apply scalar_root2.

Ltac root_argument H :=
  let a := fresh "a" in let sa := fresh "sa" in let Ha := fresh "Ha" in
  apply bind_Ok in H; destruct H as (a & sa & Ha & H);
  rewrite (bind_Ok_intro _ _ _ _ _ Ha);
  pose proof (kept_getArgument _ _ _ _ Ha).

Lemma memo_root fuel s v s' :
  keyPath s = kp0 -> isKey s = false ->
  decodeValue data opt1 fuel s = Ok (v, s') ->
  decodeValue data opt2 fuel s = memo_result k v s'.
Proof.
  intros Hkp Hkey H. destruct fuel as [|fuel]; [discriminate|].
  open_decodeValue H. rewrite Hkp, Hkey in *.
  assert (Hs1 : keyPath s1 = kp0) by congruence. clear Hkp Hp. revert H.
  destruct (agrees_decodeValue fuel) as (_ & Hitems & Hentries).
  destruct (Z.shiftr ib 5 =? 0).
  { intros H. root_argument H.
    destruct (arg_uint64 a) as [u|];
      [destruct (Utils.maxSafeInteger <? u); [discriminate H|]|]; root_scalar H. }
  destruct (Z.shiftr ib 5 =? 1).
  { intros H. root_argument H.
    destruct (arg_uint64 a) as [u|];
      [destruct (-1 - u <? Utils.minSafeInteger); [discriminate H|]|]; root_scalar H. }
  destruct (Z.shiftr ib 5 =? 2).
  { intros H. root_argument H. rewrite on_value_root1 in H. rewrite on_value_root2.
    apply typed_normal in H. apply typed_memo. exact H. }
  destruct (Z.shiftr ib 5 =? 3).
  { intros H. root_argument H. cbv iota in H. cbv iota.
    rewrite on_value_root1 in H. rewrite on_value_root2.
    apply typed_normal in H. apply typed_memo. exact H. }
  destruct (Z.shiftr ib 5 =? 4).
  { intros H. root_argument H. rewrite on_value_root1 in H. rewrite on_value_root2.
    apply typed_normal in H. apply typed_memo.
    apply bind_Ok in H. destruct H as ([] & sb & Hn & H).
    rewrite (bind_Ok_intro _ _ _ _ _ Hn).
    assert (Hsb : keyPath sb = kp0).
    { unfold new_Array in Hn. destruct (arg_value a) as [z|]; [|discriminate].
      destruct (z <? 2 ^ 32); [|discriminate]. inversion Hn; subst. congruence. }
    destruct (Hitems kp0 0 (arg_value a) [] ltac:(exists []; symmetry; apply app_nil_r)
                _ _ _ H) as [_ Hs].
    destruct (Hs I sb (conj eq_refl Hsb)) as (s2' & E & Es & _). subst s2'. exact E. }
  destruct (Z.shiftr ib 5 =? 5).
  { intros H. root_argument H. rewrite on_value_root1 in H. rewrite on_value_root2.
    apply typed_normal in H. apply typed_memo.
    assert (Hsa : keyPath sa = kp0) by (unfold keyPath_kept in *; congruence).
    destruct (Hentries kp0 0 (arg_value a) [] ltac:(exists []; symmetry; apply app_nil_r)
                _ _ _ H) as [_ Hs].
    destruct (Hs I sa (conj eq_refl Hsa)) as (s2' & E & Es & _). subst s2'. exact E. }
  destruct (Z.shiftr ib 5 =? 6); [intros H; discriminate H|].
  destruct (Z.shiftr ib 5 =? 7); [|intros H; discriminate H].
  destruct (Z.land ib 31 =? 20); [intros H; root_scalar H|].
  destruct (Z.land ib 31 =? 21); [intros H; root_scalar H|].
  destruct (Z.land ib 31 =? 22); [intros H; root_scalar H|].
  destruct (Z.land ib 31 =? 23).
  { destruct (negb (allowUndefined options)); [intros H; discriminate H|].
    intros H. rewrite on_value_root1 in H. rewrite on_value_root2.
    cbv [bind ret call_hook run_hook] in H. injection H as Ev Es.
    rewrite <- Ev, <- Es.
    simpl call_hook. destruct (run_hook_constant VUndefined p s1) as (value' & E).
    unfold bind at 1. rewrite E. unfold memo_result. rewrite p_calls. simpl feed.
    destruct (feed (k VUndefined) VUndefined) as [r|]; [|reflexivity].
    destruct r; reflexivity. }
  destruct (Z.land ib 31 =? 24); [intros H; discriminate H|].
  destruct (Z.land ib 31 =? 25).
  { destruct (minFloatSize options <=? 16); [|intros H; discriminate H].
    intros H. apply bind_Ok in H. destruct H as (bits & sb & Hb & H).
    rewrite (bind_Ok_intro _ _ _ _ _ Hb). root_scalar H. }
  destruct (Z.land ib 31 =? 26).
  { destruct (minFloatSize options <=? 32); [|intros H; discriminate H].
    intros H. apply bind_Ok in H. destruct H as (bits & sb & Hb & H).
    rewrite (bind_Ok_intro _ _ _ _ _ Hb). root_scalar H. }
  destruct (Z.land ib 31 =? 27).
  { intros H. apply bind_Ok in H. destruct H as (bits & sb & Hb & H).
    rewrite (bind_Ok_intro _ _ _ _ _ Hb). root_scalar H. }
  destruct (Z.land ib 31 =? 31); intros H; discriminate H.
Qed.

End Nested.

(** The same for the [onKey] hook of a text string decoded as a map key. *)
Lemma memo_key options k fuel s v s' :
  isKey s = true ->
  (forall ib s1, uint8 data s = Ok (ib, s1) -> Z.shiftr ib 5 = 3) ->
  decodeValue data (set_onKey options (fun _ => Return VUndefined)) fuel s = Ok (v, s') ->
  decodeValue data (set_onKey options (fun _ => CallDecode k)) fuel s
  = memo_result k v s'.
Proof.
  intros Hkey Hmajor H. destruct fuel as [|fuel]; [discriminate|].
  with_strategy opaque [Z.sub Z.pow Z.add Z.mul skipValues getArgument uint8
                        decodeItems decodeEntries scalar decodeBytes decodeString
                        on_value on_key float16 float32 float64] simpl in H.
  with_strategy opaque [Z.sub Z.pow Z.add Z.mul skipValues getArgument uint8
                        decodeItems decodeEntries scalar decodeBytes decodeString
                        on_value on_key float16 float32 float64] simpl.
  apply bind_Ok in H. destruct H as (ib & s1 & Hu & H).
  rewrite (bind_Ok_intro _ _ _ _ _ Hu).
  unfold get_env at 1 in H. unfold bind at 1 in H.
  unfold get_env at 1. unfold bind at 1. cbn [fst snd] in *.
  destruct (uint_env _ _ _ _ Hu) as [Hk _]. rewrite Hk, Hkey in *.
  rewrite (Hmajor _ _ Hu) in *. cbn [Z.eqb Pos.eqb] in *.
  apply bind_Ok in H. destruct H as (a & sa & Ha & H).
  rewrite (bind_Ok_intro _ _ _ _ _ Ha).
  change (on_key (set_onKey options (fun _ => Return VUndefined)) (arg_value a))
    with (Some (Return VUndefined)) in H.
  change (on_key (set_onKey options (fun _ => CallDecode k)) (arg_value a))
    with (Some (CallDecode k)).
  apply typed_normal in H.
  apply (typed_memo (CallDecode k) k eq_refl). exact H.
Qed.

End Facts.
End MemoFacts.


(** ** [getByteLength] against the UTF-8 length *)

Module ByteLengthFacts.
Import Utils.

Lemma lor_bound a b n :
  0 <= n -> 0 <= a < 2 ^ n -> 0 <= b < 2 ^ n -> 0 <= Z.lor a b < 2 ^ n.
Proof.
  intros Hn Ha Hb.
  assert (Hnn : 0 <= Z.lor a b) by (apply Z.lor_nonneg; split; [apply Ha | apply Hb]).
  split; [exact Hnn|].
  assert (Hp : 0 < 2 ^ n) by (apply Z.pow_pos_nonneg; lia).
  destruct (Z.eq_dec (Z.lor a b) 0) as [E|E]; [rewrite E; exact Hp|].
  assert (0 < Z.lor a b) by lia.
  assert (0 < n).
  { destruct (Z.eq_dec n 0) as [->|]; [|lia]. exfalso. change (2 ^ 0) with 1 in *.
    assert (a = 0) by lia. assert (b = 0) by lia. subst. apply E. reflexivity. }
  apply Z.log2_lt_pow2; [assumption|].
  rewrite Z.log2_lor by lia.
  apply Z.max_lub_lt.
  - destruct (Z.eq_dec a 0) as [->|]; [simpl; lia|]. apply Z.log2_lt_pow2; lia.
  - destruct (Z.eq_dec b 0) as [->|]; [simpl; lia|]. apply Z.log2_lt_pow2; lia.
Qed.

Lemma pair_width lead c :
  is_lead lead = true -> 0xdc00 <= c <= 0xdfff ->
  utf8_width (Z.lor (Z.shiftl (lead - 0xd800) 10) (c - 0xdc00) + 0x10000) = Ok 4.
Proof.
  intros Hl Hc. unfold is_lead in Hl. apply andb_prop in Hl. destruct Hl as [H1 H2].
  apply Z.leb_le in H1. apply Z.leb_le in H2.
  assert (Hs : 0 <= Z.shiftl (lead - 0xd800) 10 < 2 ^ 20).
  { rewrite Z.shiftl_mul_pow2 by lia. change (2 ^ 10) with 1024.
    change (2 ^ 20) with 1048576. lia. }
  pose proof (lor_bound (Z.shiftl (lead - 0xd800) 10) (c - 0xdc00) 20 ltac:(lia) Hs
                ltac:(change (2 ^ 20) with 1048576; lia)) as Hb.
  change (2 ^ 20) with 1048576 in Hb.
  set (x := Z.lor (Z.shiftl (lead - 0xd800) 10) (c - 0xdc00)) in *.
  unfold utf8_width.
  replace (x + 0x10000 <? 0x80) with false by (symmetry; apply Z.ltb_ge; lia).
  replace (x + 0x10000 <? 0x800) with false by (symmetry; apply Z.ltb_ge; lia).
  replace (x + 0x10000 <? 0x10000) with false by (symmetry; apply Z.ltb_ge; lia).
  replace (x + 0x10000 <? 0x110000) with true by (symmetry; apply Z.ltb_lt; lia).
  reflexivity.
Qed.

Lemma bmp_width_ok c : code_unit c -> utf8_width c = Ok (bmp_width c).
Proof.
  intros Hc. unfold code_unit in Hc. unfold utf8_width, bmp_width.
  destruct (c <? 0x80); [reflexivity|].
  destruct (c <? 0x800); [reflexivity|].
  replace (c <? 0x10000) with true by (symmetry; apply Z.ltb_lt; lia). reflexivity.
Qed.

Lemma ends_not_lead c rest :
  is_lead c = false -> ends_in_two_leads (c :: rest) = ends_in_two_leads rest.
Proof.
  intros Hc. destruct rest as [|b [|b' r]]; simpl; try reflexivity.
  rewrite Hc. reflexivity.
Qed.

Lemma ends_after l c rest :
  is_lead c = false -> ends_in_two_leads (l :: c :: rest) = ends_in_two_leads rest.
Proof.
  intros Hc. destruct rest as [|b r].
  - simpl. rewrite Hc. apply andb_false_r.
  - change (ends_in_two_leads (l :: c :: b :: r)) with (ends_in_two_leads (c :: b :: r)).
    apply ends_not_lead, Hc.
Qed.

Lemma classify c : unit_class c.
Proof.
  destruct (Z.ltb_spec 0xd7ff c) as [H1|H1].
  - destruct (Z.ltb_spec c 0xe000) as [H2|H2].
    + destruct (Z.ltb_spec c 0xdc00) as [H3|H3].
      * apply class_lead; unfold is_lead, is_trail;
          repeat match goal with
          | |- context [?a <? ?b] => destruct (Z.ltb_spec a b); try lia
          | |- context [?a <=? ?b] => destruct (Z.leb_spec a b); try lia
          end; reflexivity.
      * apply class_trail; unfold is_lead, is_trail; try lia;
          repeat match goal with
          | |- context [?a <? ?b] => destruct (Z.ltb_spec a b); try lia
          | |- context [?a <=? ?b] => destruct (Z.leb_spec a b); try lia
          end; reflexivity.
    + apply class_plain; unfold is_lead, is_trail;
        repeat match goal with
        | |- context [?a <? ?b] => destruct (Z.ltb_spec a b); try lia
        | |- context [?a <=? ?b] => destruct (Z.leb_spec a b); try lia
        end; reflexivity.
  - apply class_plain; unfold is_lead, is_trail;
      repeat match goal with
      | |- context [?a <? ?b] => destruct (Z.ltb_spec a b); try lia
      | |- context [?a <=? ?b] => destruct (Z.leb_spec a b); try lia
      end; reflexivity.
Qed.

Lemma ok_eq (a b : Z) : a = b -> @Ok Z a = Ok b.
Proof. intros ->. reflexivity. Qed.

Lemma spec_not_lead c rest :
  is_lead c = false ->
  utf8_length_spec (c :: rest)
  = (if is_trail c then 3 else bmp_width c) + utf8_length_spec rest.
Proof.
  intros Hc. with_strategy opaque [Z.add] simpl. rewrite Hc.
  destruct (is_trail c); reflexivity.
Qed.

Lemma spec_lead l c rest :
  is_lead l = true ->
  utf8_length_spec (l :: c :: rest)
  = if is_trail c then 4 + utf8_length_spec rest
    else 3 + utf8_length_spec (c :: rest).
Proof.
  intros Hl.
  change (utf8_length_spec (l :: c :: rest))
    with (if is_lead l
          then if is_trail c then 4 + utf8_length_spec rest
               else 3 + utf8_length_spec (c :: rest)
          else if is_trail l then 3 + utf8_length_spec (c :: rest)
               else bmp_width l + utf8_length_spec (c :: rest)).
  rewrite Hl. reflexivity.
Qed.

Lemma spec_last_lead l : is_lead l = true -> utf8_length_spec [l] = 3.
Proof. intros Hl. simpl. rewrite Hl. reflexivity. Qed.

Lemma loop_cons codePoint rest leadSurrogate bytes :
  getByteLength_loop (codePoint :: rest) leadSurrogate bytes
  = if (0xd7ff <? codePoint) && (codePoint <? 0xe000) then
      match leadSurrogate with
      | None =>
        if 0xdbff <? codePoint then getByteLength_loop rest None (bytes + 3)
        else match rest with
             | [] => getByteLength_loop rest None (bytes + 3)
             | _ :: _ => getByteLength_loop rest (Some codePoint) bytes
             end
      | Some lead =>
        if codePoint <? 0xdc00 then
          getByteLength_loop rest (Some codePoint) (bytes + 3)
        else
          match utf8_width
                  (Z.lor (Z.shiftl (lead - 0xd800) 10) (codePoint - 0xdc00) + 0x10000)
          with
          | Ok w => getByteLength_loop rest None (bytes + w)
          | Throw e => Throw e
          | OutOfFuel => OutOfFuel
          end
      end
    else
      match utf8_width codePoint with
      | Ok w =>
        getByteLength_loop rest None
          (match leadSurrogate with Some _ => bytes + 3 | None => bytes end + w)
      | Throw e => Throw e
      | OutOfFuel => OutOfFuel
      end.
Proof. reflexivity. Qed.

(** The loop from either state, against the specification. *)
Lemma loop_spec s :
  Forall code_unit s ->
  (forall bytes,
     getByteLength_loop s None bytes
     = Ok (bytes + utf8_length_spec s - lost_bytes s)) /\
  (forall lead bytes, is_lead lead = true ->
     getByteLength_loop s (Some lead) bytes
     = Ok (bytes + utf8_length_spec (lead :: s)
           - match s with [] => 3 | _ :: _ => lost_bytes (lead :: s) end)).
Proof.
  induction 1 as [|c rest Hc Hrest [IHn IHl]].
  - split.
    + intros bytes. apply ok_eq. unfold lost_bytes. simpl. lia.
    + intros lead bytes Hl. apply ok_eq. rewrite (spec_last_lead lead Hl). lia.
  - split.
    + intros bytes. rewrite loop_cons.
      destruct (classify c) as [Ht Hl Htr | Ht Hhi Hlo Hl Htr | Ht Hhi Hlo Hl Htr Hr];
        rewrite Ht.
      * rewrite (bmp_width_ok c Hc), IHn. apply ok_eq.
        unfold lost_bytes. rewrite (ends_not_lead c rest Hl).
        rewrite (spec_not_lead c rest Hl), Htr. lia.
      * rewrite Hhi. destruct rest as [|t rest'].
        -- apply ok_eq. rewrite (spec_last_lead c Hl). unfold lost_bytes. simpl. lia.
        -- rewrite (IHl c bytes Hl). reflexivity.
      * rewrite Hhi, IHn. apply ok_eq.
        unfold lost_bytes. rewrite (ends_not_lead c rest Hl).
        rewrite (spec_not_lead c rest Hl), Htr. lia.
    + intros lead bytes Hlead. rewrite loop_cons.
      destruct (classify c) as [Ht Hl Htr | Ht Hhi Hlo Hl Htr | Ht Hhi Hlo Hl Htr Hr];
        rewrite Ht.
      * rewrite (bmp_width_ok c Hc), IHn. apply ok_eq.
        unfold lost_bytes. rewrite (ends_after lead c rest Hl).
        rewrite (spec_lead lead c rest Hlead), Htr.
        rewrite (spec_not_lead c rest Hl), Htr. lia.
      * rewrite Hlo, (IHl c (bytes + 3) Hl). apply ok_eq.
        rewrite (spec_lead lead c rest Hlead), Htr.
        destruct rest as [|t rest'];
          [|unfold lost_bytes;
            change (ends_in_two_leads (lead :: c :: t :: rest'))
              with (ends_in_two_leads (c :: t :: rest')); lia].
        unfold lost_bytes. simpl ends_in_two_leads.
        rewrite Hlead, Hl, (spec_last_lead c Hl). simpl andb. lia.
      * rewrite Hlo, (pair_width lead c Hlead Hr), IHn. apply ok_eq.
        unfold lost_bytes. rewrite (ends_after lead c rest Hl).
        rewrite (spec_lead lead c rest Hlead), Htr. lia.
Qed.

(** [getByteLength] is the UTF-8 length under the surrogate convention,
    except that it forgets the 3 bytes of a final lead surrogate that follows
    a lead surrogate. *)
Lemma getByteLength_characterised s :
  Forall code_unit s ->
  getByteLength s = Ok (utf8_length_spec s - lost_bytes s).
Proof.
  intros Hs. unfold getByteLength. rewrite (proj1 (loop_spec s Hs) 0).
  apply ok_eq. lia.
Qed.

End ByteLengthFacts.

(** ** The key path that reaches the hooks *)

Module PathFacts.
Import Decoder.

Lemma env_kept_refl s : env_kept s s.
Proof. split; reflexivity. Qed.

Lemma env_kept_trans a b c : env_kept a b -> env_kept b c -> env_kept a c.
Proof. intros [H1 H2] [H3 H4]. split; congruence. Qed.

Lemma env_kept_offset s n : env_kept s (set_offset n s).
Proof. split; reflexivity. Qed.

Section Path.

Variable data : list byte.
Variable options : DecodeOptions.

Local Abbreviation opt := (set_onValue options record_keyPath).

Lemma env_uint size : 0 <= size -> preserves env_kept (uint data size).
Proof.
  intros Hs. apply DecoderFacts.preserves_uint; auto using env_kept_refl.
  - exact env_kept_trans.
  - intros s n _. apply env_kept_offset.
Qed.

Lemma env_getArgument ai : preserves env_kept (getArgument data ai).
Proof.
  apply DecoderFacts.preserves_getArgument; auto using env_kept_refl.
  - exact env_kept_trans.
  - intros s n _. apply env_kept_offset.
Qed.

Lemma env_decodeBytes n : preserves env_kept (decodeBytes data n).
Proof.
  intros s a s' H. unfold decodeBytes in H.
  destruct n; [|discriminate]. inversion H; subst. apply env_kept_offset.
Qed.

Lemma env_decodeString opts n : preserves env_kept (decodeString data opts n).
Proof.
  intros s a s' H. unfold decodeString in H. inversion H; subst. apply env_kept_offset.
Qed.

Lemma env_new_Array n : preserves env_kept (@new_Array State n).
Proof. apply preserves_new_Array. exact env_kept_refl. Qed.

Lemma on_value_record length type kp :
  on_value opt length type kp
  = Some (CallDecode (fun v => Return (VArray [path_value kp; v]))).
Proof. reflexivity. Qed.

(** Under the recording hook a scalar is paired with the key path. *)
Lemma scalar_record x size type kp s r s' :
  scalar opt x size type kp s = Ok (r, s') ->
  r = VArray [path_value kp; x] /\ s' = s.
Proof.
  unfold scalar. rewrite on_value_record.
  cbv [bind ret call_hook run_hook memoized is_undefined].
  intros H. inversion H. split; reflexivity.
Qed.

(** The pattern shared by the byte string, text string, array and map
    branches, under the recording hook. *)
Lemma typed_record (body : M State CBORValue) (skip' : M State unit) kp s r s' :
  ('(val, value) <- call_hook body
                      (Some (CallDecode (fun v => Return (VArray [path_value kp; v])))) ;;
   if negb (is_undefined val) then
     match value with
     | Some _ => ret val
     | None => skip' ;;; ret val
     end
   else '(v, _) <- memoized body value ;; ret v) s = Ok (r, s') ->
  exists v, body s = Ok (v, s') /\ r = VArray [path_value kp; v].
Proof.
  intros H. cbv [bind ret memoized call_hook run_hook is_undefined negb] in H.
  destruct (body s) as [[x sx]| |]; try discriminate.
  inversion H; subst. exists x. split; reflexivity.
Qed.

Lemma replace_own_In k v props k' x :
  In (k', x) (replace_own k v props) -> (k' = k /\ x = v) \/ In (k', x) props.
Proof.
  induction props as [|[k0 w] rest IH]; simpl; [tauto|].
  destruct (jsstring_eqb k k0) eqn:E.
  - intros [H|H]; [|right; right; exact H].
    inversion H; subst. left. split; [|reflexivity].
    symmetry. apply jsstring_eqb_eq, E.
  - intros [H|H]; [right; left; exact H|].
    destruct (IH H) as [?|?]; [left; assumption|right; right; assumption].
Qed.

Lemma obj_set_In k v props k' x :
  In (k', x) (obj_set k v props) -> (k' = k /\ x = v) \/ In (k', x) props.
Proof.
  unfold obj_set. destruct (jsstring_eqb k (str "__proto__")); [tauto|].
  destruct (has_own k props).
  - apply replace_own_In.
  - intros H. apply in_app_or in H. destruct H as [H|[H|[]]]; [tauto|].
    inversion H; subst. left. split; reflexivity.
Qed.

Lemma nth_error_snoc {A} (l : list A) (a x : A) j :
  nth_error (l ++ [a]) j = Some x ->
  nth_error l j = Some x \/ (j = List.length l /\ x = a).
Proof.
  intros H. destruct (Nat.lt_ge_cases j (List.length l)) as [Hj|Hj].
  - left. rewrite nth_error_app1 in H by exact Hj. exact H.
  - right. rewrite nth_error_app2 in H by exact Hj.
    destruct (j - List.length l)%nat as [|m] eqn:E; simpl in H.
    + inversion H. split; [lia|reflexivity].
    + destruct m; discriminate H.
Qed.

Lemma number_scalar n : is_container (number_of n) = false.
Proof. destruct n; reflexivity. Qed.

Lemma negative_scalar n : is_container (negative_of n) = false.
Proof. destruct n; reflexivity. Qed.

Lemma decodeBytes_scalar n s v s' :
  decodeBytes data n s = Ok (v, s') -> is_container v = false.
Proof.
  unfold decodeBytes. destruct n; [|discriminate].
  intros H. inversion H. reflexivity.
Qed.

Lemma decodeString_scalar opts n s v s' :
  decodeString data opts n s = Ok (v, s') -> is_container v = false.
Proof. unfold decodeString. intros H. inversion H. reflexivity. Qed.

Local Abbreviation value_recorded := (value_recorded data options).
Local Abbreviation items_recorded := (items_recorded data options).
Local Abbreviation entries_recorded := (entries_recorded data options).

Lemma items_step fuel :
  value_recorded fuel -> items_recorded fuel -> items_recorded (S fuel).
Proof.
  intros IHv IHi i n acc s r s' H Hkey -> Hacc.
  with_strategy opaque [Z.sub Z.pow Z.add Z.mul decodeValue] simpl in H.
  destruct (lt_jsnum _ n).
  - unfold pushKey, popKey in H. inv_run.
    match goal with
    | Hv : decodeValue _ _ _ ?s0 = Ok (?x, ?s1) |- _ =>
      pose proof (DecoderFacts.decodeValue_keyPath _ _ _ _ _ _ Hv) as Hp;
      destruct (IHv _ _ _ Hv Hkey) as [Hx Hk1]
    end.
    simpl in Hp, Hx.
    match type of H with
    | decodeItems _ _ _ _ _ _ ?s2 = _ =>
      assert (Hp2 : keyPath s2 = keyPath s)
        by (simpl; rewrite Hp; apply removelast_last)
    end.
    destruct (IHi _ _ _ _ _ _ H) as (items & -> & Hk' & Hitems).
    + exact Hk1.
    + unfold len. rewrite length_app. simpl. lia.
    + intros j y Hj. rewrite Hp2. apply nth_error_snoc in Hj.
      destruct Hj as [Hj|[-> ->]]; [apply Hacc; exact Hj|exact Hx].
    + exists items. split; [reflexivity|]. split; [exact Hk'|].
      intros j y Hj. rewrite <- Hp2. apply Hitems. exact Hj.
  - inv_run. exists acc. split; [reflexivity|]. split; [exact Hkey|exact Hacc].
Qed.

Lemma entries_step fuel :
  value_recorded fuel -> entries_recorded fuel -> entries_recorded (S fuel).
Proof.
  intros IHv IHe i n acc s r s' H Hkey Hacc.
  with_strategy opaque [Z.sub Z.pow Z.add Z.mul decodeValue] simpl in H.
  destruct (lt_jsnum i n).
  - apply bind_Ok in H. destruct H as ([] & s0 & H0 & H).
    inversion H0; subst s0; clear H0.
    apply bind_Ok in H. destruct H as (key & s1 & Hkv & H).
    pose proof (DecoderFacts.decodeValue_keyPath _ _ _ _ _ _ Hkv) as Hp1.
    simpl in Hp1.
    apply bind_Ok in H. destruct H as ([] & s2 & H2 & H).
    inversion H2; subst s2; clear H2.
    destruct key as [| | | | | | |k| |]; try discriminate H.
    destruct (key_in k acc); [discriminate H|].
    unfold pushKey, popKey in H.
    apply bind_Ok in H. destruct H as ([] & s3 & H3 & H).
    inversion H3; subst s3; clear H3.
    apply bind_Ok in H. destruct H as (x & s4 & Hv & H).
    apply bind_Ok in H. destruct H as ([] & s5 & H5 & H).
    inversion H5; subst s5; clear H5.
    pose proof (DecoderFacts.decodeValue_keyPath _ _ _ _ _ _ Hv) as Hp4.
    destruct (IHv _ _ _ Hv eq_refl) as [Hx Hk4].
    simpl in Hp4, Hx. rewrite Hp1 in Hp4, Hx.
    match type of H with
    | decodeEntries _ _ _ _ _ _ ?s6 = _ =>
      assert (Hp6 : keyPath s6 = keyPath s)
        by (simpl; rewrite Hp4; apply removelast_last)
    end.
    destruct (IHe _ _ _ _ _ _ H) as (props & -> & Hk' & Hprops).
    + exact Hk4.
    + intros k' y Hin. rewrite Hp6. apply obj_set_In in Hin.
      destruct Hin as [[-> ->]|Hin]; [exact Hx|apply Hacc; exact Hin].
    + exists props. split; [reflexivity|]. split; [exact Hk'|].
      intros k' y Hin. rewrite <- Hp6. apply Hprops. exact Hin.
  - inv_run. exists acc. split; [reflexivity|]. split; [exact Hkey|exact Hacc].
Qed.

Ltac record_argument H :=
  let a := fresh "a" in let sa := fresh "sa" in let Ha := fresh "Ha" in
  apply bind_Ok in H; destruct H as (a & sa & Ha & H);
  destruct (env_getArgument _ _ _ _ Ha) as [? ?].

Ltac record_scalar H :=
  apply scalar_record in H; destruct H as [-> ->];
  split; [apply recorded_scalar; auto using number_scalar, negative_scalar
         | congruence].

Ltac record_float H :=
  let bits := fresh "bits" in let sb := fresh "sb" in let Hb := fresh "Hb" in
  apply bind_Ok in H; destruct H as (bits & sb & Hb & H);
  unfold float16, float32, float64 in Hb;
  match type of Hb with
  | uint _ ?size _ = _ =>
    destruct (env_uint size ltac:(lia) _ _ _ Hb) as [? ?]
  end;
  record_scalar H.

Lemma value_step fuel :
  items_recorded fuel -> entries_recorded fuel -> value_recorded (S fuel).
Proof.
  intros IHi IHe s r s' H Hkey.
  with_strategy opaque [Z.sub Z.pow Z.add Z.mul skipValues getArgument uint8
                        decodeItems decodeEntries scalar decodeBytes decodeString
                        on_value on_key float16 float32 float64] simpl in H.
  apply bind_Ok in H. destruct H as (ib & s1 & Hu & H).
  unfold get_env at 1 in H. unfold bind at 1 in H. cbn [fst snd] in H.
  destruct (env_uint 1 ltac:(lia) _ _ _ Hu) as [Hk1 Hp1].
  rewrite Hk1, Hp1, Hkey in H. revert H.
  destruct (Z.shiftr ib 5 =? 0).
  { intros H. record_argument H.
    destruct (arg_uint64 a) as [u|];
      [destruct (Utils.maxSafeInteger <? u); [discriminate H|]|]; record_scalar H. }
  destruct (Z.shiftr ib 5 =? 1).
  { intros H. record_argument H.
    destruct (arg_uint64 a) as [u|];
      [destruct (-1 - u <? Utils.minSafeInteger); [discriminate H|]|]; record_scalar H. }
  destruct (Z.shiftr ib 5 =? 2).
  { intros H. record_argument H. rewrite on_value_record in H.
    apply typed_record in H. destruct H as (v & Hb & ->).
    destruct (env_decodeBytes _ _ _ _ Hb) as [? ?].
    split; [|congruence].
    apply recorded_scalar. eapply decodeBytes_scalar; eauto. }
  destruct (Z.shiftr ib 5 =? 3).
  { intros H. record_argument H. cbv iota in H. rewrite on_value_record in H.
    apply typed_record in H. destruct H as (v & Hb & ->).
    destruct (env_decodeString _ _ _ _ _ Hb) as [? ?].
    split; [|congruence].
    apply recorded_scalar. eapply decodeString_scalar; eauto. }
  destruct (Z.shiftr ib 5 =? 4).
  { intros H. record_argument H. rewrite on_value_record in H.
    apply typed_record in H. destruct H as (v & Hb & ->).
    apply bind_Ok in Hb. destruct Hb as ([] & sb & Hn & Hb).
    destruct (env_new_Array _ _ _ _ Hn) as [? ?].
    destruct (IHi _ _ _ _ _ _ Hb) as (items & -> & Hk' & Hitems).
    - congruence.
    - reflexivity.
    - intros [|j] x Hj; discriminate Hj.
    - split; [|exact Hk'].
      apply recorded_array. intros j x Hj.
      replace (keyPath s) with (keyPath sb) by congruence. apply Hitems, Hj. }
  destruct (Z.shiftr ib 5 =? 5).
  { intros H. record_argument H. rewrite on_value_record in H.
    apply typed_record in H. destruct H as (v & Hb & ->).
    destruct (IHe _ _ _ _ _ _ Hb) as (props & -> & Hk' & Hprops).
    - congruence.
    - intros k x [].
    - split; [|exact Hk'].
      apply recorded_object. intros k x Hin.
      replace (keyPath s) with (keyPath sa) by congruence. apply Hprops, Hin. }
  destruct (Z.shiftr ib 5 =? 6); [intros H; discriminate H|].
  destruct (Z.shiftr ib 5 =? 7); [|intros H; discriminate H].
  destruct (Z.land ib 31 =? 20); [intros H; record_scalar H|].
  destruct (Z.land ib 31 =? 21); [intros H; record_scalar H|].
  destruct (Z.land ib 31 =? 22); [intros H; record_scalar H|].
  destruct (Z.land ib 31 =? 23).
  { destruct (negb (allowUndefined options)); [intros H; discriminate H|].
    intros H. rewrite on_value_record in H.
    cbv [bind ret call_hook run_hook memoized] in H. inversion H; subst.
    split; [apply recorded_scalar; reflexivity|congruence]. }
  destruct (Z.land ib 31 =? 24); [intros H; discriminate H|].
  destruct (Z.land ib 31 =? 25).
  { destruct (minFloatSize options <=? 16); [|intros H; discriminate H].
    intros H. record_float H. }
  destruct (Z.land ib 31 =? 26).
  { destruct (minFloatSize options <=? 32); [|intros H; discriminate H].
    intros H. record_float H. }
  destruct (Z.land ib 31 =? 27); [intros H; record_float H|].
  destruct (Z.land ib 31 =? 31); intros H; discriminate H.
Qed.

Lemma recorded_all fuel :
  value_recorded fuel /\ items_recorded fuel /\ entries_recorded fuel.
Proof.
  induction fuel as [|fuel (IHv & IHi & IHe)].
  - split; [intros s r s' H; discriminate H|]. split.
    + intros i n acc s r s' H Hkey _ Hacc. simpl in H.
      destruct (lt_jsnum i n); inv_run.
      exists acc. split; [reflexivity|]. split; [exact Hkey|exact Hacc].
    + intros i n acc s r s' H Hkey Hacc. simpl in H.
      destruct (lt_jsnum i n); inv_run.
      exists acc. split; [reflexivity|]. split; [exact Hkey|exact Hacc].
  - split; [apply value_step; assumption|].
    split; [apply items_step|apply entries_step]; assumption.
Qed.

(** Under the recording hook, the decoded value pairs every item with the
    path of keys and indices that leads to it from the entry state. *)
Lemma hooks_see_path fuel s r s' :
  isKey s = false ->
  decodeValue data opt fuel s = Ok (r, s') ->
  recorded (keyPath s) r.
Proof.
  intros Hkey H. destruct (recorded_all fuel) as (Hv & _).
  exact (proj1 (Hv s r s' H Hkey)).
Qed.

End Path.
End PathFacts.

(** ** The memoized thunk in the streaming decoders *)

Module StreamMemoFacts.
Import StreamDecoder.

Lemma stream_env_refl s : stream_env_kept s s.
Proof. split; reflexivity. Qed.

Lemma stream_env_trans a b c :
  stream_env_kept a b -> stream_env_kept b c -> stream_env_kept a c.
Proof. intros [H1 H2] [H3 H4]. split; congruence. Qed.

Lemma stream_env_allocate n : preserves stream_env_kept (allocate n).
Proof.
  intros s a s' H. unfold allocate in H.
  destruct (allocate_loop n (iter s) (chunks s) (byteLength s)) as [[[src cs] bl]| |];
    try discriminate.
  inversion H; subst. split; reflexivity.
Qed.

Lemma stream_env_advance n : preserves stream_env_kept (advance n).
Proof.
  intros s a s' H. unfold advance in H.
  destruct n as [n|]; [|discriminate].
  destruct (byteLength s <? n); [discriminate|].
  destruct (advance_loop n (chunks s) 0 0 [] (offset s) (byteLength s))
    as [[[[dc tg] o] bl]| |]; try discriminate.
  inversion H; subst. split; reflexivity.
Qed.

#[local] Hint Resolve stream_env_refl stream_env_trans : core.

Lemma stream_env_uint size : preserves stream_env_kept (uint size).
Proof.
  unfold uint, fill.
  repeat preserves_step; auto using stream_env_allocate, stream_env_advance.
Qed.

Lemma stream_env_getArgument ai : preserves stream_env_kept (getArgument ai).
Proof.
  unfold getArgument, uint8, uint16, uint32, uint64.
  repeat preserves_step; auto using stream_env_uint.
Qed.

Lemma stream_env_skipBytes n : preserves stream_env_kept (skipBytes n).
Proof.
  unfold skipBytes.
  repeat preserves_step; auto using stream_env_allocate, stream_env_advance.
Qed.

Lemma stream_env_decodeBytes n : preserves stream_env_kept (decodeBytes n).
Proof.
  unfold decodeBytes, fill.
  repeat preserves_step; auto using stream_env_allocate, stream_env_advance.
Qed.

Lemma stream_env_decodeString options n :
  preserves stream_env_kept (decodeString options n).
Proof.
  unfold decodeString, fill.
  repeat preserves_step; auto using stream_env_allocate, stream_env_advance.
Qed.

Lemma stream_env_skipValue options fuel :
  preserves stream_env_kept (skipValue options fuel) /\
  (forall i n, preserves stream_env_kept (skipValues options fuel i n)).
Proof.
  induction fuel as [|fuel [IHv IHs]].
  - split; [apply preserves_out_of_fuel|].
    intros i n. simpl. destruct (lt_jsnum i n); repeat preserves_step.
  - assert (Hv : preserves stream_env_kept (skipValue options (S fuel))).
    { with_strategy opaque [Z.sub Z.pow Z.add Z.mul] simpl. unfold uint8.
      repeat preserves_step;
        auto using stream_env_uint, stream_env_getArgument, stream_env_skipBytes. }
    split; [exact Hv|].
    intros i n. with_strategy opaque [Z.sub Z.pow Z.add Z.mul skipValue] simpl.
    destruct (lt_jsnum i n); repeat preserves_step; auto.
Qed.

Lemma stream_kept_refl s : stream_keyPath_kept s s.
Proof. reflexivity. Qed.

Lemma stream_kept_trans a b c :
  stream_keyPath_kept a b -> stream_keyPath_kept b c -> stream_keyPath_kept a c.
Proof. unfold stream_keyPath_kept. congruence. Qed.

#[local] Hint Resolve stream_kept_refl stream_kept_trans : core.

Lemma stream_kept_of_env {A} (m : M State A) :
  preserves stream_env_kept m -> preserves stream_keyPath_kept m.
Proof. intros Hm s a s' H. exact (proj2 (Hm s a s' H)). Qed.

Lemma stream_kept_framed {A B} key (m : M State A) (f : A -> M State B) :
  preserves stream_keyPath_kept m -> (forall v, preserves stream_keyPath_kept (f v)) ->
  preserves stream_keyPath_kept (pushKey key ;;; v <- m ;; popKey ;;; f v).
Proof.
  intros Hm Hf s b s' H. unfold pushKey, popKey in H. inv_run.
  match goal with
  | Hv : m _ = Ok _, Hk : f _ _ = Ok _ |- _ =>
    apply Hm in Hv; apply Hf in Hk; unfold stream_keyPath_kept in *; simpl in *;
    rewrite Hk, Hv; apply removelast_last
  end.
Qed.

Ltac stream_kept_step :=
  match goal with
  | |- preserves _ (bind (pushKey _) _) => apply stream_kept_framed; [ | intros ]
  | |- preserves _ (uint _) => apply stream_kept_of_env, stream_env_uint
  | |- preserves _ (getArgument _) => apply stream_kept_of_env, stream_env_getArgument
  | |- preserves _ (skipBytes _) => apply stream_kept_of_env, stream_env_skipBytes
  | |- preserves _ (decodeBytes _) => apply stream_kept_of_env, stream_env_decodeBytes
  | |- preserves _ (decodeString _ _) =>
    apply stream_kept_of_env, stream_env_decodeString
  | |- preserves _ (skipValues _ _ _ _) =>
    apply stream_kept_of_env, stream_env_skipValue
  | |- preserves _ get_env =>
    let H := fresh in intros ? ? ? H; inversion H; subst; reflexivity
  | |- preserves _ (modify (set_isKey _)) =>
    apply preserves_modify; intros; reflexivity
  | _ => preserves_step
  end.

Lemma stream_kept_decodeValue options fuel :
  preserves stream_keyPath_kept (decodeValue options fuel) /\
  (forall i n value, preserves stream_keyPath_kept (decodeItems options fuel i n value)) /\
  (forall i n value,
     preserves stream_keyPath_kept (decodeEntries options fuel i n value)).
Proof.
  induction fuel as [|fuel (IHv & IHi & IHe)].
  - split; [apply preserves_out_of_fuel|].
    split; intros i n value; simpl; destruct (lt_jsnum i n); repeat preserves_step.
  - split; [|split].
    + with_strategy opaque [Z.sub Z.pow Z.add Z.mul] simpl.
      unfold float16, float32, float64, uint8, scalar.
      repeat stream_kept_step; auto.
    + intros i n value.
      with_strategy opaque [Z.sub Z.pow Z.add Z.mul decodeValue] simpl.
      destruct (lt_jsnum i n); [|repeat preserves_step].
      apply stream_kept_framed; auto.
    + intros i n value.
      with_strategy opaque [Z.sub Z.pow Z.add Z.mul decodeValue] simpl.
      destruct (lt_jsnum i n); [|repeat preserves_step].
      repeat stream_kept_step; auto.
Qed.

Lemma stream_agrees_same {A} kp (m : M State A) :
  preserves stream_keyPath_kept m -> agrees_stream kp m m.
Proof.
  intros Hm s1 a s1' H. split; [exact I|].
  intros _ s2 [Es Hk]. subst s2. exists s1'. split; [exact H|].
  split; [reflexivity|]. rewrite <- Hk. eapply Hm; eauto.
Qed.

Lemma stream_agrees_get_env {B} kp (f1 f2 : bool * list Key -> M State B) :
  (forall b, agrees_stream kp (f1 (b, kp)) (f2 (b, kp))) ->
  agrees_stream kp (bind get_env f1) (bind get_env f2).
Proof.
  intros Hf s1 b s1' H. split; [exact I|].
  intros _ s2 [Es Hk]. subst s2 kp. unfold bind, get_env in *.
  destruct (Hf (isKey s1) _ _ _ H) as [_ Hs].
  apply (Hs I s1). split; reflexivity.
Qed.

Lemma stream_agrees_framed {A B} kp key (m1 m2 : M State A) (f1 f2 : A -> M State B) :
  agrees_stream (kp ++ [key]) m1 m2 -> (forall v, agrees_stream kp (f1 v) (f2 v)) ->
  agrees_stream kp (pushKey key ;;; v <- m1 ;; popKey ;;; f1 v)
                   (pushKey key ;;; v <- m2 ;; popKey ;;; f2 v).
Proof.
  intros Hm Hf s1 b s1' H. split; [exact I|].
  intros _ s2 [Es Hk]. subst s2. unfold pushKey, popKey in *.
  apply bind_Ok in H. destruct H as ([] & sp & Hp & H). inversion Hp; subst sp. clear Hp.
  apply bind_Ok in H. destruct H as (v & sa & Hv & H).
  apply bind_Ok in H. destruct H as ([] & sb & Hq & H). inversion Hq; subst sb. clear Hq.
  destruct (Hm _ _ _ Hv) as [_ Hs].
  assert (Hpre : same_at_stream (kp ++ [key]) (set_keyPath (keyPath s1 ++ [key]) s1)
                   (set_keyPath (keyPath s1 ++ [key]) s1)).
  { split; [reflexivity|]. simpl. rewrite Hk. reflexivity. }
  destruct (Hs I _ Hpre) as (sa' & Ev & Es & Hka). subst sa'.
  destruct (Hf v _ _ _ H) as [_ Hs'].
  assert (Hpre' : same_at_stream kp (set_keyPath (removelast (keyPath sa)) sa)
                    (set_keyPath (removelast (keyPath sa)) sa)).
  { split; [reflexivity|]. simpl. rewrite Hka. apply removelast_last. }
  destruct (Hs' I _ Hpre') as (s2' & Ef & Hpost).
  exists s2'. split; [|exact Hpost].
  unfold bind, modify in *. rewrite Ev. exact Ef.
Qed.

Section Facts.

Lemma stream_decodeItems_array options fuel :
  forall i n value,
    returns (decodeItems options fuel i n value) (fun v => is_string v -> False).
Proof.
  induction fuel as [|fuel IH]; intros i n value s a s' H; simpl in H;
    destruct (lt_jsnum i n); inv_run; try (intros []).
  eapply IH; eauto.
Qed.

Lemma stream_decodeEntries_object options fuel :
  forall i n value,
    returns (decodeEntries options fuel i n value) (fun v => is_string v -> False).
Proof.
  induction fuel as [|fuel IH]; intros i n value s a s' H; simpl in H;
    destruct (lt_jsnum i n); inv_run; try (intros []).
  match goal with H : match ?k with _ => _ end _ = Ok _ |- _ => destruct k end;
    try discriminate.
  inv_run. eapply IH; eauto.
Qed.


Section Nested.

Variable options : DecodeOptions.
Variable h : OnValue.
Variable kp0 : list Key.
Variable p : Hook.

Local Abbreviation opt1 := (set_onValue options (hook_at kp0 (Return VUndefined) h)).
Local Abbreviation opt2 := (set_onValue options (hook_at kp0 p h)).

Lemma stream_on_value_below length type kp :
  below kp0 kp -> on_value opt2 length type kp = on_value opt1 length type kp.
Proof.
  intros Hb. unfold on_value, hook_at. simpl. rewrite (below_neq _ _ Hb). reflexivity.
Qed.

Lemma stream_on_value_root1 length type :
  on_value opt1 length type kp0 = Some (Return VUndefined).
Proof. unfold on_value, hook_at. simpl. rewrite keyPath_eqb_refl. reflexivity. Qed.

Lemma stream_on_value_root2 length type : on_value opt2 length type kp0 = Some p.
Proof. unfold on_value, hook_at. simpl. rewrite keyPath_eqb_refl. reflexivity. Qed.

Ltac stream_agree_leaf :=
  match goal with
  | |- simQ _ _ _ (uint _) (uint _) =>
    apply stream_agrees_same, stream_kept_of_env, stream_env_uint
  | |- simQ _ _ _ (getArgument _) (getArgument _) =>
    apply stream_agrees_same, stream_kept_of_env, stream_env_getArgument
  | |- simQ _ _ _ (skipBytes _) (skipBytes _) =>
    apply stream_agrees_same, stream_kept_of_env, stream_env_skipBytes
  | |- simQ _ _ _ (decodeBytes _) (decodeBytes _) =>
    apply stream_agrees_same, stream_kept_of_env, stream_env_decodeBytes
  | |- simQ _ _ _ (decodeString _ _) (decodeString _ _) =>
    apply (stream_agrees_same _ (decodeString opt1 _)),
          stream_kept_of_env, stream_env_decodeString
  | |- simQ _ _ _ (modify (set_isKey _)) (modify (set_isKey _)) =>
    apply stream_agrees_same, preserves_modify; intros; reflexivity
  | |- simQ _ _ _ (bind get_env _) (bind get_env _) =>
    apply stream_agrees_get_env; intros; cbn [fst snd]; unfold agrees_stream
  | |- simQ _ _ _ (bind (pushKey _) _) (bind (pushKey _) _) =>
    apply stream_agrees_framed; [|intros; unfold agrees_stream]
  end.

(** The skip routine reads the options only for [allowUndefined]. *)
Lemma stream_agrees_skipValue kp fuel :
  agrees_stream kp (skipValue opt1 fuel) (skipValue opt2 fuel) /\
  (forall i n, agrees_stream kp (skipValues opt1 fuel i n) (skipValues opt2 fuel i n)).
Proof.
  unfold agrees_stream.
  induction fuel as [|fuel [IHv IHs]].
  - split; [apply sim_out_of_fuel|].
    intros i n. simpl. destruct (lt_jsnum i n); repeat sim_step.
  - split.
    + with_strategy opaque [Z.sub Z.pow Z.add Z.mul] simpl. unfold uint8.
      repeat (first [stream_agree_leaf | sim_step]); auto.
    + intros i n. with_strategy opaque [Z.sub Z.pow Z.add Z.mul skipValue] simpl.
      destruct (lt_jsnum i n); repeat (first [stream_agree_leaf | sim_step]); auto.
Qed.


Lemma stream_uint_env size s v s1 :
  uint size s = Ok (v, s1) -> isKey s1 = isKey s /\ keyPath s1 = keyPath s.
Proof.
  intros H. exact (stream_env_uint size s v s1 H).
Qed.

Lemma stream_scalar_root1 x size type s v s' :
  scalar opt1 x size type kp0 s = Ok (v, s') -> v = x /\ s' = s.
Proof.
  unfold scalar. rewrite stream_on_value_root1. simpl. unfold bind, ret. simpl.
  intros H. inversion H. split; reflexivity.
Qed.

(** The head of [decodeValue]: the first byte and the environment. *)
Ltac stream_open_decodeValue H :=
  let ib := fresh "ib" in let s1 := fresh "s1" in let Hu := fresh "Hu" in
  with_strategy opaque [Z.sub Z.pow Z.add Z.mul skipValues getArgument uint8
                        decodeItems decodeEntries scalar decodeBytes decodeString
                        on_value on_key float16 float32 float64] simpl in H;
  with_strategy opaque [Z.sub Z.pow Z.add Z.mul skipValues getArgument uint8
                        decodeItems decodeEntries scalar decodeBytes decodeString
                        on_value on_key float16 float32 float64] simpl;
  apply bind_Ok in H; destruct H as (ib & s1 & Hu & H);
  rewrite (bind_Ok_intro _ _ _ _ _ Hu);
  unfold get_env at 1 in H; unfold bind at 1 in H;
  unfold get_env at 1; unfold bind at 1;
  cbn [fst snd] in H; cbn [fst snd];
  let Hk := fresh "Hk" in let Hp := fresh "Hp" in
  destruct (stream_uint_env _ _ _ _ Hu) as [Hk Hp];
  rewrite Hk, Hp in H; rewrite Hk, Hp.

Lemma stream_decodeBytes_not_string n s v s' :
  decodeBytes n s = Ok (v, s') -> is_string v -> False.
Proof.
  unfold decodeBytes. intros H.
  apply bind_Ok in H. destruct H as (? & ? & _ & H).
  destruct n; [|discriminate]. inv_run. intros [].
Qed.

Lemma stream_number_not_string n : is_string (number_of n) -> False.
Proof. destruct n; intros []. Qed.

Lemma stream_negative_not_string n : is_string (negative_of n) -> False.
Proof. destruct n; intros []. Qed.

(** Under the hook that returns nothing at [kp0], no branch but the text
    string returns a string. *)
Ltac stream_not_a_string :=
  repeat match goal with
  | H : bind _ _ _ = Ok _ |- _ =>
    let H1 := fresh "H" in
    apply bind_Ok in H; destruct H as (? & ? & H1 & H)
  | H : (let '(_, _) := ?x in _) _ = Ok _ |- _ => destruct x
  | H : (if ?c then _ else _) _ = Ok _ |- _ => destruct c
  | H : match ?x with _ => _ end _ = Ok _ |- _ => destruct x
  | H : throw _ _ = Ok _ |- _ => discriminate H
  | H : ret _ _ = Ok _ |- _ => inversion H; subst; clear H
  | H : scalar opt1 _ _ _ kp0 _ = Ok _ |- _ =>
    apply stream_scalar_root1 in H; destruct H; subst
  | H : call_hook _ (on_value opt1 _ _ kp0) _ = Ok _ |- _ =>
    rewrite stream_on_value_root1 in H; simpl in H
  | H : memoized _ None _ = Ok _ |- _ => simpl in H
  | H : new_Array _ _ = Ok _ |- _ => clear H
  | H : is_undefined ?v = _ |- _ => clear H
  end;
  try discriminate;
  try match goal with
  | H : decodeBytes _ _ = Ok (VString _, _) |- _ =>
    exact (stream_decodeBytes_not_string _ _ _ _ H I)
  | H : decodeItems _ _ _ _ _ _ = Ok (VString _, _) |- _ =>
    exact (stream_decodeItems_array _ _ _ _ _ _ _ _ H I)
  | H : decodeEntries _ _ _ _ _ _ = Ok (VString _, _) |- _ =>
    exact (stream_decodeEntries_object _ _ _ _ _ _ _ _ H I)
  | H : VString _ = number_of ?n |- _ => destruct n; discriminate H
  | H : VString _ = negative_of ?n |- _ => destruct n; discriminate H
  | H : number_of ?n = VString _ |- _ => destruct n; discriminate H
  | H : negative_of ?n = VString _ |- _ => destruct n; discriminate H
  end.

Lemma stream_key_at_root fuel s k s' :
  keyPath s = kp0 -> isKey s = true ->
  decodeValue opt1 fuel s = Ok (VString k, s') ->
  decodeValue opt2 fuel s = Ok (VString k, s').
Proof.
  intros Hkp Hkey H. destruct fuel as [|fuel]; [discriminate|].
  stream_open_decodeValue H. rewrite Hkp, Hkey in *. clear Hkp Hp. revert H.
  destruct (Z.shiftr ib 5 =? 0); [intros H; exfalso; stream_not_a_string|].
  destruct (Z.shiftr ib 5 =? 1); [intros H; exfalso; stream_not_a_string|].
  destruct (Z.shiftr ib 5 =? 2); [intros H; exfalso; stream_not_a_string|].
  destruct (Z.shiftr ib 5 =? 3); [intros H; exact H|].
  destruct (Z.shiftr ib 5 =? 4); [intros H; exfalso; stream_not_a_string|].
  destruct (Z.shiftr ib 5 =? 5); [intros H; exfalso; stream_not_a_string|].
  destruct (Z.shiftr ib 5 =? 6); [intros H; discriminate H|].
  destruct (Z.shiftr ib 5 =? 7); [|intros H; discriminate H].
  intros H; exfalso; stream_not_a_string.
Qed.


(** One entry of a map: the key is decoded with [isKey] set, and the rest
    only runs on a string. *)
Lemma stream_agrees_key {B} kp (dv1 dv2 : M State CBORValue)
  (g1 g2 : CBORValue -> M State B) :
  (forall s k s', keyPath s = kp -> isKey s = true ->
     dv1 s = Ok (VString k, s') -> dv2 s = Ok (VString k, s')) ->
  preserves stream_keyPath_kept dv1 ->
  (forall key s b s', g1 key s = Ok (b, s') -> is_string key) ->
  (forall key, agrees_stream kp (g1 key) (g2 key)) ->
  agrees_stream kp (modify (set_isKey true) ;;; key <- dv1 ;; g1 key)
                   (modify (set_isKey true) ;;; key <- dv2 ;; g2 key).
Proof.
  intros Hkey Hkept Hstr Hg s1 b s1' H. split; [exact I|].
  intros _ s2 [Es Hk]. subst s2.
  apply bind_Ok in H. destruct H as ([] & sk & Hm & H). inversion Hm; subst sk. clear Hm.
  apply bind_Ok in H. destruct H as (key & sa & Hv & H).
  pose proof (Hstr _ _ _ _ H) as Hs. destruct key; try contradiction.
  assert (E : dv2 (set_isKey true s1) = Ok (VString s, sa))
    by (apply Hkey; [exact Hk | reflexivity | exact Hv]).
  destruct (Hg (VString s) _ _ _ H) as [_ Hsim].
  destruct (Hsim I sa) as (s2' & Eg & Hpost).
  { split; [reflexivity|]. rewrite <- Hk. apply (Hkept _ _ _ Hv). }
  exists s2'. split; [|exact Hpost].
  unfold bind, modify. rewrite E. exact Eg.
Qed.

Lemma stream_kept_value opt fuel : preserves stream_keyPath_kept (decodeValue opt fuel).
Proof. apply stream_kept_decodeValue. Qed.

Ltac stream_agree_hook kp :=
  match goal with
  | Hb : below kp0 kp |- simQ _ _ _ (bind (call_hook _ _) _) (bind (call_hook _ _) _) =>
    progress (change (on_key opt2) with (on_key opt1);
              rewrite ?(fun l t => stream_on_value_below l t kp Hb))
  | Hb : below kp0 kp |- simQ _ _ _ (call_hook _ _) (call_hook _ _) =>
    progress (change (on_key opt2) with (on_key opt1);
              rewrite ?(fun l t => stream_on_value_below l t kp Hb))
  end.

Lemma stream_agrees_decodeValue fuel :
  (forall kp, below kp0 kp ->
     agrees_stream kp (decodeValue opt1 fuel) (decodeValue opt2 fuel)) /\
  (forall kp i n value, at_or_below kp0 kp ->
     agrees_stream kp (decodeItems opt1 fuel i n value)
                      (decodeItems opt2 fuel i n value)) /\
  (forall kp i n value, at_or_below kp0 kp ->
     agrees_stream kp (decodeEntries opt1 fuel i n value)
                      (decodeEntries opt2 fuel i n value)).
Proof.
  induction fuel as [|fuel (IHv & IHi & IHe)].
  - split; [intros; apply sim_out_of_fuel|].
    split; intros kp i n value _; unfold agrees_stream; simpl;
      destruct (lt_jsnum i n); repeat sim_step.
  - split; [|split].
    + intros kp Hb. unfold agrees_stream.
      pose proof (fun i n => proj2 (stream_agrees_skipValue kp fuel) i n) as Hskip.
      pose proof (fun i n v => IHi kp i n v (below_at_or_below _ _ Hb)) as Hi.
      pose proof (fun i n v => IHe kp i n v (below_at_or_below _ _ Hb)) as He.
      unfold agrees_stream in Hskip, Hi, He.
      with_strategy opaque [Z.sub Z.pow Z.add Z.mul on_value on_key] simpl.
      unfold float16, float32, float64, uint8, scalar.
      repeat (first [stream_agree_leaf | stream_agree_hook kp | sim_step]); auto.
    + intros kp i n value Hb. unfold agrees_stream.
      with_strategy opaque [Z.sub Z.pow Z.add Z.mul decodeValue] simpl.
      destruct (lt_jsnum i n); [|repeat sim_step].
      apply stream_agrees_framed; [apply IHv, below_push, Hb|].
      intros v. apply IHi, Hb.
    + intros kp i n value Hb. unfold agrees_stream.
      with_strategy opaque [Z.sub Z.pow Z.add Z.mul decodeValue] simpl.
      destruct (lt_jsnum i n); [|repeat sim_step].
      apply stream_agrees_key.
      * intros s k s' Hk Hkey H. destruct Hb as ([|key rest] & Hkp).
        -- rewrite app_nil_r in Hkp. subst kp. eapply stream_key_at_root; eauto.
        -- destruct (IHv kp ltac:(exists key, rest; exact Hkp) _ _ _ H) as [_ Hs].
           destruct (Hs I s (conj eq_refl Hk)) as (s2' & E & Es & _).
           subst s2'. exact E.
      * apply stream_kept_value.
      * intros key s b s' H. apply bind_Ok in H. destruct H as (? & ? & _ & H).
        destruct key; try discriminate. exact I.
      * intros key. unfold agrees_stream.
        repeat (first [stream_agree_leaf | sim_step]); auto.
        -- apply IHv, below_push, Hb.
        -- apply IHe, Hb.
Qed.


Variable k : CBORValue -> Hook.
Hypothesis p_calls : p = CallDecode k.

Lemma stream_scalar_root2 x size type s :
  scalar opt2 x size type kp0 s = memo_result k x s.
Proof.
  unfold scalar, memo_result. rewrite stream_on_value_root2. simpl call_hook.
  destruct (run_hook_constant x p s) as (value' & E).
  unfold bind at 1. rewrite E. rewrite p_calls. simpl feed.
  destruct (feed (k x) x); reflexivity.
Qed.

(** The pattern shared by the byte string, text string, array and map
    branches, under the hook that returns nothing and under the hook that
    calls its thunk. *)
Lemma stream_typed_normal (body : M State CBORValue) (skip' : M State unit) s v s' :
  ('(val, value) <- call_hook body (Some (Return VUndefined)) ;;
   if negb (is_undefined val) then
     match value with
     | Some _ => ret val
     | None => skip' ;;; ret val
     end
   else '(v, _) <- memoized body value ;; ret v) s = Ok (v, s') ->
  body s = Ok (v, s').
Proof.
  intros H. cbv [bind ret memoized call_hook run_hook is_undefined negb] in H.
  destruct (body s) as [[x sx]| |]; try discriminate. exact H.
Qed.

Lemma stream_typed_memo (body : M State CBORValue) (skip' : M State unit) s v s' :
  body s = Ok (v, s') ->
  ('(val, value) <- call_hook body (Some p) ;;
   if negb (is_undefined val) then
     match value with
     | Some _ => ret val
     | None => skip' ;;; ret val
     end
   else '(v, _) <- memoized body value ;; ret v) s = memo_result k v s'.
Proof.
  intros Hb. unfold memo_result. simpl call_hook. unfold bind at 1.
  rewrite p_calls, (run_hook_first body k s v s' Hb).
  destruct (feed (k v) v) as [r|]; [|reflexivity].
  destruct (is_undefined r); reflexivity.
Qed.


Ltac stream_root_scalar H :=
  apply stream_scalar_root1 in H; destruct H as [Ev Es]; rewrite Ev, Es; apply stream_scalar_root2.

Ltac stream_root_argument H :=
  let a := fresh "a" in let sa := fresh "sa" in let Ha := fresh "Ha" in
  apply bind_Ok in H; destruct H as (a & sa & Ha & H);
  rewrite (bind_Ok_intro _ _ _ _ _ Ha);
  pose proof (stream_kept_of_env _ (stream_env_getArgument _) _ _ _ Ha).

Lemma stream_memo_root fuel s v s' :
  keyPath s = kp0 -> isKey s = false ->
  decodeValue opt1 fuel s = Ok (v, s') ->
  decodeValue opt2 fuel s = memo_result k v s'.
Proof.
  intros Hkp Hkey H. destruct fuel as [|fuel]; [discriminate|].
  stream_open_decodeValue H. rewrite Hkp, Hkey in *.
  assert (Hs1 : keyPath s1 = kp0) by congruence. clear Hkp Hp. revert H.
  destruct (stream_agrees_decodeValue fuel) as (_ & Hitems & Hentries).
  destruct (Z.shiftr ib 5 =? 0).
  { intros H. stream_root_argument H.
    destruct (arg_uint64 a) as [u|];
      [destruct (Utils.maxSafeInteger <? u); [discriminate H|]|]; stream_root_scalar H. }
  destruct (Z.shiftr ib 5 =? 1).
  { intros H. stream_root_argument H.
    destruct (arg_uint64 a) as [u|];
      [destruct (-1 - u <? Utils.minSafeInteger); [discriminate H|]|]; stream_root_scalar H. }
  destruct (Z.shiftr ib 5 =? 2).
  { intros H. stream_root_argument H. rewrite stream_on_value_root1 in H. rewrite stream_on_value_root2.
    apply stream_typed_normal in H. apply stream_typed_memo. exact H. }
  destruct (Z.shiftr ib 5 =? 3).
  { intros H. stream_root_argument H. cbv iota in H. cbv iota.
    rewrite stream_on_value_root1 in H. rewrite stream_on_value_root2.
    apply stream_typed_normal in H. apply stream_typed_memo. exact H. }
  destruct (Z.shiftr ib 5 =? 4).
  { intros H. stream_root_argument H. rewrite stream_on_value_root1 in H. rewrite stream_on_value_root2.
    apply stream_typed_normal in H. apply stream_typed_memo.
    apply bind_Ok in H. destruct H as ([] & sb & Hn & H).
    rewrite (bind_Ok_intro _ _ _ _ _ Hn).
    assert (Hsb : keyPath sb = kp0).
    { unfold new_Array in Hn. destruct (arg_value a) as [z|]; [|discriminate].
      destruct (z <? 2 ^ 32); [|discriminate]. inversion Hn; subst. congruence. }
    destruct (Hitems kp0 0 (arg_value a) [] ltac:(exists []; symmetry; apply app_nil_r)
                _ _ _ H) as [_ Hs].
    destruct (Hs I sb (conj eq_refl Hsb)) as (s2' & E & Es & _). subst s2'. exact E. }
  destruct (Z.shiftr ib 5 =? 5).
  { intros H. stream_root_argument H. rewrite stream_on_value_root1 in H. rewrite stream_on_value_root2.
    apply stream_typed_normal in H. apply stream_typed_memo.
    assert (Hsa : keyPath sa = kp0) by (unfold stream_keyPath_kept in *; congruence).
    destruct (Hentries kp0 0 (arg_value a) [] ltac:(exists []; symmetry; apply app_nil_r)
                _ _ _ H) as [_ Hs].
    destruct (Hs I sa (conj eq_refl Hsa)) as (s2' & E & Es & _). subst s2'. exact E. }
  destruct (Z.shiftr ib 5 =? 6); [intros H; discriminate H|].
  destruct (Z.shiftr ib 5 =? 7); [|intros H; discriminate H].
  destruct (Z.land ib 31 =? 20); [intros H; stream_root_scalar H|].
  destruct (Z.land ib 31 =? 21); [intros H; stream_root_scalar H|].
  destruct (Z.land ib 31 =? 22); [intros H; stream_root_scalar H|].
  destruct (Z.land ib 31 =? 23).
  { destruct (negb (allowUndefined options)); [intros H; discriminate H|].
    intros H. rewrite stream_on_value_root1 in H. rewrite stream_on_value_root2.
    cbv [bind ret call_hook run_hook] in H. injection H as Ev Es.
    rewrite <- Ev, <- Es.
    simpl call_hook. destruct (run_hook_constant VUndefined p s1) as (value' & E).
    unfold bind at 1. rewrite E. unfold memo_result. rewrite p_calls. simpl feed.
    destruct (feed (k VUndefined) VUndefined) as [r|]; [|reflexivity].
    destruct r; reflexivity. }
  destruct (Z.land ib 31 =? 24); [intros H; discriminate H|].
  destruct (Z.land ib 31 =? 25).
  { destruct (minFloatSize options <=? 16); [|intros H; discriminate H].
    intros H. apply bind_Ok in H. destruct H as (bits & sb & Hb & H).
    rewrite (bind_Ok_intro _ _ _ _ _ Hb). stream_root_scalar H. }
  destruct (Z.land ib 31 =? 26).
  { destruct (minFloatSize options <=? 32); [|intros H; discriminate H].
    intros H. apply bind_Ok in H. destruct H as (bits & sb & Hb & H).
    rewrite (bind_Ok_intro _ _ _ _ _ Hb). stream_root_scalar H. }
  destruct (Z.land ib 31 =? 27).
  { intros H. apply bind_Ok in H. destruct H as (bits & sb & Hb & H).
    rewrite (bind_Ok_intro _ _ _ _ _ Hb). stream_root_scalar H. }
  destruct (Z.land ib 31 =? 31); intros H; discriminate H.
Qed.

End Nested.

(** The same for the [onKey] hook of a text string decoded as a map key. *)
Lemma stream_memo_key options k fuel s v s' :
  isKey s = true ->
  (forall ib s1, uint8 s = Ok (ib, s1) -> Z.shiftr ib 5 = 3) ->
  decodeValue (set_onKey options (fun _ => Return VUndefined)) fuel s = Ok (v, s') ->
  decodeValue (set_onKey options (fun _ => CallDecode k)) fuel s
  = memo_result k v s'.
Proof.
  intros Hkey Hmajor H. destruct fuel as [|fuel]; [discriminate|].
  with_strategy opaque [Z.sub Z.pow Z.add Z.mul skipValues getArgument uint8
                        decodeItems decodeEntries scalar decodeBytes decodeString
                        on_value on_key float16 float32 float64] simpl in H.
  with_strategy opaque [Z.sub Z.pow Z.add Z.mul skipValues getArgument uint8
                        decodeItems decodeEntries scalar decodeBytes decodeString
                        on_value on_key float16 float32 float64] simpl.
  apply bind_Ok in H. destruct H as (ib & s1 & Hu & H).
  rewrite (bind_Ok_intro _ _ _ _ _ Hu).
  unfold get_env at 1 in H. unfold bind at 1 in H.
  unfold get_env at 1. unfold bind at 1. cbn [fst snd] in *.
  destruct (stream_uint_env _ _ _ _ Hu) as [Hk _]. rewrite Hk, Hkey in *.
  rewrite (Hmajor _ _ Hu) in *. cbn [Z.eqb Pos.eqb] in *.
  apply bind_Ok in H. destruct H as (a & sa & Ha & H).
  rewrite (bind_Ok_intro _ _ _ _ _ Ha).
  change (on_key (set_onKey options (fun _ => Return VUndefined)) (arg_value a))
    with (Some (Return VUndefined)) in H.
  change (on_key (set_onKey options (fun _ => CallDecode k)) (arg_value a))
    with (Some (CallDecode k)).
  apply stream_typed_normal in H.
  apply (stream_typed_memo (CallDecode k) k eq_refl). exact H.
Qed.

End Facts.

End StreamMemoFacts.

(** ** What a decoded item consumes *)

Module ProgressFacts.
Import Decoder.

Lemma offset_le_add s n :
  jsnum_nonneg n -> offset_le s (set_offset (jsnum_add (offset s) n) s).
Proof. intros Hn. unfold offset_le. simpl. apply jsnum_le_add, Hn. Qed.

Lemma offset_le_frame s key s2 :
  offset_le (set_keyPath (keyPath s ++ [key]) s) s2 ->
  offset_le s (set_keyPath (removelast (keyPath s2)) s2).
Proof. intros H. exact H. Qed.

Lemma offset_le_isKey s b : offset_le s (set_isKey b s).
Proof. unfold offset_le. simpl. apply jsnum_le_refl. Qed.

Section Tail.

Variable data : list byte.
Variable options : DecodeOptions.

Local Abbreviation le_refl := TrailingFacts.offset_le_refl.
Local Abbreviation le_trans := TrailingFacts.offset_le_trans.

Ltac tail_step :=
  match goal with
  | |- preserves _ (bind (uint _ _) _) =>
    apply preserves_bind_post with (P := fun v => 0 <= v);
    [exact le_trans
    | apply (DecoderFacts.preserves_uint data offset_le le_refl le_trans offset_le_add);
      lia
    | apply DecoderFacts.returns_uint | intros ? ?]
  | |- preserves _ (bind (getArgument _ _) _) =>
    apply preserves_bind_post with (P := fun a => jsnum_nonneg (arg_value a));
    [exact le_trans
    | apply (DecoderFacts.preserves_getArgument data offset_le le_refl le_trans
               offset_le_add)
    | apply DecoderFacts.returns_getArgument; apply Z.land_nonneg; left; assumption
    | intros ? ?]
  | |- preserves _ (add_offset _) =>
    apply (DecoderFacts.preserves_add_offset offset_le offset_le_add);
    solve [simpl; auto; lia]
  | |- preserves _ (decodeBytes _ _) =>
    apply (DecoderFacts.preserves_decodeBytes data offset_le offset_le_add); assumption
  | |- preserves _ (decodeString _ _ _) =>
    apply (DecoderFacts.preserves_decodeString data options offset_le offset_le_add);
    assumption
  | |- preserves _ (scalar _ _ _ _ _) =>
    apply (DecoderFacts.preserves_scalar options offset_le le_refl le_trans)
  | |- preserves _ (bind get_env _) =>
    apply preserves_bind;
    [exact le_trans
    | let H := fresh in intros ? ? ? H; inversion H; subst; apply le_refl
    | intros]
  | |- preserves _ (bind _ _) => apply preserves_bind; [exact le_trans | | intros]
  | |- preserves _ (ret _) => apply preserves_ret; exact le_refl
  | |- preserves _ (throw _) => apply preserves_throw
  | |- preserves _ (new_Array _) => apply preserves_new_Array; exact le_refl
  | |- preserves _ (memoized _ _) =>
    apply preserves_memoized; [exact le_refl | exact le_trans | ]
  | |- preserves _ (call_hook _ _) =>
    apply preserves_call_hook; [exact le_refl | exact le_trans | ]
  | |- preserves _ (if ?b then _ else _) => destruct b
  | |- preserves _ (match ?x with _ => _ end) => destruct x
  end.

(** A call of [decodeValue] that returns has read its initial byte inside the
    array, and everything after that byte only moves the offset forward. *)
Lemma decodeValue_first_byte fuel s v s' :
  decodeValue data options fuel s = Ok (v, s') ->
  exists ib s1, uint8 data s = Ok (ib, s1) /\ offset_le s1 s'.
Proof.
  intros H. destruct fuel as [|fuel]; [discriminate|].
  pose proof (DecoderFacts.preserves_decodeValue data options offset_le le_refl le_trans
                offset_le_isKey offset_le_add offset_le_frame fuel)
    as (IHv & IHi & IHe).
  pose proof (DecoderFacts.preserves_skipValue data options offset_le le_refl le_trans
                offset_le_add fuel) as [_ Hskip].
  with_strategy opaque [Z.sub Z.pow Z.add Z.mul uint8] simpl in H.
  apply bind_Ok in H. destruct H as (ib & s1 & Hu & H).
  exists ib, s1. split; [exact Hu|].
  assert (Hib : 0 <= ib) by (exact (DecoderFacts.returns_uint data 1 _ _ _ Hu)).
  match type of H with
  | ?m s1 = _ => cut (preserves offset_le m); [intros Hp; exact (Hp _ _ _ H)|]
  end.
  clear H Hu. unfold float16, float32, float64.
  repeat tail_step; auto.
Qed.

End Tail.
End ProgressFacts.

(** ** Skipping an item against decoding it *)

Module SkipFacts.
Import Decoder.

Lemma offset_only_ret {A} (a : A) : offset_only (ret a).
Proof.
  intros s t H. unfold ret. f_equal. f_equal.
  destruct t; unfold set_offset; simpl in *. rewrite H. reflexivity.
Qed.

Lemma offset_only_throw {A} e : offset_only (@throw State A e).
Proof. intros s t H. reflexivity. Qed.

Lemma offset_only_out_of_fuel {A} : offset_only (@out_of_fuel State A).
Proof. intros s t H. reflexivity. Qed.

Lemma offset_only_bind {A B} (m : M State A) (f : A -> M State B) :
  offset_only m -> (forall a, offset_only (f a)) -> offset_only (bind m f).
Proof.
  intros Hm Hf s t H. unfold bind. rewrite (Hm s t H).
  destruct (m s) as [[a s1]| |]; try reflexivity.
  rewrite (Hf a s1 (set_offset (offset s1) t) eq_refl).
  destruct (f a s1) as [[b s2]| |]; reflexivity.
Qed.

Lemma offset_only_add_offset n : offset_only (add_offset n).
Proof.
  intros s t H. unfold add_offset, modify. simpl. rewrite H. reflexivity.
Qed.

Section Skip.

Variable data : list byte.
Variable options : DecodeOptions.

Lemma offset_only_view_get size : offset_only (view_get data size).
Proof.
  intros s t H. unfold view_get. rewrite H.
  destruct (offset s) as [o|] eqn:E; [|reflexivity].
  destruct ((0 <=? o) && (o + size <=? len data)); [|reflexivity].
  f_equal. f_equal.
  destruct t; unfold set_offset; simpl in *. rewrite H, E. reflexivity.
Qed.

Lemma offset_only_uint size : offset_only (uint data size).
Proof.
  unfold uint, constant.
  repeat first [ apply offset_only_bind; [|intros] | apply offset_only_ret
               | apply offset_only_view_get | apply offset_only_add_offset ].
Qed.

Ltac offset_only_step :=
  match goal with
  | |- offset_only (bind _ _) => apply offset_only_bind; [|intros]
  | |- offset_only (ret _) => apply offset_only_ret
  | |- offset_only (throw _) => apply offset_only_throw
  | |- offset_only out_of_fuel => apply offset_only_out_of_fuel
  | |- offset_only (add_offset _) => apply offset_only_add_offset
  | |- offset_only (uint _ _) => apply offset_only_uint
  | |- offset_only (if ?b then _ else _) => destruct b
  end.

Lemma offset_only_getArgument ai : offset_only (getArgument data ai).
Proof.
  unfold getArgument, uint8, uint16, uint32, uint64. repeat offset_only_step.
Qed.

Lemma offset_only_skipValue g :
  offset_only (skipValue data options g) /\
  (forall i n, offset_only (skipValues data options g i n)).
Proof.
  induction g as [|g [IHv IHs]].
  - split; [apply offset_only_out_of_fuel|].
    intros i n. simpl. destruct (lt_jsnum i n); repeat offset_only_step.
  - split.
    + with_strategy opaque [Z.sub Z.pow Z.add Z.mul getArgument skipValues] simpl.
      unfold uint8.
      repeat first [ apply offset_only_getArgument | apply IHs | offset_only_step ].
    + intros i n. with_strategy opaque [Z.sub Z.pow Z.add Z.mul skipValue] simpl.
      destruct (lt_jsnum i n); repeat first [ apply IHv | apply IHs | offset_only_step ].
Qed.

(** More fuel does not change what the skip routine returns. *)
Lemma skip_more_fuel g :
  (forall s r, skipValue data options g s = Ok r ->
               skipValue data options (S g) s = Ok r) /\
  (forall i n s r, skipValues data options g i n s = Ok r ->
                   skipValues data options (S g) i n s = Ok r).
Proof.
  induction g as [|g [IHv IHs]].
  - split; [intros s r H; discriminate H|].
    intros i n s r. simpl. destruct (lt_jsnum i n); [discriminate|]. auto.
  - split.
    + intros s r.
      with_strategy opaque [Z.sub Z.pow Z.add Z.mul getArgument skipValues uint8] simpl.
      unfold bind. destruct (uint8 data s) as [[ib s1]| |]; try discriminate.
      repeat match goal with
      | |- context [if ?b then _ else _] => destruct b
      end; auto;
      destruct (getArgument data (Z.land ib 31) s1) as [[a sa]| |];
        try discriminate; apply IHs.
    + intros i n s r.
      with_strategy opaque [Z.sub Z.pow Z.add Z.mul skipValue] simpl.
      destruct (lt_jsnum i n); [|auto].
      unfold bind. intros H.
      destruct (skipValue data options g s) as [[[] s1]| |] eqn:E; try discriminate.
      rewrite (IHv _ _ E). apply IHs. exact H.
Qed.

Lemma skipValue_fuel g g' s r :
  (g <= g')%nat -> skipValue data options g s = Ok r ->
  skipValue data options g' s = Ok r.
Proof.
  induction 1 as [|g' Hle IH]; [auto|].
  intros H. apply skip_more_fuel. apply IH. exact H.
Qed.

Lemma skipValues_fuel g g' i n s r :
  (g <= g')%nat -> skipValues data options g i n s = Ok r ->
  skipValues data options g' i n s = Ok r.
Proof.
  induction 1 as [|g' Hle IH]; [auto|].
  intros H. apply skip_more_fuel. apply IH. exact H.
Qed.

Local Abbreviation skip_reaches := (skip_reaches data options).
Local Abbreviation skips_reach := (skips_reach data options).

Lemma set_offset_here t o : offset t = o -> set_offset o t = t.
Proof. intros <-. destruct t; reflexivity. Qed.

Lemma uint_from size s v s1 t :
  uint data size s = Ok (v, s1) -> offset t = offset s ->
  uint data size t = Ok (v, set_offset (offset s1) t).
Proof. intros H Ht. rewrite (offset_only_uint size s t Ht), H. reflexivity. Qed.

Lemma getArgument_from ai s a sa t :
  getArgument data ai s = Ok (a, sa) -> offset t = offset s ->
  getArgument data ai t = Ok (a, set_offset (offset sa) t).
Proof. intros H Ht. rewrite (offset_only_getArgument ai s t Ht), H. reflexivity. Qed.

Lemma skips_from g i n s u s' t :
  skipValues data options g i n s = Ok (u, s') -> offset t = offset s ->
  skipValues data options g i n t = Ok (u, set_offset (offset s') t).
Proof.
  intros H Ht.
  rewrite (proj2 (offset_only_skipValue g) i n s t Ht), H. reflexivity.
Qed.

(** The loop: nothing left to skip, and one more item. *)
Lemma skips_reach_done i n o : lt_jsnum i n = false -> skips_reach i n o o.
Proof.
  intros Hlt. exists 0%nat. intros g _ t Ht.
  destruct g; simpl; rewrite Hlt; unfold ret; rewrite (set_offset_here t o Ht);
    reflexivity.
Qed.

Lemma skips_reach_next i n o o1 o2 :
  lt_jsnum i n = true -> skip_reaches o o1 -> skips_reach (i + 1) n o1 o2 ->
  skips_reach i n o o2.
Proof.
  intros Hlt [N1 H1] [N2 H2]. exists (S (Nat.max N1 N2)).
  intros g Hg t Ht. destruct g as [|g]; [lia|].
  with_strategy opaque [Z.add skipValue] simpl. rewrite Hlt.
  unfold bind. rewrite (H1 g ltac:(lia) t Ht).
  rewrite (H2 g ltac:(lia) (set_offset o1 t) eq_refl). reflexivity.
Qed.

(** A run of the loop is a run with any larger fuel, from any state at the
    same offset. *)
Lemma skips_reach_run g i n s u s' :
  skipValues data options g i n s = Ok (u, s') ->
  skips_reach i n (offset s) (offset s').
Proof.
  intros H. exists g. intros g' Hg t Ht. destruct u.
  apply (skipValues_fuel g g' i n t _ Hg). apply (skips_from g i n s tt s' t H Ht).
Qed.

(** [skipValue] by the kind of item, from the reads of its head. *)
Ltac skip_open N Hu :=
  exists (S N); intros g Hg t Ht; destruct g as [|g]; [lia|];
  with_strategy opaque [Z.sub Z.pow Z.add Z.mul getArgument skipValues uint8] simpl;
  rewrite (bind_Ok_intro _ _ _ _ _ (uint_from 1 _ _ _ t Hu Ht)).

Lemma skip_integer ib s s1 a sa :
  uint8 data s = Ok (ib, s1) ->
  (Z.shiftr ib 5 =? 0) || (Z.shiftr ib 5 =? 1) = true ->
  getArgument data (Z.land ib 31) s1 = Ok (a, sa) ->
  skip_reaches (offset s) (offset sa).
Proof.
  intros Hu Hm Ha. skip_open 0%nat Hu. rewrite Hm.
  rewrite (bind_Ok_intro _ _ _ _ _
             (getArgument_from _ s1 a sa (set_offset (offset s1) t) Ha eq_refl)).
  reflexivity.
Qed.

Lemma skip_string ib s s1 a sa :
  uint8 data s = Ok (ib, s1) ->
  (Z.shiftr ib 5 =? 0) || (Z.shiftr ib 5 =? 1) = false ->
  (Z.shiftr ib 5 =? 2) || (Z.shiftr ib 5 =? 3) = true ->
  getArgument data (Z.land ib 31) s1 = Ok (a, sa) ->
  skip_reaches (offset s) (jsnum_add (offset sa) (arg_value a)).
Proof.
  intros Hu Hm Hm' Ha. skip_open 0%nat Hu. rewrite Hm, Hm'.
  rewrite (bind_Ok_intro _ _ _ _ _
             (getArgument_from _ s1 a sa (set_offset (offset s1) t) Ha eq_refl)).
  reflexivity.
Qed.

Lemma skip_array ib s s1 a sa o' :
  uint8 data s = Ok (ib, s1) ->
  (Z.shiftr ib 5 =? 0) || (Z.shiftr ib 5 =? 1) = false ->
  (Z.shiftr ib 5 =? 2) || (Z.shiftr ib 5 =? 3) = false ->
  (Z.shiftr ib 5 =? 4) = true ->
  getArgument data (Z.land ib 31) s1 = Ok (a, sa) ->
  skips_reach 0 (arg_value a) (offset sa) o' ->
  skip_reaches (offset s) o'.
Proof.
  intros Hu Hm Hm' Hm4 Ha [N Hs]. skip_open N Hu. rewrite Hm, Hm', Hm4.
  rewrite (bind_Ok_intro _ _ _ _ _
             (getArgument_from _ s1 a sa (set_offset (offset s1) t) Ha eq_refl)).
  exact (Hs g ltac:(lia) (set_offset (offset sa) (set_offset (offset s1) t)) eq_refl).
Qed.

Lemma skip_map ib s s1 a sa o' :
  uint8 data s = Ok (ib, s1) ->
  (Z.shiftr ib 5 =? 0) || (Z.shiftr ib 5 =? 1) = false ->
  (Z.shiftr ib 5 =? 2) || (Z.shiftr ib 5 =? 3) = false ->
  (Z.shiftr ib 5 =? 4) = false -> (Z.shiftr ib 5 =? 5) = true ->
  getArgument data (Z.land ib 31) s1 = Ok (a, sa) ->
  skips_reach 0 (jsnum_double (arg_value a)) (offset sa) o' ->
  skip_reaches (offset s) o'.
Proof.
  intros Hu Hm Hm' Hm4 Hm5 Ha [N Hs]. skip_open N Hu. rewrite Hm, Hm', Hm4, Hm5.
  rewrite (bind_Ok_intro _ _ _ _ _
             (getArgument_from _ s1 a sa (set_offset (offset s1) t) Ha eq_refl)).
  exact (Hs g ltac:(lia) (set_offset (offset sa) (set_offset (offset s1) t)) eq_refl).
Qed.

Lemma skip_simple ib s s1 w :
  uint8 data s = Ok (ib, s1) ->
  (Z.shiftr ib 5 =? 0) || (Z.shiftr ib 5 =? 1) = false ->
  (Z.shiftr ib 5 =? 2) || (Z.shiftr ib 5 =? 3) = false ->
  (Z.shiftr ib 5 =? 4) = false -> (Z.shiftr ib 5 =? 5) = false ->
  (Z.shiftr ib 5 =? 6) = false -> (Z.shiftr ib 5 =? 7) = true ->
  simple_width options (Z.land ib 31) = Some w ->
  skip_reaches (offset s) (jsnum_add (offset s1) (Fin w)).
Proof.
  intros Hu Hm Hm' Hm4 Hm5 Hm6 Hm7 Hw. skip_open 0%nat Hu.
  rewrite Hm, Hm', Hm4, Hm5, Hm6, Hm7. unfold simple_width in Hw.
  assert (Hsame : forall x, jsnum_add (offset s1) (Fin 0) = x ->
            @ret State unit tt (set_offset (offset s1) t) = Ok (tt, set_offset x t)).
  { intros x <-. unfold ret. f_equal. f_equal.
    apply StreamFacts.uint_inv in Hu. destruct Hu as (o & _ & _ & _ & _ & ->).
    simpl. rewrite Z.add_0_r. reflexivity. }
  destruct ((Z.land ib 31 =? 20) || (Z.land ib 31 =? 21) || (Z.land ib 31 =? 22)).
  { inversion Hw; subst. apply Hsame. reflexivity. }
  destruct (Z.land ib 31 =? 23).
  { destruct (negb (allowUndefined options)); [discriminate|].
    inversion Hw; subst. apply Hsame. reflexivity. }
  destruct (Z.land ib 31 =? 24); [discriminate|].
  destruct (Z.land ib 31 =? 25); [inversion Hw; subst; reflexivity|].
  destruct (Z.land ib 31 =? 26); [inversion Hw; subst; reflexivity|].
  destruct (Z.land ib 31 =? 27); [inversion Hw; subst; reflexivity|].
  discriminate.
Qed.

(** What a hook leaves behind: either it never called the thunk, and the
    state is untouched, or the thunk ran once from the state the hook was
    called in. *)
Lemma run_hook_outcome (body : M State CBORValue) p :
  forall value s val value' s1,
    run_hook body p value s = Ok ((val, value'), s1) ->
    (value' = value /\ s1 = s) \/
    (value = None /\ exists x, value' = Some x /\ body s = Ok (x, s1)).
Proof.
  induction p as [r | k IH | ]; intros value s val value' s1 H; simpl in H.
  - inversion H; subst. left. split; reflexivity.
  - apply bind_Ok in H. destruct H as ([v value0] & s0 & Hm & H).
    destruct value as [v0|]; simpl in Hm.
    + inversion Hm; subst. apply (IH _ _ _ _ _ _ H).
    + apply bind_Ok in Hm. destruct Hm as (x & sx & Hb & Hr).
      inversion Hr; subst. right. split; [reflexivity|].
      destruct (IH _ _ _ _ _ _ H) as [[-> ->] | [E _]]; [|discriminate E].
      exists v. split; [reflexivity|exact Hb].
  - discriminate H.
Qed.

Lemma typed_outcome (body : M State CBORValue) (skip' : M State unit) h s r s' :
  ('(val, value) <- call_hook body h ;;
   if negb (is_undefined val) then
     match value with
     | Some _ => ret val
     | None => skip' ;;; ret val
     end
   else '(v, _) <- memoized body value ;; ret v) s = Ok (r, s') ->
  (exists x, body s = Ok (x, s')) \/ (exists u, skip' s = Ok (u, s')).
Proof.
  intros H. apply bind_Ok in H. destruct H as ([val value] & s1 & Hc & H).
  assert (Hout : (value = None /\ s1 = s) \/
                 (exists x, value = Some x /\ body s = Ok (x, s1))).
  { destruct h as [p|]; simpl in Hc.
    - destruct (run_hook_outcome body p _ _ _ _ _ Hc) as [[-> ->] | [_ (x & -> & Hb)]];
        [left; split; reflexivity | right; exists x; split; [reflexivity|exact Hb]].
    - inversion Hc; subst. left. split; reflexivity. }
  destruct Hout as [[-> ->] | (x & -> & Hb)].
  - destruct (negb (is_undefined val)).
    + apply bind_Ok in H. destruct H as (u & s2 & Hs & H).
      inversion H; subst. right. exists u. exact Hs.
    + simpl in H. apply bind_Ok in H. destruct H as ([v value] & s2 & Hm & H).
      apply bind_Ok in Hm. destruct Hm as (y & sy & Hb & Hr).
      unfold ret in Hr, H. injection Hr as Ev _ Es. injection H as _ Es'.
      left. exists y. rewrite <- Es', <- Es. exact Hb.
  - left. exists x.
    destruct (negb (is_undefined val)); simpl in H; inversion H; subst; exact Hb.
Qed.

Lemma call_hook_constant (x : CBORValue) h (s : State) val value s1 :
  call_hook (ret x) h s = Ok ((val, value), s1) -> s1 = s.
Proof.
  destruct h as [p|]; simpl; intros H.
  - destruct (run_hook_outcome (ret x) p _ _ _ _ _ H) as [[_ ->] | [_ (y & _ & Hb)]];
      [reflexivity|]. inversion Hb. reflexivity.
  - inversion H. reflexivity.
Qed.

Lemma scalar_state x size type kp s v s' :
  scalar options x size type kp s = Ok (v, s') -> s' = s.
Proof.
  unfold scalar. intros H.
  apply bind_Ok in H. destruct H as ([val value] & s1 & Hc & H).
  inversion H; subst. exact (call_hook_constant _ _ _ _ _ _ Hc).
Qed.

Lemma lt_double i n :
  lt_jsnum (2 * i) (jsnum_double n) = lt_jsnum i n /\
  (lt_jsnum i n = true -> lt_jsnum (2 * i + 1) (jsnum_double n) = true).
Proof.
  destruct n as [z|]; unfold lt_jsnum, jsnum_double; [|split; reflexivity].
  split.
  - destruct (Z.ltb_spec i z); [apply Z.ltb_lt|apply Z.ltb_ge]; lia.
  - intros H. apply Z.ltb_lt in H. apply Z.ltb_lt. lia.
Qed.

Lemma new_Array_state n (s : State) u s' : new_Array n s = Ok (u, s') -> s' = s.
Proof.
  unfold new_Array. destruct n as [z|]; [|discriminate].
  destruct (z <? 2 ^ 32); [|discriminate]. intros H. inversion H. reflexivity.
Qed.

Lemma decodeBytes_offset n s v s' :
  decodeBytes data n s = Ok (v, s') -> offset s' = jsnum_add (offset s) n.
Proof.
  unfold decodeBytes. destruct n; [|discriminate]. intros H. inversion H. reflexivity.
Qed.

Lemma decodeString_offset n s v s' :
  decodeString data options n s = Ok (v, s') -> offset s' = jsnum_add (offset s) n.
Proof. unfold decodeString. intros H. inversion H. reflexivity. Qed.

Lemma add_offset_offset n s u s' :
  add_offset n s = Ok (u, s') -> offset s' = jsnum_add (offset s) n.
Proof. unfold add_offset, modify. intros H. inversion H. reflexivity. Qed.

(** Skipping lands where decoding does. *)
Lemma skip_follows fuel :
  (forall s v s',
     decodeValue data options fuel s = Ok (v, s') ->
     skip_reaches (offset s) (offset s')) /\
  (forall i n acc s v s',
     decodeItems data options fuel i n acc s = Ok (v, s') ->
     skips_reach i n (offset s) (offset s')) /\
  (forall i n acc s v s',
     decodeEntries data options fuel i n acc s = Ok (v, s') ->
     skips_reach (2 * i) (jsnum_double n) (offset s) (offset s')).
Proof.
  induction fuel as [|fuel (IHv & IHi & IHe)].
  - split; [intros s v s' H; discriminate H|]. split.
    + intros i n acc s v s' H. simpl in H.
      destruct (lt_jsnum i n) eqn:E; inv_run. apply skips_reach_done, E.
    + intros i n acc s v s' H. simpl in H.
      destruct (lt_jsnum i n) eqn:E; inv_run. apply skips_reach_done.
      rewrite (proj1 (lt_double i n)). exact E.
  - split; [|split].
    + intros s v s' H.
      with_strategy opaque [Z.sub Z.pow Z.add Z.mul skipValues getArgument uint8
                            decodeItems decodeEntries scalar decodeBytes decodeString
                            on_value on_key float16 float32 float64] simpl in H.
      apply bind_Ok in H. destruct H as (ib & s1 & Hu & H).
      unfold get_env at 1 in H. unfold bind at 1 in H. cbn [fst snd] in H.
      revert H.
      destruct (Z.shiftr ib 5 =? 0) eqn:E0.
      { intros H. apply bind_Ok in H. destruct H as (a & sa & Ha & H).
        assert (s' = sa).
        { destruct (arg_uint64 a) as [u|];
            [destruct (Utils.maxSafeInteger <? u); [discriminate H|]|];
            exact (scalar_state _ _ _ _ _ _ _ H). }
        subst. apply (skip_integer ib s s1 a sa Hu); [|exact Ha].
        rewrite E0. reflexivity. }
      destruct (Z.shiftr ib 5 =? 1) eqn:E1.
      { intros H. apply bind_Ok in H. destruct H as (a & sa & Ha & H).
        assert (s' = sa).
        { destruct (arg_uint64 a) as [u|];
            [destruct (-1 - u <? Utils.minSafeInteger); [discriminate H|]|];
            exact (scalar_state _ _ _ _ _ _ _ H). }
        subst. apply (skip_integer ib s s1 a sa Hu); [|exact Ha].
        rewrite E0, E1. reflexivity. }
      destruct (Z.shiftr ib 5 =? 2) eqn:E2.
      { intros H. apply bind_Ok in H. destruct H as (a & sa & Ha & H).
        apply typed_outcome in H.
        assert (Ho : offset s' = jsnum_add (offset sa) (arg_value a)).
        { destruct H as [(x & H) | (u & H)];
            [exact (decodeBytes_offset _ _ _ _ H) | exact (add_offset_offset _ _ _ _ H)]. }
        rewrite Ho. apply (skip_string ib s s1 a sa Hu); [| |exact Ha].
        - rewrite E0, E1. reflexivity.
        - rewrite E2. reflexivity. }
      destruct (Z.shiftr ib 5 =? 3) eqn:E3.
      { intros H. apply bind_Ok in H. destruct H as (a & sa & Ha & H).
        apply typed_outcome in H.
        assert (Ho : offset s' = jsnum_add (offset sa) (arg_value a)).
        { destruct H as [(x & H) | (u & H)];
            [exact (decodeString_offset _ _ _ _ H) | exact (add_offset_offset _ _ _ _ H)]. }
        rewrite Ho. apply (skip_string ib s s1 a sa Hu); [| |exact Ha].
        - rewrite E0, E1. reflexivity.
        - rewrite E2, E3. reflexivity. }
      destruct (Z.shiftr ib 5 =? 4) eqn:E4.
      { intros H. apply bind_Ok in H. destruct H as (a & sa & Ha & H).
        apply typed_outcome in H.
        apply (skip_array ib s s1 a sa (offset s') Hu); try exact Ha;
          [rewrite E0, E1; reflexivity | rewrite E2, E3; reflexivity | exact E4 |].
        destruct H as [(x & H) | (u & H)].
        - apply bind_Ok in H. destruct H as (u & sb & Hn & H).
          apply new_Array_state in Hn. subst sb.
          exact (IHi _ _ _ _ _ _ H).
        - exact (skips_reach_run _ _ _ _ _ _ H). }
      destruct (Z.shiftr ib 5 =? 5) eqn:E5.
      { intros H. apply bind_Ok in H. destruct H as (a & sa & Ha & H).
        apply typed_outcome in H.
        apply (skip_map ib s s1 a sa (offset s') Hu); try exact Ha;
          [rewrite E0, E1; reflexivity | rewrite E2, E3; reflexivity
          | exact E4 | exact E5 |].
        destruct H as [(x & H) | (u & H)].
        - exact (IHe _ _ _ _ _ _ H).
        - exact (skips_reach_run _ _ _ _ _ _ H). }
      destruct (Z.shiftr ib 5 =? 6) eqn:E6; [intros H; discriminate H|].
      destruct (Z.shiftr ib 5 =? 7) eqn:E7; [|intros H; discriminate H].
      assert (Hsimple : forall w, simple_width options (Z.land ib 31) = Some w ->
                skip_reaches (offset s) (jsnum_add (offset s1) (Fin w))).
      { intros w Hw. apply (skip_simple ib s s1 w Hu); try assumption.
        - rewrite E0, E1. reflexivity.
        - rewrite E2, E3. reflexivity. }
      assert (H0 : jsnum_add (offset s1) (Fin 0) = offset s1).
      { apply StreamFacts.uint_inv in Hu. destruct Hu as (o & _ & _ & _ & _ & ->).
        simpl. rewrite Z.add_0_r. reflexivity. }
      assert (Hfloat : forall w bits sb, uint data w s1 = Ok (bits, sb) ->
                jsnum_add (offset s1) (Fin w) = offset sb).
      { intros w bits sb Hb. apply StreamFacts.uint_inv in Hb.
        destruct Hb as (o & Ho & _ & _ & _ & ->). rewrite Ho. reflexivity. }
      unfold simple_width in Hsimple.
      destruct (Z.land ib 31 =? 20) eqn:A20.
      { intros H. apply scalar_state in H. subst. rewrite <- H0.
        apply Hsimple. reflexivity. }
      destruct (Z.land ib 31 =? 21) eqn:A21.
      { intros H. apply scalar_state in H. subst. rewrite <- H0.
        apply Hsimple. reflexivity. }
      destruct (Z.land ib 31 =? 22) eqn:A22.
      { intros H. apply scalar_state in H. subst. rewrite <- H0.
        apply Hsimple. reflexivity. }
      simpl in Hsimple.
      destruct (Z.land ib 31 =? 23) eqn:A23.
      { destruct (negb (allowUndefined options)); [intros H; discriminate H|].
        intros H. apply bind_Ok in H. destruct H as ([val value] & s2 & Hc & H).
        apply call_hook_constant in Hc. inversion H; subst. rewrite <- H0.
        apply Hsimple. reflexivity. }
      destruct (Z.land ib 31 =? 24) eqn:A24; [intros H; discriminate H|].
      destruct (Z.land ib 31 =? 25) eqn:A25.
      { destruct (minFloatSize options <=? 16); [|intros H; discriminate H].
        intros H. apply bind_Ok in H. destruct H as (bits & sb & Hb & H).
        apply scalar_state in H. subst. rewrite <- (Hfloat 2 bits sb Hb).
        apply Hsimple. reflexivity. }
      destruct (Z.land ib 31 =? 26) eqn:A26.
      { destruct (minFloatSize options <=? 32); [|intros H; discriminate H].
        intros H. apply bind_Ok in H. destruct H as (bits & sb & Hb & H).
        apply scalar_state in H. subst. rewrite <- (Hfloat 4 bits sb Hb).
        apply Hsimple. reflexivity. }
      destruct (Z.land ib 31 =? 27) eqn:A27.
      { intros H. apply bind_Ok in H. destruct H as (bits & sb & Hb & H).
        apply scalar_state in H. subst. rewrite <- (Hfloat 8 bits sb Hb).
        apply Hsimple. reflexivity. }
      destruct (Z.land ib 31 =? 31); intros H; discriminate H.
    + intros i n acc s v s' H.
      with_strategy opaque [Z.sub Z.pow Z.add Z.mul decodeValue] simpl in H.
      destruct (lt_jsnum i n) eqn:E; [|inv_run; apply skips_reach_done, E].
      unfold pushKey, popKey in H.
      apply bind_Ok in H. destruct H as ([] & sp & Hp & H). inversion Hp; subst sp.
      apply bind_Ok in H. destruct H as (x & s1 & Hx & H).
      apply bind_Ok in H. destruct H as ([] & sq & Hq & H). inversion Hq; subst sq.
      apply (skips_reach_next i n (offset s) (offset s1) (offset s') E).
      * exact (IHv _ _ _ Hx).
      * exact (IHi _ _ _ _ _ _ H).
    + intros i n acc s v s' H.
      with_strategy opaque [Z.sub Z.pow Z.add Z.mul decodeValue] simpl in H.
      destruct (lt_double i n) as [Hd1 Hd2].
      destruct (lt_jsnum i n) eqn:E;
        [|inv_run; apply skips_reach_done; rewrite Hd1; reflexivity].
      apply bind_Ok in H. destruct H as ([] & s0 & H0 & H). inversion H0; subst s0.
      apply bind_Ok in H. destruct H as (key & s1 & Hk & H).
      apply bind_Ok in H. destruct H as ([] & s2 & H2 & H). inversion H2; subst s2.
      destruct key as [| | | | | | |k| |]; try discriminate H.
      destruct (key_in k acc); [discriminate H|].
      unfold pushKey, popKey in H.
      apply bind_Ok in H. destruct H as ([] & s3 & H3 & H). inversion H3; subst s3.
      apply bind_Ok in H. destruct H as (x & s4 & Hx & H).
      apply bind_Ok in H. destruct H as ([] & s5 & H5 & H). inversion H5; subst s5.
      apply (skips_reach_next (2 * i) _ (offset s) (offset s1) (offset s') Hd1).
      * exact (IHv _ _ _ Hk).
      * apply (skips_reach_next (2 * i + 1) _ (offset s1) (offset s4) (offset s')
                 (Hd2 eq_refl)).
        -- exact (IHv _ _ _ Hx).
        -- replace (2 * i + 1 + 1) with (2 * (i + 1)) by lia.
           exact (IHe _ _ _ _ _ _ H).
Qed.

(** The skip routine consults the options for [allowUndefined] only. *)
Lemma skip_ignores_hooks options' g :
  allowUndefined options' = allowUndefined options ->
  (forall s, skipValue data options' g s = skipValue data options g s) /\
  (forall i n s, skipValues data options' g i n s = skipValues data options g i n s).
Proof.
  intros Hu. induction g as [|g [IHv IHs]].
  - split; [reflexivity|]. intros i n s. reflexivity.
  - split.
    + intros s.
      with_strategy opaque [Z.sub Z.pow Z.add Z.mul getArgument skipValues uint8] simpl.
      unfold bind. destruct (uint8 data s) as [[ib s1]| |]; try reflexivity.
      rewrite Hu.
      repeat match goal with
      | |- context [if ?b then _ else _] => destruct b
      end; try reflexivity;
      destruct (getArgument data (Z.land ib 31) s1) as [[a sa]| |];
        try reflexivity; apply IHs.
    + intros i n s.
      with_strategy opaque [Z.sub Z.pow Z.add Z.mul skipValue] simpl.
      destruct (lt_jsnum i n); [|reflexivity].
      unfold bind. rewrite IHv.
      destruct (skipValue data options g s) as [[[] s1]| |]; try reflexivity.
      apply IHs.
Qed.

End Skip.
End SkipFacts.

(** ** The streaming decoders: what every step respects *)

Module StreamGeneric.
Import StreamDecoder.

Section Generic.

Variable options : DecodeOptions.
Variable R : State -> State -> Prop.
Hypothesis R_refl : forall s, R s s.
Hypothesis R_trans : forall a b c, R a b -> R b c -> R a c.
Hypothesis R_isKey : forall s b, R s (set_isKey b s).
Hypothesis R_keyPath : forall s p, R s (set_keyPath p s).
Hypothesis R_allocate : forall n, preserves R (allocate n).
Hypothesis R_advance : forall n, preserves R (advance n).

Ltac generic_step :=
  match goal with
  | |- preserves _ (allocate _) => apply R_allocate
  | |- preserves _ (advance _) => apply R_advance
  | |- preserves _ (modify (set_isKey _)) =>
    apply preserves_modify; intros; apply R_isKey
  | |- preserves _ (pushKey _) => apply preserves_modify; intros; apply R_keyPath
  | |- preserves _ popKey => apply preserves_modify; intros; apply R_keyPath
  | |- preserves _ get_env =>
    let H := fresh in intros ? ? ? H; inversion H; subst; apply R_refl
  | |- preserves _ (bind _ _) => apply preserves_bind; [exact R_trans | | intros]
  | |- preserves _ (ret _) => apply preserves_ret; exact R_refl
  | |- preserves _ (throw _) => apply preserves_throw
  | |- preserves _ out_of_fuel => apply preserves_out_of_fuel
  | |- preserves _ (new_Array _) => apply preserves_new_Array; exact R_refl
  | |- preserves _ (memoized _ _) =>
    apply preserves_memoized; [exact R_refl | exact R_trans | ]
  | |- preserves _ (call_hook _ _) =>
    apply preserves_call_hook; [exact R_refl | exact R_trans | ]
  | |- preserves _ (if ?b then _ else _) => destruct b
  | |- preserves _ (match ?x with _ => _ end) => destruct x
  end.

Lemma generic_uint size : preserves R (uint size).
Proof. unfold uint, fill. repeat generic_step. Qed.

Lemma generic_getArgument ai : preserves R (getArgument ai).
Proof.
  unfold getArgument, uint8, uint16, uint32, uint64.
  repeat first [apply generic_uint | generic_step].
Qed.

Lemma generic_skipBytes n : preserves R (skipBytes n).
Proof. unfold skipBytes. repeat generic_step. Qed.

Lemma generic_decodeBytes n : preserves R (decodeBytes n).
Proof. unfold decodeBytes, fill. repeat generic_step. Qed.

Lemma generic_decodeString n : preserves R (decodeString options n).
Proof. unfold decodeString, fill. repeat generic_step. Qed.

Ltac generic_leaf :=
  first [ apply generic_uint | apply generic_getArgument | apply generic_skipBytes
        | apply generic_decodeBytes | apply generic_decodeString ].

Lemma generic_skipValue fuel :
  preserves R (skipValue options fuel) /\
  (forall i n, preserves R (skipValues options fuel i n)).
Proof.
  induction fuel as [|fuel [IHv IHs]].
  - split; [apply preserves_out_of_fuel|].
    intros i n. simpl. destruct (lt_jsnum i n); repeat generic_step.
  - split.
    + with_strategy opaque [Z.sub Z.pow Z.add Z.mul getArgument skipBytes skipValues]
        simpl.
      unfold uint8. repeat first [generic_leaf | apply IHs | generic_step].
    + intros i n. with_strategy opaque [Z.sub Z.pow Z.add Z.mul skipValue] simpl.
      destruct (lt_jsnum i n); repeat first [apply IHv | apply IHs | generic_step].
Qed.

Lemma generic_decodeValue fuel :
  preserves R (decodeValue options fuel) /\
  (forall i n value, preserves R (decodeItems options fuel i n value)) /\
  (forall i n value, preserves R (decodeEntries options fuel i n value)).
Proof.
  induction fuel as [|fuel (IHv & IHi & IHe)].
  - split; [apply preserves_out_of_fuel|].
    split; intros i n value; simpl; destruct (lt_jsnum i n); repeat generic_step.
  - pose proof (generic_skipValue fuel) as [_ Hskip].
    split; [|split].
    + with_strategy opaque [Z.sub Z.pow Z.add Z.mul getArgument skipBytes skipValues
                            decodeItems decodeEntries decodeBytes decodeString] simpl.
      unfold float16, float32, float64, uint8, scalar.
      repeat first [generic_leaf | apply Hskip | apply IHi | apply IHe | generic_step].
    + intros i n value.
      with_strategy opaque [Z.sub Z.pow Z.add Z.mul decodeValue] simpl.
      destruct (lt_jsnum i n);
        repeat first [apply IHv | apply IHi | generic_step].
    + intros i n value.
      with_strategy opaque [Z.sub Z.pow Z.add Z.mul decodeValue] simpl.
      destruct (lt_jsnum i n);
        repeat first [apply IHv | apply IHe | generic_step].
Qed.

End Generic.
End StreamGeneric.

Module ChunkFacts.
Import StreamDecoder.

Lemma chunks_kept_refl s : chunks_kept s s.
Proof. split; [reflexivity|]. exists []. symmetry. apply app_nil_r. Qed.

Lemma chunks_kept_trans a b c : chunks_kept a b -> chunks_kept b c -> chunks_kept a c.
Proof.
  intros [H1 (m1 & F1)] [H2 (m2 & F2)]. split; [congruence|].
  exists (m1 ++ m2). rewrite F2, F1. symmetry. apply app_assoc.
Qed.

Lemma allocate_loop_pulls size source :
  forall chunks byteLength source' chunks' byteLength',
    allocate_loop size source chunks byteLength = Ok (source', chunks', byteLength') ->
    exists pulled, source = pulled ++ source' /\ chunks' = chunks ++ pulled.
Proof.
  induction source as [|value source IH]; intros chunks bl source' chunks' bl' H;
    simpl in H; destruct (lt_jsnum bl size); try discriminate.
  - inversion H; subst. exists []. split; [reflexivity|]. symmetry. apply app_nil_r.
  - destruct (IH _ _ _ _ _ H) as (pulled & -> & ->).
    exists (value :: pulled). split; [reflexivity|].
    rewrite <- app_assoc. reflexivity.
  - inversion H; subst. exists []. split; [reflexivity|]. symmetry. apply app_nil_r.
Qed.

Lemma chunks_kept_allocate n : preserves chunks_kept (allocate n).
Proof.
  intros s a s' H. unfold allocate in H.
  destruct (allocate_loop n (iter s) (chunks s) (byteLength s))
    as [[[src cs] bl]| |] eqn:E; try discriminate.
  inversion H; subst. destruct (allocate_loop_pulls _ _ _ _ _ _ _ E) as (pulled & Hi & ->).
  split.
  - unfold all_chunks. simpl. rewrite Hi, <- !app_assoc. reflexivity.
  - exists []. simpl. symmetry. apply app_nil_r.
Qed.

Lemma chunks_kept_advance n : preserves chunks_kept (advance n).
Proof.
  intros s a s' H. unfold advance in H.
  destruct n as [n|]; [|discriminate].
  destruct (byteLength s <? n); [discriminate|].
  destruct (advance_loop n (chunks s) 0 0 [] (offset s) (byteLength s))
    as [[[[dc tg] o] bl]| |]; try discriminate.
  inversion H; subst. split.
  - unfold all_chunks. simpl. rewrite <- app_assoc.
    rewrite (app_assoc (firstn dc (chunks s))), firstn_skipn. reflexivity.
  - exists (firstn dc (chunks s)). reflexivity.
Qed.

Lemma chunks_kept_decodeValue options fuel :
  preserves chunks_kept (decodeValue options fuel).
Proof.
  apply (StreamGeneric.generic_decodeValue options chunks_kept
           chunks_kept_refl chunks_kept_trans).
  - intros s b. split; [reflexivity|]. exists []. symmetry. apply app_nil_r.
  - intros s p. split; [reflexivity|]. exists []. symmetry. apply app_nil_r.
  - exact chunks_kept_allocate.
  - exact chunks_kept_advance.
Qed.

End ChunkFacts.

Module SafeFacts.
Import StreamDecoder.

Lemma premature_not_internal : ~ internal_error (Error "stream ended prematurely").
Proof. intros [H|H]; discriminate H. Qed.

Lemma allocate_loop_short size source :
  forall chunks byteLength,
    match size with
    | Fin n => byteLength + len (List.concat source) < n
    | Infinity => True
    end ->
    allocate_loop size source chunks byteLength
    = Throw (Error "stream ended prematurely").
Proof.
  induction source as [|value source IH]; intros chunks bl H; simpl.
  - assert (E : lt_jsnum bl size = true).
    { destruct size as [n|]; [|reflexivity]. simpl in *. rewrite len_nil in H.
      apply Z.ltb_lt. lia. }
    rewrite E. reflexivity.
  - assert (E : lt_jsnum bl size = true).
    { destruct size as [n|]; [|reflexivity]. simpl in *. rewrite len_app in H.
      pose proof (len_nonneg value). pose proof (len_nonneg (List.concat source)).
      apply Z.ltb_lt. lia. }
    rewrite E. apply IH. destruct size as [n|]; [|exact I].
    simpl in H. rewrite len_app in H. lia.
Qed.

(** [allocate] from a consistent rope: it gathers the bytes asked for when the
    rope and the source hold them, and throws the premature-end error when
    they do not. *)
Lemma allocate_outcome s n :
  rope_ok s ->
  (n <= len (pending s) ->
   exists s', allocate (Fin n) s = Ok (tt, s') /\ rope_ok s' /\
              pending s' = pending s /\ n <= byteLength s' /\ same_env s s') /\
  (len (pending s) < n ->
   allocate (Fin n) s = Throw (Error "stream ended prematurely")).
Proof.
  intros Hok. split.
  - intros Hn. exact (RopeFacts.allocate_ok s n Hok Hn).
  - intros Hn. unfold allocate.
    rewrite (allocate_loop_short (Fin n) (iter s) (chunks s) (byteLength s));
      [reflexivity|].
    destruct Hok as [_ Hbl]. unfold pending in Hn. rewrite len_app in Hn.
    rewrite Hbl. exact Hn.
Qed.

Lemma allocate_Infinity s :
  allocate Infinity s = Throw (Error "stream ended prematurely").
Proof.
  unfold allocate.
  rewrite (allocate_loop_short Infinity (iter s) (chunks s) (byteLength s) I).
  reflexivity.
Qed.

Lemma advance_negative s n :
  n <= 0 -> rope_ok s -> exists r s', advance (Fin n) s = Ok (r, s') /\ rope_ok s'.
Proof.
  intros Hn Hok. unfold advance.
  assert (Hbl : 0 <= byteLength s).
  { destruct Hok as [_ ->]. apply len_nonneg. }
  replace (byteLength s <? n) with false by (symmetry; apply Z.ltb_ge; lia).
  rewrite (RopeFacts.advance_loop_done n (chunks s) 0 0 [] (offset s) (byteLength s))
    by lia.
  eexists. eexists. split; [reflexivity|].
  destruct Hok as [Hh Hb]. split; simpl; [exact Hh|].
  unfold unread in *. simpl. exact Hb.
Qed.

(** After [allocate], [advance] over the same length cannot fail. *)
Lemma read_safe n : rope_safe (allocate n ;;; advance n).
Proof.
  intros s Hok. unfold bind. destruct n as [n|];
    [|rewrite allocate_Infinity; exact premature_not_internal].
  destruct (Z.le_gt_cases n (len (pending s))) as [Hn|Hn].
  - destruct (proj1 (allocate_outcome s n Hok) Hn) as (sa & E & Hoka & _ & Hb & _).
    rewrite E.
    destruct (Z.le_gt_cases 0 n) as [H0|H0].
    + destruct (RopeFacts.advance_ok sa n Hoka) as (s' & E' & Hok' & _); [lia|].
      rewrite E'. exact Hok'.
    + destruct (advance_negative sa n ltac:(lia) Hoka) as (r & s' & E' & Hok').
      rewrite E'. exact Hok'.
  - rewrite (proj2 (allocate_outcome s n Hok)) by lia.
    exact premature_not_internal.
Qed.

Lemma safe_ret {A} (a : A) : rope_safe (ret a).
Proof. intros s Hok. exact Hok. Qed.

Lemma safe_throw {A} e : ~ internal_error e -> rope_safe (@throw State A e).
Proof. intros He s Hok. exact He. Qed.

Lemma safe_out_of_fuel {A} : rope_safe (@out_of_fuel State A).
Proof. intros s Hok. exact I. Qed.

Lemma safe_bind {A B} (m : M State A) (f : A -> M State B) :
  rope_safe m -> (forall a, rope_safe (f a)) -> rope_safe (bind m f).
Proof.
  intros Hm Hf s Hok. unfold bind. specialize (Hm s Hok).
  destruct (m s) as [[a s1]| |]; try exact Hm. apply Hf, Hm.
Qed.

Lemma safe_modify (f : State -> State) :
  (forall s, rope_ok s -> rope_ok (f s)) -> rope_safe (modify f).
Proof. intros Hf s Hok. apply Hf, Hok. Qed.

Lemma safe_get_env : rope_safe get_env.
Proof. intros s Hok. exact Hok. Qed.

Lemma safe_read_then {A} n (k : list byte -> M State A) :
  (forall x, rope_safe (k x)) -> rope_safe (allocate n ;;; x <- advance n ;; k x).
Proof.
  intros Hk s Hok. pose proof (read_safe n s Hok) as H. unfold bind in *.
  destruct (allocate n s) as [[[] sa]| |]; try exact H.
  destruct (advance n sa) as [[x s']| |]; try exact H.
  apply Hk, H.
Qed.

Lemma safe_memoized body value :
  rope_safe body -> rope_safe (memoized body value).
Proof.
  intros Hb. destruct value; simpl; [apply safe_ret|].
  apply safe_bind; [exact Hb|]. intros; apply safe_ret.
Qed.

Lemma hook_error_not_internal : ~ internal_error HookError.
Proof. intros [H|H]; discriminate H. Qed.

Lemma safe_run_hook body h :
  rope_safe body -> forall value, rope_safe (run_hook body h value).
Proof.
  intros Hb. induction h as [val | k IH | ]; intros value; simpl.
  - apply safe_ret.
  - apply safe_bind; [apply safe_memoized, Hb|]. intros [v value']. apply IH.
  - apply safe_throw, hook_error_not_internal.
Qed.

Lemma safe_call_hook body h : rope_safe body -> rope_safe (call_hook body h).
Proof.
  intros Hb. destruct h; simpl; [apply safe_run_hook, Hb | apply safe_ret].
Qed.

Lemma safe_new_Array n : rope_safe (@new_Array State n).
Proof.
  unfold new_Array. destruct n as [z|];
    [destruct (z <? 2 ^ 32); [apply safe_ret|]|];
    apply safe_throw; intros [H|H]; discriminate H.
Qed.

Ltac safe_step :=
  match goal with
  | |- rope_safe (bind _ _) => apply safe_bind; [|intros]
  | |- rope_safe (ret _) => apply safe_ret
  | |- rope_safe (throw _) => apply safe_throw; intros [?H|?H]; discriminate
  | |- rope_safe out_of_fuel => apply safe_out_of_fuel
  | |- rope_safe get_env => apply safe_get_env
  | |- rope_safe (modify _) => apply safe_modify; intros ? ?H; exact H
  | |- rope_safe (pushKey _) => apply safe_modify; intros ? ?H; exact H
  | |- rope_safe popKey => apply safe_modify; intros ? ?H; exact H
  | |- rope_safe (new_Array _) => apply safe_new_Array
  | |- rope_safe (memoized _ _) => apply safe_memoized
  | |- rope_safe (call_hook _ _) => apply safe_call_hook
  | |- rope_safe (if ?b then _ else _) => destruct b
  | |- rope_safe (match ?x with _ => _ end) => destruct x
  end.

Lemma safe_uint size : rope_safe (uint size).
Proof. unfold uint, fill. apply safe_read_then. intros; apply safe_ret. Qed.

Lemma safe_getArgument ai : rope_safe (getArgument ai).
Proof.
  unfold getArgument, uint8, uint16, uint32, uint64.
  repeat first [apply safe_uint | safe_step].
Qed.

Lemma safe_skipBytes n : rope_safe (skipBytes n).
Proof. unfold skipBytes. apply safe_read_then. intros; apply safe_ret. Qed.

Lemma safe_decodeBytes n : rope_safe (decodeBytes n).
Proof.
  unfold decodeBytes, fill. destruct n as [n|].
  - apply safe_read_then. intros; apply safe_ret.
  - intros s _. unfold bind. rewrite allocate_Infinity. exact premature_not_internal.
Qed.

Lemma safe_decodeString options n : rope_safe (decodeString options n).
Proof.
  unfold decodeString, fill. destruct n as [n|].
  - apply safe_read_then. intros; apply safe_ret.
  - intros s _. unfold bind. rewrite allocate_Infinity. exact premature_not_internal.
Qed.

Ltac safe_leaf :=
  first [ apply safe_uint | apply safe_getArgument | apply safe_skipBytes
        | apply safe_decodeBytes | apply safe_decodeString ].

Lemma safe_skipValue options fuel :
  rope_safe (skipValue options fuel) /\
  (forall i n, rope_safe (skipValues options fuel i n)).
Proof.
  induction fuel as [|fuel [IHv IHs]].
  - split; [apply safe_out_of_fuel|].
    intros i n. simpl. destruct (lt_jsnum i n); repeat safe_step.
  - split.
    + with_strategy opaque [Z.sub Z.pow Z.add Z.mul getArgument skipBytes skipValues]
        simpl.
      unfold uint8. repeat first [safe_leaf | apply IHs | safe_step].
    + intros i n. with_strategy opaque [Z.sub Z.pow Z.add Z.mul skipValue] simpl.
      destruct (lt_jsnum i n); repeat first [apply IHv | apply IHs | safe_step].
Qed.

Lemma safe_decodeValue options fuel :
  rope_safe (decodeValue options fuel) /\
  (forall i n value, rope_safe (decodeItems options fuel i n value)) /\
  (forall i n value, rope_safe (decodeEntries options fuel i n value)).
Proof.
  induction fuel as [|fuel (IHv & IHi & IHe)].
  - split; [apply safe_out_of_fuel|].
    split; intros i n value; simpl; destruct (lt_jsnum i n); repeat safe_step.
  - pose proof (safe_skipValue options fuel) as [_ Hskip].
    split; [|split].
    + with_strategy opaque [Z.sub Z.pow Z.add Z.mul getArgument skipBytes skipValues
                            decodeItems decodeEntries decodeBytes decodeString] simpl.
      unfold float16, float32, float64, uint8, scalar.
      repeat first [safe_leaf | apply Hskip | apply IHi | apply IHe | safe_step].
    + intros i n value.
      with_strategy opaque [Z.sub Z.pow Z.add Z.mul decodeValue] simpl.
      destruct (lt_jsnum i n); repeat first [apply IHv | apply IHi | safe_step].
    + intros i n value.
      with_strategy opaque [Z.sub Z.pow Z.add Z.mul decodeValue] simpl.
      destruct (lt_jsnum i n); repeat first [apply IHv | apply IHe | safe_step].
Qed.

End SafeFacts.

Module IterationFacts.
Import StreamDecoder.

Lemma nonempty_app a b : nonempty (a ++ b) = nonempty a ++ nonempty b.
Proof. apply filter_app. Qed.

Lemma next_loop_drops source :
  match next_loop source with
  | None => nonempty source = []
  | Some (value, source') => nonempty source = value :: nonempty source'
  end.
Proof.
  induction source as [|value source IH]; [reflexivity|].
  simpl. destruct (0 <? len value) eqn:E; [reflexivity|].
  destruct (next_loop source) as [[v src]|]; exact IH.
Qed.

Lemma rope_ok_init source : rope_ok (init source).
Proof. split; [left; reflexivity|reflexivity]. Qed.

Lemma unread_empty s : rope_ok s -> byteLength s = 0 -> unread s = [].
Proof.
  intros [_ Hbl] Hz. rewrite Hz in Hbl. unfold len in Hbl.
  destruct (unread s); [reflexivity|]. simpl in Hbl. lia.
Qed.

(** A rope without unread bytes holds only empty chunks. *)
Lemma nonempty_consumed s : rope_ok s -> byteLength s = 0 -> nonempty (chunks s) = [].
Proof.
  intros Hok Hz. pose proof (unread_empty s Hok Hz) as Hun.
  destruct Hok as [[Ho | (c & cs' & Hc & Ho)] _]; unfold unread in Hun.
  - rewrite Ho in Hun. simpl in Hun.
    induction (chunks s) as [|c cs IH]; [reflexivity|].
    simpl in Hun. apply app_eq_nil in Hun. destruct Hun as [-> Hcs].
    simpl. apply IH, Hcs.
  - exfalso. rewrite Hc in Hun. simpl in Hun.
    assert (Hl : len (skipn (Z.to_nat (offset s)) (c ++ List.concat cs')) = 0)
      by (rewrite Hun; reflexivity).
    rewrite len_skipn in Hl; rewrite len_app in *;
      pose proof (len_nonneg (List.concat cs')); lia.
Qed.

Lemma rope_ok_push s value :
  rope_ok s ->
  rope_ok {| offset := offset s; byteLength := byteLength s + len value;
             chunks := chunks s ++ [value]; iter := iter s;
             freed := freed s; isKey := isKey s; keyPath := keyPath s |}.
Proof.
  intros [Hh Hbl]. pose proof (RopeFacts.head_ok_le _ _ Hh) as Hoff.
  split; simpl.
  - destruct Hh as [Ho | (c & cs' & Hc & Ho)]; [left; exact Ho|].
    right. exists c, (cs' ++ [value]). rewrite Hc. split; [reflexivity|exact Ho].
  - unfold unread in *. simpl. rewrite concat_app. simpl. rewrite app_nil_r.
    rewrite skipn_app_le by exact Hoff. rewrite len_app, Hbl. reflexivity.
Qed.

Section Iteration.

Variable options : DecodeOptions.

(** One call of [next]: the rope stays consistent, the non-empty chunks are
    all still there in their order, and no internal error is thrown. *)
Lemma next_step fuel s :
  rope_ok s ->
  match next options fuel s with
  | Ok (Some _, s') =>
    rope_ok s' /\ nonempty (all_chunks s') = nonempty (all_chunks s) /\
    exists more, freed s' = freed s ++ more
  | Ok (None, s') =>
    rope_ok s' /\ nonempty (freed s') = nonempty (all_chunks s) /\ freed s' = freed s
  | Throw e => ~ internal_error e
  | OutOfFuel => True
  end.
Proof.
  intros Hok. unfold next. destruct (byteLength s =? 0) eqn:Ez.
  - apply Z.eqb_eq in Ez. pose proof (nonempty_consumed s Hok Ez) as Hc.
    pose proof (next_loop_drops (iter s)) as Hd.
    destruct (next_loop (iter s)) as [[value source']|].
    + pose proof (rope_ok_push s value Hok) as Hpush.
      match goal with
      | |- context [decodeValue options fuel ?t] =>
        assert (Hok' : rope_ok t) by exact Hpush;
        pose proof (proj1 (SafeFacts.safe_decodeValue options fuel) t Hok') as Hs;
        pose proof (ChunkFacts.chunks_kept_decodeValue options fuel t) as Hk;
        assert (Hall : nonempty (all_chunks t) = nonempty (all_chunks s))
      end.
      { unfold all_chunks. simpl. rewrite !nonempty_app, Hd. simpl.
        assert (Hv : (0 <? len value) = true).
        { clear - Hd. induction (iter s) as [|c cs IH]; [discriminate Hd|].
          simpl in Hd. destruct (0 <? len c) eqn:E.
          - inversion Hd; subst. exact E.
          - apply IH, Hd. }
        rewrite Hv, <- app_assoc. reflexivity. }
      match goal with
      | |- context [decodeValue options fuel ?t] =>
        destruct (decodeValue options fuel t) as [[v s']| |]; try exact Hs
      end.
      destruct (Hk v s' eq_refl) as [Ha Hf].
      split; [exact Hs|]. split; [rewrite Ha; exact Hall|exact Hf].
    + split; [|split; [|reflexivity]].
      * destruct Hok as [Hh Hbl]. split; [exact Hh|exact Hbl].
      * unfold all_chunks. simpl. rewrite !nonempty_app, Hc, Hd.
        rewrite !app_nil_r. reflexivity.
  - pose proof (proj1 (SafeFacts.safe_decodeValue options fuel) s Hok) as Hs.
    pose proof (ChunkFacts.chunks_kept_decodeValue options fuel s) as Hk.
    destruct (decodeValue options fuel s) as [[v s']| |]; try exact Hs.
    destruct (Hk v s' eq_refl) as [Ha Hf].
    split; [exact Hs|]. split; [rewrite Ha; reflexivity|exact Hf].
Qed.

(** The whole iteration. *)
Lemma iterate_chunks fuel n :
  forall s, rope_ok s ->
    match iterate options fuel n s with
    | (_, Completed, s') => nonempty (freed s') = nonempty (all_chunks s)
    | (_, Failed e, _) => ~ internal_error e
    | (_, Exhausted, _) => True
    end.
Proof.
  induction n as [|n IH]; intros s Hok; simpl; [exact I|].
  pose proof (next_step fuel s Hok) as Hn.
  destruct (next options fuel s) as [[[v|] s1]| |]; try exact Hn.
  - destruct Hn as (Hok1 & Hall & _). specialize (IH s1 Hok1).
    destruct (iterate options fuel n s1) as [[vs out] s2].
    destruct out; try exact IH. rewrite IH. exact Hall.
  - destruct Hn as (_ & Hall & _). exact Hall.
Qed.

End Iteration.
End IterationFacts.

(** ** Decoding what is well encoded *)

Module EncodedFacts.
Import Decoder.

Section Encoded.

Variable data : list byte.
Variable options : DecodeOptions.
Hypothesis no_onValue : onValue options = None.
Hypothesis no_onKey : onKey options = None.

Local Abbreviation decodes_at := (decodes_at data options).
Local Abbreviation decodes_all := (decodes_all data options).

Lemma on_value_none length type kp : on_value options length type kp = None.
Proof. unfold on_value. rewrite no_onValue. reflexivity. Qed.

Lemma on_key_none length : on_key options length = None.
Proof. unfold on_key. rewrite no_onKey. reflexivity. Qed.

Lemma scalar_plain x size type kp s : scalar options x size type kp s = Ok (x, s).
Proof. unfold scalar. rewrite on_value_none. reflexivity. Qed.

(** Without a hook the typed branches run the thunk once. *)
Lemma typed_plain (body : M State CBORValue) (skip' : M State unit) s :
  ('(val, value) <- call_hook body None ;;
   if negb (is_undefined val) then
     match value with
     | Some _ => ret val
     | None => skip' ;;; ret val
     end
   else '(v, _) <- memoized body value ;; ret v) s
  = match body s with
    | Ok (v, s') => Ok (v, s')
    | Throw e => Throw e
    | OutOfFuel => OutOfFuel
    end.
Proof.
  cbv [bind ret memoized call_hook is_undefined negb].
  destruct (body s) as [[v s']| |]; reflexivity.
Qed.

Lemma decodes_at_more N N' v item :
  (N <= N')%nat -> decodes_at N v item -> decodes_at N' v item.
Proof. intros Hle H fuel Hf. apply H. lia. Qed.

Lemma decodes_all_nil : decodes_all [] [].
Proof. exists 0%nat, []. split; [reflexivity|constructor]. Qed.

Lemma decodes_all_cons N v item vs rest :
  decodes_at N v item -> decodes_all vs rest -> decodes_all (v :: vs) (item ++ rest).
Proof.
  intros Hv (N' & items & -> & Hall). exists (Nat.max N N'), (item :: items).
  split; [reflexivity|]. constructor.
  - apply (decodes_at_more N); [lia|exact Hv].
  - eapply Forall2_impl; [|exact Hall].
    intros a b Hab. apply (decodes_at_more N'); [lia|exact Hab].
Qed.

(** The head of an item, read by [decodeValue]. *)
Ltac plain_head Hh Hd Ho :=
  let b := fresh "b" in let a := fresh "a" in
  let Eu := fresh "Eu" in let Em := fresh "Em" in let Ea := fresh "Ea" in
  let Hv := fresh "Hv" in let Hn := fresh "Hn" in let Hu := fresh "Hu" in
  destruct (ItemFacts.head_read data _ _ _ _ _ _ Hh Hd Ho)
    as (b & a & Eu & Em & Ea & Hv & Hn & Hu);
  with_strategy opaque [Z.add Z.sub Z.of_nat Z.mul Z.pow skipValues getArgument uint8
                        decodeItems decodeEntries scalar decodeBytes decodeString
                        on_value on_key] simpl;
  rewrite (bind_Ok_intro _ _ _ _ _ Eu); unfold get_env at 1; unfold bind at 1;
  cbn [fst snd isKey keyPath set_offset];
  rewrite Em; cbn [Z.eqb Pos.eqb orb];
  rewrite (bind_Ok_intro _ _ _ _ _ Ea).

Lemma decodes_uint n h : head 0 n h -> decodes_at 1 (VInteger n) h.
Proof.
  intros Hh fuel Hf pre post s Hd Ho _. destruct fuel as [|fuel]; [lia|].
  plain_head Hh Hd Ho. rewrite Hv.
  destruct Hu as [-> | [-> Hsafe]].
  - rewrite scalar_plain. reflexivity.
  - replace (Utils.maxSafeInteger <? n) with false
      by (symmetry; apply Z.ltb_ge; exact Hsafe).
    rewrite scalar_plain. reflexivity.
Qed.

Lemma decodes_nint n h :
  head 1 n h -> n < Utils.maxSafeInteger -> decodes_at 1 (VInteger (-1 - n)) h.
Proof.
  intros Hh Hs fuel Hf pre post s Hd Ho _. destruct fuel as [|fuel]; [lia|].
  plain_head Hh Hd Ho. rewrite Hv.
  destruct Hu as [-> | [-> Hsafe]].
  - rewrite scalar_plain. reflexivity.
  - replace (-1 - n <? Utils.minSafeInteger) with false
      by (symmetry; apply Z.ltb_ge; unfold Utils.minSafeInteger, Utils.maxSafeInteger in *;
          lia).
    rewrite scalar_plain. reflexivity.
Qed.

(** The payload of a string that lies wholly in the array. *)
Lemma payload_at pre h payload post :
  data = pre ++ (h ++ payload) ++ post ->
  data_subarray data (Fin (len pre + len h)) (Fin (len payload)) = payload.
Proof.
  intros Hd. unfold data_subarray. rewrite <- len_app.
  replace data with ((pre ++ h) ++ payload ++ post)
    by (rewrite Hd, <- !app_assoc; reflexivity).
  apply subarray_app.
Qed.

Lemma decodes_bytes h payload :
  head 2 (len payload) h -> decodes_at 1 (VUint8Array payload) (h ++ payload).
Proof.
  intros Hh fuel Hf pre post s Hd Ho _. destruct fuel as [|fuel]; [lia|].
  assert (Hd' : data = pre ++ h ++ payload ++ post)
    by (rewrite Hd, <- !app_assoc; reflexivity).
  plain_head Hh Hd' Ho. rewrite Hv, on_value_none, typed_plain.
  unfold decodeBytes. cbn [offset set_offset jsnum_add].
  rewrite (payload_at pre h payload post Hd).
  replace (Z.to_nat (len payload) - List.length payload)%nat with 0%nat
    by (unfold len; lia).
  simpl repeat. rewrite app_nil_r.
  rewrite len_app. f_equal. f_equal. unfold set_offset. simpl. f_equal. f_equal. lia.
Qed.

Lemma decodes_text h payload :
  head 3 (len payload) h ->
  decodes_at 1 (VString (decoder options payload)) (h ++ payload).
Proof.
  intros Hh fuel Hf pre post s Hd Ho _. destruct fuel as [|fuel]; [lia|].
  assert (Hd' : data = pre ++ h ++ payload ++ post)
    by (rewrite Hd, <- !app_assoc; reflexivity).
  plain_head Hh Hd' Ho. rewrite Hv.
  replace (if isKey s then on_key options (Fin (len payload))
           else on_value options (Fin (len payload)) "string" (keyPath s))
    with (@None Hook)
    by (destruct (isKey s); [rewrite on_key_none | rewrite on_value_none]; reflexivity).
  rewrite typed_plain.
  unfold decodeString. cbn [offset set_offset jsnum_add].
  rewrite (payload_at pre h payload post Hd).
  rewrite len_app. f_equal. f_equal. unfold set_offset. simpl. f_equal. f_equal. lia.
Qed.

(** Items of major type 7: the initial byte is known. *)
Ltac plain_byte b Hd Ho :=
  with_strategy opaque [Z.add Z.sub Z.of_nat Z.mul Z.pow skipValues getArgument uint8
                        decodeItems decodeEntries scalar decodeBytes decodeString
                        on_value on_key float16 float32 float64] simpl;
  rewrite (bind_Ok_intro _ _ _ _ _ (ReadFacts.uint8_at _ _ b _ _ Hd Ho));
  unfold get_env at 1; unfold bind at 1;
  cbn [fst snd isKey keyPath set_offset];
  let v := eval vm_compute in (b2z b) in change (b2z b) with v;
  let m := eval vm_compute in (Z.shiftr (b2z b) 5) in
  let ai := eval vm_compute in (Z.land (b2z b) 31) in
  change (Z.shiftr v 5) with m; change (Z.land v 31) with ai;
  cbn [Z.eqb Pos.eqb orb].

Lemma decodes_simple b v :
  (b = xf4 /\ v = VBoolean false) \/ (b = xf5 /\ v = VBoolean true) \/
  (b = xf6 /\ v = VNull) ->
  decodes_at 1 v [b].
Proof.
  intros Hb fuel Hf pre post s Hd Ho _. destruct fuel as [|fuel]; [lia|].
  change (len [b]) with 1.
  destruct Hb as [[-> ->] | [[-> ->] | [-> ->]]].
  - plain_byte xf4 Hd Ho. rewrite scalar_plain. reflexivity.
  - plain_byte xf5 Hd Ho. rewrite scalar_plain. reflexivity.
  - plain_byte xf6 Hd Ho. rewrite scalar_plain. reflexivity.
Qed.

Lemma decodes_undefined :
  allowUndefined options = true -> decodes_at 1 VUndefined [xf7].
Proof.
  intros Hu fuel Hf pre post s Hd Ho _. destruct fuel as [|fuel]; [lia|].
  change (len [xf7]) with 1.
  plain_byte xf7 Hd Ho. rewrite Hu, on_value_none. reflexivity.
Qed.

Lemma float_read pre b payload post s :
  data = pre ++ (b :: payload) ++ post -> 
  uint data (len payload) (set_offset (Fin (len pre + 1)) s)
  = Ok (be_value payload, set_offset (Fin (len pre + len (b :: payload))) s).
Proof.
  intros Hd.
  rewrite (ReadFacts.uint_at data (pre ++ [b]) payload post).
  - unfold set_offset. simpl. rewrite len_app, !len_cons, len_nil.
    replace (len pre + (1 + 0) + len payload) with (len pre + (1 + len payload)) by lia.
    reflexivity.
  - rewrite Hd, <- app_assoc. reflexivity.
  - rewrite len_app. reflexivity.
Qed.

Lemma decodes_float16 payload :
  minFloatSize options <= 16 -> List.length payload = 2%nat ->
  decodes_at 1 (VFloat f16 (be_value payload)) (xf9 :: payload).
Proof.
  intros Hm Hp fuel Hf pre post s Hd Ho _. destruct fuel as [|fuel]; [lia|].
  pose proof (float_read pre xf9 payload post s Hd) as Hr.
  rewrite (ItemFacts.len_of_length payload 2 Hp) in Hr at 1.
  plain_byte xf9 Hd Ho.
  replace (minFloatSize options <=? 16) with true by (symmetry; apply Z.leb_le; exact Hm).
  unfold float16. change (Z.of_nat 2) with 2 in Hr.
  rewrite (bind_Ok_intro _ _ _ _ _ Hr), scalar_plain. reflexivity.
Qed.

Lemma decodes_float32 payload :
  minFloatSize options <= 32 -> List.length payload = 4%nat ->
  decodes_at 1 (VFloat f32 (be_value payload)) (xfa :: payload).
Proof.
  intros Hm Hp fuel Hf pre post s Hd Ho _. destruct fuel as [|fuel]; [lia|].
  pose proof (float_read pre xfa payload post s Hd) as Hr.
  rewrite (ItemFacts.len_of_length payload 4 Hp) in Hr at 1.
  plain_byte xfa Hd Ho.
  replace (minFloatSize options <=? 32) with true by (symmetry; apply Z.leb_le; exact Hm).
  unfold float32. change (Z.of_nat 4) with 4 in Hr.
  rewrite (bind_Ok_intro _ _ _ _ _ Hr), scalar_plain. reflexivity.
Qed.

Lemma decodes_float64 payload :
  List.length payload = 8%nat ->
  decodes_at 1 (VFloat f64 (be_value payload)) (xfb :: payload).
Proof.
  intros Hp fuel Hf pre post s Hd Ho _. destruct fuel as [|fuel]; [lia|].
  pose proof (float_read pre xfb payload post s Hd) as Hr.
  rewrite (ItemFacts.len_of_length payload 8 Hp) in Hr at 1.
  plain_byte xfb Hd Ho.
  unfold float64. change (Z.of_nat 8) with 8 in Hr.
  rewrite (bind_Ok_intro _ _ _ _ _ Hr), scalar_plain. reflexivity.
Qed.

Lemma popped s key o :
  set_keyPath (removelast (keyPath s ++ [key]))
    (set_offset o (set_keyPath (keyPath s ++ [key]) s))
  = set_offset o s.
Proof. unfold set_keyPath, set_offset. simpl. rewrite removelast_last. reflexivity. Qed.

Lemma set_offset_twice o o' s : set_offset o' (set_offset o s) = set_offset o' s.
Proof. reflexivity. Qed.

(** The loop of the array thunk over a sequence of items. *)
Lemma items_decode N vs items :
  Forall2 (decodes_at N) vs items ->
  forall fuel, (N + List.length vs <= fuel)%nat ->
  forall acc pre post s,
    data = pre ++ List.concat items ++ post -> offset s = Fin (len pre) ->
    isKey s = false ->
    decodeItems data options fuel (len acc) (Fin (len acc + len vs)) acc s
    = Ok (VArray (acc ++ vs), set_offset (Fin (len pre + len (List.concat items))) s).
Proof.
  induction 1 as [|v item vs items Hv Hall IH]; intros fuel Hf acc pre post s Hd Ho Hk.
  - rewrite len_nil, Z.add_0_r, app_nil_r. simpl List.concat. rewrite len_nil, Z.add_0_r.
    rewrite (ItemFacts.set_offset_same _ s Ho).
    destruct fuel; simpl; rewrite Z.ltb_irrefl; reflexivity.
  - simpl in Hf. destruct fuel as [|fuel]; [lia|].
    with_strategy opaque [Z.add decodeValue] simpl decodeItems.
    unfold lt_jsnum.
    replace (len acc <? len acc + len (v :: vs)) with true
      by (symmetry; apply Z.ltb_lt; rewrite len_cons; pose proof (len_nonneg vs); lia).
    unfold pushKey, popKey, bind at 1, modify at 1.
    simpl List.concat in Hd. rewrite <- app_assoc in Hd.
    rewrite (bind_Ok_intro _ _ _ _ _
               (Hv fuel ltac:(lia) pre (List.concat items ++ post)
                   (set_keyPath (keyPath s ++ [KIndex (len acc)]) s) Hd Ho
                   ltac:(simpl; rewrite Hk; discriminate))).
    unfold bind at 1, modify at 1. cbn [keyPath set_offset set_keyPath].
    rewrite removelast_last.
    change (set_keyPath (keyPath s)
              (set_offset (Fin (len pre + len item))
                 (set_keyPath (keyPath s ++ [KIndex (len acc)]) s)))
      with (set_offset (Fin (len pre + len item)) s).
    replace (len acc + 1) with (len (acc ++ [v]))
      by (rewrite len_app, len_cons, len_nil; lia).
    replace (Fin (len acc + len (v :: vs))) with (Fin (len (acc ++ [v]) + len vs))
      by (rewrite len_app, !len_cons, len_nil; f_equal; lia).
    rewrite (IH fuel ltac:(lia) (acc ++ [v]) (pre ++ item) post
               (set_offset (Fin (len pre + len item)) s)).
    + rewrite <- app_assoc. simpl app. rewrite set_offset_twice.
      simpl List.concat. rewrite !len_app.
      replace (len pre + len item + len (List.concat items))
        with (len pre + (len item + len (List.concat items))) by lia.
      reflexivity.
    + rewrite <- app_assoc. exact Hd.
    + rewrite len_app. reflexivity.
    + exact Hk.
Qed.

Lemma existsb_none {A} (f : A -> bool) l x :
  existsb f l = false -> In x l -> f x = false.
Proof.
  intros H Hin. destruct (f x) eqn:E; [|reflexivity].
  rewrite <- H. symmetry. apply existsb_exists. exists x. split; assumption.
Qed.

(** A key that is not [in] the object becomes its last own property. *)
Lemma obj_set_fresh k v acc : key_in k acc = false -> obj_set k v acc = acc ++ [(k, v)].
Proof.
  unfold key_in, obj_set. intros H. apply orb_false_elim in H. destruct H as [Hown Hp].
  rewrite Hown.
  rewrite (existsb_none _ _ (str "__proto__") Hp); [reflexivity|].
  unfold objectPrototypeKeys. apply in_map. simpl. tauto.
Qed.

Lemma key_flag_reset s o :
  isKey s = false -> set_isKey false (set_offset o (set_isKey true s)) = set_offset o s.
Proof. intros H. unfold set_isKey, set_offset. simpl. rewrite H. reflexivity. Qed.

(** The loop of the map thunk over the keys and values of a map body. *)
Lemma entries_decode N props :
  forall items, Forall2 (decodes_at N) (interleave props) items ->
  forall fuel, (N + List.length props <= fuel)%nat ->
  forall acc i pre post s,
    distinct_keys acc props = true ->
    data = pre ++ List.concat items ++ post -> offset s = Fin (len pre) ->
    isKey s = false ->
    decodeEntries data options fuel i (Fin (i + len props)) acc s
    = Ok (VObject (acc ++ props),
          set_offset (Fin (len pre + len (List.concat items))) s).
Proof.
  induction props as [|[k v] props IH]; intros items Hall fuel Hf acc i pre post s
    Hdk Hd Ho Hk.
  - revert Hd. inversion Hall; subst. intros Hd. rewrite len_nil, Z.add_0_r, app_nil_r.
    simpl List.concat. rewrite len_nil, Z.add_0_r.
    rewrite (ItemFacts.set_offset_same _ s Ho).
    destruct fuel; simpl; rewrite Z.ltb_irrefl; reflexivity.
  - simpl interleave in Hall. revert Hd.
    inversion Hall as [|? ik ? items1 Hkey Hall1]; subst.
    inversion Hall1 as [|? iv ? items2 Hval Hall2]; subst. clear Hall Hall1.
    intros Hd.
    simpl in Hf. destruct fuel as [|fuel]; [lia|].
    simpl in Hdk. apply andb_prop in Hdk. destruct Hdk as [Hfresh Hdk].
    apply negb_true_iff in Hfresh.
    with_strategy opaque [Z.add decodeValue] simpl decodeEntries.
    unfold lt_jsnum.
    replace (i <? i + len ((k, v) :: props)) with true
      by (symmetry; apply Z.ltb_lt; rewrite len_cons; pose proof (len_nonneg props); lia).
    unfold bind at 1, modify at 1.
    simpl List.concat in Hd. rewrite <- !app_assoc in Hd.
    rewrite (bind_Ok_intro _ _ _ _ _
               (Hkey fuel ltac:(lia) pre (iv ++ List.concat items2 ++ post)
                  (set_isKey true s) Hd Ho ltac:(intros _; exact I))).
    unfold bind at 1, modify at 1. rewrite (key_flag_reset s _ Hk).
    rewrite Hfresh. unfold pushKey, popKey, bind at 1, modify at 1.
    assert (Hd2 : data = (pre ++ ik) ++ iv ++ List.concat items2 ++ post)
      by (rewrite Hd, <- !app_assoc; reflexivity).
    rewrite (bind_Ok_intro _ _ _ _ _
               (Hval fuel ltac:(lia) (pre ++ ik) (List.concat items2 ++ post)
                  (set_keyPath (keyPath (set_offset (Fin (len pre + len ik)) s)
                                ++ [KString k])
                     (set_offset (Fin (len pre + len ik)) s))
                  Hd2 ltac:(rewrite len_app; reflexivity)
                  ltac:(simpl; rewrite Hk; discriminate))).
    unfold bind at 1, modify at 1. cbn [keyPath set_offset set_keyPath].
    rewrite removelast_last, (obj_set_fresh k v acc Hfresh).
    match goal with
    | |- decodeEntries _ _ _ _ _ _ ?t = _ =>
      change t with (set_offset (Fin (len (pre ++ ik) + len iv)) s)
    end.
    replace (Fin (i + len ((k, v) :: props))) with (Fin (i + 1 + len props))
      by (rewrite len_cons; f_equal; lia).
    rewrite (IH items2 Hall2 fuel ltac:(lia) (acc ++ [(k, v)]) (i + 1)
               ((pre ++ ik) ++ iv) post
               (set_offset (Fin (len (pre ++ ik) + len iv)) s) Hdk).
    + rewrite <- app_assoc. simpl app. rewrite set_offset_twice.
      simpl List.concat. rewrite !len_app.
      replace (len pre + len ik + len iv + len (List.concat items2))
        with (len pre + (len ik + (len iv + len (List.concat items2)))) by lia.
      reflexivity.
    + rewrite <- !app_assoc. exact Hd.
    + rewrite !len_app. reflexivity.
    + exact Hk.
Qed.

Lemma not_key_position s (v : CBORValue) :
  (isKey s = true -> is_string v) -> (is_string v -> False) -> isKey s = false.
Proof. intros H Hn. destruct (isKey s); [exfalso; apply Hn, H; reflexivity|reflexivity]. Qed.

Lemma decodes_array N h items bodies :
  head 4 (len items) h -> len items < 2 ^ 32 ->
  Forall2 (decodes_at N) items bodies ->
  decodes_at (S (N + List.length items)) (VArray items) (h ++ List.concat bodies).
Proof.
  intros Hh Hlen Hall fuel Hf pre post s Hd Ho Hkey.
  destruct fuel as [|fuel]; [lia|].
  pose proof (not_key_position s _ Hkey (fun x => x)) as Hk.
  assert (Hd' : data = pre ++ h ++ List.concat bodies ++ post)
    by (rewrite Hd, <- !app_assoc; reflexivity).
  plain_head Hh Hd' Ho. rewrite Hv, on_value_none, typed_plain.
  unfold bind at 1, new_Array.
  replace (len items <? 2 ^ 32) with true by (symmetry; apply Z.ltb_lt; exact Hlen).
  unfold ret at 1.
  pose proof (items_decode N items bodies Hall fuel ltac:(lia) [] (pre ++ h) post
                (set_offset (Fin (len pre + len h)) s)) as Hi.
  rewrite len_nil, Z.add_0_l, len_app in Hi. simpl app in Hi.
  rewrite Hi.
  - rewrite set_offset_twice, len_app.
    replace (len pre + len h + len (List.concat bodies))
      with (len pre + (len h + len (List.concat bodies))) by lia.
    reflexivity.
  - rewrite <- app_assoc. exact Hd'.
  - reflexivity.
  - exact Hk.
Qed.

Lemma decodes_map N h props bodies :
  head 5 (len props) h -> distinct_keys [] props = true ->
  Forall2 (decodes_at N) (interleave props) bodies ->
  decodes_at (S (N + List.length props)) (VObject props) (h ++ List.concat bodies).
Proof.
  intros Hh Hdk Hall fuel Hf pre post s Hd Ho Hkey.
  destruct fuel as [|fuel]; [lia|].
  pose proof (not_key_position s _ Hkey (fun x => x)) as Hk.
  assert (Hd' : data = pre ++ h ++ List.concat bodies ++ post)
    by (rewrite Hd, <- !app_assoc; reflexivity).
  plain_head Hh Hd' Ho. rewrite Hv, on_value_none, typed_plain.
  pose proof (entries_decode N props bodies Hall fuel ltac:(lia) [] 0 (pre ++ h) post
                (set_offset (Fin (len pre + len h)) s) Hdk) as He.
  rewrite Z.add_0_l, len_app in He. simpl app in He.
  rewrite He.
  - rewrite set_offset_twice, len_app.
    replace (len pre + len h + len (List.concat bodies))
      with (len pre + (len h + len (List.concat bodies))) by lia.
    reflexivity.
  - rewrite <- app_assoc. exact Hd'.
  - reflexivity.
  - exact Hk.
Qed.

(** Every encoding decodes. *)
Lemma encoded_decodes vs bs : encoded options vs bs -> decodes_all vs bs.
Proof.
  induction 1 as [ | n h vs rest Hh _ IH | n h vs rest Hh Hs _ IH
                 | h payload vs rest Hh _ IH | h payload vs rest Hh _ IH
                 | h items body vs rest Hh Hlen _ IHb _ IH
                 | h props body vs rest Hh Hdk _ IHb _ IH
                 | vs rest _ IH | vs rest _ IH | vs rest _ IH
                 | vs rest Hu _ IH
                 | payload vs rest Hm Hp _ IH | payload vs rest Hm Hp _ IH
                 | payload vs rest Hp _ IH ].
  - apply decodes_all_nil.
  - apply (decodes_all_cons 1); [apply decodes_uint; exact Hh | exact IH].
  - apply (decodes_all_cons 1); [apply decodes_nint; assumption | exact IH].
  - rewrite app_assoc.
    apply (decodes_all_cons 1); [apply decodes_bytes; exact Hh | exact IH].
  - rewrite app_assoc.
    apply (decodes_all_cons 1); [apply decodes_text; exact Hh | exact IH].
  - rewrite app_assoc. destruct IHb as (N & bodies & -> & Hall).
    apply (decodes_all_cons (S (N + List.length items))); [|exact IH].
    apply decodes_array; assumption.
  - rewrite app_assoc. destruct IHb as (N & bodies & -> & Hall).
    apply (decodes_all_cons (S (N + List.length props))); [|exact IH].
    apply decodes_map; assumption.
  - apply (decodes_all_cons 1 _ [xf4]); [|exact IH].
    apply decodes_simple. left. split; reflexivity.
  - apply (decodes_all_cons 1 _ [xf5]); [|exact IH].
    apply decodes_simple. right. left. split; reflexivity.
  - apply (decodes_all_cons 1 _ [xf6]); [|exact IH].
    apply decodes_simple. right. right. split; reflexivity.
  - apply (decodes_all_cons 1 _ [xf7]); [|exact IH].
    apply decodes_undefined. exact Hu.
  - apply (decodes_all_cons 1 _ (xf9 :: payload)); [|exact IH].
    apply decodes_float16; assumption.
  - apply (decodes_all_cons 1 _ (xfa :: payload)); [|exact IH].
    apply decodes_float32; assumption.
  - apply (decodes_all_cons 1 _ (xfb :: payload)); [|exact IH].
    apply decodes_float64; assumption.
Qed.

(** One encoded value. *)
Lemma encoded_value_decodes v item pre post s :
  encoded options [v] item ->
  data = pre ++ item ++ post -> offset s = Fin (len pre) -> isKey s = false ->
  exists N, forall fuel, (N <= fuel)%nat ->
    decodeValue data options fuel s
    = Ok (v, set_offset (Fin (len pre + len item)) s).
Proof.
  intros He Hd Ho Hk. destruct (encoded_decodes _ _ He) as (N & items & Hi & Hall).
  revert Hd. inversion Hall as [|? item1 ? items1 Hv Hnil]; subst.
  inversion Hnil; subst. simpl. rewrite app_nil_r. intros Hd.
  exists N. intros fuel Hf. apply (Hv fuel Hf pre post s Hd Ho).
  rewrite Hk. discriminate.
Qed.

(** An item that decodes holds at least one byte. *)
Lemma decodes_at_nonempty N v item : decodes_at N v item -> item <> [].
Proof.
  intros Hv ->.
  pose proof (Hv N (Nat.le_refl N) data [] (set_offset (Fin (len data)) init)
                ltac:(rewrite !app_nil_r; reflexivity) eq_refl
                ltac:(simpl; discriminate)) as H.
  destruct (ProgressFacts.decodeValue_first_byte data options N _ _ _ H)
    as (ib & s1 & Hu & _).
  apply StreamFacts.uint_inv in Hu. destruct Hu as (o & Ho & _ & Hb & _).
  simpl in Ho. inversion Ho; subst. lia.
Qed.

(** Decoding value by value over a sequence of items that ends the array. *)
Lemma decodeAll_items N vs items :
  Forall2 (decodes_at N) vs items ->
  forall fuel n, (N <= fuel)%nat -> (List.length vs <= n)%nat ->
  forall pre s,
    data = pre ++ List.concat items -> offset s = Fin (len pre) -> isKey s = false ->
    decodeAll data options fuel n s = Ok (vs, set_offset (Fin (len data)) s).
Proof.
  induction 1 as [|v item vs items Hv Hall IH]; intros fuel n Hf Hn pre s Hd Ho Hk.
  - simpl in Hd. rewrite app_nil_r in Hd.
    assert (E : decodeAll data options fuel n s = Ok ([], s)).
    { destruct n; simpl; rewrite Ho, Hd, Z.ltb_irrefl; reflexivity. }
    rewrite E. f_equal. f_equal. symmetry. apply ItemFacts.set_offset_same.
    rewrite Ho, Hd. reflexivity.
  - simpl in Hn. destruct n as [|n]; [lia|].
    pose proof (decodes_at_nonempty N v item Hv) as Hne.
    simpl List.concat in Hd.
    simpl decodeAll. rewrite Ho.
    replace (len pre <? len data) with true.
    2:{ symmetry. apply Z.ltb_lt. rewrite Hd, !len_app.
        pose proof (len_nonneg (List.concat items)).
        assert (0 < len item); [|lia].
        destruct item; [contradiction|]. rewrite len_cons.
        pose proof (len_nonneg item). lia. }
    rewrite (bind_Ok_intro _ _ _ _ _
               (Hv fuel Hf pre (List.concat items) s Hd Ho
                   ltac:(rewrite Hk; discriminate))).
    rewrite (bind_Ok_intro _ _ _ _ _
               (IH fuel n Hf ltac:(lia) (pre ++ item)
                   (set_offset (Fin (len pre + len item)) s)
                   ltac:(rewrite <- app_assoc; exact Hd)
                   ltac:(rewrite len_app; reflexivity) Hk)).
    reflexivity.
Qed.

End Encoded.
End EncodedFacts.

(** ** What is decoded was encoded *)

Module SoundFacts.
Import Decoder.

Lemma be_value_lt bs : be_value bs < 256 ^ len bs.
Proof.
  induction bs as [|b bs IH] using rev_ind; [reflexivity|].
  rewrite be_value_app, len_app, len_cons, len_nil.
  pose proof (b2z_range b). pose proof (len_nonneg bs).
  replace (len bs + (1 + 0)) with (Z.succ (len bs)) by lia.
  rewrite Z.pow_succ_r by assumption. lia.
Qed.

Lemma initial_of_byte b : initial b (Z.shiftr (b2z b) 5) (Z.land (b2z b) 31).
Proof.
  pose proof (b2z_range b) as Hb. unfold initial.
  rewrite Z.shiftr_div_pow2 by lia. change 31 with (Z.ones 5).
  rewrite Z.land_ones by lia. change (2 ^ 5) with 32.
  pose proof (Z.div_mod (b2z b) 32 ltac:(lia)).
  pose proof (Z.mod_pos_bound (b2z b) 32 ltac:(lia)).
  assert (0 <= b2z b / 32 < 8)
    by (split; [apply Z.div_pos; lia | apply Z.div_lt_upper_bound; lia]).
  lia.
Qed.

Lemma b2z_inj b b' : b2z b = b2z b' -> b = b'.
Proof.
  unfold b2z. intros H. apply N2Z.inj in H.
  pose proof (Byte.of_to_N b) as E. rewrite H, Byte.of_to_N in E.
  congruence.
Qed.

Lemma byte_of_code b major ai c :
  Z.shiftr (b2z b) 5 = major -> Z.land (b2z b) 31 = ai ->
  b2z c = major * 32 + ai -> b = c.
Proof.
  intros Hm Ha Hc. apply b2z_inj. rewrite Hc.
  destruct (initial_of_byte b) as (E & _). rewrite Hm, Ha in E. exact E.
Qed.

Lemma take_front {A} (l : list A) n :
  0 <= n <= len l -> exists a b, l = a ++ b /\ len a = n.
Proof.
  intros Hn. exists (firstn (Z.to_nat n) l), (skipn (Z.to_nat n) l).
  split; [symmetry; apply firstn_skipn|].
  unfold len in *. rewrite length_firstn. lia.
Qed.

Lemma encoded_app options vs1 b1 vs2 b2 :
  encoded options vs1 b1 -> encoded options vs2 b2 ->
  encoded options (vs1 ++ vs2) (b1 ++ b2).
Proof.
  intros H1 H2. induction H1; simpl app; rewrite <- ?app_assoc;
    try (rewrite <- ?app_assoc; econstructor; eassumption).
  exact H2.
Qed.

Section Sound.

Variable data : list byte.
Variable options : DecodeOptions.
Hypothesis no_onValue : onValue options = None.
Hypothesis no_onKey : onKey options = None.

(** A read that returns has found its bytes in the array. *)
Lemma uint_found size s x s1 pre rest :
  0 <= size -> uint data size s = Ok (x, s1) ->
  data = pre ++ rest -> offset s = Fin (len pre) ->
  exists bs post,
    rest = bs ++ post /\ len bs = size /\ x = be_value bs /\
    s1 = set_offset (Fin (len pre + size)) s.
Proof.
  intros Hsize H Hd Ho.
  assert (Hin : size <= len rest).
  { unfold uint, constant, view_get, bind in H. rewrite Ho in H.
    destruct ((0 <=? len pre) && (len pre + size <=? len data)) eqn:E;
      [|discriminate].
    apply andb_prop in E. destruct E as [_ E]. apply Z.leb_le in E.
    rewrite Hd, len_app in E. lia. }
  destruct (take_front rest size ltac:(lia)) as (bs & post & Hr & Hl).
  exists bs, post. split; [exact Hr|]. split; [exact Hl|].
  rewrite Hr in Hd. rewrite <- Hl in H.
  rewrite (ReadFacts.uint_at data pre bs post s Hd Ho) in H.
  rewrite Hl in H. injection H as <- <-. split; reflexivity.
Qed.

Lemma uint8_inv s ib s1 pre rest :
  uint8 data s = Ok (ib, s1) ->
  data = pre ++ rest -> offset s = Fin (len pre) ->
  exists b post,
    rest = b :: post /\ ib = b2z b /\ s1 = set_offset (Fin (len pre + 1)) s.
Proof.
  intros H Hd Ho.
  destruct (uint_found 1 s ib s1 pre rest ltac:(lia) H Hd Ho)
    as (bs & post & Hr & Hl & Hx & Hs).
  destruct bs as [|b [|b' bs]]; try (unfold len in Hl; simpl in Hl; lia).
  exists b, post. split; [exact Hr|]. split; [|exact Hs].
  rewrite Hx. unfold be_value. reflexivity.
Qed.

(** The argument that [getArgument] returns after the initial byte [b], and
    the head that it has read. *)
Lemma read_head b s a s2 pre post :
  getArgument data (Z.land (b2z b) 31) (set_offset (Fin (len pre + 1)) s)
  = Ok (a, s2) ->
  data = pre ++ b :: post -> offset s = Fin (len pre) ->
  exists h post',
    b :: post = h ++ post' /\ s2 = set_offset (Fin (len pre + len h)) s /\
    (forall n, arg_value a = Fin n ->
       head (Z.shiftr (b2z b) 5) n h /\ 0 <= n /\
       ((arg_uint64 a = None /\ n < 2 ^ 32) \/ arg_uint64 a = Some n)) /\
    (arg_value a = Infinity ->
       exists u, arg_uint64 a = Some u /\ Utils.maxSafeInteger < u).
Proof.
  intros H Hd Ho.
  pose proof (initial_of_byte b) as Hi.
  set (major := Z.shiftr (b2z b) 5) in *. set (ai := Z.land (b2z b) 31) in *.
  assert (Hd1 : data = (pre ++ [b]) ++ post) by (rewrite <- app_assoc; exact Hd).
  assert (Ho1 : offset (set_offset (Fin (len pre + 1)) s) = Fin (len (pre ++ [b])))
    by (rewrite len_app; reflexivity).
  assert (Hwide : forall w x,
            arg_width ai = Some w -> (w <= 8)%nat ->
            uint data (Z.of_nat w) (set_offset (Fin (len pre + 1)) s) = Ok (x, s2) ->
            exists arg post',
              b :: post = (b :: arg) ++ post' /\ List.length arg = w /\
              x = be_value arg /\
              s2 = set_offset (Fin (len pre + len (b :: arg))) s /\
              0 <= x < 256 ^ Z.of_nat w).
  { intros w x Hw Hle Hu.
    destruct (uint_found (Z.of_nat w) _ x s2 (pre ++ [b]) post ltac:(lia) Hu Hd1 Ho1)
      as (arg & post' & Hr & Hl & Hx & Hs).
    exists arg, post'. split; [simpl; rewrite Hr; reflexivity|].
    split; [unfold len in Hl; lia|]. split; [exact Hx|].
    split.
    - rewrite Hs. unfold set_offset. simpl. rewrite len_app, len_cons, len_nil, len_cons.
      rewrite Hl. f_equal. f_equal. lia.
    - rewrite Hx, <- Hl. split; [apply be_value_nonneg | apply be_value_lt]. }
  unfold getArgument in H. fold ai in H.
  destruct (ai <? 24) eqn:E24.
  { apply Z.ltb_lt in E24. injection H as <- <-.
    exists [b], post. split; [reflexivity|].
    split; [reflexivity|]. split.
    - simpl. intros n Hn. injection Hn as <-.
      split; [apply head_inline; assumption|].
      destruct Hi as (_ & _ & Hr). split; [lia|]. left. split; [reflexivity|lia].
    - simpl. discriminate. }
  destruct (ai =? 24) eqn:E1.
  { apply Z.eqb_eq in E1. apply bind_Ok in H. destruct H as (x & s1' & Hu & H).
    injection H as <- <-.
    destruct (Hwide 1%nat x ltac:(rewrite E1; reflexivity) ltac:(lia) Hu)
      as (arg & post' & Hr & Hl & Hx & Hs & Hb).
    exists (b :: arg), post'. split; [exact Hr|]. split; [exact Hs|]. split.
    - simpl. intros n Hn. injection Hn as <-. rewrite Hx.
      split.
      + apply (head_arg major b ai 1%nat arg Hi); [rewrite E1; reflexivity|exact Hl|].
        rewrite <- Hx. unfold Utils.maxSafeInteger. change (256 ^ Z.of_nat 1) with 256 in Hb.
        lia.
      + rewrite <- Hx. split; [lia|]. left. split; [reflexivity|].
        change (256 ^ Z.of_nat 1) with 256 in Hb. lia.
    - simpl. discriminate. }
  destruct (ai =? 25) eqn:E2.
  { apply Z.eqb_eq in E2. apply bind_Ok in H. destruct H as (x & s1' & Hu & H).
    injection H as <- <-.
    destruct (Hwide 2%nat x ltac:(rewrite E2; reflexivity) ltac:(lia) Hu)
      as (arg & post' & Hr & Hl & Hx & Hs & Hb).
    exists (b :: arg), post'. split; [exact Hr|]. split; [exact Hs|]. split.
    - simpl. intros n Hn. injection Hn as <-. rewrite Hx.
      split.
      + apply (head_arg major b ai 2%nat arg Hi); [rewrite E2; reflexivity|exact Hl|].
        rewrite <- Hx. unfold Utils.maxSafeInteger.
        change (256 ^ Z.of_nat 2) with 65536 in Hb. lia.
      + rewrite <- Hx. split; [lia|]. left. split; [reflexivity|].
        change (256 ^ Z.of_nat 2) with 65536 in Hb. lia.
    - simpl. discriminate. }
  destruct (ai =? 26) eqn:E3.
  { apply Z.eqb_eq in E3. apply bind_Ok in H. destruct H as (x & s1' & Hu & H).
    injection H as <- <-.
    destruct (Hwide 4%nat x ltac:(rewrite E3; reflexivity) ltac:(lia) Hu)
      as (arg & post' & Hr & Hl & Hx & Hs & Hb).
    exists (b :: arg), post'. split; [exact Hr|]. split; [exact Hs|]. split.
    - simpl. intros n Hn. injection Hn as <-. rewrite Hx.
      split.
      + apply (head_arg major b ai 4%nat arg Hi); [rewrite E3; reflexivity|exact Hl|].
        rewrite <- Hx. unfold Utils.maxSafeInteger.
        change (256 ^ Z.of_nat 4) with (2 ^ 32) in Hb. lia.
      + rewrite <- Hx. split; [lia|]. left. split; [reflexivity|].
        change (256 ^ Z.of_nat 4) with (2 ^ 32) in Hb. lia.
    - simpl. discriminate. }
  destruct (ai =? 27) eqn:E4.
  { apply Z.eqb_eq in E4. apply bind_Ok in H. destruct H as (x & s1' & Hu & H).
    injection H as <- <-.
    destruct (Hwide 8%nat x ltac:(rewrite E4; reflexivity) ltac:(lia) Hu)
      as (arg & post' & Hr & Hl & Hx & Hs & Hb).
    exists (b :: arg), post'. split; [exact Hr|]. split; [exact Hs|]. split.
    - simpl. intros n Hn.
      destruct (Utils.maxSafeInteger <? x) eqn:Es; [discriminate|].
      apply Z.ltb_ge in Es. injection Hn as <-. rewrite Hx.
      split.
      + apply (head_arg major b ai 8%nat arg Hi); [rewrite E4; reflexivity|exact Hl|].
        rewrite <- Hx. exact Es.
      + rewrite <- Hx. split; [lia|]. right. reflexivity.
    - simpl. intros Hn.
      destruct (Utils.maxSafeInteger <? x) eqn:Es; [|discriminate].
      apply Z.ltb_lt in Es. exists x. split; [reflexivity|exact Es]. }
  destruct (ai =? 31); discriminate H.
Qed.

(** The loop of the map thunk does not end for the length [Infinity]. *)
Lemma entries_never fuel : forall i value s v s',
  decodeEntries data options fuel i Infinity value s <> Ok (v, s').
Proof.
  induction fuel as [|fuel IH]; intros i value s v s' H; [discriminate H|].
  with_strategy opaque [Z.add decodeValue] simpl decodeEntries in H.
  unfold pushKey, popKey in H. inv_run.
  match goal with
  | Hm : match ?key with VString _ => _ | _ => _ end _ = Ok _ |- _ =>
    destruct key as [ | |?|?|?|? ?|?|k|?|?]; try discriminate Hm;
    destruct (key_in k value); [discriminate Hm|]; inv_run
  end.
  match goal with
  | Hm : decodeEntries _ _ _ _ _ _ _ = Ok _ |- _ => exact (IH _ _ _ _ _ Hm)
  end.
Qed.

Local Abbreviation value_encoded := (value_encoded data options).
Local Abbreviation items_encoded := (items_encoded data options).
Local Abbreviation entries_encoded := (entries_encoded data options).

(** The offset after a step that the rest of the run follows lies inside the
    array as well. *)
Lemma offset_before s1 s' o' :
  offset_le s1 s' -> offset s' = Fin o' ->
  exists o1, offset s1 = Fin o1 /\ o1 <= o'.
Proof.
  unfold offset_le. intros H Ho'. rewrite Ho' in H.
  destruct (offset s1) as [o1|]; [|contradiction]. exists o1. split; [reflexivity|exact H].
Qed.

Lemma mono fuel :
  preserves offset_le (decodeValue data options fuel) /\
  (forall i n value, preserves offset_le (decodeItems data options fuel i n value)) /\
  (forall i n value, preserves offset_le (decodeEntries data options fuel i n value)).
Proof.
  exact (DecoderFacts.preserves_decodeValue data options offset_le
           TrailingFacts.offset_le_refl TrailingFacts.offset_le_trans
           ProgressFacts.offset_le_isKey ProgressFacts.offset_le_add
           ProgressFacts.offset_le_frame fuel).
Qed.

Lemma items_encoded_step fuel :
  value_encoded fuel -> items_encoded fuel -> items_encoded (S fuel).
Proof.
  intros IHv IHi i n value s v s' H.
  with_strategy opaque [Z.add Z.sub decodeValue] simpl decodeItems in H.
  unfold lt_jsnum, pushKey, popKey in H. destruct (i <? n) eqn:E.
  - inv_run.
    match goal with
    | Hv : decodeValue _ _ _ _ = Ok (?x, ?s1),
      Hi : decodeItems _ _ _ _ _ _ _ = Ok _ |- _ =>
      rename Hv into Hval; rename Hi into Hrest; rename x into x1; rename s1 into t1
    end.
    intros o' pre rest Ho' Hle Hd Ho. apply Z.ltb_lt in E.
    destruct (mono fuel) as (_ & Mi & _).
    destruct (offset_before _ _ _ (Mi _ _ _ _ _ _ Hrest) Ho') as (o1 & Ho1 & Hle1).
    destruct (IHv _ _ _ Hval o1 pre rest Ho1 ltac:(lia) Hd Ho)
      as (item & post1 & Hr & Eo1 & Henc).
    destruct (IHi _ _ _ _ _ _ Hrest o' (pre ++ item) post1 Ho' Hle
                ltac:(rewrite <- app_assoc, <- Hr; exact Hd)
                ltac:(rewrite len_app, <- Eo1; exact Ho1))
      as (items & body & post & Hr1 & Eo' & Ev & Hlen & Hencs).
    exists (x1 :: items), (item ++ body), post.
    split; [rewrite Hr, Hr1, app_assoc; reflexivity|].
    split; [rewrite Eo', !len_app; lia|].
    split; [rewrite Ev, <- app_assoc; reflexivity|].
    split; [rewrite len_cons, Hlen; lia|].
    exact (encoded_app options [x1] item items body Henc Hencs).
  - inv_run. intros o' pre rest Ho' Hle Hd Ho. apply Z.ltb_ge in E.
    exists [], [], rest. rewrite Ho in Ho'. injection Ho' as <-.
    split; [reflexivity|]. split; [rewrite len_nil; lia|].
    split; [rewrite app_nil_r; reflexivity|].
    split; [rewrite len_nil; lia|]. apply encoded_nil.
Qed.

Lemma items_zero : items_encoded 0.
Proof.
  intros i n value s v s' H. simpl in H. unfold lt_jsnum in H.
  destruct (i <? n) eqn:E; [discriminate H|].
  inv_run. intros o' pre rest Ho' Hle Hd Ho. apply Z.ltb_ge in E.
  exists [], [], rest. rewrite Ho in Ho'. injection Ho' as <-.
  split; [reflexivity|]. split; [rewrite len_nil; lia|].
  split; [rewrite app_nil_r; reflexivity|].
  split; [rewrite len_nil; lia|]. apply encoded_nil.
Qed.

Lemma entries_zero : entries_encoded 0.
Proof.
  intros i n value s v s' H. simpl in H. unfold lt_jsnum in H.
  destruct (i <? n) eqn:E; [discriminate H|].
  inv_run. intros o' pre rest Ho' Hle Hd Ho. apply Z.ltb_ge in E.
  exists [], [], rest. rewrite Ho in Ho'. injection Ho' as <-.
  split; [reflexivity|]. split; [rewrite len_nil; lia|].
  split; [rewrite app_nil_r; reflexivity|].
  split; [rewrite len_nil; lia|]. split; [reflexivity|]. apply encoded_nil.
Qed.

Lemma entries_encoded_step fuel :
  value_encoded fuel -> entries_encoded fuel -> entries_encoded (S fuel).
Proof.
  intros IHv IHe i n value s v s' H.
  with_strategy opaque [Z.add Z.sub decodeValue] simpl decodeEntries in H.
  unfold lt_jsnum, pushKey, popKey in H. destruct (i <? n) eqn:E.
  - inv_run.
    match goal with
    | Hk : decodeValue _ _ _ (set_isKey true s) = Ok (?x, ?s1) |- _ =>
      rename Hk into Hkey; rename x into key; rename s1 into t1
    end.
    destruct key as [ | |?|?|?|? ?|?|k|?|?]; inv_run.
    match goal with
    | Hm : (if key_in ?k value then _ else _) _ = Ok _ |- _ =>
      rename Hm into Hrun; destruct (key_in k value) eqn:Hfresh; [discriminate Hrun|]
    end.
    inv_run.
    match goal with
    | Hv : decodeValue _ _ _ (set_keyPath _ _) = Ok (?x, ?s1),
      Hi : decodeEntries _ _ _ _ _ _ _ = Ok _ |- _ =>
      rename Hv into Hval; rename Hi into Hrest; rename x into x1; rename s1 into t2
    end.
    intros o' pre rest Ho' Hle Hd Ho. apply Z.ltb_lt in E.
    destruct (mono fuel) as (Mv & _ & Me).
    destruct (offset_before _ _ _ (Me _ _ _ _ _ _ Hrest) Ho') as (o2 & Ho2 & Hle2).
    destruct (offset_before _ _ _ (Mv _ _ _ Hval) Ho2) as (o1 & Ho1 & Hle1).
    destruct (IHv _ _ _ Hkey o1 pre rest Ho1 ltac:(lia) Hd Ho)
      as (ik & post1 & Hr & Eo1 & Henck).
    destruct (IHv _ _ _ Hval o2 (pre ++ ik) post1 Ho2 ltac:(lia)
                ltac:(rewrite <- app_assoc, <- Hr; exact Hd)
                ltac:(rewrite len_app, <- Eo1; exact Ho1))
      as (iv & post2 & Hr2 & Eo2 & Hencv).
    rewrite (EncodedFacts.obj_set_fresh _ _ _ Hfresh) in Hrest.
    destruct (IHe _ _ _ _ _ _ Hrest o' ((pre ++ ik) ++ iv) post2 Ho' Hle
                ltac:(rewrite <- !app_assoc, <- Hr2, <- Hr; exact Hd)
                ltac:(rewrite len_app, <- Eo2; exact Ho2))
      as (props & body & post & Hr3 & Eo' & Ev & Hlen & Hdk & Hencs).
    exists ((k, x1) :: props), (ik ++ iv ++ body), post.
    split; [rewrite Hr, Hr2, Hr3, <- !app_assoc; reflexivity|].
    split; [rewrite Eo', !len_app; lia|].
    split; [rewrite Ev, <- app_assoc; reflexivity|].
    split; [rewrite len_cons, Hlen; lia|].
    split; [simpl; rewrite Hfresh, Hdk; reflexivity|].
    simpl interleave.
    apply (encoded_app options [VString k] ik (x1 :: interleave props) (iv ++ body)
             Henck).
    exact (encoded_app options [x1] iv (interleave props) body Hencv Hencs).
  - inv_run. intros o' pre rest Ho' Hle Hd Ho. apply Z.ltb_ge in E.
    exists [], [], rest. rewrite Ho in Ho'. injection Ho' as <-.
    split; [reflexivity|]. split; [rewrite len_nil; lia|].
    split; [rewrite app_nil_r; reflexivity|].
    split; [rewrite len_nil; lia|]. split; [reflexivity|]. apply encoded_nil.
Qed.

Lemma alone v item : encoded options [v] (item ++ []) -> encoded options [v] item.
Proof. rewrite app_nil_r. exact (fun H => H). Qed.

Ltac split_if H E :=
  match type of H with
  | (if ?c then _ else _) _ = _ => revert H; destruct c eqn:E; intros H
  end.

(** The thunk of a typed item, run once. *)
Ltac run_thunk H :=
  rewrite ?(EncodedFacts.on_value_none options no_onValue) in H;
  rewrite EncodedFacts.typed_plain in H;
  match type of H with
  | match ?m with _ => _ end = Ok _ =>
    let Eb := fresh "Eb" in
    destruct m as [[? ?]| |] eqn:Eb; try discriminate H;
    injection H as -> ->; rename Eb into H
  end.

Lemma value_encoded_step fuel :
  value_encoded fuel -> items_encoded fuel -> entries_encoded fuel ->
  value_encoded (S fuel).
Proof.
  intros IHv IHi IHe s v s' H o' pre rest Ho' Hle Hd Ho.
  with_strategy opaque [Z.sub Z.pow Z.add Z.mul uint8 getArgument decodeItems
                        decodeEntries skipValues scalar decodeBytes decodeString
                        on_value on_key float16 float32 float64] simpl in H.
  apply bind_Ok in H. destruct H as (ib & s1 & Hu & H).
  destruct (uint8_inv s ib s1 pre rest Hu Hd Ho) as (b & post & Hr & Hib & Hs1).
  rewrite Hib, Hs1 in H. clear Hu. subst rest.
  unfold get_env at 1 in H. unfold bind at 1 in H. cbn [fst snd] in H.
  split_if H E0.
  { (* unsigned integer *)
    apply Z.eqb_eq in E0. apply bind_Ok in H. destruct H as (a & s2 & Ha & H).
    destruct (read_head b s a s2 pre post Ha Hd Ho)
      as (h & post' & Hh & Hs2 & Hfin & Hinf).
    destruct (arg_value a) as [n|] eqn:Ev.
    - destruct (Hfin n eq_refl) as (Hhead & Hn & _).
      assert (Hrun : scalar options (number_of (Fin n)) (arg_size a) "number"
                       (keyPath (set_offset (Fin (len pre + 1)) s)) s2 = Ok (v, s')).
      { destruct (arg_uint64 a) as [u|];
          [destruct (Utils.maxSafeInteger <? u); [discriminate H|]|]; exact H. }
      rewrite (EncodedFacts.scalar_plain options no_onValue) in Hrun.
      injection Hrun as <- <-. rewrite Hs2 in Ho'. injection Ho' as <-.
      exists h, post'. split; [exact Hh|]. split; [reflexivity|].
      apply alone. rewrite E0 in Hhead.
      exact (encoded_uint options n h [] [] Hhead (encoded_nil options)).
    - destruct (Hinf eq_refl) as (u & Eu & Hbig). rewrite Eu in H.
      replace (Utils.maxSafeInteger <? u) with true in H
        by (symmetry; apply Z.ltb_lt; exact Hbig).
      discriminate H. }
  split_if H E1.
  { (* negative integer *)
    apply Z.eqb_eq in E1. apply bind_Ok in H. destruct H as (a & s2 & Ha & H).
    destruct (read_head b s a s2 pre post Ha Hd Ho)
      as (h & post' & Hh & Hs2 & Hfin & Hinf).
    destruct (arg_value a) as [n|] eqn:Ev.
    - destruct (Hfin n eq_refl) as (Hhead & Hn & Hw).
      assert (Hrun : scalar options (negative_of (Fin n)) (arg_size a) "number"
                       (keyPath (set_offset (Fin (len pre + 1)) s)) s2 = Ok (v, s')
                     /\ n < Utils.maxSafeInteger).
      { destruct Hw as [[Eu Hsmall] | Eu]; rewrite Eu in H.
        - split; [exact H|]. unfold Utils.maxSafeInteger. lia.
        - destruct (-1 - n <? Utils.minSafeInteger) eqn:Es; [discriminate H|].
          split; [exact H|]. apply Z.ltb_ge in Es.
          unfold Utils.minSafeInteger, Utils.maxSafeInteger in *. lia. }
      destruct Hrun as [Hrun Hsafe].
      rewrite (EncodedFacts.scalar_plain options no_onValue) in Hrun.
      injection Hrun as <- <-. rewrite Hs2 in Ho'. injection Ho' as <-.
      exists h, post'. split; [exact Hh|]. split; [reflexivity|].
      apply alone. rewrite E1 in Hhead.
      exact (encoded_nint options n h [] [] Hhead Hsafe (encoded_nil options)).
    - destruct (Hinf eq_refl) as (u & Eu & Hbig). rewrite Eu in H.
      replace (-1 - u <? Utils.minSafeInteger) with true in H
        by (symmetry; apply Z.ltb_lt;
            unfold Utils.minSafeInteger, Utils.maxSafeInteger in *; lia).
      discriminate H. }
  assert (Hlen : len data = len pre + len (b :: post))
    by (rewrite Hd, len_app; reflexivity).
  split_if H E2.
  { (* byte string *)
    apply Z.eqb_eq in E2. apply bind_Ok in H. destruct H as (a & s2 & Ha & H).
    destruct (read_head b s a s2 pre post Ha Hd Ho)
      as (h & post' & Hh & Hs2 & Hfin & _).
    run_thunk H. unfold decodeBytes in H.
    destruct (arg_value a) as [n|] eqn:Ev; [|discriminate H].
    destruct (Hfin n eq_refl) as (Hhead & Hn & _).
    rewrite Hs2 in H. cbn [offset set_offset jsnum_add] in H.
    injection H as <- <-. cbn [offset set_offset] in Ho'. injection Ho' as <-.
    rewrite Hh, len_app in Hlen.
    destruct (take_front post' n ltac:(lia)) as (payload & post'' & Hp & Hpl).
    rewrite <- Hpl.
    assert (Hsub : subarray data (len pre + len h) (len payload) = payload).
    { apply (EncodedFacts.payload_at data pre h payload post'').
      rewrite Hd, Hh, Hp, <- !app_assoc. reflexivity. }
    rewrite Hsub.
    replace (Z.to_nat (len payload) - List.length payload)%nat with 0%nat
      by (unfold len; lia).
    simpl repeat. rewrite app_nil_r.
    exists (h ++ payload ++ []), post''.
    split; [rewrite Hh, Hp, app_nil_r, <- app_assoc; reflexivity|].
    split; [rewrite app_nil_r, len_app; lia|].
    rewrite E2, <- Hpl in Hhead.
    exact (encoded_bytes options h payload [] [] Hhead (encoded_nil options)). }
  split_if H E3.
  { (* text string *)
    apply Z.eqb_eq in E3. apply bind_Ok in H. destruct H as (a & s2 & Ha & H).
    destruct (read_head b s a s2 pre post Ha Hd Ho)
      as (h & post' & Hh & Hs2 & Hfin & _).
    replace (if isKey (set_offset (Fin (len pre + 1)) s)
             then on_key options (arg_value a)
             else on_value options (arg_value a) "string"
                    (keyPath (set_offset (Fin (len pre + 1)) s)))
      with (@None Hook) in H
      by (destruct (isKey (set_offset (Fin (len pre + 1)) s));
          [rewrite (EncodedFacts.on_key_none options no_onKey)
          |rewrite (EncodedFacts.on_value_none options no_onValue)]; reflexivity).
    run_thunk H. unfold decodeString in H.
    rewrite Hs2 in H. cbn [offset set_offset jsnum_add] in H.
    injection H as <- <-. cbn [offset set_offset] in Ho'.
    destruct (arg_value a) as [n|] eqn:Ev; [|discriminate Ho'].
    destruct (Hfin n eq_refl) as (Hhead & Hn & _).
    cbn [jsnum_add] in Ho'. injection Ho' as <-.
    rewrite Hh, len_app in Hlen.
    destruct (take_front post' n ltac:(lia)) as (payload & post'' & Hp & Hpl).
    rewrite <- Hpl.
    assert (Hsub : subarray data (len pre + len h) (len payload) = payload).
    { apply (EncodedFacts.payload_at data pre h payload post'').
      rewrite Hd, Hh, Hp, <- !app_assoc. reflexivity. }
    rewrite Hsub.
    exists (h ++ payload ++ []), post''.
    split; [rewrite Hh, Hp, app_nil_r, <- app_assoc; reflexivity|].
    split; [rewrite app_nil_r, len_app; lia|].
    rewrite E3, <- Hpl in Hhead.
    exact (encoded_text options h payload [] [] Hhead (encoded_nil options)). }
  split_if H E4.
  { (* array *)
    apply Z.eqb_eq in E4. apply bind_Ok in H. destruct H as (a & s2 & Ha & H).
    destruct (read_head b s a s2 pre post Ha Hd Ho)
      as (h & post' & Hh & Hs2 & Hfin & _).
    run_thunk H. apply bind_Ok in H. destruct H as ([] & s3 & Hnew & H).
    unfold new_Array in Hnew.
    destruct (arg_value a) as [n|] eqn:Ev; [|discriminate Hnew].
    destruct (n <? 2 ^ 32) eqn:E32; [|discriminate Hnew].
    apply Z.ltb_lt in E32. injection Hnew as <-.
    destruct (Hfin n eq_refl) as (Hhead & Hn & _).
    destruct (IHi _ _ _ _ _ _ H o' (pre ++ h) post' Ho' Hle
                ltac:(rewrite <- app_assoc, <- Hh; exact Hd)
                ltac:(rewrite Hs2, len_app; reflexivity))
      as (items & body & post'' & Hr & Eo' & Ev' & Hl & Henc).
    rewrite Z.sub_0_r, Z.max_r in Hl by exact Hn.
    exists (h ++ body ++ []), post''.
    split; [rewrite Hh, Hr, app_nil_r, <- app_assoc; reflexivity|].
    split; [rewrite Eo', app_nil_r, !len_app; lia|].
    rewrite Ev'. simpl app. rewrite E4, <- Hl in Hhead.
    exact (encoded_array options h items body [] [] Hhead ltac:(lia) Henc
             (encoded_nil options)). }
  split_if H E5.
  { (* map *)
    apply Z.eqb_eq in E5. apply bind_Ok in H. destruct H as (a & s2 & Ha & H).
    destruct (read_head b s a s2 pre post Ha Hd Ho)
      as (h & post' & Hh & Hs2 & Hfin & _).
    run_thunk H.
    destruct (arg_value a) as [n|] eqn:Ev; [|exfalso; exact (entries_never _ _ _ _ _ _ H)].
    destruct (Hfin n eq_refl) as (Hhead & Hn & _).
    destruct (IHe _ _ _ _ _ _ H o' (pre ++ h) post' Ho' Hle
                ltac:(rewrite <- app_assoc, <- Hh; exact Hd)
                ltac:(rewrite Hs2, len_app; reflexivity))
      as (props & body & post'' & Hr & Eo' & Ev' & Hl & Hdk & Henc).
    rewrite Z.sub_0_r, Z.max_r in Hl by exact Hn.
    exists (h ++ body ++ []), post''.
    split; [rewrite Hh, Hr, app_nil_r, <- app_assoc; reflexivity|].
    split; [rewrite Eo', app_nil_r, !len_app; lia|].
    rewrite Ev'. simpl app. rewrite E5, <- Hl in Hhead.
    exact (encoded_map options h props body [] [] Hhead Hdk Henc
             (encoded_nil options)). }
  split_if H E6; [discriminate H|].
  split_if H E7; [|discriminate H].
  apply Z.eqb_eq in E7.
  assert (Hone : forall c x,
            b2z c = 7 * 32 + x -> Z.land (b2z b) 31 = x ->
            s' = set_offset (Fin (len pre + 1)) s ->
            encoded options [v] [c] ->
            exists item post0,
              b :: post = item ++ post0 /\ o' = len pre + len item /\
              encoded options [v] item).
  { intros c x Hc Hx Hs' Henc.
    rewrite (byte_of_code b 7 x c E7 Hx Hc).
    exists [c], post. split; [reflexivity|].
    rewrite Hs' in Ho'. injection Ho' as <-. split; [reflexivity|exact Henc]. }
  assert (Hfloat : forall c x size bits s2,
            b2z c = 7 * 32 + x -> Z.land (b2z b) 31 = x -> 0 <= size ->
            uint data size (set_offset (Fin (len pre + 1)) s) = Ok (bits, s2) ->
            s' = s2 ->
            (forall payload, len payload = size -> bits = be_value payload ->
               encoded options [v] (c :: payload ++ [])) ->
            exists item post0,
              b :: post = item ++ post0 /\ o' = len pre + len item /\
              encoded options [v] item).
  { intros c x size bits s2 Hc Hx Hsize Hread Hs' Henc.
    rewrite (byte_of_code b 7 x c E7 Hx Hc) in *.
    destruct (uint_found size _ bits s2 (pre ++ [c]) post Hsize Hread
                ltac:(rewrite <- app_assoc; exact Hd)
                ltac:(rewrite len_app; reflexivity))
      as (payload & post' & Hp & Hpl & Hbits & Hs2).
    exists (c :: payload ++ []), post'.
    split; [rewrite Hp, app_nil_r; reflexivity|].
    rewrite Hs', Hs2 in Ho'. injection Ho' as <-.
    split; [rewrite app_nil_r, len_app, !len_cons, len_nil; lia|].
    exact (Henc payload Hpl Hbits). }
  split_if H E20.
  { apply Z.eqb_eq in E20.
    rewrite (EncodedFacts.scalar_plain options no_onValue) in H. injection H as <- <-.
    apply (Hone xf4 20 eq_refl E20 eq_refl).
    exact (encoded_false options [] [] (encoded_nil options)). }
  split_if H E21.
  { apply Z.eqb_eq in E21.
    rewrite (EncodedFacts.scalar_plain options no_onValue) in H. injection H as <- <-.
    apply (Hone xf5 21 eq_refl E21 eq_refl).
    exact (encoded_true options [] [] (encoded_nil options)). }
  split_if H E22.
  { apply Z.eqb_eq in E22.
    rewrite (EncodedFacts.scalar_plain options no_onValue) in H. injection H as <- <-.
    apply (Hone xf6 22 eq_refl E22 eq_refl).
    exact (encoded_null options [] [] (encoded_nil options)). }
  split_if H E23.
  { apply Z.eqb_eq in E23.
    destruct (allowUndefined options) eqn:Hallow; [|discriminate H].
    simpl negb in H. cbv iota in H.
    rewrite (EncodedFacts.on_value_none options no_onValue) in H.
    injection H as <- <-.
    apply (Hone xf7 23 eq_refl E23 eq_refl).
    exact (encoded_undefined options [] [] Hallow (encoded_nil options)). }
  split_if H E24; [discriminate H|].
  split_if H E25.
  { apply Z.eqb_eq in E25.
    destruct (minFloatSize options <=? 16) eqn:Hmin; [|discriminate H].
    apply Z.leb_le in Hmin. apply bind_Ok in H. destruct H as (bits & s2 & Hread & H).
    rewrite (EncodedFacts.scalar_plain options no_onValue) in H. injection H as <- <-.
    apply (Hfloat xf9 25 2 bits s2 eq_refl E25 ltac:(lia) Hread eq_refl).
    intros payload Hpl ->.
    apply (encoded_float16 options payload [] [] Hmin); [|apply encoded_nil].
    unfold len in Hpl. lia. }
  split_if H E26.
  { apply Z.eqb_eq in E26.
    destruct (minFloatSize options <=? 32) eqn:Hmin; [|discriminate H].
    apply Z.leb_le in Hmin. apply bind_Ok in H. destruct H as (bits & s2 & Hread & H).
    rewrite (EncodedFacts.scalar_plain options no_onValue) in H. injection H as <- <-.
    apply (Hfloat xfa 26 4 bits s2 eq_refl E26 ltac:(lia) Hread eq_refl).
    intros payload Hpl ->.
    apply (encoded_float32 options payload [] [] Hmin); [|apply encoded_nil].
    unfold len in Hpl. lia. }
  split_if H E27.
  { apply Z.eqb_eq in E27.
    apply bind_Ok in H. destruct H as (bits & s2 & Hread & H).
    rewrite (EncodedFacts.scalar_plain options no_onValue) in H. injection H as <- <-.
    apply (Hfloat xfb 27 8 bits s2 eq_refl E27 ltac:(lia) Hread eq_refl).
    intros payload Hpl ->.
    apply (encoded_float64 options payload [] []); [|apply encoded_nil].
    unfold len in Hpl. lia. }
  split_if H E31; discriminate H.
Qed.

(** Whatever the in-memory decoder returns, it has read an encoding of. *)
Lemma decoded_was_encoded fuel :
  value_encoded fuel /\ items_encoded fuel /\ entries_encoded fuel.
Proof.
  induction fuel as [|fuel (IHv & IHi & IHe)].
  - split; [|split; [exact items_zero | exact entries_zero]].
    intros s v s' H. discriminate H.
  - split; [exact (value_encoded_step fuel IHv IHi IHe)|].
    split; [exact (items_encoded_step fuel IHv IHi) | exact (entries_encoded_step fuel IHv IHe)].
Qed.

(** A call that returns started at an offset inside the array. *)
Lemma started_inside fuel s v s' :
  decodeValue data options fuel s = Ok (v, s') ->
  exists pre rest, data = pre ++ rest /\ offset s = Fin (len pre).
Proof.
  intros H.
  destruct (ProgressFacts.decodeValue_first_byte data options fuel s v s' H)
    as (ib & s1 & Hu & _).
  unfold uint8, uint, constant, view_get, bind in Hu.
  destruct (offset s) as [o|] eqn:Ho; [|discriminate Hu].
  destruct ((0 <=? o) && (o + 1 <=? len data)) eqn:E; [|discriminate Hu].
  apply andb_prop in E. destruct E as [E1 E2].
  apply Z.leb_le in E1. apply Z.leb_le in E2.
  destruct (take_front data o ltac:(lia)) as (pre & rest & Hd & Hl).
  exists pre, rest. split; [exact Hd|]. rewrite Hl. reflexivity.
Qed.

End Sound.
End SoundFacts.

(** ** The end of the source *)

Module ExtendFacts.
Import StreamDecoder.

Section Extend.

Variable options : DecodeOptions.
Variable more : list Chunk.

Local Abbreviation ext := (ends_prematurely_only more).

Lemma ext_ret {A} (a : A) : ext (ret a).
Proof. intros s. reflexivity. Qed.

Lemma ext_throw {A} e : ext (@throw State A e).
Proof. intros s. right. reflexivity. Qed.

Lemma ext_out_of_fuel {A} : ext (@out_of_fuel State A).
Proof. intros s. reflexivity. Qed.

Lemma ext_bind {A B} (m : M State A) (f : A -> M State B) :
  ext m -> (forall a, ext (f a)) -> ext (bind m f).
Proof.
  intros Hm Hf s. unfold bind. specialize (Hm s).
  destruct (m s) as [[a s1]|e|].
  - rewrite Hm. exact (Hf a s1).
  - destruct Hm as [Hm|Hm]; [left; exact Hm|right; rewrite Hm; reflexivity].
  - rewrite Hm. reflexivity.
Qed.

Lemma ext_modify (f : State -> State) :
  (forall s, f (more_chunks more s) = more_chunks more (f s)) -> ext (modify f).
Proof. intros Hf s. unfold modify. rewrite Hf. reflexivity. Qed.

Lemma ext_get_env : ext get_env.
Proof. intros s. reflexivity. Qed.

Lemma ext_memoized body value : ext body -> ext (memoized body value).
Proof.
  intros Hb. destruct value; simpl.
  - apply ext_ret.
  - apply ext_bind; [exact Hb|]. intros v. apply ext_ret.
Qed.

Lemma ext_run_hook body h : ext body -> forall value, ext (run_hook body h value).
Proof.
  intros Hb. induction h as [val | k IH | ]; intros value; simpl.
  - apply ext_ret.
  - apply ext_bind; [apply ext_memoized; exact Hb|].
    intros [v value']. apply IH.
  - apply ext_throw.
Qed.

Lemma ext_call_hook body h : ext body -> ext (call_hook body h).
Proof.
  intros Hb. destruct h; simpl; [apply ext_run_hook; exact Hb | apply ext_ret].
Qed.

Lemma ext_new_Array length : ext (new_Array length).
Proof.
  unfold new_Array. destruct length as [n|];
    [destruct (n <? 2 ^ 32); [apply ext_ret | apply ext_throw] | apply ext_throw].
Qed.

(** [allocate] pulls the same chunks from the longer source, when the shorter
    one has them. *)
Lemma allocate_loop_more size source : forall chunks byteLength,
  match allocate_loop size source chunks byteLength with
  | Ok (source', chunks', byteLength') =>
    allocate_loop size (source ++ more) chunks byteLength
    = Ok (source' ++ more, chunks', byteLength')
  | Throw e => e = Error "stream ended prematurely"
  | OutOfFuel => False
  end.
Proof.
  induction source as [|value source IH]; intros chunks byteLength.
  - simpl allocate_loop at 1.
    destruct (lt_jsnum byteLength size) eqn:E; [reflexivity|].
    simpl app. destruct more; simpl; rewrite E; reflexivity.
  - simpl. destruct (lt_jsnum byteLength size); [apply IH|reflexivity].
Qed.

Lemma ext_allocate size : ext (allocate size).
Proof.
  intros s. unfold allocate. simpl.
  pose proof (allocate_loop_more size (iter s) (chunks s) (byteLength s)) as H.
  destruct (allocate_loop size (iter s) (chunks s) (byteLength s))
    as [[[source' chunks'] byteLength']|e|].
  - rewrite H. reflexivity.
  - left. exact H.
  - contradiction.
Qed.

(** [advance] does not look at the source. *)
Lemma ext_advance length : ext (advance length).
Proof.
  intros s. unfold advance. simpl.
  destruct length as [n|]; [|right; reflexivity].
  destruct (byteLength s <? n); [right; reflexivity|].
  destruct (advance_loop n (chunks s) 0 0 [] (offset s) (byteLength s))
    as [[[[deleteCount target] offset'] byteLength']|e|];
    [reflexivity | right; reflexivity | reflexivity].
Qed.

Ltac ext_step :=
  match goal with
  | |- ends_prematurely_only _ (allocate _) => apply ext_allocate
  | |- ends_prematurely_only _ (advance _) => apply ext_advance
  | |- ends_prematurely_only _ (modify (set_isKey _)) =>
    apply ext_modify; intros; reflexivity
  | |- ends_prematurely_only _ (pushKey _) => apply ext_modify; intros; reflexivity
  | |- ends_prematurely_only _ popKey => apply ext_modify; intros; reflexivity
  | |- ends_prematurely_only _ get_env => apply ext_get_env
  | |- ends_prematurely_only _ (bind _ _) => apply ext_bind; [ | intros]
  | |- ends_prematurely_only _ (ret _) => apply ext_ret
  | |- ends_prematurely_only _ (throw _) => apply ext_throw
  | |- ends_prematurely_only _ out_of_fuel => apply ext_out_of_fuel
  | |- ends_prematurely_only _ (new_Array _) => apply ext_new_Array
  | |- ends_prematurely_only _ (memoized _ _) => apply ext_memoized
  | |- ends_prematurely_only _ (call_hook _ _) => apply ext_call_hook
  | |- ends_prematurely_only _ (if ?b then _ else _) => destruct b
  | |- ends_prematurely_only _ (match ?x with _ => _ end) => destruct x
  end.

Lemma ext_uint size : ext (uint size).
Proof. unfold uint, fill. repeat ext_step. Qed.

Lemma ext_getArgument ai : ext (getArgument ai).
Proof.
  unfold getArgument, uint8, uint16, uint32, uint64.
  repeat first [apply ext_uint | ext_step].
Qed.

Lemma ext_skipBytes n : ext (skipBytes n).
Proof. unfold skipBytes. repeat ext_step. Qed.

Lemma ext_decodeBytes n : ext (decodeBytes n).
Proof. unfold decodeBytes, fill. repeat ext_step. Qed.

Lemma ext_decodeString n : ext (decodeString options n).
Proof. unfold decodeString, fill. repeat ext_step. Qed.

Ltac ext_leaf :=
  first [ apply ext_uint | apply ext_getArgument | apply ext_skipBytes
        | apply ext_decodeBytes | apply ext_decodeString ].

Lemma ext_skipValue fuel :
  ext (skipValue options fuel) /\
  (forall i n, ext (skipValues options fuel i n)).
Proof.
  induction fuel as [|fuel [IHv IHs]].
  - split; [apply ext_out_of_fuel|].
    intros i n. simpl. destruct (lt_jsnum i n); repeat ext_step.
  - split.
    + with_strategy opaque [Z.sub Z.pow Z.add Z.mul getArgument skipBytes skipValues]
        simpl.
      unfold uint8. repeat first [ext_leaf | apply IHs | ext_step].
    + intros i n. with_strategy opaque [Z.sub Z.pow Z.add Z.mul skipValue] simpl.
      destruct (lt_jsnum i n); repeat first [apply IHv | apply IHs | ext_step].
Qed.

Lemma ext_decodeValue fuel :
  ext (decodeValue options fuel) /\
  (forall i n value, ext (decodeItems options fuel i n value)) /\
  (forall i n value, ext (decodeEntries options fuel i n value)).
Proof.
  induction fuel as [|fuel (IHv & IHi & IHe)].
  - split; [apply ext_out_of_fuel|].
    split; intros i n value; simpl; destruct (lt_jsnum i n); repeat ext_step.
  - pose proof (ext_skipValue fuel) as [_ Hskip].
    split; [|split].
    + with_strategy opaque [Z.sub Z.pow Z.add Z.mul getArgument skipBytes skipValues
                            decodeItems decodeEntries decodeBytes decodeString] simpl.
      unfold float16, float32, float64, uint8, scalar.
      repeat first [ext_leaf | apply Hskip | apply IHi | apply IHe | ext_step].
    + intros i n value.
      with_strategy opaque [Z.sub Z.pow Z.add Z.mul decodeValue] simpl.
      destruct (lt_jsnum i n);
        repeat first [apply IHv | apply IHi | ext_step].
    + intros i n value.
      with_strategy opaque [Z.sub Z.pow Z.add Z.mul decodeValue] simpl.
      destruct (lt_jsnum i n);
        repeat first [apply IHv | apply IHe | ext_step].
Qed.

End Extend.
End ExtendFacts.

(** ** A stream that ends inside an item *)

Module TruncatedFacts.

Lemma skipn_pre {A} (pre rest : list A) : skipn (Z.to_nat (len pre)) (pre ++ rest) = rest.
Proof.
  unfold len. rewrite Nat2Z.id, skipn_app, skipn_all, Nat.sub_diag. reflexivity.
Qed.

Lemma pending_more more s :
  pending (more_chunks more s) = pending s ++ List.concat more.
Proof.
  unfold pending, unread. simpl. rewrite concat_app, app_assoc. reflexivity.
Qed.

Lemma rope_ok_more more s : rope_ok s -> rope_ok (more_chunks more s).
Proof. intros H. exact H. Qed.

Section Truncated.

Variable options : DecodeOptions.
Hypothesis no_onValue : onValue options = None.
Hypothesis no_onKey : onKey options = None.

Local Abbreviation premature := (Error "stream ended prematurely").

(** The first part [p] of an item, alone in the rope and the source. *)
Lemma cut_item N v p q :
  decodes_at (p ++ q) options N v (p ++ q) -> q <> [] ->
  forall fuel, (N <= fuel)%nat ->
  forall s, rope_ok s -> pending s = p -> StreamDecoder.isKey s = false ->
    StreamDecoder.decodeValue options fuel s = Throw premature.
Proof.
  intros Hdec Hq fuel Hf s Hok Hp Hkey.
  set (s1 := {| Decoder.offset := Fin 0; Decoder.isKey := false;
                Decoder.keyPath := StreamDecoder.keyPath s |}).
  pose proof (Hdec fuel Hf [] [] s1 ltac:(rewrite app_nil_r; reflexivity) eq_refl
                ltac:(discriminate)) as Hrun.
  assert (Hrel : rope_rel (p ++ q) s1 (more_chunks [q] s)).
  { exists 0. split; [reflexivity|]. split; [lia|].
    split; [rewrite pending_more, Hp; simpl; rewrite app_nil_r; reflexivity|].
    split; [exact Hok|]. split; [simpl; rewrite Hkey; reflexivity | reflexivity]. }
  destruct (StreamFacts.simS_decodeValue (p ++ q) options fuel) as [Hsim _].
  destruct (Hsim _ _ _ Hrun) as [_ Hs].
  destruct (Hs ltac:(unfold within; simpl; lia) _ Hrel) as (t & Efull & Hrel').
  destruct Hrel' as (o & Ho & _ & Hpend & _).
  cbn [Decoder.offset Decoder.set_offset] in Ho. injection Ho as <-.
  rewrite skipn_all2 in Hpend by (unfold len; simpl List.length; lia).
  destruct (ExtendFacts.ext_decodeValue options [q] fuel) as [Hext _].
  specialize (Hext s).
  destruct (StreamDecoder.decodeValue options fuel s) as [[v' s']|e|].
  - exfalso. rewrite Hext in Efull. injection Efull as _ <-.
    rewrite pending_more in Hpend. apply app_eq_nil in Hpend.
    destruct Hpend as [_ Hnil]. simpl in Hnil. rewrite app_nil_r in Hnil.
    exact (Hq Hnil).
  - destruct Hext as [-> | Hext]; [reflexivity|].
    rewrite Hext in Efull. discriminate Efull.
  - rewrite Hext in Efull. discriminate Efull.
Qed.

Lemma iterate_step fuel n s :
  StreamDecoder.iterate options fuel (S n) s
  = match StreamDecoder.next options fuel s with
    | Ok (None, s') => ([], StreamDecoder.Completed, s')
    | Ok (Some v, s') =>
      let '(vs, out, s'') := StreamDecoder.iterate options fuel n s' in
      (v :: vs, out, s'')
    | Throw e => ([], StreamDecoder.Failed e, s)
    | OutOfFuel => ([], StreamDecoder.Exhausted, s)
    end.
Proof. reflexivity. Qed.

(** [next] at the first part of an item. *)
Lemma next_cut N v p q :
  decodes_at (p ++ q) options N v (p ++ q) -> q <> [] -> p <> [] ->
  forall fuel, (N <= fuel)%nat ->
  forall s, rope_ok s -> pending s = p -> StreamDecoder.isKey s = false ->
    StreamDecoder.next options fuel s = Throw premature.
Proof.
  intros Hdec Hq Hp fuel Hf s Hok Hpend Hkey. unfold StreamDecoder.next.
  destruct (Z.eqb_spec (StreamDecoder.byteLength s) 0) as [Hz|Hnz].
  - set (s1 := {| Decoder.offset := Fin 0; Decoder.isKey := false;
                  Decoder.keyPath := StreamDecoder.keyPath s |}).
    assert (Hrel : rope_rel p s1 s).
    { exists 0. split; [reflexivity|]. split; [lia|]. split; [exact Hpend|].
      split; [exact Hok|]. split; [simpl; rewrite Hkey; reflexivity | reflexivity]. }
    assert (Hne : List.concat (StreamDecoder.iter s) <> []).
    { intros Hnil. destruct Hok as [_ Hbl]. rewrite Hz in Hbl.
      unfold pending in Hpend. rewrite Hnil, app_nil_r in Hpend.
      rewrite Hpend in Hbl. destruct p; [exact (Hp eq_refl)|].
      rewrite len_cons in Hbl. pose proof (len_nonneg p). lia. }
    destruct (IterateFacts.next_loop_Some _ Hne) as (value & source' & En & Hsrc).
    rewrite En.
    destruct (IterateFacts.rope_rel_push p s1 s value source' Hrel Hz Hsrc)
      as (o & Ho & _ & Hpend' & Hok' & Hk' & _).
    simpl in Ho. injection Ho as <-.
    match goal with
    | |- context [StreamDecoder.decodeValue options fuel ?st] =>
      rewrite (cut_item N v p q Hdec Hq fuel Hf st Hok' Hpend' Hkey)
    end.
    reflexivity.
  - rewrite (cut_item N v p q Hdec Hq fuel Hf s Hok Hpend Hkey). reflexivity.
Qed.

(** The iteration over items followed by the first part of an item. *)
Lemma iterate_cut data N Nc v p q vs items :
  decodes_at (p ++ q) options Nc v (p ++ q) -> q <> [] -> p <> [] ->
  Forall2 (decodes_at data options N) vs items ->
  forall fuel, (N <= fuel)%nat -> (Nc <= fuel)%nat ->
  forall n pre s1 s2,
    (List.length vs < n)%nat ->
    data = pre ++ List.concat items ++ p ->
    rope_rel data s1 s2 -> Decoder.offset s1 = Fin (len pre) ->
    Decoder.isKey s1 = false ->
    exists t, StreamDecoder.iterate options fuel n s2
              = (vs, StreamDecoder.Failed premature, t).
Proof.
  intros Hcut Hq Hp Hall.
  induction Hall as [|v0 item vs items Hv0 Hall IH];
    intros fuel HN HNc n pre s1 s2 Hn Hd Hrel Ho Hkey.
  - destruct n as [|n]; [simpl in Hn; lia|]. rewrite iterate_step.
    destruct Hrel as (o & Ho' & Hpos & Hpend & Hok & Hk & Hkp).
    rewrite Ho in Ho'. injection Ho' as <-.
    simpl in Hd. rewrite Hd, skipn_pre in Hpend.
    rewrite (next_cut Nc v p q Hcut Hq Hp fuel HNc s2 Hok Hpend
               ltac:(rewrite <- Hk; exact Hkey)).
    eexists. reflexivity.
  - destruct n as [|n]; [simpl in Hn; lia|]. rewrite iterate_step.
    simpl in Hd. rewrite <- app_assoc in Hd.
    pose proof (Hv0 fuel HN pre (List.concat items ++ p) s1 Hd Ho
                  ltac:(rewrite Hkey; discriminate)) as Hrun.
    destruct (StreamFacts.simS_decodeValue data options fuel) as [Hsim _].
    destruct (Hsim _ _ _ Hrun) as [_ Hs].
    assert (Hin : within (len data)
                    (Decoder.set_offset (Fin (len pre + len item)) s1)).
    { unfold within. simpl. rewrite Hd, !len_app.
      pose proof (len_nonneg (List.concat items)). pose proof (len_nonneg p). lia. }
    assert (Hnext : exists ta,
               StreamDecoder.next options fuel s2 = Ok (Some v0, ta) /\
               rope_rel data (Decoder.set_offset (Fin (len pre + len item)) s1) ta).
    { unfold StreamDecoder.next.
      destruct (Z.eqb_spec (StreamDecoder.byteLength s2) 0) as [Hz|Hnz].
      - pose proof Hrel as (o & Ho' & Hpos & Hpend & [Hh Hbl] & Hk & Hkp).
        rewrite Ho in Ho'. injection Ho' as <-.
        assert (Hne : List.concat (StreamDecoder.iter s2) <> []).
        { intros Hnil. rewrite Hz in Hbl. unfold pending in Hpend.
          rewrite Hnil, app_nil_r in Hpend. rewrite Hpend in Hbl.
          rewrite Hd, skipn_pre, !len_app in Hbl.
          pose proof (len_nonneg item). pose proof (len_nonneg (List.concat items)).
          destruct p; [exact (Hp eq_refl)|].
          rewrite len_cons in Hbl. pose proof (len_nonneg p). lia. }
        destruct (IterateFacts.next_loop_Some _ Hne) as (value & source' & En & Hsrc).
        rewrite En.
        match goal with
        | |- context [StreamDecoder.decodeValue options fuel ?st] =>
          destruct (Hs Hin st
                      (IterateFacts.rope_rel_push data s1 s2 value source' Hrel Hz Hsrc))
            as (ta & Ea & Hrela)
        end.
        rewrite Ea. exists ta. split; [reflexivity | exact Hrela].
      - destruct (Hs Hin s2 Hrel) as (ta & Ea & Hrela).
        rewrite Ea. exists ta. split; [reflexivity | exact Hrela]. }
    destruct Hnext as (ta & En & Hrela). rewrite En.
    destruct (IH fuel HN HNc n (pre ++ item) _ ta ltac:(simpl in Hn; lia)
                ltac:(rewrite <- app_assoc; exact Hd) Hrela
                ltac:(rewrite len_app; reflexivity) Hkey) as (t & Eit).
    rewrite Eit. eexists. reflexivity.
Qed.

End Truncated.
End TruncatedFacts.

(** ** Hooks that only observe *)

Section SameRun.
Context {S : Type}.

Lemma same_refl {A} (m : M S A) : same_run m m.
Proof. intros s. reflexivity. Qed.

Lemma same_bind {A B} (m m' : M S A) (f f' : A -> M S B) :
  same_run m m' -> (forall a, same_run (f a) (f' a)) ->
  same_run (bind m f) (bind m' f').
Proof.
  intros Hm Hf s. unfold bind. rewrite (Hm s).
  destruct (m' s) as [[a s1]| |]; [apply Hf | reflexivity | reflexivity].
Qed.

(** A typed item under a silent hook: the thunk runs once, as without a
    hook. *)
Lemma typed_silent (body : M S CBORValue) (skip' : M S unit) h s :
  (forall p, h = Some p -> silent p) ->
  ('(val, value) <- call_hook body h ;;
   if negb (is_undefined val) then
     match value with
     | Some _ => ret val
     | None => skip' ;;; ret val
     end
   else '(v, _) <- memoized body value ;; ret v) s
  = match body s with
    | Ok (v, s') => Ok (v, s')
    | Throw e => Throw e
    | OutOfFuel => OutOfFuel
    end.
Proof.
  intros Hh. destruct h as [p|].
  2: { cbv [bind ret memoized call_hook is_undefined negb].
       destruct (body s) as [[v s']| |]; reflexivity. }
  specialize (Hh p eq_refl). destruct p as [val | k | ].
  - specialize (Hh VUndefined). simpl in Hh. injection Hh as ->.
    cbv [call_hook run_hook bind ret memoized is_undefined negb].
    destruct (body s) as [[v s']| |]; reflexivity.
  - unfold call_hook. unfold bind at 1. simpl run_hook. unfold bind at 1.
    unfold memoized at 1. unfold bind at 1.
    destruct (body s) as [[v s1]| |]; [|reflexivity|reflexivity].
    unfold ret at 1. rewrite run_hook_memoized.
    pose proof (Hh v) as Hv. simpl in Hv. rewrite Hv. reflexivity.
  - specialize (Hh VUndefined). discriminate Hh.
Qed.

Lemma typed_same (body body' : M S CBORValue) (skip' skip'' : M S unit) h h' :
  (forall p, h = Some p -> silent p) -> h' = None -> same_run body body' ->
  same_run
    ('(val, value) <- call_hook body h ;;
     if negb (is_undefined val) then
       match value with
       | Some _ => ret val
       | None => skip' ;;; ret val
       end
     else '(v, _) <- memoized body value ;; ret v)
    ('(val, value) <- call_hook body' h' ;;
     if negb (is_undefined val) then
       match value with
       | Some _ => ret val
       | None => skip'' ;;; ret val
       end
     else '(v, _) <- memoized body' value ;; ret v).
Proof.
  intros Hh -> Hb s.
  rewrite (typed_silent body skip' h s Hh).
  rewrite (typed_silent body' skip'' None s) by discriminate.
  rewrite (Hb s). reflexivity.
Qed.

(** A scalar under a silent hook. *)
Lemma constant_silent (x : CBORValue) h (s : S) :
  (forall p, h = Some p -> silent p) ->
  exists value, call_hook (ret x) h s = Ok ((VUndefined, value), s).
Proof.
  intros Hh. destruct h as [p|]; [|exists None; reflexivity].
  destruct (run_hook_constant x p s) as (value' & E).
  rewrite (Hh p eq_refl x) in E. exists value'. exact E.
Qed.

End SameRun.

Lemma scalar_silent {S} (x : CBORValue) (h h' : option Hook) :
  (forall p, h = Some p -> silent p) -> h' = None ->
  same_run (S := S)
    ('(val, _) <- call_hook (ret x) h ;; ret (if is_undefined val then x else val))
    ('(val, _) <- call_hook (ret x) h' ;; ret (if is_undefined val then x else val)).
Proof.
  intros Hh -> s.
  destruct (constant_silent x h s Hh) as (value & E).
  unfold bind. rewrite E. reflexivity.
Qed.

Lemma undefined_silent {S} (h h' : option Hook) :
  (forall p, h = Some p -> silent p) -> h' = None ->
  same_run (S := S)
    ('(val, _) <- call_hook (ret VUndefined) h ;; ret val)
    ('(val, _) <- call_hook (ret VUndefined) h' ;; ret val).
Proof.
  intros Hh -> s.
  destruct (constant_silent VUndefined h s Hh) as (value & E).
  unfold bind. rewrite E. reflexivity.
Qed.

Module ObserveFacts.

Section Observe.

Variable options : DecodeOptions.
Hypothesis Hobs : observes options.

Lemma on_value_silent length type keyPath p :
  option_map (fun f => f length type keyPath) (onValue options) = Some p -> silent p.
Proof.
  destruct Hobs as [Hv _]. destruct (onValue options) as [f|] eqn:E; [|discriminate].
  simpl. intros H. injection H as <-. exact (Hv f length type keyPath eq_refl).
Qed.

Lemma on_key_silent length p :
  option_map (fun f => f length) (onKey options) = Some p -> silent p.
Proof.
  destruct Hobs as [_ Hk]. destruct (onKey options) as [f|] eqn:E; [|discriminate].
  simpl. intros H. injection H as <-. exact (Hk f length eq_refl).
Qed.

Ltac silent_hook :=
  first [ exact (on_value_silent _ _ _) | exact (on_key_silent _) ].

Ltac obs_step :=
  match goal with
  | |- same_run (bind (call_hook _ (if ?b then _ else _)) _) _ => destruct b
  | |- same_run (bind (call_hook (ret VUndefined) _) _) _ =>
    apply undefined_silent; [silent_hook | reflexivity]
  | |- same_run (bind (call_hook (ret _) _) _) _ =>
    apply scalar_silent; [silent_hook | reflexivity]
  | |- same_run (bind (call_hook _ _) _) _ =>
    apply typed_same; [silent_hook | reflexivity | ]
  | |- same_run (bind _ _) (bind _ _) => apply same_bind; [ | intros]
  | |- same_run (if ?b then _ else _) _ => destruct b
  | |- same_run (match ?x with _ => _ end) _ => destruct x
  | |- same_run _ _ => apply same_refl
  end.

Section InMemory.

Variable data : list byte.

Lemma silent_decodeValue fuel :
  same_run (Decoder.decodeValue data options fuel)
           (Decoder.decodeValue data (without_hooks options) fuel) /\
  (forall i n value,
     same_run (Decoder.decodeItems data options fuel i n value)
              (Decoder.decodeItems data (without_hooks options) fuel i n value)) /\
  (forall i n value,
     same_run (Decoder.decodeEntries data options fuel i n value)
              (Decoder.decodeEntries data (without_hooks options) fuel i n value)).
Proof.
  induction fuel as [|fuel (IHv & IHi & IHe)].
  - split; [apply same_refl|].
    split; intros i n value; simpl; destruct (lt_jsnum i n); apply same_refl.
  - split; [|split].
    + with_strategy opaque [Z.sub Z.pow Z.add Z.mul Decoder.getArgument
                            Decoder.skipValues Decoder.decodeItems
                            Decoder.decodeEntries Decoder.decodeBytes
                            Decoder.decodeString call_hook memoized Decoder.uint8
                            Decoder.float16 Decoder.float32 Decoder.float64] simpl.
      unfold Decoder.scalar, Decoder.on_value, Decoder.on_key.
      repeat first [apply IHi | apply IHe | obs_step].
    + intros i n value.
      with_strategy opaque [Z.sub Z.pow Z.add Z.mul Decoder.decodeValue] simpl.
      destruct (lt_jsnum i n); repeat first [apply IHv | apply IHi | obs_step].
    + intros i n value.
      with_strategy opaque [Z.sub Z.pow Z.add Z.mul Decoder.decodeValue] simpl.
      destruct (lt_jsnum i n); repeat first [apply IHv | apply IHe | obs_step].
Qed.

End InMemory.

Lemma silent_stream_decodeValue fuel :
  same_run (StreamDecoder.decodeValue options fuel)
           (StreamDecoder.decodeValue (without_hooks options) fuel) /\
  (forall i n value,
     same_run (StreamDecoder.decodeItems options fuel i n value)
              (StreamDecoder.decodeItems (without_hooks options) fuel i n value)) /\
  (forall i n value,
     same_run (StreamDecoder.decodeEntries options fuel i n value)
              (StreamDecoder.decodeEntries (without_hooks options) fuel i n value)).
Proof.
  induction fuel as [|fuel (IHv & IHi & IHe)].
  - split; [apply same_refl|].
    split; intros i n value; simpl; destruct (lt_jsnum i n); apply same_refl.
  - split; [|split].
    + with_strategy opaque [Z.sub Z.pow Z.add Z.mul StreamDecoder.getArgument
                            StreamDecoder.skipValues StreamDecoder.decodeItems
                            StreamDecoder.decodeEntries StreamDecoder.decodeBytes
                            StreamDecoder.decodeString call_hook memoized
                            StreamDecoder.uint8 StreamDecoder.float16
                            StreamDecoder.float32 StreamDecoder.float64] simpl.
      unfold StreamDecoder.scalar, StreamDecoder.on_value, StreamDecoder.on_key.
      repeat first [apply IHi | apply IHe | obs_step].
    + intros i n value.
      with_strategy opaque [Z.sub Z.pow Z.add Z.mul StreamDecoder.decodeValue] simpl.
      destruct (lt_jsnum i n); repeat first [apply IHv | apply IHi | obs_step].
    + intros i n value.
      with_strategy opaque [Z.sub Z.pow Z.add Z.mul StreamDecoder.decodeValue] simpl.
      destruct (lt_jsnum i n); repeat first [apply IHv | apply IHe | obs_step].
Qed.

End Observe.
End ObserveFacts.

(** * The claims *)



(** C7 (fails on the code): on the string of two lead surrogates
    [getByteLength] returns 3, while the UTF-8 length under the surrogate
    convention is 6: the lead at the end of the string is not counted when the
    code unit before it is a lead too. *)
Theorem getByteLength_two_leads :
  Utils.getByteLength [0xd800; 0xd800] = Ok 3 /\
  Utils.utf8_length_spec [0xd800; 0xd800] = 6.
Proof. split; reflexivity. Qed.

(** C1 (fails on the code): the streaming decoder returns a value for a map
    with the key ["a"] twice, the later entry overwriting the earlier one; the
    in-memory decoder rejects the same bytes. *)
Theorem streaming_accepts_duplicate_key :
  let bytes := [xa2; x61; x61; x01; x61; x61; x02] in
  fst (StreamDecoder.decodeIterable default_options 10 10 [bytes])
    = ([VObject [(str "a", VInteger 2)]], StreamDecoder.Completed) /\
  Decoder.decode bytes default_options 10 = Throw (Error "duplicate object key").
Proof. split; vm_compute; reflexivity. Qed.

(** C4 (fails on the code): the in-memory decoder returns a value for a byte
    string whose header announces two bytes when only one follows: the missing
    byte is read as zero.  The streaming decoder raises on the same input. *)
Theorem decode_truncated_payload :
  Decoder.decode [x42; x01] default_options 10 = Ok (VUint8Array [x01; x00]) /\
  fst (StreamDecoder.decodeIterable default_options 10 10 [[x42; x01]])
    = ([], StreamDecoder.Failed (Error "stream ended prematurely")).
Proof. split; vm_compute; reflexivity. Qed.

(** C6 (fails on the code): an empty chunk received while no byte is pending
    is dropped by [next] and never reported to [onFree]: after the iteration
    completed, only the second chunk was freed. *)
Theorem empty_chunk_never_freed :
  let '(values, outcome, s) :=
    StreamDecoder.decodeIterable default_options 10 10 [[]; [x00]] in
  values = [VInteger 0] /\ outcome = StreamDecoder.Completed /\
  StreamDecoder.freed s = [[x00]].
Proof. vm_compute. repeat split. Qed.

(** C5: an integer item with an 8-byte argument [u].  Major type 0 raises
    [UnsafeIntegerError] carrying [u] when [u > 2^53-1]; major type 1 raises
    it carrying [-1 - u] when [-1 - u < -(2^53-1)]; inside the safe range the
    item decodes to the exact integer [u], respectively [-1 - u] (handed to
    the [onValue] hook, if there is one, as a scalar of size 8). *)
Theorem unsafe_integer_8byte data options fuel s pre bs rest :
  List.length bs = 8%nat ->
  Decoder.offset s = Fin (len pre) ->
  let u := be_value bs in
  let after := Decoder.set_offset (Fin (len pre + 9)) s in
  (data = pre ++ x1b :: bs ++ rest ->
   (Utils.maxSafeInteger < u ->
    Decoder.decodeValue data options (S fuel) s
    = Throw (UnsafeIntegerError "cannot decode integers greater than 2^53-1" u)) /\
   (u <= Utils.maxSafeInteger ->
    Decoder.decodeValue data options (S fuel) s
    = Decoder.scalar options (VInteger u) 8 "number" (Decoder.keyPath s) after)) /\
  (data = pre ++ x3b :: bs ++ rest ->
   (-1 - u < Utils.minSafeInteger ->
    Decoder.decodeValue data options (S fuel) s
    = Throw (UnsafeIntegerError "cannot decode integers less than -2^53+1" (-1 - u))) /\
   (Utils.minSafeInteger <= -1 - u ->
    Decoder.decodeValue data options (S fuel) s
    = Decoder.scalar options (VInteger (-1 - u)) 8 "number" (Decoder.keyPath s) after)).
Proof.
  intros Hl Ho u after.
  assert (Harg : forall b, data = pre ++ b :: bs ++ rest ->
            Decoder.getArgument data 27 (Decoder.set_offset (Fin (len pre + 1)) s)
            = Ok ({| arg_value := if Utils.maxSafeInteger <? u then Infinity else Fin u;
                     arg_uint64 := Some u; arg_size := 8 |}, after)).
  { intros b Hd.
    rewrite (ReadFacts.getArgument_uint64_at data (pre ++ [b]) bs rest
               (Decoder.set_offset (Fin (len pre + 1)) s)).
    - rewrite len_app. change (len [b]) with 1.
      replace (len pre + 1 + 8) with (len pre + 9) by lia. reflexivity.
    - rewrite <- app_assoc. exact Hd.
    - exact Hl.
    - rewrite len_app. reflexivity. }
  split; intros Hd; specialize (Harg _ Hd).
  - assert (Hstep : Decoder.decodeValue data options (S fuel) s
      = match Utils.maxSafeInteger <? u with
        | true => Throw (UnsafeIntegerError "cannot decode integers greater than 2^53-1" u)
        | false => Decoder.scalar options
                     (number_of (if Utils.maxSafeInteger <? u then Infinity else Fin u))
                     8 "number" (Decoder.keyPath s) after
        end).
    { with_strategy opaque [Z.sub Z.pow Z.add Z.mul] simpl.
      rewrite (bind_Ok_intro _ _ _ _ _
                 (ReadFacts.uint8_at data pre x1b (bs ++ rest) s Hd Ho)).
      unfold Decoder.get_env at 1. unfold bind at 1. cbn [fst snd].
      change (b2z x1b) with 27. change (Z.shiftr 27 5 =? 0) with true. cbv iota.
      change (Z.land 27 31) with 27.
      rewrite (bind_Ok_intro _ _ _ _ _ Harg). cbn [arg_uint64 arg_value arg_size].
      destruct (Utils.maxSafeInteger <? u); reflexivity. }
    rewrite Hstep. split; intros Hu.
    + apply Z.ltb_lt in Hu. rewrite Hu. reflexivity.
    + apply Z.ltb_ge in Hu. rewrite Hu. reflexivity.
  - assert (Hmax : (-1 - u <? Utils.minSafeInteger) = false ->
                   (Utils.maxSafeInteger <? u) = false).
    { intros H. apply Z.ltb_ge in H. apply Z.ltb_ge.
      unfold Utils.minSafeInteger, Utils.maxSafeInteger in *. lia. }
    assert (Hstep : Decoder.decodeValue data options (S fuel) s
      = match -1 - u <? Utils.minSafeInteger with
        | true => Throw (UnsafeIntegerError "cannot decode integers less than -2^53+1" (-1 - u))
        | false => Decoder.scalar options
                     (negative_of (if Utils.maxSafeInteger <? u then Infinity else Fin u))
                     8 "number" (Decoder.keyPath s) after
        end).
    { with_strategy opaque [Z.sub Z.pow Z.add Z.mul] simpl.
      rewrite (bind_Ok_intro _ _ _ _ _
                 (ReadFacts.uint8_at data pre x3b (bs ++ rest) s Hd Ho)).
      unfold Decoder.get_env at 1. unfold bind at 1. cbn [fst snd].
      change (b2z x3b) with 59. change (Z.shiftr 59 5) with 1.
      change (1 =? 0) with false. change (1 =? 1) with true. cbv iota.
      change (Z.land 59 31) with 27.
      rewrite (bind_Ok_intro _ _ _ _ _ Harg). cbn [arg_uint64 arg_value arg_size].
      destruct (-1 - u <? Utils.minSafeInteger); reflexivity. }
    rewrite Hstep. split; intros Hu.
    + apply Z.ltb_lt in Hu. rewrite Hu. reflexivity.
    + apply Z.ltb_ge in Hu. rewrite Hu. rewrite (Hmax Hu). reflexivity.
Qed.

(** 2^53 + 1 at the front of the array, and -2^53 + 1 (argument 2^53 - 2). *)
Lemma unsafe_integer_8byte_witness :
  Decoder.decodeValue [x1b; x00; x20; x00; x00; x00; x00; x00; x01]
    default_options 1 Decoder.init
  = Throw (UnsafeIntegerError "cannot decode integers greater than 2^53-1"
             9007199254740993) /\
  Decoder.decodeValue [x3b; x00; x1f; xff; xff; xff; xff; xff; xfe]
    default_options 1 Decoder.init
  = Ok (VInteger (-9007199254740991),
        Decoder.set_offset (Fin 9) Decoder.init).
Proof.
  split.
  - apply (proj1 (proj1 (unsafe_integer_8byte
             [x1b; x00; x20; x00; x00; x00; x00; x00; x01] default_options 0
             Decoder.init [] [x00; x20; x00; x00; x00; x00; x00; x01] []
             eq_refl eq_refl) eq_refl)).
    vm_compute. reflexivity.
  - rewrite (proj2 (proj2 (unsafe_integer_8byte
             [x3b; x00; x1f; xff; xff; xff; xff; xff; xfe] default_options 0
             Decoder.init [] [x00; x1f; xff; xff; xff; xff; xff; xfe] []
             eq_refl eq_refl) eq_refl)).
    + vm_compute. reflexivity.
    + vm_compute. discriminate.
Defined.

(** C9: [decode] decodes one value from the front of the array and returns
    it; the bytes after the first complete item are not inspected and cause
    no error: whatever follows an array [item], whose decoding returns [v]
    without reading past its end, [decode] returns the same [v] (and the
    decoder stops at the same offset). *)
Theorem decode_ignores_trailing item trailing options fuel v s' n :
  Decoder.decodeValue item options fuel Decoder.init = Ok (v, s') ->
  Decoder.offset s' = Fin n -> n <= len item ->
  Decoder.decode (item ++ trailing) options fuel = Ok v /\
  Decoder.decodeValue (item ++ trailing) options fuel Decoder.init = Ok (v, s').
Proof.
  intros Hrun Ho Hn.
  destruct (TrailingFacts.simT_decodeValue item trailing options fuel) as [Hsim _].
  destruct (Hsim _ _ _ Hrun) as [_ Hs].
  assert (Hq : within (len item) s') by (unfold within; rewrite Ho; exact Hn).
  destruct (Hs Hq Decoder.init (conj eq_refl (Z.le_refl 0)))
    as (s2' & E & <- & _).
  split; [|exact E]. unfold Decoder.decode. rewrite E. reflexivity.
Qed.

(** [[1, 2]] followed by two bytes that are no item. *)
Lemma decode_ignores_trailing_witness :
  Decoder.decode ([x82; x01; x02] ++ [xff; xff]) default_options 5
  = Ok (VArray [VInteger 1; VInteger 2]).
Proof.
  apply (decode_ignores_trailing [x82; x01; x02] [xff; xff] default_options 5
           (VArray [VInteger 1; VInteger 2])
           (Decoder.set_offset (Fin 3) Decoder.init) 3).
  - vm_compute. reflexivity.
  - reflexivity.
  - vm_compute. discriminate.
Defined.

(** C2 (fails on the code): the one-entry map [{"toString": 1}] is a valid
    encoded stream; split into two chunks, the streaming decoder yields the
    map and completes, while the in-memory decoder raises on the same bytes:
    its duplicate test [key in value] also sees the property names that [{}]
    inherits. *)
Theorem chunked_differs_on_inherited_key :
  let bytes := [xa1; x68; x74; x6f; x53; x74; x72; x69; x6e; x67; x01] in
  fst (StreamDecoder.decodeIterable default_options 10 10
         [firstn 4 bytes; skipn 4 bytes])
    = ([VObject [(str "toString", VInteger 1)]], StreamDecoder.Completed) /\
  decodeAll bytes default_options 10 10 Decoder.init
    = Throw (Error "duplicate object key").
Proof. split; vm_compute; reflexivity. Qed.





(** * Further properties of the code *)



(** X2: [getByteLength] on any host string.  It never throws, and it returns
    the UTF-8 length under the surrogate convention (3 bytes for an unpaired
    surrogate, 4 for a pair) less the 3 bytes of a final lead surrogate that
    directly follows a lead surrogate. *)
Theorem getByteLength_of_any_string s :
  Forall code_unit s ->
  Utils.getByteLength s = Ok (Utils.utf8_length_spec s - lost_bytes s).
Proof. intros Hs. exact (ByteLengthFacts.getByteLength_characterised s Hs). Qed.

(** ["a"], U+00E9, U+20AC and the pair of U+1F600: 1 + 2 + 3 + 4 bytes. *)
Lemma getByteLength_of_any_string_witness :
  Utils.getByteLength [0x61; 0xe9; 0x20ac; 0xd83d; 0xde00] = Ok 10.
Proof.
  apply (getByteLength_of_any_string [0x61; 0xe9; 0x20ac; 0xd83d; 0xde00]).
  repeat constructor; unfold code_unit; lia.
Defined.

(** X3: every item costs at least a byte.  A call of the in-memory
    [decodeValue] that returns, whatever the hooks do, started at an offset
    inside the array and leaves the offset at least one byte further; started
    at or past the end of the array (the empty array included) it throws the
    [RangeError] of the [DataView]. *)
Theorem decodeValue_consumes_a_byte data options fuel s :
  (forall v s', Decoder.decodeValue data options fuel s = Ok (v, s') ->
     exists o, Decoder.offset s = Fin o /\ 0 <= o < len data /\
               jsnum_le (Fin (o + 1)) (Decoder.offset s')) /\
  (forall o, Decoder.offset s = Fin o -> len data <= o ->
     Decoder.decodeValue data options (S fuel) s = Throw RangeError).
Proof.
  split.
  - intros v s' H.
    destruct (ProgressFacts.decodeValue_first_byte data options fuel s v s' H)
      as (ib & s1 & Hu & Hle).
    apply StreamFacts.uint_inv in Hu.
    destruct Hu as (o & Ho & H0 & H1 & _ & ->).
    exists o. split; [exact Ho|]. split; [lia|]. exact Hle.
  - intros o Ho Hlen.
    with_strategy opaque [Z.sub Z.pow Z.add Z.mul] simpl.
    unfold bind at 1.
    replace (Decoder.uint8 data s) with (@Throw (Z * Decoder.State) RangeError);
      [reflexivity|].
    unfold Decoder.uint8, Decoder.uint, Decoder.constant, Decoder.view_get, bind.
    rewrite Ho.
    replace (o + 1 <=? len data) with false by (symmetry; apply Z.leb_gt; lia).
    rewrite andb_false_r. reflexivity.
Qed.

(** The array [[1, 2]] decoded at offset 0 of three bytes, and a decoder at the
    end of the empty array. *)
Lemma decodeValue_consumes_a_byte_witness :
  (exists o, Fin 0 = Fin o /\ 0 <= o < 3 /\ jsnum_le (Fin (o + 1)) (Fin 3)) /\
  Decoder.decodeValue [] default_options 1 Decoder.init = Throw RangeError.
Proof.
  split.
  - apply (proj1 (decodeValue_consumes_a_byte [x82; x01; x02] default_options 5
                    Decoder.init)
                 (VArray [VInteger 1; VInteger 2])
                 (Decoder.set_offset (Fin 3) Decoder.init)).
    vm_compute. reflexivity.
  - apply (proj2 (decodeValue_consumes_a_byte [] default_options 0 Decoder.init) 0).
    + reflexivity.
    + vm_compute. discriminate.
Defined.



(** X5: the skip routine of the in-memory decoder reads nothing of the
    decoder's state but the offset and writes nothing but the offset (the key
    path and the key flag play no part), and of the options it consults
    [allowUndefined] only: no hook is called and [minFloatSize] is not
    checked. *)
Theorem skipValue_reads_the_offset_only data options options' g s :
  allowUndefined options' = allowUndefined options ->
  offset_only (Decoder.skipValue data options g) /\
  Decoder.skipValue data options' g s = Decoder.skipValue data options g s.
Proof.
  intros Hu. split.
  - exact (proj1 (SkipFacts.offset_only_skipValue data options g)).
  - exact (proj1 (SkipFacts.skip_ignores_hooks data options options' g Hu) s).
Qed.

(** A float16 item skipped under hooks that replace everything and under a
    [minFloatSize] of 64. *)
Lemma skipValue_reads_the_offset_only_witness :
  offset_only (Decoder.skipValue [xf9; x3c; x00] default_options 2) /\
  Decoder.skipValue [xf9; x3c; x00]
    {| allowUndefined := true; minFloatSize := 64;
       onKey := Some (fun _ => Return VNull);
       onValue := Some (fun _ _ _ => Return VNull);
       decoder := ascii_decoder |} 2 Decoder.init
  = Decoder.skipValue [xf9; x3c; x00] default_options 2 Decoder.init.
Proof.
  apply (skipValue_reads_the_offset_only [xf9; x3c; x00] default_options
           {| allowUndefined := true; minFloatSize := 64;
              onKey := Some (fun _ => Return VNull);
              onValue := Some (fun _ _ _ => Return VNull);
              decoder := ascii_decoder |} 2 Decoder.init).
  reflexivity.
Defined.

(** X6: what [onFree] is told.  Across any call of the streaming
    [decodeValue] that returns, the chunks reported to [onFree], followed by
    the chunks in the rope, followed by the chunks still in the source, are
    the same sequence as before the call, and the reported ones are only
    added to: chunks are reported in the order they were received, none
    twice, and none is lost or reordered. *)
Theorem decodeValue_keeps_the_chunks options fuel s v s' :
  StreamDecoder.decodeValue options fuel s = Ok (v, s') -> chunks_kept s s'.
Proof. intros H. exact (ChunkFacts.chunks_kept_decodeValue options fuel s v s' H). Qed.

(** The byte string [h'0102'] over three chunks, the last one with a byte to
    spare: the first two chunks are reported, the third stays in the rope. *)
Lemma decodeValue_keeps_the_chunks_witness :
  chunks_kept (StreamDecoder.init [[x42]; [x01]; [x02; x00]])
    {| StreamDecoder.offset := 1; StreamDecoder.byteLength := 1;
       StreamDecoder.chunks := [[x02; x00]]; StreamDecoder.iter := [];
       StreamDecoder.freed := [[x42]; [x01]];
       StreamDecoder.isKey := false; StreamDecoder.keyPath := [] |}.
Proof.
  apply (decodeValue_keeps_the_chunks default_options 3
           (StreamDecoder.init [[x42]; [x01]; [x02; x00]])
           (VUint8Array [x01; x02])).
  vm_compute. reflexivity.
Defined.

(** X7: when the iteration over a streaming decoder completes, every chunk of
    the source that holds at least one byte has been reported to [onFree],
    once and in the order of the source (empty chunks may or may not be
    reported). *)
Theorem completed_iteration_frees_the_chunks options fuel n source :
  forall vs s',
    StreamDecoder.decodeIterable options fuel n source
    = (vs, StreamDecoder.Completed, s') ->
    nonempty (StreamDecoder.freed s') = nonempty source.
Proof.
  intros vs s' H.
  pose proof (IterationFacts.iterate_chunks options fuel n
                (StreamDecoder.init source) (IterationFacts.rope_ok_init source)) as Hi.
  unfold StreamDecoder.decodeIterable in H. rewrite H in Hi.
  rewrite Hi. unfold all_chunks. simpl. reflexivity.
Qed.

(** Two values over three chunks with an empty one in front. *)
Lemma completed_iteration_frees_the_chunks_witness :
  nonempty [[x01; x82]; [x01; x02]] = nonempty [[]; [x01; x82]; [x01; x02]].
Proof.
  apply (completed_iteration_frees_the_chunks default_options 5 3
           [[]; [x01; x82]; [x01; x02]]
           [VInteger 1; VArray [VInteger 1; VInteger 2]]
           {| StreamDecoder.offset := 0; StreamDecoder.byteLength := 0;
              StreamDecoder.chunks := []; StreamDecoder.iter := [];
              StreamDecoder.freed := [[x01; x82]; [x01; x02]];
              StreamDecoder.isKey := false; StreamDecoder.keyPath := [] |}).
  vm_compute. reflexivity.
Defined.



(** X9: [allocate(n)] on a consistent rope.  When the rope and the source
    together hold at least [n] unread bytes it returns with at least [n] bytes
    in the rope, having changed nothing of the bytes still to be read nor of
    the environment; when they hold fewer it throws "stream ended
    prematurely". *)
Theorem allocate_gathers_or_ends_prematurely s n :
  rope_ok s ->
  (n <= len (pending s) ->
   exists s', StreamDecoder.allocate (Fin n) s = Ok (tt, s') /\ rope_ok s' /\
              pending s' = pending s /\ n <= StreamDecoder.byteLength s' /\
              same_env s s') /\
  (len (pending s) < n ->
   StreamDecoder.allocate (Fin n) s = Throw (Error "stream ended prematurely")).
Proof. intros Hok. exact (SafeFacts.allocate_outcome s n Hok). Qed.

(** Three bytes in two chunks: four bytes cannot be gathered. *)
Lemma allocate_gathers_or_ends_prematurely_witness :
  StreamDecoder.allocate (Fin 4) (StreamDecoder.init [[x01]; [x02; x03]])
  = Throw (Error "stream ended prematurely").
Proof.
  apply (proj2 (allocate_gathers_or_ends_prematurely
                  (StreamDecoder.init [[x01]; [x02; x03]]) 4
                  (IterationFacts.rope_ok_init _))).
  vm_compute. reflexivity.
Defined.

(** X10: the in-memory decoder is correct on every encoding.  With no hook
    set, whatever encoding of a value [v] lies at the offset (heads of any
    width, nested arrays, maps with distinct text keys that [{}] does not
    inherit, floats by their bit pattern), [decodeValue] with enough fuel
    returns exactly [v] and leaves the offset just after the encoding, the key
    path and the key flag as they were. *)
Theorem decodeValue_of_an_encoding data options v item pre post s :
  onValue options = None -> onKey options = None ->
  encoded options [v] item ->
  data = pre ++ item ++ post ->
  Decoder.offset s = Fin (len pre) -> Decoder.isKey s = false ->
  exists N, forall fuel, (N <= fuel)%nat ->
    Decoder.decodeValue data options fuel s
    = Ok (v, Decoder.set_offset (Fin (len pre + len item)) s).
Proof.
  intros Hv Hk He Hd Ho Hkey.
  exact (EncodedFacts.encoded_value_decodes data options Hv Hk v item pre post s
           He Hd Ho Hkey).
Qed.

(** [[24, {"a": -1}]] with the integer 24 in a one-byte argument, between two
    other bytes. *)
Lemma decodeValue_of_an_encoding_witness :
  exists N, forall fuel, (N <= fuel)%nat ->
    Decoder.decodeValue [xf6; x82; x18; x18; xa1; x61; x61; x20; xf5]
      default_options fuel (Decoder.set_offset (Fin 1) Decoder.init)
    = Ok (VArray [VInteger 24; VObject [(str "a", VInteger (-1))]],
          Decoder.set_offset (Fin 8) Decoder.init).
Proof.
  apply (decodeValue_of_an_encoding
           [xf6; x82; x18; x18; xa1; x61; x61; x20; xf5] default_options
           (VArray [VInteger 24; VObject [(str "a", VInteger (-1))]])
           [x82; x18; x18; xa1; x61; x61; x20] [xf6] [xf5]
           (Decoder.set_offset (Fin 1) Decoder.init)); try reflexivity.
  apply (encoded_array default_options [x82]
           [VInteger 24; VObject [(str "a", VInteger (-1))]]
           [x18; x18; xa1; x61; x61; x20] [] []).
  - change (head 4 2 [x82]).
    apply head_inline; [|reflexivity]. repeat split; try lia; reflexivity.
  - reflexivity.
  - apply (encoded_uint default_options 24 [x18; x18] _ [xa1; x61; x61; x20]).
    + apply (head_arg 0 x18 24 1 [x18]); try reflexivity.
      * repeat split; try lia; reflexivity.
      * vm_compute. discriminate.
    + apply (encoded_map default_options [xa1] [(str "a", VInteger (-1))]
               [x61; x61; x20] [] []).
      * change (head 5 1 [xa1]).
        apply head_inline; [|reflexivity]. repeat split; try lia; reflexivity.
      * reflexivity.
      * apply (encoded_text default_options [x61] [x61] _ [x20]).
        -- change (head 3 1 [x61]).
           apply head_inline; [|reflexivity]. repeat split; try lia; reflexivity.
        -- apply (encoded_nint default_options 0 [x20] [] []).
           ++ apply head_inline; [|reflexivity]. repeat split; try lia; reflexivity.
           ++ reflexivity.
           ++ apply encoded_nil.
      * apply encoded_nil.
  - apply encoded_nil.
Defined.



(** X12: what the in-memory decoder returns, it has read.  With no hook set, a
    call of [decodeValue] that returns [v] and leaves the offset inside the
    array started at an offset inside the array and has consumed, from there
    to the offset it leaves, exactly an encoding of [v]: the decoder returns
    nothing but what is encoded (the array's length is the hypothesis that
    rules out a string whose payload is cut short by the end of the array). *)
Theorem decodeValue_returns_what_is_encoded data options fuel s v s' o' :
  onValue options = None -> onKey options = None ->
  Decoder.decodeValue data options fuel s = Ok (v, s') ->
  Decoder.offset s' = Fin o' -> o' <= len data ->
  exists pre item post,
    data = pre ++ item ++ post /\ Decoder.offset s = Fin (len pre) /\
    o' = len pre + len item /\ encoded options [v] item.
Proof.
  intros Hv Hk H Ho' Hle.
  destruct (SoundFacts.started_inside data options fuel s v s' H)
    as (pre & rest & Hd & Ho).
  destruct (SoundFacts.decoded_was_encoded data options Hv Hk fuel) as (Hval & _).
  destruct (Hval s v s' H o' pre rest Ho' Hle Hd Ho) as (item & post & Hr & Eo' & He).
  exists pre, item, post. rewrite <- Hr. auto.
Qed.

(** [[24, {"a": -1}]] decoded from the second byte of nine. *)
Lemma decodeValue_returns_what_is_encoded_witness :
  exists pre item post,
    [xf6; x82; x18; x18; xa1; x61; x61; x20; xf5] = pre ++ item ++ post /\
    Fin 1 = Fin (len pre) /\ 8 = len pre + len item /\
    encoded default_options [VArray [VInteger 24; VObject [(str "a", VInteger (-1))]]]
      item.
Proof.
  apply (decodeValue_returns_what_is_encoded
           [xf6; x82; x18; x18; xa1; x61; x61; x20; xf5] default_options 6
           (Decoder.set_offset (Fin 1) Decoder.init)
           (VArray [VInteger 24; VObject [(str "a", VInteger (-1))]])
           (Decoder.set_offset (Fin 8) Decoder.init) 8).
  - reflexivity.
  - reflexivity.
  - vm_compute. reflexivity.
  - reflexivity.
  - vm_compute. discriminate.
Defined.






(** X16: [advance(n)] (and with it [fill]) on a consistent rope that holds at
    least [n] unread bytes hands over exactly the next [n] unread bytes, in
    order and across chunk borders, and leaves a consistent rope whose unread
    bytes are the rest; the source and the environment are untouched, and the
    chunks it has used up are added, in order, to those reported to
    [onFree]. *)
Theorem advance_hands_over_the_next_bytes s n :
  rope_ok s -> 0 <= n <= StreamDecoder.byteLength s ->
  exists s',
    StreamDecoder.advance (Fin n) s = Ok (firstn (Z.to_nat n) (unread s), s') /\
    rope_ok s' /\ unread s' = skipn (Z.to_nat n) (unread s) /\
    StreamDecoder.iter s' = StreamDecoder.iter s /\ same_env s s' /\
    chunks_kept s s'.
Proof.
  intros Hok Hn.
  destruct (RopeFacts.advance_ok s n Hok Hn) as (s' & E & Hok' & Hu & Hi & He).
  exists s'. split; [exact E|]. split; [exact Hok'|]. split; [exact Hu|].
  split; [exact Hi|]. split; [exact He|].
  exact (ChunkFacts.chunks_kept_advance (Fin n) _ _ _ E).
Qed.

(** Two bytes from the second byte of a rope of two chunks. *)
Lemma advance_hands_over_the_next_bytes_witness :
  exists s',
    StreamDecoder.advance (Fin 2)
      {| StreamDecoder.offset := 1; StreamDecoder.byteLength := 3;
         StreamDecoder.chunks := [[x01; x02]; [x03; x04]];
         StreamDecoder.iter := [[x05]]; StreamDecoder.freed := [];
         StreamDecoder.isKey := false; StreamDecoder.keyPath := [] |}
    = Ok ([x02; x03], s') /\
    StreamDecoder.freed s' = [[x01; x02]] /\ unread s' = [x04].
Proof.
  destruct (advance_hands_over_the_next_bytes
              {| StreamDecoder.offset := 1; StreamDecoder.byteLength := 3;
                 StreamDecoder.chunks := [[x01; x02]; [x03; x04]];
                 StreamDecoder.iter := [[x05]]; StreamDecoder.freed := [];
                 StreamDecoder.isKey := false; StreamDecoder.keyPath := [] |} 2)
    as (s' & E & _ & Hu & _).
  - split; [|reflexivity]. right. exists [x01; x02], [[x03; x04]].
    split; [reflexivity|]. vm_compute. split; reflexivity.
  - simpl. lia.
  - exists s'. split; [exact E|]. split; [|exact Hu].
    vm_compute in E. injection E as <-. reflexivity.
Defined.
